(** * prototype-js: the reactive core and the component builders of [lib.ts]

    A shallow embedding of [createSignal], [createEffect], [createComponent]
    (with its [parseEmmet]), [textComponent], [conditionalComponent] and
    [listComponent], over an explicit model of the JavaScript heap the
    library works on: the reactive cells, the function objects that are
    registered as effects, the DOM tree and the item objects of a list.

    The library is written in a state-and-exception monad [M]; the callbacks
    a caller passes in (effect bodies, producers, render functions) are
    programs over the public API, type [prog].  Calls of a function object
    go through [invoke], which is bounded by a fuel counter, since a writer
    re-runs effects that may write again. *)

From Stdlib Require Import ZArith Ascii String DecimalString Lia.
From stdpp Require Import base option list sets.

Set Warnings "-register-all".

Local Open Scope string_scope.

(** ** Strings: the few operations of [String.prototype] the builder uses *)

Definition is_digit (a : ascii) : bool :=
  let n := nat_of_ascii a in (48 <=? n)%nat && (n <=? 57)%nat.

Definition is_upper (a : ascii) : bool :=
  let n := nat_of_ascii a in (65 <=? n)%nat && (n <=? 90)%nat.

Definition is_lower (a : ascii) : bool :=
  let n := nat_of_ascii a in (97 <=? n)%nat && (n <=? 122)%nat.

(** The class [\w] of a regular expression without the unicode flag. *)
Definition is_word (a : ascii) : bool :=
  is_digit a || is_upper a || is_lower a || (nat_of_ascii a =? 95)%nat.

(** The class [[\w-]]. *)
Definition is_id_char (a : ascii) : bool :=
  is_word a || (nat_of_ascii a =? 45)%nat.

(** The class [[\w-.]]. *)
Definition is_class_char (a : ascii) : bool :=
  is_id_char a || (nat_of_ascii a =? 46)%nat.

(** ASCII whitespace, which separates the tokens of a class attribute. *)
Definition is_space (a : ascii) : bool :=
  let n := nat_of_ascii a in
  (n =? 32)%nat || (n =? 9)%nat || (n =? 10)%nat || (n =? 12)%nat || (n =? 13)%nat.

Definition is_empty (s : string) : bool :=
  match s with EmptyString => true | String _ _ => false end.

(** The longest prefix of [s] in the class [p], and the rest: what a greedy
    [p+] consumes. *)
Fixpoint span (p : ascii -> bool) (s : string) : string * string :=
  match s with
  | EmptyString => (EmptyString, EmptyString)
  | String a r =>
      if p a then let '(x, y) := span p r in (String a x, y)
      else (EmptyString, s)
  end.

(** [s.split(sep)] for a one-character separator: never empty. *)
Fixpoint split (sep : ascii) (s : string) : list string :=
  match s with
  | EmptyString => [EmptyString]
  | String a r =>
      if Ascii.eqb a sep then EmptyString :: split sep r
      else match split sep r with
           | h :: t => String a h :: t
           | [] => [String a EmptyString]
           end
  end.

(** [parts.join(sep)]. *)
Fixpoint join (sep : string) (parts : list string) : string :=
  match parts with
  | [] => EmptyString
  | [p] => p
  | p :: rest => p ++ sep ++ join sep rest
  end.

Definition to_lower_ascii (a : ascii) : ascii :=
  if is_upper a then ascii_of_nat (nat_of_ascii a + 32) else a.

Fixpoint to_lower (s : string) : string :=
  match s with
  | EmptyString => EmptyString
  | String a r => String (to_lower_ascii a) (to_lower r)
  end.

Fixpoint existsb_string (p : ascii -> bool) (s : string) : bool :=
  match s with
  | EmptyString => false
  | String a r => p a || existsb_string p r
  end.

(** Every character of [s] is in the class [p]. *)
Fixpoint forallb_string (p : ascii -> bool) (s : string) : bool :=
  match s with
  | EmptyString => true
  | String a r => p a && forallb_string p r
  end.

(** The characters of a name of XML, which is what [setAttribute] asks of
    an attribute name: a letter, [_] or [:] first, then also digits, [-]
    and [.].  A byte of a character outside ASCII counts as a letter, as
    nearly all of these characters do. *)
Definition is_name_start (a : ascii) : bool :=
  let n := nat_of_ascii a in
  is_upper a || is_lower a || (n =? 95)%nat || (n =? 58)%nat || (128 <=? n)%nat.

Definition is_name_char (a : ascii) : bool :=
  let n := nat_of_ascii a in
  is_name_start a || is_digit a || (n =? 45)%nat || (n =? 46)%nat.

Definition is_name (s : string) : bool :=
  match s with
  | EmptyString => false
  | String a r => is_name_start a && forallb_string is_name_char r
  end.

(** A string of ASCII characters. *)
Definition is_ascii (s : string) : bool :=
  forallb_string (fun a => (nat_of_ascii a <? 128)%nat) s.

(** A name written in ASCII: a letter, [_] or [:], then letters, digits,
    [_], [:], [-] and [.]. *)
Definition is_ascii_name (s : string) : bool := is_ascii s && is_name s.

Fixpoint mem_string (s : string) (l : list string) : bool :=
  match l with
  | [] => false
  | x :: r => String.eqb x s || mem_string s r
  end.

Fixpoint remove_string (s : string) (l : list string) : list string :=
  match l with
  | [] => []
  | x :: r => if String.eqb x s then remove_string s r else x :: remove_string s r
  end.

(** The ordered set of tokens of a class attribute: split on whitespace,
    empty tokens and repetitions dropped. *)
Fixpoint tokens_aux (fuel : nat) (s : string) (acc : list string) : list string :=
  match fuel with
  | O => acc
  | S fuel =>
      match s with
      | EmptyString => acc
      | String a r =>
          if is_space a then tokens_aux fuel r acc
          else
            let '(tok, rest) := span (fun c => negb (is_space c)) s in
            tokens_aux fuel rest (if mem_string tok acc then acc else acc ++ [tok])
      end
  end.

Definition tokens (s : string) : list string :=
  tokens_aux (S (String.length s)) s [].

(** ** Values *)

(** References into the heap: cells, function objects, DOM nodes, item
    objects and item records are numbered in the order of their creation. *)
Abbreviation cell_id := nat (only parsing).
Abbreviation fn_ref := nat (only parsing).
Abbreviation node_id := nat (only parsing).
Abbreviation obj_ref := nat (only parsing).
Abbreviation rec_ref := nat (only parsing).

(** The JavaScript values that cross the library's API.  Objects, DOM nodes
    and functions are references into the heap of the [state]. *)
Inductive value : Type :=
| VUndefined
| VNull
| VBool (b : bool)
| VNum (z : Z)
| VStr (s : string)
| VObj (r : obj_ref)
| VNode (n : node_id)
| VArr (l : list value).

(** [if (v)]. *)
Definition truthy (v : value) : bool :=
  match v with
  | VUndefined | VNull => false
  | VBool b => b
  | VNum z => negb (z =? 0)%Z
  | VStr s => negb (is_empty s)
  | VObj _ | VNode _ | VArr _ => true
  end.

Definition nullish (v : value) : bool :=
  match v with VUndefined | VNull => true | _ => false end.

(** [a === b]; two array values are never the same array here. *)
Definition strict_eq (a b : value) : bool :=
  match a, b with
  | VUndefined, VUndefined | VNull, VNull => true
  | VBool x, VBool y => Bool.eqb x y
  | VNum x, VNum y => (x =? y)%Z
  | VStr x, VStr y => String.eqb x y
  | VObj x, VObj y => (x =? y)%nat
  | VNode x, VNode y => (x =? y)%nat
  | _, _ => false
  end.

(** ** Numbers as strings

    A number of the library is an integer here.  Not every integer is a
    Number: the string of [z] is the string of the Number nearest to [z],
    which is [z] itself up to [2^53].  [Number.prototype.toString] prints
    the shortest decimal digits that read back as the same Number,
    followed by zeros, and switches to the exponent form from [1e21] on. *)

(** The decimal digits of an integer. *)
Definition decimal (z : Z) : string := NilZero.string_of_int (Z.to_int z).

(** The Number nearest to the natural number [a]: 53 bits are kept, and a
    tie goes to the even one. *)
Definition to_number (a : Z) : Z :=
  let b := (Z.log2 a + 1)%Z in
  if (b <=? 53)%Z then a
  else
    let sh := (b - 53)%Z in
    let q := Z.shiftr a sh in
    let r := (a - Z.shiftl q sh)%Z in
    let half := Z.shiftl 1 (sh - 1) in
    let q' := if (half <? r)%Z || ((r =? half)%Z && Z.odd q) then (q + 1)%Z else q in
    Z.shiftl q' sh.

Definition decimal_length (a : Z) : Z := Z.of_nat (String.length (decimal a)).

(** The integer with the fewest significant digits, [k] or more, that
    reads back as the Number [x] of [n] digits; the nearest one of them. *)
Fixpoint shortest_digits (fuel : nat) (k n x : Z) : Z :=
  match fuel with
  | O => x
  | S fuel =>
      let p := (10 ^ (n - k))%Z in
      let lo := (x / p * p)%Z in
      let hi := (lo + p)%Z in
      let ok_lo := (to_number lo =? x)%Z in
      let ok_hi := (to_number hi =? x)%Z in
      if ok_lo && ok_hi then (if (x - lo <=? hi - x)%Z then lo else hi)
      else if ok_lo then lo
      else if ok_hi then hi
      else shortest_digits fuel (k + 1) n x
  end.

Fixpoint strip_zeros (fuel : nat) (c : Z) : Z :=
  match fuel with
  | O => c
  | S fuel => if (c mod 10 =? 0)%Z then strip_zeros fuel (c / 10) else c
  end.

(** [String(z)] for a number. *)
Definition string_of_Z (z : Z) : string :=
  let sign := if (z <? 0)%Z then "-" else "" in
  let x := to_number (Z.abs z) in
  if (2 ^ 1024 <=? x)%Z then sign ++ "Infinity"
  else
    let c := shortest_digits 17 1 (decimal_length x) x in
    if (c <? 10 ^ 21)%Z then sign ++ decimal c
    else
      let e := (decimal_length c - 1)%Z in
      match decimal (strip_zeros (Z.to_nat e) c) with
      | String d EmptyString => sign ++ String d ("e+" ++ decimal e)
      | String d rest => sign ++ String d ("." ++ rest ++ "e+" ++ decimal e)
      | EmptyString => EmptyString
      end.

(** [String(v)] and [v.toString()].  An array prints its elements with
    commas between them, [null] and [undefined] among them as nothing.  The
    library is typed to ask for the string of a string, a number, [null] or
    [undefined] only; of a node the host prints the name of its interface,
    which this model of the DOM does not have: it prints [Node] for all. *)
Fixpoint toString (v : value) : string :=
  match v with
  | VUndefined => "undefined"
  | VNull => "null"
  | VBool true => "true"
  | VBool false => "false"
  | VNum z => string_of_Z z
  | VStr s => s
  | VObj _ => "[object Object]"
  | VNode _ => "[object Node]"
  | VArr l =>
      (fix join_values (l : list value) : string :=
         match l with
         | [] => EmptyString
         | x :: r =>
             let s := if nullish x then EmptyString else toString x in
             match r with
             | [] => s
             | _ :: _ => s ++ "," ++ join_values r
             end
         end) l
  end.

(** The own properties of an item object, in order. *)
Definition content := list (string * value).

(** ** The options of [createComponent], over the type [P] of callbacks *)

(** [string | (() => string | undefined | null)]. *)
Inductive class_entry (P : Type) : Type :=
| ClassStr (s : string)
| ClassFn (f : P).

(** [classes]: one entry, or an array of entries. *)
Inductive classes_opt (P : Type) : Type :=
| ClassesOne (e : class_entry P)
| ClassesArr (l : list (class_entry P)).

(** [string | number | (() => string | number | undefined | null)]. *)
Inductive attr_val (P : Type) : Type :=
| AttrStr (s : string)
| AttrNum (z : Z)
| AttrFn (f : P).

(** [ComponentChild]: a primitive that becomes a text node, or a node. *)
Inductive child : Type :=
| ChildStr (s : string)
| ChildNum (z : Z)
| ChildNode (n : node_id).

(** [children]: one child, an array, or a producer called once. *)
Inductive children_opt (P : Type) : Type :=
| ChildrenOne (c : child)
| ChildrenArr (l : list child)
| ChildrenFn (f : P).

Arguments ClassStr {P} s.
Arguments ClassFn {P} f.
Arguments ClassesOne {P} e.
Arguments ClassesArr {P} l.
Arguments AttrStr {P} s.
Arguments AttrNum {P} z.
Arguments AttrFn {P} f.
Arguments ChildrenOne {P} c.
Arguments ChildrenArr {P} l.
Arguments ChildrenFn {P} f.

(** [ComponentOptions].  [events] and [attributes] are objects, read through
    [Object.entries], so they are kept as lists of entries in key order; an
    event handler takes the event. *)
Record ComponentOptions (P : Type) : Type := mkOptions {
  tagName : string;
  children : option (children_opt P);
  classes : option (classes_opt P);
  events : option (list (string * (value -> P)));
  attributes : option (list (string * attr_val P));
}.

Arguments mkOptions {P} tagName children classes events attributes.
Arguments tagName {P} c.
Arguments children {P} c.
Arguments classes {P} c.
Arguments events {P} c.
Arguments attributes {P} c.

Inductive strategy : Type := Display | Remove.

(** ** Callbacks: programs over the public API

    A callback is a tree of API calls, each with the continuation that
    receives its result; [Ret v] returns [v].  [Lambda body k] evaluates a
    function literal [() => body] to a new function object; [SetV] is the
    writer called with a value and [SetF] the writer called with a function;
    [CreateSignal] and [CreateSignalF] are [createSignal] called with a value
    and with a producer. *)
Inductive prog : Type :=
| Ret (v : value)
| Get (c : cell_id) (k : value -> prog)
| SetV (c : cell_id) (v : value) (k : prog)
| SetF (c : cell_id) (u : value -> prog) (k : prog)
| CreateSignal (init : value) (k : cell_id -> prog)
| CreateSignalF (init : prog) (k : cell_id -> prog)
| Lambda (body : prog) (k : fn_ref -> prog)
| CreateEffect (fn : fn_ref) (k : prog)
| NewObject (c : content) (k : obj_ref -> prog)
| ReadObject (r : obj_ref) (k : content -> prog)
| WriteObject (r : obj_ref) (c : content) (k : prog)
| AppendChild (parent child : node_id) (k : prog)
| CreateComponent (o : ComponentOptions prog) (k : node_id -> prog)
| TextComponent (text : prog) (k : node_id -> prog)
| ConditionalComponent (o : ComponentOptions prog) (condition : prog)
    (s : strategy) (k : node_id -> prog)
| ListComponent (items : prog) (renderItem : cell_id -> nat -> prog)
    (k : list node_id -> prog).

Definition options := ComponentOptions prog.

(** ** The heap *)

(** A reactive cell: the variables [value] and [subscribers] that the
    closures [get] and [set] of one [createSignal] call share.  The set
    keeps insertion order, as a JavaScript [Set] does. *)
Record signal : Type := mkSignal {
  sig_value : value;
  subscribers : list fn_ref;
}.

Inductive node_kind : Type :=
| Element (localName : string)
| Text
| Comment.

(** A DOM node. *)
Record node : Type := mkNode {
  kind : node_kind;
  parentNode : option node_id;
  childNodes : list node_id;
  elem_id : string;
  classList : list string;
  attrs : list (string * string);
  listeners : list (string * (value -> prog));
  data : string;
  style_display : string;
}.

(** The record [listComponent] keeps per item in [itemMap]. *)
Record item_record : Type := mkRecord {
  element : node_id;
  id : string;
  setter : cell_id;
  position : nat;
}.

(** The variables of the remove strategy of [conditionalComponent]. *)
Record cond_vars : Type := mkCond {
  elm : option node_id;
  placeholder : option node_id;
  cond_parent : option node_id;
}.

(** The variables of [listComponent]: [itemMap] in insertion order (the map
    holds references to the records), [parentNode] and [referenceElm]. *)
Record list_vars : Type := mkList {
  itemMap : list (obj_ref * rec_ref);
  list_parent : option node_id;
  referenceElm : option node_id;
}.

(** A function object: the code of the function literal it comes from, with
    the variables of the enclosing call that it captures. *)
Inductive closure : Type :=
| UserFn (body : prog)
| ClassEffect (element : node_id) (str : prog) (referenceClass : value)
| AttrEffect (element : node_id) (attr : string) (attr_value : prog)
| TextEffect (t : node_id) (text : prog)
| DisplayEffect (component : node_id) (condition : prog)
| RemoveEffect (o : options) (condition : prog) (vars : cond_vars)
| ListEffect (items : prog) (renderItem : cell_id -> nat -> prog) (vars : list_vars).

(** What the library did, in order of time, newest first.  The log is
    only written, never read by the library: it is there to state how often
    and under which active effect a function ran, which value a writer
    stored, and when a reconciliation pass of a list started. *)
Inductive event : Type :=
| EvEffect (fn : fn_ref)
| EvRead (c : cell_id) (active : option fn_ref)
| EvWrite (c : cell_id) (v : value)
| EvRun (c : cell_id) (fn : fn_ref)
| EvPass (fn : fn_ref).

Record state : Type := mkState {
  activeEffect : option fn_ref;
  signals : list signal;
  functions : list closure;
  nodes : list node;
  heap : list content;
  records : list item_record;
  trace : list event;
}.

Definition empty_state : state := mkState None [] [] [] [] [] [].

Definition set_activeEffect (a : option fn_ref) (st : state) : state :=
  mkState a (signals st) (functions st) (nodes st) (heap st) (records st) (trace st).
Definition set_signals (s : list signal) (st : state) : state :=
  mkState (activeEffect st) s (functions st) (nodes st) (heap st) (records st) (trace st).
Definition set_functions (f : list closure) (st : state) : state :=
  mkState (activeEffect st) (signals st) f (nodes st) (heap st) (records st) (trace st).
Definition set_nodes (n : list node) (st : state) : state :=
  mkState (activeEffect st) (signals st) (functions st) n (heap st) (records st) (trace st).
Definition set_heap (h : list content) (st : state) : state :=
  mkState (activeEffect st) (signals st) (functions st) (nodes st) h (records st) (trace st).
Definition set_records (r : list item_record) (st : state) : state :=
  mkState (activeEffect st) (signals st) (functions st) (nodes st) (heap st) r (trace st).
Definition set_trace (t : list event) (st : state) : state :=
  mkState (activeEffect st) (signals st) (functions st) (nodes st) (heap st) (records st) t.

(** ** The monad: state, exceptions, and running out of fuel *)

Inductive error : Type :=
| Error (msg : string)
| TypeError (msg : string)
| DOMException (name : string).

Inductive outcome (A : Type) : Type :=
| Ok (a : A) (st : state)
| Err (e : error) (st : state)
| OutOfFuel.

Arguments Ok {A} a st.
Arguments Err {A} e st.
Arguments OutOfFuel {A}.

Definition M (A : Type) : Type := state -> outcome A.

#[global] Instance M_ret : MRet M := fun A a st => Ok a st.

#[global] Instance M_bind : MBind M := fun A B f m st =>
  match m st with
  | Ok a st' => f a st'
  | Err e st' => Err e st'
  | OutOfFuel => OutOfFuel
  end.

Definition throw {A} (e : error) : M A := fun st => Err e st.
Definition gets {A} (f : state -> A) : M A := fun st => Ok (f st) st.
Definition modify (f : state -> state) : M unit := fun st => Ok tt (f st).
Definition out_of_fuel {A} : M A := fun _ => OutOfFuel.

Definition when (b : bool) (m : M unit) : M unit := if b then m else mret tt.

(** [for (const x of l) f(x)]. *)
Fixpoint forEach {A} (l : list A) (f : A -> M unit) : M unit :=
  match l with
  | [] => mret tt
  | x :: r => f x ;; forEach r f
  end.

(** [l.forEach((x, i) => f(x, i))], from index [i]. *)
Fixpoint forEach_indexed {A} (i : nat) (l : list A) (f : A -> nat -> M unit) : M unit :=
  match l with
  | [] => mret tt
  | x :: r => f x i ;; forEach_indexed (S i) r f
  end.

Definition log (e : event) : M unit :=
  modify (fun st => set_trace (e :: trace st) st).

(** ** The DOM

    The part of the DOM Standard the library calls: node creation, the
    tree mutations [appendChild], [insertBefore], [removeChild] and
    [replaceChild] with the exceptions they raise, [contains], the token
    list [classList], attributes, listeners. *)

Definition with_parent (p : option node_id) (n : node) : node :=
  mkNode (kind n) p (childNodes n) (elem_id n) (classList n) (attrs n)
    (listeners n) (data n) (style_display n).
Definition with_children (c : list node_id) (n : node) : node :=
  mkNode (kind n) (parentNode n) c (elem_id n) (classList n) (attrs n)
    (listeners n) (data n) (style_display n).
Definition with_id (i : string) (n : node) : node :=
  mkNode (kind n) (parentNode n) (childNodes n) i (classList n) (attrs n)
    (listeners n) (data n) (style_display n).
Definition with_classList (c : list string) (n : node) : node :=
  mkNode (kind n) (parentNode n) (childNodes n) (elem_id n) c (attrs n)
    (listeners n) (data n) (style_display n).
Definition with_attrs (a : list (string * string)) (n : node) : node :=
  mkNode (kind n) (parentNode n) (childNodes n) (elem_id n) (classList n) a
    (listeners n) (data n) (style_display n).
Definition with_listeners (l : list (string * (value -> prog))) (n : node) : node :=
  mkNode (kind n) (parentNode n) (childNodes n) (elem_id n) (classList n) (attrs n)
    l (data n) (style_display n).
Definition with_data (d : string) (n : node) : node :=
  mkNode (kind n) (parentNode n) (childNodes n) (elem_id n) (classList n) (attrs n)
    (listeners n) d (style_display n).
Definition with_display (d : string) (n : node) : node :=
  mkNode (kind n) (parentNode n) (childNodes n) (elem_id n) (classList n) (attrs n)
    (listeners n) (data n) d.

Definition new_node (k : node_kind) (d : string) : node :=
  mkNode k None [] EmptyString [] [] [] d EmptyString.

Definition is_element (n : node) : bool :=
  match kind n with Element _ => true | _ => false end.

(** Reading a property of a reference that is no node of the heap. *)
Definition get_node (n : node_id) : M node := fun st =>
  match nodes st !! n with
  | Some nd => Ok nd st
  | None => Err (TypeError "not a node") st
  end.

Definition put_node (n : node_id) (nd : node) : M unit :=
  modify (fun st => set_nodes (<[n := nd]> (nodes st)) st).

Definition alloc_node (nd : node) : M node_id := fun st =>
  Ok (length (nodes st)) (set_nodes (nodes st ++ [nd]) st).

Definition node_parent (n : node_id) : M (option node_id) :=
  nd ← get_node n; mret (parentNode nd).

(** A valid element name does not start with a digit; an HTML document
    lower-cases the name. *)
Definition document_createElement (tag : string) : M node_id :=
  match tag with
  | String a _ =>
      if is_digit a then throw (DOMException "InvalidCharacterError")
      else alloc_node (new_node (Element (to_lower tag)) EmptyString)
  | EmptyString => throw (DOMException "InvalidCharacterError")
  end.

Definition document_createTextNode (d : string) : M node_id :=
  alloc_node (new_node Text d).

Definition document_createComment (d : string) : M node_id :=
  alloc_node (new_node Comment d).

Fixpoint remove_nat (x : nat) (l : list nat) : list nat :=
  match l with
  | [] => []
  | y :: r => if (y =? x)%nat then remove_nat x r else y :: remove_nat x r
  end.

Fixpoint mem_nat (x : nat) (l : list nat) : bool :=
  match l with
  | [] => false
  | y :: r => (y =? x)%nat || mem_nat x r
  end.

(** [l] with [x] put before the first [ref]; at the end without one. *)
Fixpoint insert_before (x ref : nat) (l : list nat) : list nat :=
  match l with
  | [] => [x]
  | y :: r => if (y =? ref)%nat then x :: y :: r else y :: insert_before x ref r
  end.

Fixpoint next_sibling_in (x : nat) (l : list nat) : option nat :=
  match l with
  | [] => None
  | y :: r => if (y =? x)%nat then head r else next_sibling_in x r
  end.

(** [anc] is [n] or an ancestor of [n]: the parent chain of [n], walked for
    at most [fuel] steps. *)
Fixpoint inclusive_ancestor (fuel : nat) (ns : list node) (anc n : node_id) : bool :=
  if (anc =? n)%nat then true
  else match fuel with
       | O => false
       | S fuel =>
           match ns !! n with
           | Some nd =>
               match parentNode nd with
               | Some p => inclusive_ancestor fuel ns anc p
               | None => false
               end
           | None => false
           end
       end.

(** [a.contains(b)]. *)
Definition contains (a b : node_id) : M bool :=
  gets (fun st => inclusive_ancestor (length (nodes st)) (nodes st) a b).

(** Unlink [c] from its parent, if it has one. *)
Definition detach (c : node_id) : M unit :=
  nd ← get_node c;
  match parentNode nd with
  | None => mret tt
  | Some p =>
      pn ← get_node p;
      put_node p (with_children (remove_nat c (childNodes pn)) pn);;
      put_node c (with_parent None nd)
  end.

(** The checks every insertion makes first: the parent can have children,
    and the node is not the parent or one of its ancestors. *)
Definition ensure_pre_insert (parent n : node_id) : M unit :=
  pn ← get_node parent;
  _ ← get_node n;
  if negb (is_element pn) then throw (DOMException "HierarchyRequestError")
  else
    cyc ← contains n parent;
    if cyc : bool then throw (DOMException "HierarchyRequestError") else mret tt.

(** Link the detached node [n] under [parent], before [ref] or last. *)
Definition link (parent n : node_id) (ref : option node_id) : M unit :=
  pn ← get_node parent;
  put_node parent
    (with_children
       (match ref with
        | Some r => insert_before n r (childNodes pn)
        | None => childNodes pn ++ [n]
        end) pn);;
  nd ← get_node n;
  put_node n (with_parent (Some parent) nd).

Definition appendChild (parent n : node_id) : M unit :=
  ensure_pre_insert parent n;;
  detach n;;
  link parent n None.

Definition insertBefore (parent n ref : node_id) : M unit :=
  ensure_pre_insert parent n;;
  rn ← get_node ref;
  if negb (bool_decide (parentNode rn = Some parent))
  then throw (DOMException "NotFoundError")
  else
    pn ← get_node parent;
    let ref' := if (ref =? n)%nat then next_sibling_in n (childNodes pn) else Some ref in
    detach n;;
    link parent n ref'.

Definition removeChild (parent c : node_id) : M unit :=
  _ ← get_node parent;
  cn ← get_node c;
  if negb (bool_decide (parentNode cn = Some parent))
  then throw (DOMException "NotFoundError")
  else detach c.

Definition replaceChild (parent n old : node_id) : M unit :=
  ensure_pre_insert parent n;;
  on ← get_node old;
  if negb (bool_decide (parentNode on = Some parent))
  then throw (DOMException "NotFoundError")
  else
    pn ← get_node parent;
    let after_old := next_sibling_in old (childNodes pn) in
    let ref := if bool_decide (after_old = Some n)
               then next_sibling_in n (childNodes pn) else after_old in
    detach old;;
    detach n;;
    link parent n ref.

(** [parent.childNodes[i]]. *)
Definition child_at (parent : node_id) (i : nat) : M (option node_id) :=
  pn ← get_node parent; mret (childNodes pn !! i).

(** [classList] exists on elements only. *)
Definition get_element (e : node_id) : M node :=
  nd ← get_node e;
  if is_element nd then mret nd else throw (TypeError "not an element").

(** [add] and [remove] refuse the empty token and a token with whitespace. *)
Definition check_token (tok : string) : M unit :=
  if is_empty tok then throw (DOMException "SyntaxError")
  else if existsb_string is_space tok then throw (DOMException "InvalidCharacterError")
  else mret tt.

Definition classList_contains (e : node_id) (tok : string) : M bool :=
  nd ← get_element e; mret (mem_string tok (classList nd)).

Definition classList_add (e : node_id) (tok : string) : M unit :=
  nd ← get_element e;
  check_token tok;;
  if mem_string tok (classList nd) then mret tt
  else put_node e (with_classList (classList nd ++ [tok]) nd).

Definition classList_remove (e : node_id) (tok : string) : M unit :=
  nd ← get_element e;
  check_token tok;;
  put_node e (with_classList (remove_string tok (classList nd)) nd).

(** [e.className = s]. *)
Definition set_className (e : node_id) (s : string) : M unit :=
  nd ← get_element e; put_node e (with_classList (tokens s) nd).

(** [e.id = s]. *)
Definition set_id (e : node_id) (s : string) : M unit :=
  nd ← get_element e; put_node e (with_id s nd).

Fixpoint assoc_set {V} (k : string) (v : V) (l : list (string * V)) : list (string * V) :=
  match l with
  | [] => [(k, v)]
  | (k', v') :: r => if String.eqb k' k then (k, v) :: r else (k', v') :: assoc_set k v r
  end.

Fixpoint assoc_remove {V} (k : string) (l : list (string * V)) : list (string * V) :=
  match l with
  | [] => []
  | (k', v') :: r => if String.eqb k' k then r else (k', v') :: assoc_remove k r
  end.

(** [setAttribute] refuses a name that is no name of XML, and lower-cases
    the name; the attributes [id] and [class] are the ones the properties
    [id] and [classList] reflect. *)
Definition setAttribute (e : node_id) (name v : string) : M unit :=
  nd ← get_element e;
  if negb (is_name name) then throw (DOMException "InvalidCharacterError")
  else
  let name := to_lower name in
  if String.eqb name "id" then put_node e (with_id v nd)
  else if String.eqb name "class" then put_node e (with_classList (tokens v) nd)
  else put_node e (with_attrs (assoc_set name v (attrs nd)) nd).

Definition removeAttribute (e : node_id) (name : string) : M unit :=
  nd ← get_element e;
  let name := to_lower name in
  if String.eqb name "id" then put_node e (with_id EmptyString nd)
  else if String.eqb name "class" then put_node e (with_classList [] nd)
  else put_node e (with_attrs (assoc_remove name (attrs nd)) nd).

Definition addEventListener (e : node_id) (ev : string) (h : value -> prog) : M unit :=
  nd ← get_node e; put_node e (with_listeners (listeners nd ++ [(ev, h)]) nd).

(** [t.textContent = s] on a text or comment node. *)
Definition set_textContent (t : node_id) (s : string) : M unit :=
  nd ← get_node t; put_node t (with_data s nd).

(** [e.style.display = s]. *)
Definition set_style_display (e : node_id) (s : string) : M unit :=
  nd ← get_element e; put_node e (with_display s nd).

(** ** Cells, function objects, item objects and records in the heap *)

Definition get_signal (c : cell_id) : M signal := fun st =>
  match signals st !! c with
  | Some s => Ok s st
  | None => Err (TypeError "not a cell") st
  end.

Definition put_signal (c : cell_id) (s : signal) : M unit :=
  modify (fun st => set_signals (<[c := s]> (signals st)) st).

Definition alloc_signal (s : signal) : M cell_id := fun st =>
  Ok (length (signals st)) (set_signals (signals st ++ [s]) st).

Definition get_function (fn : fn_ref) : M closure := fun st =>
  match functions st !! fn with
  | Some cl => Ok cl st
  | None => Err (TypeError "not a function") st
  end.

Definition put_function (fn : fn_ref) (cl : closure) : M unit :=
  modify (fun st => set_functions (<[fn := cl]> (functions st)) st).

(** Evaluating a function literal. *)
Definition new_function (cl : closure) : M fn_ref := fun st =>
  Ok (length (functions st)) (set_functions (functions st ++ [cl]) st).

Definition get_object (r : obj_ref) : M content := fun st =>
  match heap st !! r with
  | Some c => Ok c st
  | None => Err (TypeError "not an object") st
  end.

Definition put_object (r : obj_ref) (c : content) : M unit :=
  modify (fun st => set_heap (<[r := c]> (heap st)) st).

Definition alloc_object (c : content) : M obj_ref := fun st =>
  Ok (length (heap st)) (set_heap (heap st ++ [c]) st).

Definition get_record (r : rec_ref) : M item_record := fun st =>
  match records st !! r with
  | Some x => Ok x st
  | None => Err (TypeError "not a record") st
  end.

Definition put_record (r : rec_ref) (x : item_record) : M unit :=
  modify (fun st => set_records (<[r := x]> (records st)) st).

Definition alloc_record (x : item_record) : M rec_ref := fun st =>
  Ok (length (records st)) (set_records (records st ++ [x]) st).

(** The captured variables of a closure, read and assigned where the code
    reads and assigns them. *)
Definition get_referenceClass (self : fn_ref) : M value :=
  cl ← get_function self;
  match cl with
  | ClassEffect _ _ r => mret r
  | _ => throw (TypeError "not a class effect")
  end.

Definition set_referenceClass (self : fn_ref) (v : value) : M unit :=
  cl ← get_function self;
  match cl with
  | ClassEffect e s _ => put_function self (ClassEffect e s v)
  | _ => throw (TypeError "not a class effect")
  end.

Definition get_cond (self : fn_ref) : M cond_vars :=
  cl ← get_function self;
  match cl with
  | RemoveEffect _ _ v => mret v
  | _ => throw (TypeError "not a conditional effect")
  end.

Definition put_cond (self : fn_ref) (f : cond_vars -> cond_vars) : M unit :=
  cl ← get_function self;
  match cl with
  | RemoveEffect o c v => put_function self (RemoveEffect o c (f v))
  | _ => throw (TypeError "not a conditional effect")
  end.

Definition get_list (self : fn_ref) : M list_vars :=
  cl ← get_function self;
  match cl with
  | ListEffect _ _ v => mret v
  | _ => throw (TypeError "not a list effect")
  end.

Definition put_list (self : fn_ref) (f : list_vars -> list_vars) : M unit :=
  cl ← get_function self;
  match cl with
  | ListEffect i r v => put_function self (ListEffect i r (f v))
  | _ => throw (TypeError "not a list effect")
  end.

Definition set_elm (e : option node_id) (v : cond_vars) : cond_vars :=
  mkCond e (placeholder v) (cond_parent v).
Definition set_placeholder (p : option node_id) (v : cond_vars) : cond_vars :=
  mkCond (elm v) p (cond_parent v).
Definition set_cond_parent (p : option node_id) (v : cond_vars) : cond_vars :=
  mkCond (elm v) (placeholder v) p.

Definition set_itemMap (m : list (obj_ref * rec_ref)) (v : list_vars) : list_vars :=
  mkList m (list_parent v) (referenceElm v).
Definition set_list_parent (p : option node_id) (v : list_vars) : list_vars :=
  mkList (itemMap v) p (referenceElm v).
Definition set_referenceElm (r : option node_id) (v : list_vars) : list_vars :=
  mkList (itemMap v) (list_parent v) r.

(** [Map.prototype.get], [set] and [delete] on a map in insertion order. *)
Fixpoint map_get {V} (k : nat) (m : list (nat * V)) : option V :=
  match m with
  | [] => None
  | (k', v) :: r => if (k' =? k)%nat then Some v else map_get k r
  end.

Fixpoint map_set {V} (k : nat) (v : V) (m : list (nat * V)) : list (nat * V) :=
  match m with
  | [] => [(k, v)]
  | (k', v') :: r => if (k' =? k)%nat then (k, v) :: r else (k', v') :: map_set k v r
  end.

Fixpoint map_delete {V} (k : nat) (m : list (nat * V)) : list (nat * V) :=
  match m with
  | [] => []
  | (k', v') :: r => if (k' =? k)%nat then r else (k', v') :: map_delete k r
  end.

(** [subscribers.add(fn)]. *)
Definition subscribers_add (c : cell_id) (fn : fn_ref) : M unit :=
  s ← get_signal c;
  if mem_nat fn (subscribers s) then mret tt
  else put_signal c (mkSignal (sig_value s) (subscribers s ++ [fn])).

(** A value of type [T[]] with [T extends object]: the items of a list. *)
Fixpoint as_items (l : list value) : option (list obj_ref) :=
  match l with
  | [] => Some []
  | VObj r :: rest => option_map (cons r) (as_items rest)
  | _ :: _ => None
  end.

Definition as_child (v : value) : option child :=
  match v with
  | VStr s => Some (ChildStr s)
  | VNum z => Some (ChildNum z)
  | VNode n => Some (ChildNode n)
  | _ => None
  end.

Definition is_Some_bool {A} (o : option A) : bool :=
  match o with Some _ => true | None => false end.

(** What [textContent] holds after [v] was assigned to it: the property
    is a nullable string, so [null] and [undefined] give the empty string. *)
Definition dom_string (v : value) : string :=
  if nullish v then EmptyString else toString v.

(** What [part.match(/(\w+)?(?:#([\w-]+))?(?:\.([\w-.]+))?/)] captures.
    Every group is optional, so the match is at index 0 and each greedy
    group takes the longest run it can; a separator with no run after it
    leaves its group undefined. *)
Definition regex_match (part : string) : option string * option string * option string :=
  let '(w, r1) := span is_word part in
  let tag := if is_empty w then None else Some w in
  let '(id, r2) :=
    match r1 with
    | String "#" r =>
        let '(x, y) := span is_id_char r in
        if is_empty x then (None, r1) else (Some x, y)
    | _ => (None, r1)
    end in
  let cls :=
    match r2 with
    | String "." r =>
        let '(x, _) := span is_class_char r in
        if is_empty x then None else Some x
    | _ => None
    end in
  (tag, id, cls).

(** ** The library *)

Section Host.

(** [JSON.stringify] on item objects, a function of the host. *)
Variable JSON_stringify : content -> string.

Section Library.

(** The bound on the iterations of one fan-out, how a callback is run and
    how a function object is called: [exec] and [invoke] below tie the knot. *)
Variable fuel : nat.
Variable run : prog -> M value.
Variable call : fn_ref -> M unit.

(** [createEffect(fn)]. *)
Definition createEffect (fn : fn_ref) : M unit :=
  log (EvEffect fn);;
  modify (set_activeEffect (Some fn));;
  call fn;;
  modify (set_activeEffect None).

(** The reader [get] of the cell [c]. *)
Definition get (c : cell_id) : M value :=
  a ← gets activeEffect;
  log (EvRead c a);;
  match a with
  | Some fn => subscribers_add c fn
  | None => mret tt
  end;;
  s ← get_signal c;
  mret (sig_value s).

(** [subscribers.forEach(fn => fn())] from position [i]: a [Set] is
    iterated in insertion order, and a function added while the iteration
    runs is visited too, so each step reads the set again. *)
Fixpoint forEach_subscribers (bound : nat) (c : cell_id) (i : nat) : M unit :=
  s ← get_signal c;
  match subscribers s !! i with
  | None => mret tt
  | Some fn =>
      match bound with
      | O => out_of_fuel
      | S bound =>
          log (EvRun c fn);;
          call fn;;
          forEach_subscribers bound c (S i)
      end
  end.

(** The writer [set] of the cell [c], called with a value ([inl]) or with a
    function of the previous value ([inr]). *)
Definition set (c : cell_id) (newValue : value + (value -> prog)) : M unit :=
  v ← match newValue with
      | inr u => s ← get_signal c; run (u (sig_value s))
      | inl v => mret v
      end;
  s ← get_signal c;
  put_signal c (mkSignal v (subscribers s));;
  log (EvWrite c v);;
  forEach_subscribers fuel c 0.

(** [createSignal(initialValue)], with a value ([inl]) or a producer
    ([inr]); the pair [[get, set]] it returns is the cell. *)
Definition createSignal (initialValue : value + prog) : M cell_id :=
  v ← match initialValue with
      | inr f => run f
      | inl v => mret v
      end;
  alloc_signal (mkSignal v []).

(** The effect of [textComponent]. *)
Definition textEffect (t : node_id) (text : prog) : M unit :=
  v ← run text;
  set_textContent t (dom_string v).

Definition textComponent (text : prog) : M node_id :=
  t ← document_createTextNode EmptyString;
  fn ← new_function (TextEffect t text);
  createEffect fn;;
  mret t.

(** The loop of [parseEmmet] over the parts of the tag path. *)
Fixpoint parseEmmet_loop (tagParts : list string)
    (rootElement currentElement : option node_id)
    : M (option node_id * option node_id) :=
  match tagParts with
  | [] => mret (rootElement, currentElement)
  | part :: rest =>
      let '(tag, id, classes) := regex_match part in
      let tag := default "div" tag in
      let id := default EmptyString id in
      let classes := default EmptyString classes in
      element ← document_createElement tag;
      when (negb (is_empty id)) (set_id element id);;
      when (negb (is_empty classes))
        (set_className element (join " " (split "." classes)));;
      rootElement' ←
        match rootElement with
        | None => mret (Some element)
        | Some r =>
            match currentElement with
            | Some cur => appendChild cur element
            | None => mret tt
            end;;
            mret (Some r)
        end;
      parseEmmet_loop rest rootElement' (Some element)
  end.

Definition parseEmmet (input : string) : M (node_id * node_id) :=
  r ← parseEmmet_loop (split ">" input) None None;
  match r with
  | (Some rootElement, Some currentElement) => mret (rootElement, currentElement)
  | _ => throw (TypeError "no element")
  end.

(** The effect of a class given as a function. *)
Definition classEffect (self : fn_ref) (element : node_id) (str : prog) : M unit :=
  strClass ← run str;
  if negb (nullish strClass) then
    has ← classList_contains element (toString strClass);
    when (negb has) (classList_add element (toString strClass));;
    referenceClass ← get_referenceClass self;
    when (truthy referenceClass && negb (strict_eq strClass referenceClass))
      (classList_remove element (toString referenceClass));;
    set_referenceClass self strClass
  else
    referenceClass ← get_referenceClass self;
    when (truthy referenceClass)
      (classList_remove element (toString referenceClass)).

Definition addClass (element : node_id) (str : class_entry prog) : M unit :=
  match str with
  | ClassFn f =>
      fn ← new_function (ClassEffect element f VUndefined);
      createEffect fn
  | ClassStr s => classList_add element s
  end.

(** The effect of an attribute given as a function. *)
Definition attrEffect (element : node_id) (attr : string) (value_fn : prog) : M unit :=
  val ← run value_fn;
  if negb (nullish val) then setAttribute element attr (toString val)
  else removeAttribute element attr.

Definition addAttribute (element : node_id) (entry : string * attr_val prog) : M unit :=
  let '(attr, v) := entry in
  match v with
  | AttrFn f =>
      fn ← new_function (AttrEffect element attr f);
      createEffect fn
  | AttrStr s => setAttribute element attr s
  | AttrNum z => setAttribute element attr (string_of_Z z)
  end.

Definition addChild (element : node_id) (c : child) : M unit :=
  match c with
  | ChildStr s => t ← document_createTextNode s; appendChild element t
  | ChildNum z => t ← document_createTextNode (string_of_Z z); appendChild element t
  | ChildNode n => appendChild element n
  end.

(** [appendChild] of a value that is no node. *)
Definition addChild_value (element : node_id) (v : value) : M unit :=
  match as_child v with
  | Some c => addChild element c
  | None => throw (TypeError "not a node")
  end.

(** [if (classes)] and [if (children)]: the empty string and [0] are falsy. *)
Definition classes_truthy (c : classes_opt prog) : bool :=
  match c with
  | ClassesOne (ClassStr s) => negb (is_empty s)
  | _ => true
  end.

Definition children_truthy (c : children_opt prog) : bool :=
  match c with
  | ChildrenOne (ChildStr s) => negb (is_empty s)
  | ChildrenOne (ChildNum z) => negb (z =? 0)%Z
  | _ => true
  end.

(** [createComponent(options)]. *)
Definition createComponent (o : options) : M node_id :=
  '(root, element) ← parseEmmet (tagName o);
  match classes o with
  | Some cs =>
      if classes_truthy cs then
        match cs with
        | ClassesArr l => forEach l (addClass element)
        | ClassesOne e => addClass element e
        end
      else mret tt
  | None => mret tt
  end;;
  match events o with
  | Some evs => forEach evs (fun '(event, handler) => addEventListener element event handler)
  | None => mret tt
  end;;
  match attributes o with
  | Some ats => forEach ats (addAttribute element)
  | None => mret tt
  end;;
  match children o with
  | Some ch =>
      if children_truthy ch then
        match ch with
        | ChildrenFn f =>
            childElement ← run f;
            match childElement with
            | VArr l => forEach l (addChild_value element)
            | v => addChild_value element v
            end
        | ChildrenArr l => forEach l (addChild element)
        | ChildrenOne c => addChild element c
        end
      else mret tt
  | None => mret tt
  end;;
  mret root.

(** The effect of the display strategy. *)
Definition displayEffect (component : node_id) (condition : prog) : M unit :=
  c ← run condition;
  set_style_display component (if truthy c then EmptyString else "none").

(** The first block of the effect of the remove strategy, "first let's get
    the parent node here": when [parentNode] is not set, it becomes the
    parent of [elm], or else of [placeholder], if one of them has a parent. *)
Definition cond_resolve_parent (self : fn_ref) : M unit :=
  v ← get_cond self;
  when (negb (is_Some_bool (cond_parent v)))
    (ep ← match elm v with
          | Some e => node_parent e
          | None => mret None
          end;
     match ep with
     | Some p => put_cond self (set_cond_parent (Some p))
     | None =>
         pp ← match placeholder v with
              | Some ph => node_parent ph
              | None => mret None
              end;
         match pp with
         | Some p => put_cond self (set_cond_parent (Some p))
         | None => mret tt
         end
     end).

(** The effect of the remove strategy.  The branch taken when no parent is
    known ends with [return]; the test before [throw] comes after it. *)
Definition removeEffect (self : fn_ref) (o : options) (condition : prog) : M unit :=
  cond_resolve_parent self;;
  v ← get_cond self;
  if negb (is_Some_bool (cond_parent v)) then
    c ← run condition;
    if truthy c then
      e ← createComponent o;
      put_cond self (set_elm (Some e))
    else
      ph ← document_createComment "hidden";
      put_cond self (set_placeholder (Some ph))
  else if negb (is_Some_bool (cond_parent v)) then
    throw (Error "Unable to find the parent node")
  else
    c ← run condition;
    if truthy c then
      v ← get_cond self;
      match placeholder v, cond_parent v with
      | Some ph, Some parent =>
          inside ← contains parent ph;
          when inside
            (e ← createComponent o;
             put_cond self (set_elm (Some e));;
             v ← get_cond self;
             match cond_parent v, placeholder v with
             | Some parent, Some ph => replaceChild parent e ph
             | _, _ => throw (TypeError "not a node")
             end;;
             put_cond self (set_placeholder None))
      | _, _ => mret tt
      end
    else
      v ← get_cond self;
      match elm v, cond_parent v with
      | Some e, Some parent =>
          inside ← contains parent e;
          when inside
            (ph ← document_createComment "hidden";
             put_cond self (set_placeholder (Some ph));;
             v ← get_cond self;
             match cond_parent v, elm v with
             | Some parent, Some e => replaceChild parent ph e
             | _, _ => throw (TypeError "not a node")
             end;;
             put_cond self (set_elm None))
      | _, _ => mret tt
      end.

(** [conditionalComponent(options, condition, strategy)]. *)
Definition conditionalComponent (o : options) (condition : prog) (s : strategy)
    : M node_id :=
  match s with
  | Display =>
      component ← createComponent o;
      fn ← new_function (DisplayEffect component condition);
      createEffect fn;;
      mret component
  | Remove =>
      fn ← new_function (RemoveEffect o condition (mkCond None None None));
      createEffect fn;;
      v ← get_cond fn;
      match elm v, placeholder v with
      | Some e, _ => mret e
      | None, Some ph => mret ph
      | None, None => throw (TypeError "no node")
      end
  end.

(** [JSON.stringify(item)]. *)
Definition stringify_item (item : obj_ref) : M string :=
  c ← get_object item; mret (JSON_stringify c).

(** What [renderItem] returns, as a node: a string or a number becomes a
    text node. *)
Definition as_node (v : value) : M node_id :=
  match v with
  | VStr s => document_createTextNode s
  | VNum z => document_createTextNode (string_of_Z z)
  | VNode n => mret n
  | _ => throw (TypeError "not a node")
  end.

(** The items a producer returned: an array of objects. *)
Definition as_item_array (v : value) : M (list obj_ref) :=
  match v with
  | VArr l =>
      match as_items l with
      | Some its => mret its
      | None => throw (TypeError "not an object")
      end
  | _ => throw (TypeError "not an array")
  end.

(** "Determine the parent node if not set": from [referenceElm], which is
    then removed from the tree, or else from the element of the first
    record of [itemMap]. *)
Definition list_resolve_parent (self : fn_ref) : M unit :=
  vars ← get_list self;
  when (negb (is_Some_bool (list_parent vars)))
    (rp ← match referenceElm vars with
          | Some r => node_parent r
          | None => mret None
          end;
     match referenceElm vars, rp with
     | Some r, Some p =>
         put_list self (set_list_parent (Some p));;
         removeChild p r;;
         put_list self (set_referenceElm None)
     | _, _ =>
         match itemMap vars with
         | (_, obj) :: _ =>
             r ← get_record obj;
             ep ← node_parent (element r);
             match ep with
             | Some p => put_list self (set_list_parent (Some p))
             | None => mret tt
             end
         | [] => mret tt
         end
     end).

(** "Remove items not in the new list": the callback of
    [itemMap.forEach], for one entry. *)
Definition list_remove_entry (self : fn_ref) (currentItems : list obj_ref)
    (entry : obj_ref * rec_ref) : M unit :=
  let '(item, obj) := entry in
  r ← get_record obj;
  when (negb (mem_nat item currentItems))
    (vars ← get_list self;
     match list_parent vars with
     | Some p => removeChild p (element r)
     | None => mret tt
     end;;
     put_list self (fun vars => set_itemMap (map_delete item (itemMap vars)) vars)).

(** "Add or update items": the callback of [currentItems.forEach], for
    the item at index [i]. *)
Definition list_upsert (self : fn_ref) (renderItem : cell_id -> nat -> prog)
    (item : obj_ref) (i : nat) : M unit :=
  vars ← get_list self;
  let found := map_get item (itemMap vars) in
  id' ← stringify_item item;
  isPositionChanged ←
    match found with
    | Some obj => r ← get_record obj; mret (negb (position r =? i)%nat)
    | None => mret true
    end;
  obj ←
    match found with
    | None =>
        c ← createSignal (inl (VObj item));
        rendered ← run (renderItem c i);
        newElement ← as_node rendered;
        obj ← alloc_record (mkRecord newElement id' c i);
        put_list self (fun vars => set_itemMap (map_set item obj (itemMap vars)) vars);;
        mret obj
    | Some obj =>
        r ← get_record obj;
        when (negb (String.eqb id' (id r)))
          (set (setter r) (inr (fun _ => Ret (VObj item)));;
           r ← get_record obj;
           put_record obj (mkRecord (element r) id' (setter r) (position r));;
           r ← get_record obj;
           put_record obj (mkRecord (element r) (id r) (setter r) i));;
        mret obj
    end;
  when isPositionChanged
    (vars ← get_list self;
     r ← get_record obj;
     targetPosition ← match list_parent vars with
                      | Some p => child_at p i
                      | None => mret None
                      end;
     when (negb (bool_decide (targetPosition = Some (element r))))
       (match list_parent vars, targetPosition with
        | Some p, Some t => insertBefore p (element r) t
        | Some p, None => appendChild p (element r)
        | None, _ => mret tt
        end);;
     r ← get_record obj;
     put_record obj (mkRecord (element r) (id r) (setter r) i);;
     put_list self (fun vars => set_itemMap (map_set item obj (itemMap vars)) vars)).

(** The effect of [listComponent]: one reconciliation pass. *)
Definition listEffect (self : fn_ref) (items : prog)
    (renderItem : cell_id -> nat -> prog) : M unit :=
  v ← run items;
  currentItems ← as_item_array v;
  list_resolve_parent self;;
  vars ← get_list self;
  forEach (itemMap vars) (list_remove_entry self currentItems);;
  forEach_indexed 0 currentItems (list_upsert self renderItem).

(** [listComponent(items, renderItem)]. *)
Definition listComponent (items : prog) (renderItem : cell_id -> nat -> prog)
    : M (list node_id) :=
  fn ← new_function (ListEffect items renderItem (mkList [] None None));
  createEffect fn;;
  vars ← get_list fn;
  elements ← mapM (fun '(_, obj) => r ← get_record obj; mret (element r)) (itemMap vars);
  match elements with
  | [] =>
      ref ← document_createComment "render list items";
      put_list fn (set_referenceElm (Some ref));;
      mret [ref]
  | _ => mret elements
  end.

(** One API call of a callback, then its continuation. *)
Definition step (p : prog) : M value :=
  match p with
  | Ret v => mret v
  | Get c k => v ← get c; run (k v)
  | SetV c v k => set c (inl v);; run k
  | SetF c u k => set c (inr u);; run k
  | CreateSignal init k => c ← createSignal (inl init); run (k c)
  | CreateSignalF init k => c ← createSignal (inr init); run (k c)
  | Lambda body k => fn ← new_function (UserFn body); run (k fn)
  | CreateEffect fn k => createEffect fn;; run k
  | NewObject c k => r ← alloc_object c; run (k r)
  | ReadObject r k => c ← get_object r; run (k c)
  | WriteObject r c k => put_object r c;; run k
  | AppendChild parent n k => appendChild parent n;; run k
  | CreateComponent o k => n ← createComponent o; run (k n)
  | TextComponent text k => n ← textComponent text; run (k n)
  | ConditionalComponent o condition s k =>
      n ← conditionalComponent o condition s; run (k n)
  | ListComponent items renderItem k =>
      l ← listComponent items renderItem; run (k l)
  end.

(** The call [fn()] of a function object. *)
Definition dispatch (fn : fn_ref) : M unit :=
  cl ← get_function fn;
  match cl with
  | UserFn body => _ ← run body; mret tt
  | ClassEffect element str _ => classEffect fn element str
  | AttrEffect element attr value_fn => attrEffect element attr value_fn
  | TextEffect t text => textEffect t text
  | DisplayEffect component condition => displayEffect component condition
  | RemoveEffect o condition _ => removeEffect fn o condition
  | ListEffect items renderItem _ =>
      log (EvPass fn);;
      listEffect fn items renderItem
  end.

End Library.

(** Running a callback and calling a function object, to depth [n]. *)
Fixpoint exec (n : nat) (p : prog) {struct n} : M value :=
  match n with
  | O => out_of_fuel
  | S n => step n (exec n) (invoke n) p
  end
with invoke (n : nat) (fn : fn_ref) {struct n} : M unit :=
  match n with
  | O => out_of_fuel
  | S n => dispatch n (exec n) (invoke n) fn
  end.

End Host.

(** ** What the theorems speak about *)

Definition subscribers_of (c : cell_id) (st : state) : list fn_ref :=
  match signals st !! c with
  | Some s => subscribers s
  | None => []
  end.

(** A subscriber set holds a function once. *)
Definition subscribers_wf (st : state) : Prop :=
  forall c s, signals st !! c = Some s -> NoDup (subscribers s).

Definition is_run (c : cell_id) (fn : fn_ref) (e : event) : bool :=
  match e with
  | EvRun c' fn' => (c' =? c)%nat && (fn' =? fn)%nat
  | _ => false
  end.

Definition is_run_of (fn : fn_ref) (e : event) : bool :=
  match e with
  | EvRun _ fn' => (fn' =? fn)%nat
  | _ => false
  end.

Definition is_write (c : cell_id) (e : event) : bool :=
  match e with
  | EvWrite c' _ => (c' =? c)%nat
  | _ => false
  end.

Definition is_any_write (e : event) : bool :=
  match e with
  | EvWrite _ _ => true
  | _ => false
  end.

Definition is_effect (e : event) : bool :=
  match e with
  | EvEffect _ => true
  | _ => false
  end.

Definition is_effect_of (fn : fn_ref) (e : event) : bool :=
  match e with
  | EvEffect fn' => (fn' =? fn)%nat
  | _ => false
  end.

Definition is_pass_of (fn : fn_ref) (e : event) : bool :=
  match e with
  | EvPass fn' => (fn' =? fn)%nat
  | _ => false
  end.

Fixpoint count_events (p : event -> bool) (t : list event) : nat :=
  match t with
  | [] => 0
  | e :: r => (if p e then 1 else 0) + count_events p r
  end.

(** [m] keeps the relation [R] between the state it starts in and the state
    it returns in. *)
Definition preserves {A} (R : state -> state -> Prop) (m : M A) : Prop :=
  forall st a st', m st = Ok a st' -> R st st'.

(** A reflexive and transitive relation that these have no part in: the
    DOM, the item objects, a new function object, the variables of a
    conditional and of a dynamic class, and the variables of a function
    object that did not exist in the first state. *)
Class Base (R : state -> state -> Prop) : Prop := {
  base_refl : forall st, R st st;
  base_trans : forall a b c, R a b -> R b c -> R a c;
  base_nodes : forall st n, R st (set_nodes n st);
  base_heap : forall st h, R st (set_heap h st);
  base_new_function : forall st cl, R st (set_functions (functions st ++ [cl])%list st);
  base_put_cond : forall f g, preserves R (put_cond f g);
  base_set_referenceClass : forall f v, preserves R (set_referenceClass f v);
  base_put_fresh : forall st st' fn cl,
    R st st' -> length (functions st) <= fn ->
    R st (set_functions (<[fn := cl]> (functions st')) st');
}.

(** A relation that the DOM, the function objects, the item objects and the
    records have no part in. *)
Class Frame (R : state -> state -> Prop) : Prop := {
  frame_refl : forall st, R st st;
  frame_trans : forall a b c, R a b -> R b c -> R a c;
  frame_nodes : forall st n, R st (set_nodes n st);
  frame_functions : forall st f, R st (set_functions f st);
  frame_heap : forall st h, R st (set_heap h st);
  frame_records : forall st r, R st (set_records r st);
}.

(** The events of [evs], oldest first, up to the first [createEffect]. *)
Fixpoint until_effect (oldest_first : list event) : list event :=
  match oldest_first with
  | [] => []
  | e :: r => if is_effect e then [] else e :: until_effect r
  end.

(** The part of a log (newest first) that was written before any
    [createEffect] call. *)
Definition own_events (evs : list event) : list event :=
  until_effect (rev evs).


(** A relation that the reactive core keeps as well: the reader, the writer
    (when the functions it calls keep it), [createEffect] (likewise) and the
    creation of a cell. *)
Class CoreFrame (R : state -> state -> Prop) : Prop := {
  core_log_pass : forall fn, preserves R (log (EvPass fn));
  core_get : forall c, preserves R (get c);
  core_set : forall fuel run call c nv,
    (forall p, preserves R (run p)) -> (forall fn, preserves R (call fn)) ->
    preserves R (set fuel run call c nv);
  core_createEffect : forall call fn,
    preserves R (call fn) -> preserves R (createEffect call fn);
  core_alloc_signal : forall v, preserves R (alloc_signal (mkSignal v []));
}.

(** A relation that a reconciliation pass keeps, when the functions it
    calls keep it. *)
Class ListPass (R : state -> state -> Prop) : Prop := {
  list_pass : forall JS fuel run call self items renderItem,
    (forall p, preserves R (run p)) -> (forall fn, preserves R (call fn)) ->
    preserves R (log (EvPass self);; listEffect JS fuel run call self items renderItem);
}.


(** A relation between states with the same log, active effect and
    subscriber sets, and across the log of a write or of a re-run. *)
Class Quiet (R : state -> state -> Prop) : Prop := {
  quiet_same : forall st st',
    trace st' = trace st -> activeEffect st' = activeEffect st ->
    (forall c, subscribers_of c st' = subscribers_of c st) -> R st st';
  quiet_log_write : forall c v, preserves R (log (EvWrite c v));
  quiet_log_run : forall c fn, preserves R (log (EvRun c fn));
  quiet_log_pass : forall fn, preserves R (log (EvPass fn));
}.


(** Between two states of one run: the log grew by [evs]; no subscriber
    set lost or reordered a function; and, from a state whose sets hold
    each function once, a function [fn] that was registered with the cell
    [c] ran, in fan-outs of [c], as often as [c] was written, and [fn] ran
    in fan-outs at most as often as there were writes. *)
Definition tracks (c : cell_id) (fn : fn_ref) (st st' : state) : Prop :=
  exists evs,
    trace st' = (evs ++ trace st)%list /\
    (forall d, subscribers_of d st `prefix_of` subscribers_of d st') /\
    (subscribers_wf st -> subscribers_wf st') /\
    (subscribers_wf st -> fn ∈ subscribers_of c st ->
       count_events (is_run c fn) evs = count_events (is_write c) evs) /\
    (subscribers_wf st ->
       count_events (is_run_of fn) evs <= count_events is_any_write evs).


(** Between two states of one run: the log grew by [evs]; while no
    [createEffect] was called the active effect is the one of the start;
    no subscriber set lost or reordered a function; and every cell read
    before the first [createEffect] call was read under the active effect
    of the start, which is among the subscribers of the cell. *)
Definition scoped (st st' : state) : Prop :=
  exists evs,
    trace st' = (evs ++ trace st)%list /\
    (count_events is_effect evs = 0 -> activeEffect st' = activeEffect st) /\
    (forall c, subscribers_of c st `prefix_of` subscribers_of c st') /\
    (forall c a, EvRead c a ∈ own_events evs ->
       a = activeEffect st /\ forall f, a = Some f -> f ∈ subscribers_of c st').

(** Between two states of one run: if [fn] was not the active effect at
    the start and [createEffect(fn)] was not called, then [fn] is not the
    active effect at the end and no cell gained [fn] as a subscriber. *)
Definition unregistered (fn : fn_ref) (st st' : state) : Prop :=
  exists evs,
    trace st' = (evs ++ trace st)%list /\
    (activeEffect st <> Some fn -> count_events (is_effect_of fn) evs = 0 ->
       activeEffect st' <> Some fn /\
       forall d, fn ∈ subscribers_of d st' -> fn ∈ subscribers_of d st).

(** Between two states of one run: the log grew. *)
Definition grows (st st' : state) : Prop :=
  exists evs, trace st' = (evs ++ trace st)%list.

(** Between two states of one run: the log grew by [evs], and if no
    reconciliation pass of the list effect [self] started in between, no
    record went away and [self] has the variables it had. *)
Definition calm (self : fn_ref) (st st' : state) : Prop :=
  exists evs,
    trace st' = (evs ++ trace st)%list /\
    (count_events (is_pass_of self) evs = 0 ->
       length (records st) <= length (records st') /\
       forall items r vars,
         functions st !! self = Some (ListEffect items r vars) ->
         functions st' !! self = Some (ListEffect items r vars)).

(** ** Concrete worlds for the examples *)

(** A host whose [JSON.stringify] prints the [label] of an item. *)
Definition demo_stringify (c : content) : string :=
  match c with
  | (_, VStr s) :: _ => s
  | _ => EmptyString
  end.




(** A cell 0 with a subscriber (function 0) that reads cell 1 only when
    cell 0 holds [1]: its re-run reads cell 1 for the first time. *)
Definition late_reader : state :=
  mkState None
    [mkSignal (VNum 0) [0]; mkSignal (VNum 7) []]
    [UserFn (Get 0 (fun v =>
       if strict_eq v (VNum 1) then Get 1 (fun _ => Ret VUndefined)
       else Ret VUndefined))]
    [] [] [] [].

(** The state a run ended in, and the events it added to the log of [st]. *)
Definition final_state {A} (o : outcome A) : state :=
  match o with
  | Ok _ st | Err _ st => st
  | OutOfFuel => empty_state
  end.

Definition new_events (st st' : state) : list event :=
  take (length (trace st') - length (trace st)) (trace st').


(** The writer of [c] called with each value of [vs] in turn, each call
    from outside any effect and with the same fuel. *)
Fixpoint write_each (JS : content -> string) (n : nat) (c : cell_id)
    (vs : list value) : M unit :=
  match vs with
  | [] => mret tt
  | v :: rest => set n (exec JS n) (invoke JS n) c (inl v);; write_each JS n c rest
  end.

(** [k] values that alternate, starting with [a]. *)
Fixpoint alternating (a b : value) (k : nat) : list value :=
  match k with
  | O => []
  | S k => a :: alternating b a k
  end.


(** A class token that [classList.add] accepts. *)
Definition valid_token (tok : string) : Prop :=
  is_empty tok = false /\ existsb_string is_space tok = false.

(** What the class effect does to the element when the producer returns
    the string [new]: [new] is added, and the class produced before, if
    there is one and it differs, is removed. *)
Definition class_after (new : string) (ref : value) (cl : list string) : list string :=
  let added := if mem_string new cl then cl else (cl ++ [new])%list in
  if truthy ref && negb (strict_eq (VStr new) ref)
  then remove_string (toString ref) added else added.


(** The parent chain of [n], [n] first, walked as [inclusive_ancestor]
    walks it. *)
Fixpoint chain (fuel : nat) (ns : list node) (n : node_id) : list node_id :=
  n :: match fuel with
       | O => []
       | S fuel =>
           match ns !! n with
           | Some nd =>
               match parentNode nd with
               | Some p => chain fuel ns p
               | None => []
               end
           | None => []
           end
       end.

(** The parent chain of [p] is one of a tree: it ends at a root before the
    fuel does, and every node on it is a node of the heap. *)
Definition rooted (st : state) (p : node_id) : Prop :=
  length (chain (length (nodes st)) (nodes st) p) <= length (nodes st) /\
  forall y, y ∈ chain (length (nodes st)) (nodes st) p -> y < length (nodes st).

(** [createComponent(o)] builds a detached element and keeps out of the
    rest of the heap: called with no effect active it returns a new node, an
    element without parent; the nodes, function objects and cells that were
    there are as they were, no effect is active afterwards, and the new
    nodes are not linked to the old ones. *)
Definition builds (JS : content -> string) (n : nat) (o : options) : Prop :=
  forall st, activeEffect st = None ->
  exists st' new root,
    createComponent (exec JS n) (invoke JS n) o st = Ok (length (nodes st)) st' /\
    nodes st' = (nodes st ++ root :: new)%list /\
    is_element root = true /\ parentNode root = None /\
    functions st `prefix_of` functions st' /\
    signals st `prefix_of` signals st' /\
    activeEffect st' = None.

(** The node [m] stands between [pre] and [post] among the children of
    the element [p], in a well-formed tree: the children of [p] are nodes
    of the heap, each once, and [m] is not above [p]. *)
Definition slot (p m : node_id) (pre post : list node_id) (st : state) : Prop :=
  exists pn mn,
    nodes st !! p = Some pn /\ is_element pn = true /\
    childNodes pn = (pre ++ m :: post)%list /\ NoDup (pre ++ m :: post) /\
    (forall x, x ∈ (pre ++ post)%list -> x < length (nodes st)) /\
    nodes st !! m = Some mn /\ parentNode mn = Some p /\ m <> p /\
    rooted st p /\ (m ∉ chain (length (nodes st)) (nodes st) p).

(** A remove-strategy conditional (the effect [self], with the condition
    "cell [c] holds true") whose node is attached: the cell holds [b] and
    has [self] as its only subscriber; the node [m] of the conditional
    stands between [pre] and [post] under [p]; and [m] is the built
    component when [b] is true and the placeholder comment when it is
    false, the variable of the other one being undefined. *)
Definition cond_mounted (self p c : nat) (o : options) (b : bool)
    (pre post : list node_id) (st : state) : Prop :=
  exists vars m mn,
    functions st !! self = Some (RemoveEffect o (Get c Ret) vars) /\
    (cond_parent vars = None \/ cond_parent vars = Some p) /\
    signals st !! c = Some (mkSignal (VBool b) [self]) /\
    activeEffect st = None /\
    slot p m pre post st /\
    nodes st !! m = Some mn /\
    (if b then elm vars = Some m /\ placeholder vars = None /\ is_element mn = true
     else placeholder vars = Some m /\ elm vars = None /\ kind mn = Comment).

(** The slot of the conditional among the children of [p] holds one node,
    which is none of the other children: the component when [b] is true,
    the placeholder when it is false. *)
Definition one_marker (self p : nat) (b : bool) (pre post : list node_id)
    (st : state) : Prop :=
  exists o cond vars m pn mn,
    functions st !! self = Some (RemoveEffect o cond vars) /\
    nodes st !! p = Some pn /\ childNodes pn = (pre ++ m :: post)%list /\
    NoDup (pre ++ m :: post) /\
    nodes st !! m = Some mn /\ parentNode mn = Some p /\
    (if b then elm vars = Some m /\ placeholder vars = None /\ is_element mn = true
     else placeholder vars = Some m /\ elm vars = None /\ kind mn = Comment).

(** A remove-strategy conditional whose node was never attached: no parent
    is stored, and the node [m] of the conditional (the component when [b]
    is true, the placeholder when it is false) has no parent. *)
Definition cond_detached (self c : nat) (o : options) (b : bool) (m : node_id)
    (vars : cond_vars) (st : state) : Prop :=
  exists mn,
    functions st !! self = Some (RemoveEffect o (Get c Ret) vars) /\
    cond_parent vars = None /\
    signals st !! c = Some (mkSignal (VBool b) [self]) /\
    activeEffect st = None /\
    nodes st !! m = Some mn /\ parentNode mn = None /\
    (if b then elm vars = Some m /\ placeholder vars = None
     else placeholder vars = Some m /\ elm vars = None).

(** A page with one cell holding [false] and one [div]. *)
Definition one_cell_one_div : state :=
  mkState None [mkSignal (VBool false) []] [] [new_node (Element "div") ""] [] [] [].

Definition div_span : options := mkOptions "div#root.a.b>span.c" None None None None.

(** The same page after a remove-strategy conditional on the cell was
    created and its placeholder was left unattached. *)
Definition detached_world : state :=
  final_state
    (conditionalComponent (exec demo_stringify 3) (invoke demo_stringify 3)
       div_span (Get 0 Ret) Remove one_cell_one_div).

(** ** Reconciliation passes *)

(** Started in a state with [P], [m] returns in a state with [Q] unless a
    reconciliation pass of [self] started meanwhile; the log only grows. *)
Definition passless {A} (self : fn_ref) (P : state -> Prop) (m : M A)
    (Q : A -> state -> Prop) : Prop :=
  forall st a st', m st = Ok a st' ->
    exists evs,
      trace st' = (evs ++ trace st)%list /\
      (count_events (is_pass_of self) evs = 0 -> P st -> Q a st').

(** A property of the number of records and of the variables of the list
    effect [self]. *)
Definition stable (self : fn_ref) (P : state -> Prop) : Prop :=
  forall st st',
    length (records st) <= length (records st') ->
    (forall items r vars,
       functions st !! self = Some (ListEffect items r vars) ->
       functions st' !! self = Some (ListEffect items r vars)) ->
    P st -> P st'.

(** The keys of [itemMap]. *)
Definition keys (vars : list_vars) : list obj_ref := map fst (itemMap vars).

(** [itemMap] is a map (a key occurs once) into the records. *)
Definition tracked (vars : list_vars) (st : state) : Prop :=
  NoDup (keys vars) /\
  forall item obj, (item, obj) ∈ itemMap vars -> is_Some (records st !! obj).

(** The variables of the list effect [self] are [vars]. *)
Definition list_vars_of (self : fn_ref) (st : state) (vars : list_vars) : Prop :=
  exists items renderItem, functions st !! self = Some (ListEffect items renderItem vars).

(** A read: the state it returns in is the state it started in. *)
Definition reads {A} (m : M A) : Prop :=
  forall st a st', m st = Ok a st' -> st' = st.

(** What a pass of [self] keeps: [itemMap] is a map into the records. *)
Definition list_tracked (self : fn_ref) (st : state) : Prop :=
  exists vars, list_vars_of self st vars /\ tracked vars st.

(** What a pass of [self] over the items [cur] ends with: besides, every
    key of [itemMap] is one of [cur]. *)
Definition list_within (self : fn_ref) (cur : list obj_ref) (st : state) : Prop :=
  exists vars,
    list_vars_of self st vars /\ tracked vars st /\
    forall item, item ∈ keys vars -> item ∈ cur.

(** While the entries of [itemMap] that are not in [cur] are removed:
    [rest] is still to visit, and the keys before [rest] are in [cur]. *)
Definition list_removing (self : fn_ref) (cur : list obj_ref)
    (rest : list (obj_ref * rec_ref)) (st : state) : Prop :=
  exists vars kept,
    list_vars_of self st vars /\ tracked vars st /\
    itemMap vars = (kept ++ rest)%list /\
    forall item, item ∈ map fst kept -> item ∈ cur.

(** [obj] is a record. *)
Definition is_record (obj : rec_ref) (st : state) : Prop :=
  is_Some (records st !! obj).

(** ** Mounted lists *)

(** [renderItem] builds a detached node for an item and keeps out of the
    rest.  It is called as a pass calls it, with no effect active, on the
    cell of the item, which was made last and has no subscriber yet: it
    returns a new node without parent; the nodes, function objects and
    other cells that were there are as they were, so are the records and
    the items, and no effect is active afterwards.  The cell of the item
    may have been read and may have gained subscribers. *)
Definition renders (JS : content -> string) (n : nat)
    (renderItem : cell_id -> nat -> prog) : Prop :=
  forall st cells item i,
    activeEffect st = None ->
    signals st = (cells ++ [mkSignal (VObj item) []])%list ->
    is_Some (heap st !! item) ->
  exists st' root new,
    exec JS n (renderItem (length cells) i) st = Ok (VNode (length (nodes st))) st' /\
    nodes st' = (nodes st ++ root :: new)%list /\ parentNode root = None /\
    functions st `prefix_of` functions st' /\
    cells `prefix_of` signals st' /\
    records st' = records st /\ heap st' = heap st /\
    activeEffect st' = None.

(** The record [obj] of [item] holds the node [e], a child of [p], the
    fingerprint the item has now, and the position [pos]. *)
Definition item_at (JS : content -> string) (p : node_id) (item : obj_ref)
    (obj : rec_ref) (e : node_id) (pos : nat) (st : state) : Prop :=
  exists c s en,
    heap st !! item = Some c /\
    records st !! obj = Some (mkRecord e (JS c) s pos) /\
    nodes st !! e = Some en /\ parentNode en = Some p.

(** A mounted list: the list effect [self] renders the array in [cell]
    and is its only subscriber; [itemMap] holds [entries] (item, record,
    node) in this order; the children of the element [p] are [order], the
    nodes of the entries, each at the position its record holds. *)
Definition list_mounted (JS : content -> string) (self : fn_ref) (cell : cell_id)
    (p : node_id) (renderItem : cell_id -> nat -> prog)
    (entries : list (obj_ref * rec_ref * node_id)) (order : list node_id)
    (st : state) : Prop :=
  exists vars pn v,
    functions st !! self = Some (ListEffect (Get cell Ret) renderItem vars) /\
    itemMap vars = map (fun x => (x.1.1, x.1.2)) entries /\
    (list_parent vars = None \/ list_parent vars = Some p) /\
    referenceElm vars = None /\
    signals st !! cell = Some (mkSignal v [self]) /\
    activeEffect st = None /\
    nodes st !! p = Some pn /\ is_element pn = true /\ childNodes pn = order /\
    rooted st p /\
    (forall item obj e, (item, obj, e) ∈ entries ->
       exists pos, order !! pos = Some e /\ item_at JS p item obj e pos st /\
         e <> p /\ (e ∉ chain (length (nodes st)) (nodes st) p)) /\
    NoDup (map (fun x => x.1.1) entries) /\
    NoDup (map (fun x => x.1.2) entries) /\
    NoDup order /\ length order = length entries.

(** ** A page with a list *)

(** A renderer that builds the same two elements for every item. *)
Definition list_render : cell_id -> nat -> prog :=
  fun _ _ => CreateComponent div_span (fun n => Ret (VNode n)).

(** The label of the item that the cell [g] holds. *)
Definition label_of (g : cell_id) : prog :=
  Get g (fun v =>
    match v with
    | VObj r => ReadObject r (fun c => Ret (VStr (demo_stringify c)))
    | _ => Ret VUndefined
    end).

(** A renderer that shows the label of the item in a text node, which
    follows the cell of the item: [item => textComponent(() => item().label)]. *)
Definition text_render : cell_id -> nat -> prog :=
  fun g _ => TextComponent (label_of g) (fun n => Ret (VNode n)).

(** Three items A, B, C; a cell with the items [l]; the list of the cell,
    and a [ul] with the nodes of the list as its children. *)
Definition list_demo (render : cell_id -> nat -> prog) (l : list obj_ref) : prog :=
  NewObject [("label", VStr "A")] (fun _ =>
  NewObject [("label", VStr "B")] (fun _ =>
  NewObject [("label", VStr "C")] (fun _ =>
  CreateSignal (VArr (map VObj l)) (fun items =>
  ListComponent (Get items Ret) render (fun nodes =>
  CreateComponent (mkOptions "ul" (Some (ChildrenArr (map ChildNode nodes))) None None None)
    (fun p => Ret (VNode p))))))).

Definition mounted_abc : state :=
  final_state (exec demo_stringify 8 (list_demo list_render [0; 1; 2]) empty_state).

Definition mounted_ab : state :=
  final_state (exec demo_stringify 8 (list_demo list_render [0; 1]) empty_state).

(** The list of A and B with labels in text nodes. *)
Definition labelled_ab : state :=
  final_state (exec demo_stringify 12 (list_demo text_render [0; 1]) empty_state).

(** The list of A and B with labels in text nodes, after B got another
    label. *)
Definition relabelled_ab : state :=
  final_state
    ((exec demo_stringify 12 (list_demo text_render [0; 1]);;
      put_object 1 [("label", VStr "B2")]) empty_state).

(** The same page with the cell of the list holding [C, A], before the
    list effect runs again. *)
Definition pending_ca : state :=
  final_state
    ((exec demo_stringify 8 (list_demo list_render [0; 1; 2]);;
      put_signal 0 (mkSignal (VArr [VObj 2; VObj 0]) [0])) empty_state).

(** A renderer that reads the item where it is called, and returns its
    label: [item => item().label]. *)
Definition direct_render : cell_id -> nat -> prog :=
  fun g _ => label_of g.

(** The list of A alone, rendered by [direct_render], after A got another
    label. *)
Definition relabelled_direct : state :=
  final_state
    ((exec demo_stringify 12 (list_demo direct_render [0]);;
      put_object 0 [("label", VStr "A2")]) empty_state).

(** The list effect [self] tracks one item, [item], with the record [obj]
    that holds [r], and is itself the first subscriber of the cell of the
    item; the fingerprint of the item is not the one that is stored; and
    the item comes first in the array that the cell of the list holds. *)
Definition stale_subscribed (JS : content -> string) (self : fn_ref) (cell : cell_id)
    (renderItem : cell_id -> nat -> prog) (item : obj_ref) (obj : rec_ref)
    (r : item_record) (st : state) : Prop :=
  exists vars c v subs rest cs,
    functions st !! self = Some (ListEffect (Get cell Ret) renderItem vars) /\
    itemMap vars = [(item, obj)] /\ referenceElm vars = None /\
    records st !! obj = Some r /\ is_Some (nodes st !! element r) /\
    heap st !! item = Some c /\ JS c <> id r /\
    signals st !! cell = Some (mkSignal (VArr (map VObj (item :: rest))) cs) /\
    signals st !! setter r = Some (mkSignal v (self :: subs)) /\
    cell <> setter r.

(** A renderer that writes the array [B, A] to the cell 0 when this cell
    holds an array of one item:
    [() => { if (items().length === 1) setItems([B, A]); return "item" }]. *)
Definition growing_render : cell_id -> nat -> prog :=
  fun _ _ =>
    Get 0 (fun v =>
      match v with
      | VArr [_] => SetV 0 (VArr [VObj 1; VObj 0]) (Ret (VStr "item"))
      | _ => Ret (VStr "item")
      end).

(** A page with the items A and B and a cell, cell 0, that holds [A]. *)
Definition growing_page : state :=
  mkState None [mkSignal (VArr [VObj 0]) []] [] []
    [[("label", VStr "A")]; [("label", VStr "B")]] [] [].

(** The page where [listComponent], called on cell 0 with
    [growing_render], is about to make the first call of its effect. *)
Definition first_pass_page : state :=
  final_state
    ((fn ← new_function (ListEffect (Get 0 Ret) growing_render (mkList [] None None));
      log (EvEffect fn);;
      modify (set_activeEffect (Some fn))) growing_page).

(** C6 as the spec states it: when a pass of [self] from [st] returns in
    [st'], the keys of [itemMap] are among the items the producer returned
    in this pass, and [itemMap] is a map into the records. *)
Definition keys_within_after_pass (JS : content -> string) (n : nat) (self : fn_ref)
    (st st' : state) : Prop :=
  forall items renderItem vars,
    functions st !! self = Some (ListEffect items renderItem vars) ->
    tracked vars st ->
    invoke JS (S n) self st = Ok tt st' ->
    exists v s1 cur vars',
      exec JS n items (set_trace (EvPass self :: trace st) st) = Ok v s1 /\
      as_item_array v s1 = Ok cur s1 /\
      list_vars_of self st' vars' /\
      tracked vars' st' /\
      (forall item, item ∈ keys vars' -> item ∈ cur).


(** A page with one cell, which holds ["x"]. *)
Definition one_cell_x : state :=
  mkState None [mkSignal (VStr "x") []] [] [] [] [] [].

(** ** Components that follow a cell *)

(** [getAttribute]: the value of the first attribute with this name. *)
Fixpoint assoc_get {V} (k : string) (l : list (string * V)) : option V :=
  match l with
  | [] => None
  | (k', v) :: r => if String.eqb k' k then Some v else assoc_get k r
  end.

(** What the display strategy assigns to [style.display]. *)
Definition display_of (v : value) : string :=
  if truthy v then EmptyString else "none".

(** The element [e] has the attribute [name] with the string of [v], or
    has no such attribute when [v] is [null] or [undefined]. *)
Definition attr_shows (e : node_id) (name : string) (v : value) (st : state) : Prop :=
  exists nd, nodes st !! e = Some nd /\ is_element nd = true /\
    NoDup (attrs nd).*1 /\
    assoc_get name (attrs nd) = if nullish v then None else Some (toString v).

(** A primitive value: a string, a number, a boolean, [null] or
    [undefined]. *)
Definition primitive (v : value) : Prop :=
  match v with
  | VObj _ | VNode _ | VArr _ => False
  | _ => True
  end.

(** The state of an effect [fn] that follows the cell [c] between two
    runs: the cell has [fn] as its only subscriber and holds [v], and no
    effect is active. *)
Definition follows (c fn : nat) (cl : closure) (v : value) (st : state) : Prop :=
  functions st !! fn = Some cl /\
  signals st !! c = Some (mkSignal v [fn]) /\
  activeEffect st = None.

(** ** A dynamic class that may be absent *)

(** A value that a class producer may return on an element whose own
    classes are [base]: [null], [undefined], or a class token that is none
    of [base]. *)
Definition class_value (base : list string) (v : value) : Prop :=
  nullish v = true \/
  exists t, v = VStr t /\ valid_token t /\ mem_string t base = false.

(** The classes of the element for the produced value [v]. *)
Definition classes_for (base : list string) (v : value) : list string :=
  match v with
  | VStr t => (base ++ [t])%list
  | _ => base
  end.

(** What the class effect remembers in [referenceClass] after it produced
    [v]: [v] itself when it is a string; otherwise nothing yet, or a class
    produced earlier. *)
Definition reference_for (base : list string) (v ref : value) : Prop :=
  match v with
  | VStr t => ref = VStr t
  | _ => ref = VUndefined \/
         exists r, ref = VStr r /\ valid_token r /\ mem_string r base = false
  end.

(** The state of the class effect [fn] on the element [e], whose node was
    [nd0] before the effect ran first, between two runs. *)
Definition class_follows (e c fn : nat) (nd0 : node) (v : value) (st : state) : Prop :=
  exists ref,
    nodes st !! e = Some (with_classList (classes_for (classList nd0) v) nd0) /\
    is_element nd0 = true /\
    class_value (classList nd0) v /\
    reference_for (classList nd0) v ref /\
    functions st !! fn = Some (ClassEffect e (Get c Ret) ref) /\
    signals st !! c = Some (mkSignal v [fn]) /\
    activeEffect st = None.

(** A page with one cell holding [null] and one [div]. *)
Definition null_cell_one_div : state :=
  mkState None [mkSignal VNull []] [] [new_node (Element "div") ""] [] [] [].

(** A page with a cell holding the empty string, a cell holding [1], and
    one [div]. *)
Definition empty_string_cell : state :=
  mkState None [mkSignal (VStr "") []; mkSignal (VNum 1) []] []
    [new_node (Element "div") ""] [] [] [].

(** ** An effect that writes the cell it reads *)

(** The function [() => set(f(get()))] on the cell [c]. *)
Definition writes_back (c : cell_id) (f : value -> value) : prog :=
  Get c (fun v => SetV c (f v) (Ret VUndefined)).

(** [createEffect(() => set(f(get())))]. *)
Definition effect_writes_back (c : cell_id) (f : value -> value) : prog :=
  Lambda (writes_back c f) (fun fn => CreateEffect fn (Ret VUndefined)).

(** ** A mounted conditional *)

(** The page [one_cell_one_div] after a remove-strategy conditional on the
    cell was created and its node was appended to the [div]. *)
Definition mounted_cond : state :=
  final_state
    ((m ← conditionalComponent (exec demo_stringify 3) (invoke demo_stringify 3)
            div_span (Get 0 Ret) Remove;
      appendChild 0 m) one_cell_one_div).

(** ** Tag paths *)

(** No [>] in [s]: a tag path of one part. *)
Definition one_part (s : string) : bool :=
  forallb_string (fun x => negb (Ascii.eqb x ">")) s.

(** ** A list that starts empty *)

(** A list that has rendered no item: its effect [self] has run once, on
    the empty array of [cell]; its reference comment [ref] stands between
    [pre] and [post] under the element [p], whose other children have [p]
    as their parent. *)
Definition list_waiting (self cell p ref : nat) (render : cell_id -> nat -> prog)
    (pre post : list node_id) (st : state) : Prop :=
  functions st !! self =
    Some (ListEffect (Get cell Ret) render (mkList [] None (Some ref))) /\
  signals st !! cell = Some (mkSignal (VArr []) [self]) /\
  activeEffect st = None /\
  slot p ref pre post st /\
  (forall x, x ∈ (pre ++ post)%list ->
     exists xn, nodes st !! x = Some xn /\ parentNode xn = Some p).

(** A page with a cell holding the empty array, an item, and a [div] with
    one child, a heading. *)
Definition empty_list_page : state :=
  mkState None [mkSignal (VArr []) []] []
    [mkNode (Element "div") None [1] "" [] [] [] "" "";
     mkNode (Element "h1") (Some 0) [] "" [] [] [] "" ""]
    [[("label", VStr "A")]] [] [].

(** ** An item that is changed in place *)

(** The function [fn] is the effect of a text node that shows the label of
    the item in the cell [g]: the effect of [textComponent(() => g().label)]. *)
Definition shows_label (g : cell_id) (fn : fn_ref) (st : state) : Prop :=
  exists t, functions st !! fn = Some (TextEffect t (label_of g)) /\
            is_Some (nodes st !! t).

(** * Proofs *)

(** ** The monad *)

Lemma bind_Ok {A B} (m : M A) (f : A -> M B) st b st' :
  (m ≫= f) st = Ok b st' <-> exists a st1, m st = Ok a st1 /\ f a st1 = Ok b st'.
Proof.
  unfold mbind, M_bind. split.
  - destruct (m st) as [a st1| |]; try discriminate. eauto.
  - intros (a & st1 & -> & H). exact H.
Qed.

Lemma bind_eq {A B} (m : M A) (f : A -> M B) st a st1 :
  m st = Ok a st1 -> (m ≫= f) st = f a st1.
Proof. unfold mbind, M_bind. intros ->. reflexivity. Qed.

Lemma mret_eq {A} (a : A) st : (mret a : M A) st = Ok a st.
Proof. reflexivity. Qed.

Lemma preserves_ret {A} R `{!Base R} (a : A) : preserves R (mret a : M A).
Proof. intros st a' st' H. inversion H; subst. apply base_refl. Qed.

Lemma preserves_bind {A B} R `{!Base R} (m : M A) (f : A -> M B) :
  preserves R m -> (forall a, preserves R (f a)) -> preserves R (m ≫= f).
Proof.
  intros Hm Hf st b st' H. apply bind_Ok in H as (a & st1 & H1 & H2).
  eapply base_trans; [eapply Hm | eapply Hf]; eauto.
Qed.

Lemma preserves_throw {A} R (e : error) : preserves R (@throw A e).
Proof. intros st a st' H. discriminate. Qed.

Lemma preserves_out_of_fuel {A} R : preserves R (@out_of_fuel A).
Proof. intros st a st' H. discriminate. Qed.

Lemma preserves_gets {A} R `{!Base R} (f : state -> A) : preserves R (gets f).
Proof. intros st a st' H. inversion H; subst. apply base_refl. Qed.

Lemma preserves_when R `{!Base R} b m : preserves R m -> preserves R (when b m).
Proof. destruct b; simpl; auto using preserves_ret. Qed.

Lemma preserves_forEach {A} R `{!Base R} (l : list A) f :
  (forall x, preserves R (f x)) -> preserves R (forEach l f).
Proof.
  intros Hf. induction l; simpl.
  - by apply preserves_ret.
  - apply preserves_bind; auto.
Qed.

Lemma preserves_forEach_indexed {A} R `{!Base R} (l : list A) f i :
  (forall x j, preserves R (f x j)) -> preserves R (forEach_indexed i l f).
Proof.
  intros Hf. revert i. induction l; intros i; simpl.
  - by apply preserves_ret.
  - apply preserves_bind; auto.
Qed.

Lemma preserves_mapM {A B} R `{!Base R} (f : A -> M B) (l : list A) :
  (forall x, preserves R (f x)) -> preserves R (mapM f l).
Proof.
  intros Hf. induction l; simpl.
  - by apply preserves_ret.
  - apply preserves_bind; auto. intros b.
    apply preserves_bind; auto. intros k. by apply preserves_ret.
Qed.

Create HintDb pres discriminated.

#[export] Hint Resolve preserves_ret preserves_throw preserves_out_of_fuel
  preserves_gets : pres.

(** One step through the code of a library function. *)
Ltac pres_step :=
  lazymatch goal with
  | |- preserves _ (mret _) => apply preserves_ret; assumption
  | |- preserves _ (log (EvPass _) ≫= _) => apply list_pass; assumption
  | |- preserves _ (_ ≫= _) => apply preserves_bind; [assumption | | intros ?]
  | |- preserves _ (throw _) => apply preserves_throw
  | |- preserves _ out_of_fuel => apply preserves_out_of_fuel
  | |- preserves _ (gets _) => apply preserves_gets; assumption
  | |- preserves _ (when _ _) => apply preserves_when; [assumption |]
  | |- preserves _ (forEach _ _) => apply preserves_forEach; [assumption | intros ?]
  | |- preserves _ (forEach_indexed _ _ _) =>
      apply preserves_forEach_indexed; [assumption | intros ? ?]
  | |- preserves _ (mapM _ _) => apply preserves_mapM; [assumption | intros ?]
  | |- preserves _ (match ?x with _ => _ end) => destruct x
  | |- preserves _ (let '(_, _) := ?x in _) => destruct x
  | |- _ => solve [eauto with pres]
  end.

Ltac pres := repeat pres_step.

Section BaseFacts.
Context (R : state -> state -> Prop) `{!Base R}.

Lemma preserves_get_node n : preserves R (get_node n).
Proof.
  intros st a st' H. unfold get_node in H.
  destruct (nodes st !! n); inversion H; subst. apply base_refl.
Qed.

Lemma preserves_put_node n nd : preserves R (put_node n nd).
Proof. intros st a st' H. inversion H; subst. apply base_nodes. Qed.

Lemma preserves_alloc_node nd : preserves R (alloc_node nd).
Proof. intros st a st' H. inversion H; subst. apply base_nodes. Qed.

Lemma preserves_get_signal c : preserves R (get_signal c).
Proof.
  intros st a st' H. unfold get_signal in H.
  destruct (signals st !! c); inversion H; subst. apply base_refl.
Qed.

Lemma preserves_get_function fn : preserves R (get_function fn).
Proof.
  intros st a st' H. unfold get_function in H.
  destruct (functions st !! fn); inversion H; subst. apply base_refl.
Qed.

Lemma preserves_new_function cl : preserves R (new_function cl).
Proof. intros st a st' H. inversion H; subst. apply base_new_function. Qed.

Lemma preserves_get_object r : preserves R (get_object r).
Proof.
  intros st a st' H. unfold get_object in H.
  destruct (heap st !! r); inversion H; subst. apply base_refl.
Qed.

Lemma preserves_put_object r c : preserves R (put_object r c).
Proof. intros st a st' H. inversion H; subst. apply base_heap. Qed.

Lemma preserves_alloc_object c : preserves R (alloc_object c).
Proof. intros st a st' H. inversion H; subst. apply base_heap. Qed.

Lemma preserves_get_record r : preserves R (get_record r).
Proof.
  intros st a st' H. unfold get_record in H.
  destruct (records st !! r); inversion H; subst. apply base_refl.
Qed.

Hint Resolve preserves_get_node preserves_put_node preserves_alloc_node
  preserves_get_signal preserves_get_function
  preserves_new_function preserves_get_object preserves_put_object
  preserves_alloc_object preserves_get_record : pres.

Lemma preserves_node_parent n : preserves R (node_parent n).
Proof. unfold node_parent. pres. Qed.

Hint Resolve preserves_node_parent : pres.

Lemma preserves_document_createElement t : preserves R (document_createElement t).
Proof. unfold document_createElement. pres. Qed.

Hint Resolve preserves_document_createElement : pres.

Lemma preserves_document_createTextNode d : preserves R (document_createTextNode d).
Proof. unfold document_createTextNode. pres. Qed.

Hint Resolve preserves_document_createTextNode : pres.

Lemma preserves_document_createComment d : preserves R (document_createComment d).
Proof. unfold document_createComment. pres. Qed.

Hint Resolve preserves_document_createComment : pres.

Lemma preserves_contains a b : preserves R (contains a b).
Proof. unfold contains. pres. Qed.

Hint Resolve preserves_contains : pres.

Lemma preserves_detach c : preserves R (detach c).
Proof. unfold detach. pres. Qed.

Hint Resolve preserves_detach : pres.

Lemma preserves_child_at p i : preserves R (child_at p i).
Proof. unfold child_at. pres. Qed.

Hint Resolve preserves_child_at : pres.

Lemma preserves_get_element e : preserves R (get_element e).
Proof. unfold get_element. pres. Qed.

Hint Resolve preserves_get_element : pres.

Lemma preserves_check_token t : preserves R (check_token t).
Proof. unfold check_token. pres. Qed.

Hint Resolve preserves_check_token : pres.

Lemma preserves_ensure_pre_insert p n : preserves R (ensure_pre_insert p n).
Proof. unfold ensure_pre_insert. pres. Qed.

Hint Resolve preserves_ensure_pre_insert : pres.

Lemma preserves_link p n r : preserves R (link p n r).
Proof. unfold link. pres. Qed.

Hint Resolve preserves_link : pres.

Lemma preserves_appendChild p n : preserves R (appendChild p n).
Proof. unfold appendChild. pres. Qed.

Hint Resolve preserves_appendChild : pres.

Lemma preserves_insertBefore p n r : preserves R (insertBefore p n r).
Proof. unfold insertBefore. pres. Qed.

Hint Resolve preserves_insertBefore : pres.

Lemma preserves_removeChild p c : preserves R (removeChild p c).
Proof. unfold removeChild. pres. Qed.

Hint Resolve preserves_removeChild : pres.

Lemma preserves_replaceChild p n o : preserves R (replaceChild p n o).
Proof. unfold replaceChild. pres. Qed.

Hint Resolve preserves_replaceChild : pres.

Lemma preserves_classList_contains e t : preserves R (classList_contains e t).
Proof. unfold classList_contains. pres. Qed.

Hint Resolve preserves_classList_contains : pres.

Lemma preserves_classList_add e t : preserves R (classList_add e t).
Proof. unfold classList_add. pres. Qed.

Hint Resolve preserves_classList_add : pres.

Lemma preserves_classList_remove e t : preserves R (classList_remove e t).
Proof. unfold classList_remove. pres. Qed.

Hint Resolve preserves_classList_remove : pres.

Lemma preserves_set_className e s : preserves R (set_className e s).
Proof. unfold set_className. pres. Qed.

Hint Resolve preserves_set_className : pres.

Lemma preserves_set_id e s : preserves R (set_id e s).
Proof. unfold set_id. pres. Qed.

Hint Resolve preserves_set_id : pres.

Lemma preserves_setAttribute e k v : preserves R (setAttribute e k v).
Proof. unfold setAttribute. pres. Qed.

Hint Resolve preserves_setAttribute : pres.

Lemma preserves_removeAttribute e k : preserves R (removeAttribute e k).
Proof. unfold removeAttribute. pres. Qed.

Hint Resolve preserves_removeAttribute : pres.

Lemma preserves_addEventListener e ev h : preserves R (addEventListener e ev h).
Proof. unfold addEventListener. pres. Qed.

Hint Resolve preserves_addEventListener : pres.

Lemma preserves_set_textContent t s : preserves R (set_textContent t s).
Proof. unfold set_textContent. pres. Qed.

Hint Resolve preserves_set_textContent : pres.

Lemma preserves_set_style_display e s : preserves R (set_style_display e s).
Proof. unfold set_style_display. pres. Qed.

Hint Resolve preserves_set_style_display : pres.

Lemma preserves_get_referenceClass f : preserves R (get_referenceClass f).
Proof. unfold get_referenceClass. pres. Qed.

Hint Resolve preserves_get_referenceClass : pres.

Lemma preserves_set_referenceClass f v : preserves R (set_referenceClass f v).
Proof. apply base_set_referenceClass. Qed.

Hint Resolve preserves_set_referenceClass : pres.

Lemma preserves_get_cond f : preserves R (get_cond f).
Proof. unfold get_cond. pres. Qed.

Hint Resolve preserves_get_cond : pres.

Lemma preserves_put_cond f g : preserves R (put_cond f g).
Proof. apply base_put_cond. Qed.

Hint Resolve preserves_put_cond : pres.

Lemma preserves_get_list f : preserves R (get_list f).
Proof. unfold get_list. pres. Qed.

Hint Resolve preserves_get_list : pres.

Lemma preserves_as_node v : preserves R (as_node v).
Proof. unfold as_node. pres. Qed.

Hint Resolve preserves_as_node : pres.

Lemma preserves_addChild e c : preserves R (addChild e c).
Proof. unfold addChild. pres. Qed.

Hint Resolve preserves_addChild : pres.

Lemma preserves_addChild_value e v : preserves R (addChild_value e v).
Proof. unfold addChild_value. pres. Qed.

Hint Resolve preserves_addChild_value : pres.

Lemma preserves_parseEmmet_loop parts r c : preserves R (parseEmmet_loop parts r c).
Proof.
  revert r c. induction parts as [|part rest IH]; intros r c; simpl; pres.
Qed.

Hint Resolve preserves_parseEmmet_loop : pres.

Lemma preserves_parseEmmet t : preserves R (parseEmmet t).
Proof. unfold parseEmmet. pres. Qed.

Hint Resolve preserves_parseEmmet : pres.

Lemma preserves_stringify_item JS r : preserves R (stringify_item JS r).
Proof. unfold stringify_item. pres. Qed.

Hint Resolve preserves_stringify_item : pres.

(** *** The library keeps what the core keeps *)

Context `{!CoreFrame R}.
Context (JS : content -> string) (fuel : nat).
Context (run : prog -> M value) (call : fn_ref -> M unit).
Hypothesis Hrun : forall p, preserves R (run p).
Hypothesis Hcall : forall fn, preserves R (call fn).

Lemma preserves_core_get c : preserves R (get c).
Proof. apply core_get. Qed.

Lemma preserves_core_set c nv : preserves R (set fuel run call c nv).
Proof. by apply core_set. Qed.

Lemma preserves_core_createEffect fn : preserves R (createEffect call fn).
Proof. by apply core_createEffect. Qed.

Lemma preserves_createSignal iv : preserves R (createSignal run iv).
Proof. unfold createSignal. pres. apply core_alloc_signal. Qed.

Hint Resolve Hrun Hcall preserves_core_get preserves_core_set
  preserves_core_createEffect preserves_createSignal : pres.

Lemma preserves_textEffect t p : preserves R (textEffect run t p).
Proof. unfold textEffect. pres. Qed.

Hint Resolve preserves_textEffect : pres.

Lemma preserves_textComponent p : preserves R (textComponent call p).
Proof. unfold textComponent. pres. Qed.

Hint Resolve preserves_textComponent : pres.

Lemma preserves_classEffect f e p : preserves R (classEffect run f e p).
Proof. unfold classEffect. pres. Qed.

Hint Resolve preserves_classEffect : pres.

Lemma preserves_addClass e c : preserves R (addClass call e c).
Proof. unfold addClass. pres. Qed.

Hint Resolve preserves_addClass : pres.

Lemma preserves_attrEffect e a p : preserves R (attrEffect run e a p).
Proof. unfold attrEffect. pres. Qed.

Hint Resolve preserves_attrEffect : pres.

Lemma preserves_addAttribute e x : preserves R (addAttribute call e x).
Proof. unfold addAttribute. pres. Qed.

Hint Resolve preserves_addAttribute : pres.

Lemma preserves_createComponent o : preserves R (createComponent run call o).
Proof. unfold createComponent. pres. Qed.

Hint Resolve preserves_createComponent : pres.

Lemma preserves_displayEffect e p : preserves R (displayEffect run e p).
Proof. unfold displayEffect. pres. Qed.

Hint Resolve preserves_displayEffect : pres.

Lemma preserves_cond_resolve_parent f : preserves R (cond_resolve_parent f).
Proof. unfold cond_resolve_parent. pres. Qed.

Hint Resolve preserves_cond_resolve_parent : pres.

Lemma preserves_removeEffect f o p : preserves R (removeEffect run call f o p).
Proof. unfold removeEffect. pres. Qed.

Hint Resolve preserves_removeEffect : pres.

Lemma preserves_conditionalComponent o p s : preserves R (conditionalComponent run call o p s).
Proof. unfold conditionalComponent. pres. Qed.

Hint Resolve preserves_conditionalComponent : pres.

End BaseFacts.

#[export] Hint Resolve preserves_get_node preserves_put_node preserves_alloc_node
  preserves_get_signal preserves_get_function
  preserves_new_function preserves_get_object preserves_put_object
  preserves_alloc_object preserves_get_record preserves_node_parent
  preserves_document_createElement preserves_document_createTextNode
  preserves_document_createComment preserves_contains preserves_detach
  preserves_child_at preserves_get_element preserves_check_token
  preserves_ensure_pre_insert preserves_link preserves_appendChild
  preserves_insertBefore preserves_removeChild preserves_replaceChild
  preserves_classList_contains preserves_classList_add preserves_classList_remove
  preserves_set_className preserves_set_id preserves_setAttribute
  preserves_removeAttribute preserves_addEventListener preserves_set_textContent
  preserves_set_style_display preserves_get_referenceClass
  preserves_set_referenceClass preserves_get_cond preserves_put_cond
  preserves_get_list preserves_as_node preserves_addChild preserves_addChild_value
  preserves_parseEmmet_loop preserves_parseEmmet preserves_stringify_item
  preserves_core_get preserves_core_set preserves_core_createEffect
  preserves_createSignal preserves_textEffect preserves_textComponent
  preserves_classEffect preserves_addClass preserves_attrEffect
  preserves_addAttribute preserves_createComponent preserves_displayEffect
  preserves_cond_resolve_parent preserves_removeEffect
  preserves_conditionalComponent : pres.

(** *** A relation without part in the function objects and the records *)

#[export] Instance Frame_Base R `{!Frame R} : Base R.
Proof.
  split.
  - apply frame_refl.
  - apply frame_trans.
  - apply frame_nodes.
  - apply frame_heap.
  - intros. apply frame_functions.
  - intros f g st a st' H. unfold put_cond in H.
    apply bind_Ok in H as (cl & s1 & H1 & H2).
    unfold get_function in H1. destruct (functions st !! f); inversion H1; subst.
    destruct cl; inversion H2; subst. apply frame_functions.
  - intros f v st a st' H. unfold set_referenceClass in H.
    apply bind_Ok in H as (cl & s1 & H1 & H2).
    unfold get_function in H1. destruct (functions st !! f); inversion H1; subst.
    destruct cl; inversion H2; subst. apply frame_functions.
  - intros st st' fn cl H _. eapply frame_trans; [exact H|]. apply frame_functions.
Qed.

Section ListFacts.
Context (R : state -> state -> Prop) `{!Frame R} `{!CoreFrame R}.
Context (JS : content -> string) (fuel : nat).
Context (run : prog -> M value) (call : fn_ref -> M unit).
Hypothesis Hrun : forall p, preserves R (run p).
Hypothesis Hcall : forall fn, preserves R (call fn).

Let HB : Base R := Frame_Base R.

Hint Resolve Hrun Hcall : pres.

Lemma preserves_put_function fn cl : preserves R (put_function fn cl).
Proof. intros st a st' H. inversion H; subst. apply frame_functions. Qed.

Lemma preserves_put_record r x : preserves R (put_record r x).
Proof. intros st a st' H. inversion H; subst. apply frame_records. Qed.

Lemma preserves_alloc_record x : preserves R (alloc_record x).
Proof. intros st a st' H. inversion H; subst. apply frame_records. Qed.

Hint Resolve preserves_put_function preserves_put_record preserves_alloc_record : pres.

Lemma preserves_put_list f g : preserves R (put_list f g).
Proof. unfold put_list. pres. Qed.

Hint Resolve preserves_put_list : pres.

Lemma preserves_as_item_array v : preserves R (as_item_array v).
Proof. unfold as_item_array. pres. Qed.

Lemma preserves_list_resolve_parent f : preserves R (list_resolve_parent f).
Proof. unfold list_resolve_parent. pres. Qed.

Lemma preserves_list_remove_entry f l x : preserves R (list_remove_entry f l x).
Proof. unfold list_remove_entry. pres. Qed.

Lemma preserves_list_upsert f r x i :
  preserves R (list_upsert JS fuel run call f r x i).
Proof. unfold list_upsert. pres. Qed.

Hint Resolve preserves_as_item_array preserves_list_resolve_parent
  preserves_list_remove_entry preserves_list_upsert : pres.

Lemma preserves_listEffect f p r : preserves R (listEffect JS fuel run call f p r).
Proof. unfold listEffect. pres. Qed.

Hint Resolve preserves_listEffect : pres.

Lemma preserves_log_pass_listEffect f p r :
  preserves R (log (EvPass f);; listEffect JS fuel run call f p r).
Proof. apply preserves_bind; [done | apply core_log_pass | intros _; apply preserves_listEffect]. Qed.

End ListFacts.

#[export] Hint Resolve preserves_put_function preserves_put_record
  preserves_alloc_record preserves_put_list preserves_as_item_array
  preserves_list_resolve_parent preserves_list_remove_entry preserves_list_upsert
  preserves_listEffect : pres.

#[export] Instance Frame_ListPass R `{!Frame R} `{!CoreFrame R} : ListPass R.
Proof. split. intros. by apply preserves_log_pass_listEffect. Qed.

(** *** The whole library *)

Section Traversal.
Context (R : state -> state -> Prop) `{!Base R} `{!CoreFrame R} `{!ListPass R}.
Context (JS : content -> string) (fuel : nat).
Context (run : prog -> M value) (call : fn_ref -> M unit).
Hypothesis Hrun : forall p, preserves R (run p).
Hypothesis Hcall : forall fn, preserves R (call fn).

Hint Resolve Hrun Hcall : pres.

(** The function object whose variables [listComponent] writes after the
    first pass is the one it made. *)
Lemma preserves_listComponent p r : preserves R (listComponent call p r).
Proof.
  intros st l st' H. unfold listComponent in H.
  apply bind_Ok in H as (fn & s1 & H1 & H).
  inversion H1; subst; clear H1.
  apply bind_Ok in H as ([] & s2 & H2 & H).
  apply bind_Ok in H as (vars & s3 & H3 & H).
  apply bind_Ok in H as (els & s4 & H4 & H).
  assert (R01 : R st (set_functions (functions st ++ [ListEffect p r (mkList [] None None)]) st))
    by apply base_new_function.
  assert (R12 : R _ s2) by (eapply (preserves_core_createEffect R call); eauto).
  assert (R23 : R s2 s3) by (eapply (preserves_get_list R); eauto).
  assert (R34 : R s3 s4).
  { assert (Hm : preserves R
              (mapM (fun '(_, obj) => r ← get_record obj; mret (element r)) (itemMap vars))).
    { apply preserves_mapM; [done|]. intros [k obj]. pres. }
    by eapply Hm. }
  assert (R14 : R st s4).
  { eapply base_trans; [exact R01|]. eapply base_trans; [exact R12|].
    eapply base_trans; [exact R23 | exact R34]. }
  destruct els.
  - apply bind_Ok in H as (ref & s5 & H5 & H).
    apply bind_Ok in H as ([] & s6 & H6 & H).
    inversion H; subst; clear H.
    assert (R45 : R s4 s5) by (eapply (preserves_document_createComment R); eauto).
    assert (R15 : R st s5) by (eapply base_trans; [exact R14 | exact R45]).
    unfold put_list in H6. apply bind_Ok in H6 as (cl & s7 & H7 & H6).
    unfold get_function in H7. destruct (functions s5 !! _); inversion H7; subst.
    destruct cl; inversion H6; subst.
    by apply base_put_fresh.
  - inversion H; subst. exact R14.
Qed.

Hint Resolve preserves_listComponent : pres.

Lemma preserves_step p : preserves R (step fuel run call p).
Proof. unfold step. pres. Qed.

Hint Resolve preserves_step : pres.

Lemma preserves_dispatch f : preserves R (dispatch JS fuel run call f).
Proof. unfold dispatch. pres. Qed.

End Traversal.

(** Every callback and every function object keeps a relation that the
    core keeps. *)
Theorem exec_preserves R `{!Base R} `{!CoreFrame R} `{!ListPass R} JS n :
  (forall p, preserves R (exec JS n p)) /\ (forall fn, preserves R (invoke JS n fn)).
Proof.
  induction n as [|n [IHe IHi]]; simpl.
  - split; intros; apply preserves_out_of_fuel.
  - split; intros.
    + by apply preserves_step.
    + by apply preserves_dispatch.
Qed.

Local Close Scope string_scope.

(** ** Counting events *)

Lemma count_events_app p (l1 l2 : list event) :
  count_events p (l1 ++ l2) = count_events p l1 + count_events p l2.
Proof. induction l1; simpl; lia. Qed.

Lemma mem_nat_In x l : mem_nat x l = true <-> x ∈ l.
Proof.
  induction l as [|y l IH]; simpl.
  - split; [discriminate | intros H; inversion H].
  - rewrite orb_true_iff, IH, Nat.eqb_eq, elem_of_cons. intuition congruence.
Qed.

Lemma mem_nat_not_In x l : mem_nat x l = false <-> x ∉ l.
Proof. rewrite <- mem_nat_In. destruct (mem_nat x l); naive_solver. Qed.

Lemma prefix_elem_of {A} (x : A) (l1 l2 : list A) :
  l1 `prefix_of` l2 -> x ∈ l1 -> x ∈ l2.
Proof. intros [k ->] H. apply elem_of_app. by left. Qed.

(** ** Subscriber sets under the state updates *)

Lemma subscribers_of_set_trace c t st :
  subscribers_of c (set_trace t st) = subscribers_of c st.
Proof. reflexivity. Qed.

Lemma subscribers_of_set_activeEffect c a st :
  subscribers_of c (set_activeEffect a st) = subscribers_of c st.
Proof. reflexivity. Qed.

Lemma subscribers_of_put c d s st :
  d < length (signals st) ->
  subscribers_of c (set_signals (<[d := s]> (signals st)) st) =
  if decide (c = d) then subscribers s else subscribers_of c st.
Proof.
  intros Hd. unfold subscribers_of. simpl. case_decide as E.
  - subst. by rewrite list_lookup_insert_eq.
  - by rewrite list_lookup_insert_ne.
Qed.

Lemma subscribers_of_alloc c v st :
  subscribers_of c (set_signals (signals st ++ [mkSignal v []]) st) =
  subscribers_of c st.
Proof.
  unfold subscribers_of. simpl.
  destruct (decide (c < length (signals st))) as [Hlt|Hge].
  - by rewrite lookup_app_l.
  - rewrite lookup_app_r by lia.
    assert (signals st !! c = None) as -> by (apply lookup_ge_None_2; lia).
    destruct (c - length (signals st)) as [|k]; simpl; [done|].
    done.
Qed.

Lemma subscribers_wf_alt st :
  subscribers_wf st <-> forall c, NoDup (subscribers_of c st).
Proof.
  unfold subscribers_wf, subscribers_of. split.
  - intros H c. destruct (signals st !! c) eqn:E; [eauto | constructor].
  - intros H c s E. specialize (H c). by rewrite E in H.
Qed.

Lemma tracks_same c fn st st' :
  trace st' = trace st -> signals st' = signals st -> tracks c fn st st'.
Proof.
  intros Ht Hs. exists []. unfold subscribers_wf, subscribers_of.
  rewrite Ht, Hs. simpl. repeat split; auto; lia.
Qed.

#[export] Instance tracks_Frame c fn : Frame (tracks c fn).
Proof.
  split; try (intros; by apply tracks_same).
  intros s1 s2 s3 (e1 & T1 & P1 & W1 & C1 & L1) (e2 & T2 & P2 & W2 & C2 & L2).
  exists (e2 ++ e1). rewrite T2, T1, app_assoc. repeat split.
  - intros d. etrans; [apply P1 | apply P2].
  - auto.
  - intros Hwf Hin. rewrite !count_events_app.
    rewrite C1, C2; auto. eapply prefix_elem_of; [apply P1 | done].
  - intros Hwf. rewrite !count_events_app. specialize (L1 Hwf). specialize (L2 (W1 Hwf)). lia.
Qed.

(** ** Reading what an [Ok] run did *)

Lemma get_signal_Ok c st s st' :
  get_signal c st = Ok s st' <-> signals st !! c = Some s /\ st' = st.
Proof.
  unfold get_signal. destruct (signals st !! c); split;
    intros H; try discriminate; try (destruct H; discriminate).
  - inversion H; subst. auto.
  - destruct H as [[= ->] ->]. reflexivity.
Qed.

Lemma get_function_Ok fn st cl st' :
  get_function fn st = Ok cl st' <-> functions st !! fn = Some cl /\ st' = st.
Proof.
  unfold get_function. destruct (functions st !! fn); split;
    intros H; try discriminate; try (destruct H; discriminate).
  - inversion H; subst. auto.
  - destruct H as [[= ->] ->]. reflexivity.
Qed.

Lemma get_node_Ok n st nd st' :
  get_node n st = Ok nd st' <-> nodes st !! n = Some nd /\ st' = st.
Proof.
  unfold get_node. destruct (nodes st !! n); split;
    intros H; try discriminate; try (destruct H; discriminate).
  - inversion H; subst. auto.
  - destruct H as [[= ->] ->]. reflexivity.
Qed.

Lemma modify_Ok f st u st' : modify f st = Ok u st' <-> st' = f st.
Proof. unfold modify. split; [intros [= <-]; done | intros ->; by destruct u]. Qed.

Lemma gets_Ok {A} (f : state -> A) st a st' :
  gets f st = Ok a st' <-> a = f st /\ st' = st.
Proof. unfold gets. split; [intros [= <- <-]; done | intros [-> ->]; done]. Qed.

Lemma mret_Ok {A} (x : A) st a st' :
  (mret x : M A) st = Ok a st' <-> a = x /\ st' = st.
Proof. unfold mret, M_ret. split; [intros [= <- <-]; done | intros [-> ->]; done]. Qed.

Lemma log_Ok e st u st' : log e st = Ok u st' <-> st' = set_trace (e :: trace st) st.
Proof. unfold log. by rewrite modify_Ok. Qed.

(** Take an [Ok] run of straight-line code apart, call by call. *)
Ltac inv_ok :=
  repeat match goal with
  | H : (_ ≫= _) _ = Ok _ _ |- _ =>
      apply bind_Ok in H as (? & ? & ? & H)
  | H : (mret _) _ = Ok _ _ |- _ => apply mret_Ok in H as [? ?]; subst
  | H : modify _ _ = Ok _ _ |- _ => apply modify_Ok in H; subst
  | H : log _ _ = Ok _ _ |- _ => apply log_Ok in H; subst
  | H : gets _ _ = Ok _ _ |- _ => apply gets_Ok in H as [? ?]; subst
  | H : get_signal _ _ = Ok _ _ |- _ => apply get_signal_Ok in H as [? ?]; subst
  | H : get_function _ _ = Ok _ _ |- _ => apply get_function_Ok in H as [? ?]; subst
  | H : get_node _ _ = Ok _ _ |- _ => apply get_node_Ok in H as [? ?]; subst
  | H : throw _ _ = Ok _ _ |- _ => discriminate H
  | H : out_of_fuel _ = Ok _ _ |- _ => discriminate H
  | H : when ?b _ _ = Ok _ _ |- _ => destruct b eqn:?; simpl in H
  | H : put_signal _ _ _ = Ok _ _ |- _ => unfold put_signal in H
  end.

(** ** [subscribers.add] *)

Lemma subscribers_add_Ok d g st u st' :
  subscribers_add d g st = Ok u st' ->
  trace st' = trace st /\ activeEffect st' = activeEffect st /\
  g ∈ subscribers_of d st' /\
  (forall c, subscribers_of c st `prefix_of` subscribers_of c st') /\
  (forall c f, f ∈ subscribers_of c st' -> f ∈ subscribers_of c st \/ (c = d /\ f = g)) /\
  (subscribers_wf st -> subscribers_wf st').
Proof.
  unfold subscribers_add, mbind, M_bind, get_signal.
  destruct (signals st !! d) as [s|] eqn:Hs; [|discriminate].
  assert (Hd : d < length (signals st)) by (eapply lookup_lt_Some; eauto).
  assert (Hsub : subscribers_of d st = subscribers s)
    by (unfold subscribers_of; by rewrite Hs).
  destruct (mem_nat g (subscribers s)) eqn:Hm; intros H; inversion H; subst; clear H.
  - apply mem_nat_In in Hm. split_and!; auto. by rewrite Hsub.
  - apply mem_nat_not_In in Hm. simpl. split_and!; [done | done | ..].
    + rewrite subscribers_of_put by done. rewrite decide_True by done. simpl.
      apply elem_of_app. right. by apply list_elem_of_singleton.
    + intros c. rewrite subscribers_of_put by done. case_decide; subst; [|done].
      simpl. rewrite Hsub. by apply prefix_app_r.
    + intros c f. rewrite subscribers_of_put by done. case_decide; subst; [|auto].
      simpl. rewrite Hsub, elem_of_app, list_elem_of_singleton. naive_solver.
    + rewrite !subscribers_wf_alt. intros Hwf c.
      rewrite subscribers_of_put by done. case_decide; subst; [|auto].
      simpl. apply NoDup_app. split; [rewrite <- Hsub; apply Hwf|].
      split; [|apply NoDup_singleton].
      intros x Hx Hx'. apply list_elem_of_singleton in Hx'. by subst.
Qed.

(** ** The core keeps [tracks] *)

Lemma tracks_step c fn st st' e :
  trace st' = e :: trace st ->
  (forall d, subscribers_of d st `prefix_of` subscribers_of d st') ->
  (subscribers_wf st -> subscribers_wf st') ->
  is_run c fn e = false -> is_write c e = false -> is_run_of fn e = false ->
  tracks c fn st st'.
Proof.
  intros Ht Hp Hw E1 E2 E3. exists [e]. simpl. rewrite E1, E2, E3.
  split_and!; auto; simpl; lia.
Qed.

Lemma tracks_quiet c fn st st' :
  trace st' = trace st ->
  (forall d, subscribers_of d st' = subscribers_of d st) ->
  tracks c fn st st'.
Proof.
  intros Ht Hs. exists []. simpl. split_and!; auto; try lia.
  - intros d. by rewrite Hs.
  - rewrite !subscribers_wf_alt. intros H d. rewrite Hs. apply H.
Qed.

Lemma tracks_get c fn d : preserves (tracks c fn) (get d).
Proof.
  intros st v st'. unfold get. intros H.
  apply bind_Ok in H as (a & st1 & Ha & H). apply gets_Ok in Ha as [-> ->].
  apply bind_Ok in H as (u & st2 & Hl & H). apply log_Ok in Hl as ->.
  apply bind_Ok in H as (u' & st3 & Hadd & H).
  apply bind_Ok in H as (s & st4 & Hs & H). apply get_signal_Ok in Hs as [Hs ->].
  apply mret_Ok in H as [-> ->].
  eapply (frame_trans (R := tracks c fn)).
  - by apply (tracks_step c fn st (set_trace (EvRead d (activeEffect st) :: trace st) st)
             (EvRead d (activeEffect st))).
  - destruct (activeEffect st) as [g|].
    + apply subscribers_add_Ok in Hadd as (Ht & _ & _ & Hp & _ & Hw).
      exists []. simpl. split_and!; auto; lia.
    + apply mret_Ok in Hadd as [_ ->]. apply frame_refl.
Qed.

Lemma tracks_alloc_signal c fn v : preserves (tracks c fn) (alloc_signal (mkSignal v [])).
Proof.
  intros st a st' H. unfold alloc_signal in H. inversion H; subst; clear H.
  apply tracks_quiet; [done|]. intros d. apply subscribers_of_alloc.
Qed.

Lemma tracks_log_effect c fn g : preserves (tracks c fn) (log (EvEffect g)).
Proof.
  intros st a st' H. apply log_Ok in H as ->.
  by apply (tracks_step c fn st _ (EvEffect g)).
Qed.

Lemma tracks_log_pass c fn g : preserves (tracks c fn) (log (EvPass g)).
Proof.
  intros st a st' H. apply log_Ok in H as ->.
  by apply (tracks_step c fn st _ (EvPass g)).
Qed.

Lemma tracks_set_activeEffect c fn a :
  preserves (tracks c fn) (modify (set_activeEffect a)).
Proof.
  intros st u st' H. apply modify_Ok in H as ->. by apply tracks_quiet.
Qed.

Lemma tracks_createEffect c fn call g :
  preserves (tracks c fn) (call g) -> preserves (tracks c fn) (createEffect call g).
Proof.
  intros Hc. unfold createEffect.
  repeat (apply preserves_bind; [apply _ | | intros ?]);
    auto using tracks_log_effect, tracks_set_activeEffect.
Qed.

Lemma fanout_count_eq (l k : list nat) i g fn :
  l !! i = Some g -> NoDup (l ++ k) -> fn ∈ l ->
  (if decide (fn ∈ drop i l) then 1 else 0) =
  (if decide (fn ∈ drop (S i) (l ++ k)) then 1 else 0) + (if g =? fn then 1 else 0).
Proof.
  intros Hi Hnd Hin.
  assert (HS : S i <= length l) by (apply lookup_lt_Some in Hi; lia).
  rewrite drop_app_le by done. rewrite (drop_S _ _ _ Hi).
  apply NoDup_app in Hnd as (Hnd1 & Hnk & _).
  assert (Hdrop : NoDup (g :: drop (S i) l)).
  { rewrite <- (drop_S _ _ _ Hi). rewrite <- (take_drop i l) in Hnd1.
    apply NoDup_app in Hnd1. tauto. }
  apply NoDup_cons in Hdrop as [Hg _].
  destruct (Nat.eqb_spec g fn) as [->|Hgf].
  - rewrite decide_True by (apply elem_of_cons; by left).
    rewrite decide_False; [lia|].
    intros Hx. apply elem_of_app in Hx as [Hx|Hx]; [done|]. by apply (Hnk fn).
  - destruct (decide (fn ∈ drop (S i) l)) as [Hd|Hd].
    + rewrite decide_True by (apply elem_of_cons; by right).
      rewrite decide_True by (apply elem_of_app; by left). lia.
    + rewrite decide_False.
      2:{ intros Hx. apply elem_of_cons in Hx as [->|Hx]; done. }
      rewrite decide_False; [lia|].
      intros Hx. apply elem_of_app in Hx as [Hx|Hx]; [done|]. by apply (Hnk fn).
Qed.

Lemma fanout_count_le (l k : list nat) i g fn :
  l !! i = Some g -> NoDup l ->
  (if decide (fn ∈ take (S i) (l ++ k)) then 0 else 1) + (if g =? fn then 1 else 0) <=
  (if decide (fn ∈ take i l) then 0 else 1).
Proof.
  intros Hi Hnd.
  assert (HS : S i <= length l) by (apply lookup_lt_Some in Hi; lia).
  rewrite take_app_le by done. rewrite (take_S_r _ _ _ Hi).
  rewrite <- (take_drop i l), (drop_S _ _ _ Hi) in Hnd.
  apply NoDup_app in Hnd as (_ & Hnk & _).
  destruct (Nat.eqb_spec g fn) as [->|Hgf].
  - rewrite decide_True by (apply elem_of_app; right; apply elem_of_cons; by left).
    rewrite decide_False; [lia|].
    intros Hx. apply (Hnk fn Hx). apply elem_of_cons; by left.
  - destruct (decide (fn ∈ take i l)) as [Hd|Hd].
    + rewrite decide_True by (apply elem_of_app; by left). lia.
    + destruct (decide (fn ∈ take i l ++ [g])); lia.
Qed.

(** The fan-out from position [i]: besides what the calls keep, the
    function [fn] runs once if it stands at [i] or later. *)
Lemma tracks_forEach_subscribers c fn call :
  (forall g, preserves (tracks c fn) (call g)) ->
  forall bound d i st u st',
  forEach_subscribers call bound d i st = Ok u st' ->
  exists evs,
    trace st' = evs ++ trace st /\
    (forall d, subscribers_of d st `prefix_of` subscribers_of d st') /\
    (subscribers_wf st -> subscribers_wf st') /\
    (subscribers_wf st -> fn ∈ subscribers_of c st ->
       count_events (is_run c fn) evs =
       count_events (is_write c) evs +
       (if d =? c then if decide (fn ∈ drop i (subscribers_of c st)) then 1 else 0
        else 0)) /\
    (subscribers_wf st ->
       count_events (is_run_of fn) evs <=
       count_events is_any_write evs +
       (if decide (fn ∈ take i (subscribers_of d st)) then 0 else 1)).
Proof.
  intros Hcall. induction bound as [|bound IH]; intros d i st u st' H.
  - simpl in H. apply bind_Ok in H as (s & st1 & Hs & H).
    apply get_signal_Ok in Hs as [Hs ->].
    destruct (subscribers s !! i) as [g|] eqn:Hi; [discriminate|].
    apply mret_Ok in H as [_ ->]. exists []. simpl. split_and!; auto; try lia.
    intros _ _. destruct (Nat.eqb_spec d c) as [->|]; [|done].
    rewrite decide_False; [done|]. intros Hin.
    unfold subscribers_of in Hin. rewrite Hs in Hin.
    apply lookup_ge_None in Hi. rewrite drop_ge in Hin by done. inversion Hin.
  - simpl in H. apply bind_Ok in H as (s & st1 & Hs & H).
    apply get_signal_Ok in Hs as [Hs ->].
    assert (Hsub : subscribers_of d st = subscribers s)
      by (unfold subscribers_of; by rewrite Hs).
    destruct (subscribers s !! i) as [g|] eqn:Hi.
    + apply bind_Ok in H as (u1 & st1 & Hl & H). apply log_Ok in Hl as ->.
      apply bind_Ok in H as (u2 & st2 & Hc & H).
      apply Hcall in Hc as (e1 & T1 & P1 & W1 & C1 & L1).
      apply IH in H as (e2 & T2 & P2 & W2 & C2 & L2).
      simpl in T1. exists (e2 ++ e1 ++ [EvRun d g]).
      assert (Hwf1 : subscribers_wf st ->
                subscribers_wf (set_trace (EvRun d g :: trace st) st)) by done.
      split_and!.
      * rewrite T2, T1, <- !app_assoc. done.
      * intros d'. etrans; [apply (P1 d') | apply P2].
      * auto.
      * intros Hwf Hin. rewrite !count_events_app. simpl.
        rewrite C1 by auto. rewrite C2; [|auto|].
        2:{ eapply prefix_elem_of; [apply P1 | done]. }
        destruct (Nat.eqb_spec d c) as [->|Hdc]; simpl; [|lia].
        destruct (P1 c) as [k Hk]. simpl in Hk.
        change (subscribers_of c (set_trace (EvRun c g :: trace st) st))
          with (subscribers_of c st) in Hk.
        rewrite Hk, Hsub in *.
        assert (Hnd : NoDup (subscribers s ++ k)).
        { rewrite <- Hk. apply subscribers_wf_alt. auto. }
        rewrite (fanout_count_eq (subscribers s) k i g fn) by done. lia.
      * intros Hwf. rewrite !count_events_app. simpl.
        specialize (L1 (Hwf1 Hwf)). specialize (L2 (W1 (Hwf1 Hwf))).
        destruct (P1 d) as [k Hk]. simpl in Hk.
        change (subscribers_of d (set_trace (EvRun d g :: trace st) st))
          with (subscribers_of d st) in Hk.
        rewrite Hk, Hsub in *.
        assert (Hnd : NoDup (subscribers s)).
        { rewrite <- Hsub. apply subscribers_wf_alt. auto. }
        pose proof (fanout_count_le (subscribers s) k i g fn Hi Hnd). lia.
    + apply mret_Ok in H as [_ ->]. exists []. simpl. split_and!; auto; try lia.
      intros _ _. destruct (Nat.eqb_spec d c) as [->|]; [|done].
      rewrite decide_False; [done|]. intros Hin.
      rewrite Hsub in Hin.
      apply lookup_ge_None in Hi. rewrite drop_ge in Hin by done. inversion Hin.
Qed.

Lemma tracks_set c fn fuel run call d nv :
  (forall p, preserves (tracks c fn) (run p)) ->
  (forall g, preserves (tracks c fn) (call g)) ->
  preserves (tracks c fn) (set fuel run call d nv).
Proof.
  intros Hrun Hcall st u st' H. unfold set in H.
  apply bind_Ok in H as (v & st1 & Hv & H).
  assert (T0 : tracks c fn st st1).
  { destruct nv as [v0|upd].
    - apply mret_Ok in Hv as [_ ->]. apply frame_refl.
    - apply bind_Ok in Hv as (s & st0 & Hs & Hv).
      apply get_signal_Ok in Hs as [_ ->]. eapply Hrun; eauto. }
  apply bind_Ok in H as (s & st1' & Hs & H). apply get_signal_Ok in Hs as [Hs ->].
  apply bind_Ok in H as (u1 & st2 & Hp & H). apply modify_Ok in Hp as ->.
  apply bind_Ok in H as (u2 & st3 & Hl & H). apply log_Ok in Hl as ->.
  apply (tracks_forEach_subscribers c fn call Hcall) in H
    as (e2 & T2 & P2 & W2 & C2 & L2).
  destruct T0 as (e1 & T1 & P1 & W1 & C1 & L1).
  assert (Hd : d < length (signals st1)) by (eapply lookup_lt_Some; eauto).
  set (st2 := set_trace _ _) in *.
  assert (Hsame : forall x, subscribers_of x st2 = subscribers_of x st1).
  { intros x. unfold st2. rewrite subscribers_of_set_trace.
    rewrite subscribers_of_put by done. destruct (decide (x = d)) as [->|Hx]; [|done].
    simpl. unfold subscribers_of. by rewrite Hs. }
  assert (Hwf2 : subscribers_wf st1 -> subscribers_wf st2).
  { rewrite !subscribers_wf_alt. intros Hw x. rewrite Hsame. apply Hw. }
  exists (e2 ++ [EvWrite d v] ++ e1). split_and!.
  - rewrite T2. unfold st2 at 1. simpl. rewrite T1. by rewrite <- !app_assoc.
  - intros x. etrans; [apply P1|]. rewrite <- Hsame. apply P2.
  - auto.
  - intros Hwf Hin. rewrite !count_events_app. simpl.
    rewrite C1 by done. rewrite C2; [|auto|].
    2:{ rewrite Hsame. eapply prefix_elem_of; [apply P1 | done]. }
    destruct (Nat.eqb_spec d c) as [->|Hdc]; simpl; [|lia].
    rewrite drop_0, decide_True; [lia|].
    rewrite Hsame. eapply prefix_elem_of; [apply P1 | done].
  - intros Hwf. rewrite !count_events_app. simpl.
    specialize (L1 Hwf). specialize (L2 (Hwf2 (W1 Hwf))).
    rewrite take_0 in L2. rewrite decide_False in L2 by (intros Hx; inversion Hx). lia.
Qed.

#[export] Instance tracks_CoreFrame c fn : CoreFrame (tracks c fn).
Proof.
  split.
  - apply tracks_log_pass.
  - apply tracks_get.
  - intros. by apply tracks_set.
  - intros. by apply tracks_createEffect.
  - apply tracks_alloc_signal.
Qed.

(** ** Relations that every step of a writer keeps *)

Lemma quiet_forEach_subscribers R `{!Base R} `{!Quiet R} call :
  (forall g, preserves R (call g)) ->
  forall bound d i, preserves R (forEach_subscribers call bound d i).
Proof.
  intros Hcall. induction bound as [|bound IH]; intros d i; simpl.
  - apply preserves_bind; [done | apply preserves_get_signal; done |].
    intros s. destruct (subscribers s !! i); [apply preserves_out_of_fuel|].
    by apply preserves_ret.
  - apply preserves_bind; [done | apply preserves_get_signal; done |].
    intros s. destruct (subscribers s !! i); [|by apply preserves_ret].
    apply preserves_bind; [done | apply quiet_log_run |]. intros _.
    apply preserves_bind; [done | apply Hcall |]. intros _. apply IH.
Qed.

Lemma quiet_set R `{!Base R} `{!Quiet R} fuel run call d nv :
  (forall p, preserves R (run p)) -> (forall g, preserves R (call g)) ->
  preserves R (set fuel run call d nv).
Proof.
  intros Hrun Hcall. unfold set.
  apply preserves_bind; [done | |].
  { destruct nv; [by apply preserves_ret|].
    apply preserves_bind; [done | apply preserves_get_signal; done | auto]. }
  intros v st u st' H.
  apply bind_Ok in H as (s & st1 & Hs & H). apply get_signal_Ok in Hs as [Hs ->].
  apply bind_Ok in H as (u1 & st2 & Hp & H). apply modify_Ok in Hp as ->.
  assert (Hd : d < length (signals st)) by (eapply lookup_lt_Some; eauto).
  eapply base_trans.
  2:{ eapply (preserves_bind R (log (EvWrite d v))
                 (fun _ => forEach_subscribers call fuel d 0));
        [apply quiet_log_write | intros _; by apply quiet_forEach_subscribers | exact H]. }
  apply quiet_same; [done | done |]. intros x.
  rewrite subscribers_of_put by done. destruct (decide (x = d)) as [->|]; [|done].
  simpl. unfold subscribers_of. by rewrite Hs.
Qed.

Lemma quiet_alloc_signal R `{!Quiet R} v : preserves R (alloc_signal (mkSignal v [])).
Proof.
  intros st a st' H. unfold alloc_signal in H. inversion H; subst; clear H.
  apply quiet_same; [done | done |]. intros d. apply subscribers_of_alloc.
Qed.

(** ** The events of a run before its first nested [createEffect] *)

Lemma count_events_rev p (l : list event) :
  count_events p (rev l) = count_events p l.
Proof.
  induction l as [|e l IH]; simpl; [done|].
  rewrite count_events_app. simpl. lia.
Qed.

Lemma until_effect_quiet l :
  count_events is_effect l = 0 -> until_effect l = l.
Proof.
  induction l as [|e l IH]; simpl; [done|].
  destruct (is_effect e); [discriminate|]. simpl. intros H. by rewrite IH.
Qed.

Lemma until_effect_app l1 l2 :
  until_effect (l1 ++ l2) =
  if decide (count_events is_effect l1 = 0) then l1 ++ until_effect l2
  else until_effect l1.
Proof.
  induction l1 as [|e l1 IH]; simpl; [done|].
  destruct (is_effect e); simpl; [done|].
  rewrite IH. by destruct (decide (count_events is_effect l1 = 0)).
Qed.

Lemma own_events_app e2 e1 :
  own_events (e2 ++ e1) =
  if decide (count_events is_effect e1 = 0) then rev e1 ++ own_events e2
  else own_events e1.
Proof.
  unfold own_events. rewrite rev_app_distr, until_effect_app.
  by rewrite count_events_rev.
Qed.

Lemma own_events_quiet evs :
  count_events is_effect evs = 0 -> own_events evs = rev evs.
Proof.
  intros H. unfold own_events. apply until_effect_quiet. by rewrite count_events_rev.
Qed.

(** ** The library keeps [scoped] *)

#[export] Instance scoped_Quiet : Quiet scoped.
Proof.
  split.
  - intros st st' Ht Ha Hs. exists []. simpl. split_and!; auto.
    + intros c. by rewrite Hs.
    + intros c a H. inversion H.
  - intros c v st u st' H. apply log_Ok in H as ->. exists [EvWrite c v].
    split_and!; auto.
    intros d a H. unfold own_events in H. simpl in H.
    apply list_elem_of_singleton in H. discriminate.
  - intros c fn st u st' H. apply log_Ok in H as ->. exists [EvRun c fn].
    split_and!; auto.
    intros d a H. unfold own_events in H. simpl in H.
    apply list_elem_of_singleton in H. discriminate.
  - intros fn st u st' H. apply log_Ok in H as ->. exists [EvPass fn].
    split_and!; auto.
    intros d a H. unfold own_events in H. simpl in H.
    apply list_elem_of_singleton in H. discriminate.
Qed.

#[export] Instance scoped_Frame : Frame scoped.
Proof.
  split; try (intros; by apply quiet_same).
  intros s1 s2 s3 (e1 & T1 & A1 & P1 & R1) (e2 & T2 & A2 & P2 & R2).
  exists (e2 ++ e1). rewrite T2, T1, app_assoc. split_and!.
  - done.
  - rewrite count_events_app. intros H.
    rewrite A2, A1 by lia. done.
  - intros d. etrans; [apply P1 | apply P2].
  - intros c a. rewrite own_events_app.
    destruct (decide (count_events is_effect e1 = 0)) as [Hq|Hq].
    + rewrite elem_of_app. intros [H|H].
      * rewrite <- own_events_quiet in H by done.
        destruct (R1 c a H) as [-> Hf]. split; [done|].
        intros f E. eapply prefix_elem_of; [apply P2 | auto].
      * destruct (R2 c a H) as [-> Hf]. split; [by apply A1 | done].
    + intros H. destruct (R1 c a H) as [-> Hf]. split; [done|].
      intros f E. eapply prefix_elem_of; [apply P2 | auto].
Qed.

Lemma scoped_get c : preserves scoped (get c).
Proof.
  intros st v st'. unfold get. intros H.
  apply bind_Ok in H as (a & st1 & Ha & H). apply gets_Ok in Ha as [-> ->].
  apply bind_Ok in H as (u & st2 & Hl & H). apply log_Ok in Hl as ->.
  apply bind_Ok in H as (u' & st3 & Hadd & H).
  apply bind_Ok in H as (s & st4 & Hs & H). apply get_signal_Ok in Hs as [Hs ->].
  apply mret_Ok in H as [-> ->].
  exists [EvRead c (activeEffect st)].
  destruct (activeEffect st) as [g|] eqn:Ea.
  - apply subscribers_add_Ok in Hadd as (Ht & Hact & Hin & Hp & _ & _).
    simpl in *. split_and!; auto.
    + intros _. by rewrite Hact.
    + intros d a H. unfold own_events in H. simpl in H.
      apply list_elem_of_singleton in H. injection H as -> ->.
      split; [done|]. by intros f [= <-].
  - apply mret_Ok in Hadd as [_ ->]. simpl. split_and!; auto.
    intros d a H. unfold own_events in H. simpl in H.
    apply list_elem_of_singleton in H. injection H as -> ->.
    split; [done | discriminate].
Qed.

Lemma scoped_createEffect call fn :
  preserves scoped (call fn) -> preserves scoped (createEffect call fn).
Proof.
  intros Hc st u st' H. unfold createEffect in H.
  apply bind_Ok in H as (u1 & st1 & Hl & H). apply log_Ok in Hl as ->.
  apply bind_Ok in H as (u2 & st2 & Hm & H). apply modify_Ok in Hm as ->.
  apply bind_Ok in H as (u3 & st3 & Hcall & H). apply modify_Ok in H as ->.
  apply Hc in Hcall as (e & T & A & P & R).
  unfold set_activeEffect, set_trace in *; simpl in *.
  exists (e ++ [EvEffect fn]). split_and!.
  - by rewrite T, <- app_assoc.
  - rewrite count_events_app. simpl. lia.
  - apply P.
  - intros c a. rewrite own_events_app. rewrite decide_False by (simpl; lia).
    unfold own_events. simpl. intros H. inversion H.
Qed.

#[export] Instance scoped_CoreFrame : CoreFrame scoped.
Proof.
  split.
  - apply quiet_log_pass.
  - apply scoped_get.
  - intros fuel run call c nv Hr Hc. apply quiet_set; [apply _ | apply _ | exact Hr | exact Hc].
  - intros. by apply scoped_createEffect.
  - intros. apply quiet_alloc_signal. apply _.
Qed.

(** ** The library keeps [unregistered] *)

#[export] Instance unregistered_Quiet fn : Quiet (unregistered fn).
Proof.
  split.
  - intros st st' Ht Ha Hs. exists []. simpl. split; [done|].
    intros Hne _. rewrite Ha. split; [done|]. intros d. by rewrite Hs.
  - intros c v st u st' H. apply log_Ok in H as ->. exists [EvWrite c v].
    split; [done|]. auto.
  - intros c g st u st' H. apply log_Ok in H as ->. exists [EvRun c g].
    split; [done|]. auto.
  - intros g st u st' H. apply log_Ok in H as ->. exists [EvPass g].
    split; [done|]. auto.
Qed.

#[export] Instance unregistered_Frame fn : Frame (unregistered fn).
Proof.
  split; try (intros; by apply quiet_same).
  intros s1 s2 s3 (e1 & T1 & U1) (e2 & T2 & U2).
  exists (e2 ++ e1). rewrite T2, T1, app_assoc. split; [done|].
  rewrite count_events_app. intros Hne Hc.
  destruct U1 as [Hne1 S1]; [done | lia |].
  destruct U2 as [Hne2 S2]; [done | lia |]. split; auto.
Qed.

Lemma unregistered_get fn c : preserves (unregistered fn) (get c).
Proof.
  intros st v st'. unfold get. intros H.
  apply bind_Ok in H as (a & st1 & Ha & H). apply gets_Ok in Ha as [-> ->].
  apply bind_Ok in H as (u & st2 & Hl & H). apply log_Ok in Hl as ->.
  apply bind_Ok in H as (u' & st3 & Hadd & H).
  apply bind_Ok in H as (s & st4 & Hs & H). apply get_signal_Ok in Hs as [Hs ->].
  apply mret_Ok in H as [-> ->].
  exists [EvRead c (activeEffect st)]. split.
  - destruct (activeEffect st) as [g|].
    + apply subscribers_add_Ok in Hadd as (Ht & _). by rewrite Ht.
    + by apply mret_Ok in Hadd as [_ ->].
  - intros Hne _. destruct (activeEffect st) as [g|] eqn:Ea.
    + apply subscribers_add_Ok in Hadd as (_ & Hact & _ & _ & Hnew & _).
      simpl in *. rewrite Hact, Ea. split; [done|].
      intros d Hin. apply Hnew in Hin as [Hin|[-> ->]]; [done | congruence].
    + apply mret_Ok in Hadd as [_ ->]. simpl. by rewrite Ea.
Qed.

Lemma unregistered_createEffect fn call g :
  preserves (unregistered fn) (call g) ->
  preserves (unregistered fn) (createEffect call g).
Proof.
  intros Hc st u st' H. unfold createEffect in H.
  apply bind_Ok in H as (u1 & st1 & Hl & H). apply log_Ok in Hl as ->.
  apply bind_Ok in H as (u2 & st2 & Hm & H). apply modify_Ok in Hm as ->.
  apply bind_Ok in H as (u3 & st3 & Hcall & H). apply modify_Ok in H as ->.
  apply Hc in Hcall as (e & T & U).
  unfold set_activeEffect, set_trace in *; simpl in *.
  exists (e ++ [EvEffect g]). split; [by rewrite T, <- app_assoc|].
  rewrite count_events_app. simpl. intros Hne Hcount.
  destruct (Nat.eqb_spec g fn) as [->|Hg]; [lia|].
  destruct U as [_ S]; [congruence | lia |]. split; [done | exact S].
Qed.

#[export] Instance unregistered_CoreFrame fn : CoreFrame (unregistered fn).
Proof.
  split.
  - apply quiet_log_pass.
  - apply unregistered_get.
  - intros fuel run call c nv Hr Hc. apply quiet_set; [apply _ | apply _ | exact Hr | exact Hc].
  - intros. by apply unregistered_createEffect.
  - intros. apply quiet_alloc_signal. apply _.
Qed.

(** ** The reactive core: registration and re-runs *)









(** ** [createEffect] *)



(** C10.  The writer does not touch the active effect: while no re-run
    effect calls [createEffect], every read of the fan-out is made under
    the active effect of the moment of the write, which is still the active
    effect when the writer returns.  So a function [fn] that is not the
    active effect at the write, and is not passed to [createEffect] again
    inside the fan-out, has the same subscriptions after the write as
    before, whatever cells its re-run read. *)
Theorem set_rerun_registers_nothing JS n c nv fn st u st' :
  set n (exec JS n) (invoke JS n) c nv st = Ok u st' ->
  exists evs,
    trace st' = evs ++ trace st /\
    (count_events is_effect evs = 0 ->
       activeEffect st' = activeEffect st /\
       forall d a, EvRead d a ∈ evs -> a = activeEffect st) /\
    (activeEffect st <> Some fn -> count_events (is_effect_of fn) evs = 0 ->
       forall d, fn ∈ subscribers_of d st' <-> fn ∈ subscribers_of d st).
Proof.
  intros H. pose proof H as H'.
  apply (quiet_set scoped) in H as (evs & T & A & P & R);
    try (intros; apply (exec_preserves scoped JS n)).
  apply (quiet_set (unregistered fn)) in H' as (evs' & T' & U);
    try (intros; apply (exec_preserves (unregistered fn) JS n)).
  assert (evs' = evs) as -> by (rewrite T in T'; by apply app_inv_tail in T').
  exists evs. split_and!; auto.
  - intros Hq. split; [auto|]. intros d a Hin.
    apply (R d a). rewrite own_events_quiet by done.
    apply list_elem_of_In. apply -> in_rev. by apply list_elem_of_In.
  - intros Hne Hc d. split.
    + by apply U.
    + intros Hin. eapply prefix_elem_of; [apply P | done].
Qed.





Lemma set_rerun_registers_nothing_witness :
  exists evs,
    trace (final_state
             (set 6 (exec demo_stringify 6) (invoke demo_stringify 6) 0
                (inl (VNum 1)) late_reader))
      = evs ++ trace late_reader /\
    (count_events is_effect evs = 0 ->
       activeEffect (final_state
             (set 6 (exec demo_stringify 6) (invoke demo_stringify 6) 0
                (inl (VNum 1)) late_reader)) = activeEffect late_reader /\
       forall d a, EvRead d a ∈ evs -> a = activeEffect late_reader) /\
    (activeEffect late_reader <> Some 0 -> count_events (is_effect_of 0) evs = 0 ->
       forall d,
         0 ∈ subscribers_of d (final_state
             (set 6 (exec demo_stringify 6) (invoke demo_stringify 6) 0
                (inl (VNum 1)) late_reader))
         <-> 0 ∈ subscribers_of d late_reader).
Proof.
  apply (set_rerun_registers_nothing demo_stringify 6 0 (inl (VNum 1)) 0 late_reader tt).
  vm_compute. reflexivity.
Defined.

(** In [late_reader] the re-run did read cell 1, and cell 1 has no
    subscriber afterwards. *)
Example late_reader_reads_cell_1 :
  let st' := final_state
               (set 6 (exec demo_stringify 6) (invoke demo_stringify 6) 0
                  (inl (VNum 1)) late_reader) in
  new_events late_reader st' = [EvRead 1 None; EvRead 0 None; EvRun 0 0; EvWrite 0 (VNum 1)] /\
  subscribers_of 1 st' = [].
Proof. vm_compute. split; reflexivity. Qed.

(** ** Running straight-line code on a symbolic state *)

Lemma run_bind {A B} (m : M A) (f : A -> M B) st a st1 r :
  m st = Ok a st1 -> f a st1 = r -> (m ≫= f) st = r.
Proof. intros H <-. by apply bind_eq. Qed.

Lemma get_node_eq n st nd : nodes st !! n = Some nd -> get_node n st = Ok nd st.
Proof. intros H. unfold get_node. by rewrite H. Qed.

Lemma get_element_eq n st nd :
  nodes st !! n = Some nd -> is_element nd = true -> get_element n st = Ok nd st.
Proof.
  intros H He. unfold get_element. erewrite bind_eq by (by apply get_node_eq).
  by rewrite He.
Qed.

Lemma get_function_eq fn st cl :
  functions st !! fn = Some cl -> get_function fn st = Ok cl st.
Proof. intros H. unfold get_function. by rewrite H. Qed.

Lemma get_signal_eq c st s : signals st !! c = Some s -> get_signal c st = Ok s st.
Proof. intros H. unfold get_signal. by rewrite H. Qed.

Lemma get_record_eq r st x : records st !! r = Some x -> get_record r st = Ok x st.
Proof. intros H. unfold get_record. by rewrite H. Qed.

Lemma get_object_eq r st c : heap st !! r = Some c -> get_object r st = Ok c st.
Proof. intros H. unfold get_object. by rewrite H. Qed.

(** Lookups in a list grown at its end. *)
Lemma lookup_app_at {A} (l : list A) x k : (l ++ x :: k) !! length l = Some x.
Proof. by apply list_lookup_middle. Qed.

Lemma lookup_app_at_S {A} (l : list A) x y k : (l ++ x :: y :: k) !! S (length l) = Some y.
Proof.
  replace (l ++ x :: y :: k) with ((l ++ [x]) ++ y :: k) by (by rewrite <- app_assoc).
  apply list_lookup_middle. rewrite length_app. simpl. lia.
Qed.

Lemma insert_app_at {A} (l : list A) x y k :
  <[length l := y]> (l ++ x :: k) = l ++ y :: k.
Proof.
  rewrite insert_app_r_alt by lia. by rewrite Nat.sub_diag.
Qed.

Lemma insert_app_at_S {A} (l : list A) x y z k :
  <[S (length l) := z]> (l ++ x :: y :: k) = l ++ x :: z :: k.
Proof.
  rewrite insert_app_r_alt by lia.
  replace (S (length l) - length l) with 1 by lia. done.
Qed.

Lemma inclusive_ancestor_root fuel ns a n nd :
  a <> n -> ns !! n = Some nd -> parentNode nd = None ->
  inclusive_ancestor fuel ns a n = false.
Proof.
  intros Hne Hn Hp. destruct fuel; simpl.
  - by apply Nat.eqb_neq in Hne as ->.
  - apply Nat.eqb_neq in Hne as ->. by rewrite Hn, Hp.
Qed.

Lemma lookup_app_at_SS {A} (l : list A) x y z k :
  (l ++ x :: y :: z :: k) !! S (S (length l)) = Some z.
Proof.
  replace (l ++ x :: y :: z :: k) with ((l ++ [x; y]) ++ z :: k)
    by (by rewrite <- app_assoc).
  apply list_lookup_middle. rewrite length_app. simpl. lia.
Qed.

Lemma insert_app_at_SS {A} (l : list A) x y z w k :
  <[S (S (length l)) := w]> (l ++ x :: y :: z :: k) = l ++ x :: y :: w :: k.
Proof.
  rewrite insert_app_r_alt by lia.
  replace (S (S (length l)) - length l) with 2 by lia. done.
Qed.

(** *** What each DOM call returns, given the nodes it reads *)

Lemma createElement_eq tag a rest st :
  tag = String a rest -> is_digit a = false ->
  document_createElement tag st =
  Ok (length (nodes st))
     (set_nodes (nodes st ++ [new_node (Element (to_lower tag)) ""]) st).
Proof. intros -> Ha. unfold document_createElement. by rewrite Ha. Qed.

Lemma set_id_eq e s st nd :
  nodes st !! e = Some nd -> is_element nd = true ->
  set_id e s st = Ok tt (set_nodes (<[e := with_id s nd]> (nodes st)) st).
Proof.
  intros H He. unfold set_id. by erewrite bind_eq by (by apply get_element_eq).
Qed.

Lemma set_className_eq e s st nd :
  nodes st !! e = Some nd -> is_element nd = true ->
  set_className e s st =
  Ok tt (set_nodes (<[e := with_classList (tokens s) nd]> (nodes st)) st).
Proof.
  intros H He. unfold set_className. by erewrite bind_eq by (by apply get_element_eq).
Qed.

Lemma classList_add_eq e tok st nd :
  nodes st !! e = Some nd -> is_element nd = true ->
  is_empty tok = false -> existsb_string is_space tok = false ->
  classList_add e tok st =
  Ok tt (if mem_string tok (classList nd) then st
         else set_nodes (<[e := with_classList (classList nd ++ [tok]) nd]> (nodes st)) st).
Proof.
  intros H He H1 H2. unfold classList_add.
  erewrite bind_eq by (by apply get_element_eq).
  unfold check_token. rewrite H1, H2. unfold mbind, M_bind. simpl.
  by destruct (mem_string tok (classList nd)).
Qed.

Lemma set_nodes_id st : set_nodes (nodes st) st = st.
Proof. by destruct st. Qed.

(** The same, as one update of the class list. *)
Lemma classList_add_set e tok st nd :
  nodes st !! e = Some nd -> is_element nd = true ->
  is_empty tok = false -> existsb_string is_space tok = false ->
  classList_add e tok st =
  Ok tt (set_nodes
           (<[e := with_classList (if mem_string tok (classList nd) then classList nd
                                   else classList nd ++ [tok]) nd]> (nodes st)) st).
Proof.
  intros H He H1 H2. rewrite (classList_add_eq e tok st nd) by done.
  destruct (mem_string tok (classList nd)); [|done].
  replace (with_classList (classList nd) nd) with nd by (by destruct nd).
  by rewrite list_insert_id, set_nodes_id.
Qed.

Lemma classList_remove_eq e tok st nd :
  nodes st !! e = Some nd -> is_element nd = true ->
  is_empty tok = false -> existsb_string is_space tok = false ->
  classList_remove e tok st =
  Ok tt (set_nodes (<[e := with_classList (remove_string tok (classList nd)) nd]>
                      (nodes st)) st).
Proof.
  intros H He H1 H2. unfold classList_remove.
  erewrite bind_eq by (by apply get_element_eq).
  unfold check_token. rewrite H1, H2. reflexivity.
Qed.

Lemma classList_contains_eq e tok st nd :
  nodes st !! e = Some nd -> is_element nd = true ->
  classList_contains e tok st = Ok (mem_string tok (classList nd)) st.
Proof.
  intros H He. unfold classList_contains.
  by erewrite bind_eq by (by apply get_element_eq).
Qed.

Lemma setAttribute_eq e name v st nd :
  nodes st !! e = Some nd -> is_element nd = true ->
  is_name name = true ->
  String.eqb (to_lower name) "id" = false ->
  String.eqb (to_lower name) "class" = false ->
  setAttribute e name v st =
  Ok tt (set_nodes (<[e := with_attrs (assoc_set (to_lower name) v (attrs nd)) nd]>
                      (nodes st)) st).
Proof.
  intros H He Hn H1 H2. unfold setAttribute.
  erewrite bind_eq by (by apply get_element_eq). by rewrite Hn, H1, H2.
Qed.

Lemma is_ascii_name_name s : is_ascii_name s = true -> is_name s = true.
Proof. unfold is_ascii_name. by intros [_ H]%andb_true_iff. Qed.

Lemma addEventListener_eq e ev h st nd :
  nodes st !! e = Some nd ->
  addEventListener e ev h st =
  Ok tt (set_nodes (<[e := with_listeners (listeners nd ++ [(ev, h)]) nd]> (nodes st)) st).
Proof.
  intros H. unfold addEventListener. by erewrite bind_eq by (by apply get_node_eq).
Qed.

(** Appending a node that has no parent. *)
Lemma appendChild_detached_eq p n st pn nd :
  nodes st !! p = Some pn -> nodes st !! n = Some nd ->
  is_element pn = true -> parentNode nd = None -> p <> n ->
  inclusive_ancestor (length (nodes st)) (nodes st) n p = false ->
  appendChild p n st =
  Ok tt (set_nodes (<[n := with_parent (Some p) nd]>
                      (<[p := with_children (childNodes pn ++ [n]) pn]> (nodes st))) st).
Proof.
  intros Hp Hn He Hd Hne Hanc. unfold appendChild, ensure_pre_insert.
  eapply run_bind.
  { eapply run_bind; [by apply get_node_eq|].
    eapply run_bind; [by apply get_node_eq|].
    rewrite He. simpl. unfold contains.
    eapply run_bind; [reflexivity|]. by rewrite Hanc. }
  eapply run_bind.
  { unfold detach. eapply run_bind; [by apply get_node_eq|]. by rewrite Hd. }
  unfold link.
  eapply run_bind; [by apply get_node_eq|].
  eapply run_bind; [reflexivity|].
  eapply run_bind.
  { apply get_node_eq. simpl. rewrite list_lookup_insert_ne by done. exact Hn. }
  reflexivity.
Qed.

(** ** [parseEmmet] and [createComponent] on ["div#root.a.b>span.c"] *)

Lemma inclusive_ancestor_up fuel ns a n nd p pn :
  a <> n -> a <> p -> ns !! n = Some nd -> parentNode nd = Some p ->
  ns !! p = Some pn -> parentNode pn = None ->
  inclusive_ancestor fuel ns a n = false.
Proof.
  intros Hn Hp Hl Hpar Hlp Hroot. destruct fuel; simpl.
  - by apply Nat.eqb_neq in Hn as ->.
  - apply Nat.eqb_neq in Hn as ->. rewrite Hl, Hpar.
    by eapply inclusive_ancestor_root.
Qed.

Lemma parseEmmet_div_span st :
  let r := length (nodes st) in
  parseEmmet "div#root.a.b>span.c" st =
  Ok (r, S r)
    (set_nodes
       (nodes st ++
        [mkNode (Element "div") None [S r] "root" ["a"; "b"]%string [] [] "" "";
         mkNode (Element "span") (Some r) [] "" ["c"]%string [] [] "" ""])
       st).
Proof.
  intros r. subst r. unfold parseEmmet.
  change (split ">" "div#root.a.b>span.c") with ["div#root.a.b"; "span.c"]%string.
  unfold parseEmmet_loop.
  change (regex_match "div#root.a.b") with (Some "div", Some "root", Some "a.b")%string.
  change (regex_match "span.c") with (Some "span", @None string, Some "c")%string.
  cbn [default from_option id is_empty negb when].
  change (join " " (split "." "a.b")) with "a b"%string.
  change (join " " (split "." "c")) with "c"%string.
  eapply run_bind.
  { eapply run_bind; [eapply createElement_eq; reflexivity|].
    eapply run_bind.
    { apply set_id_eq; [apply lookup_app_at | done]. }
    eapply run_bind.
    { apply set_className_eq;
        [cbn [nodes set_nodes]; rewrite insert_app_at; apply lookup_app_at | done]. }
    cbn [nodes set_nodes]. rewrite !insert_app_at.
    eapply run_bind; [reflexivity|].
    eapply run_bind; [eapply createElement_eq; reflexivity|].
    eapply run_bind; [reflexivity|].
    cbn [nodes set_nodes]. rewrite <- app_assoc. cbn [app].
    replace (length (nodes st ++ [_])) with (S (length (nodes st)))
      by (rewrite length_app; simpl; lia).
    eapply run_bind.
    { apply set_className_eq; [apply lookup_app_at_S | done]. }
    cbn [nodes set_nodes]. rewrite insert_app_at_S.
    eapply run_bind.
    { eapply run_bind.
      { apply appendChild_detached_eq;
          [apply lookup_app_at | apply lookup_app_at_S | done | done | lia |].
        cbn [nodes set_nodes].
        eapply inclusive_ancestor_root; [lia | apply lookup_app_at | done]. }
      reflexivity. }
    reflexivity. }
  cbn [nodes set_nodes]. rewrite insert_app_at, insert_app_at_S. reflexivity.
Qed.

(** The tag path alone. *)
Lemma createComponent_div_span_plain run call st :
  let r := length (nodes st) in
  createComponent run call (mkOptions "div#root.a.b>span.c" None None None None) st =
  Ok r
    (set_nodes
       (nodes st ++
        [mkNode (Element "div") None [S r] "root" ["a"; "b"]%string [] [] "" "";
         mkNode (Element "span") (Some r) [] "" ["c"]%string [] [] "" ""])
       st).
Proof.
  intros r. subst r.
  unfold createComponent. cbn [tagName classes events attributes children].
  eapply run_bind; [apply parseEmmet_div_span|]. reflexivity.
Qed.

(** The tag path with a class, a listener, an attribute and a text child. *)
Lemma createComponent_div_span_full run call st k ev h a v t :
  let r := length (nodes st) in
  is_empty k = false -> existsb_string is_space k = false ->
  is_name a = true ->
  String.eqb (to_lower a) "id" = false -> String.eqb (to_lower a) "class" = false ->
  is_empty t = false ->
  createComponent run call
    (mkOptions "div#root.a.b>span.c" (Some (ChildrenOne (ChildStr t)))
       (Some (ClassesOne (ClassStr k))) (Some [(ev, h)]) (Some [(a, AttrStr v)])) st =
  Ok r
    (set_nodes
       (nodes st ++
        [mkNode (Element "div") None [S r] "root" ["a"; "b"]%string [] [] "" "";
         mkNode (Element "span") (Some r) [S (S r)] ""
           (if mem_string k ["c"%string] then ["c"%string] else ["c"%string; k])
           [(to_lower a, v)] [(ev, h)] "" "";
         mkNode Text (Some (S r)) [] "" [] [] [] t ""])
       st).
Proof.
  intros r Hk1 Hk2 Hna Ha1 Ha2 Ht. subst r.
  unfold createComponent. cbn [tagName classes events attributes children].
  eapply run_bind; [apply parseEmmet_div_span|].
  cbn [classes_truthy children_truthy]. rewrite Hk1, Ht. cbn [negb].
  eapply run_bind.
  { unfold addClass. apply classList_add_set; [apply lookup_app_at_S | done..]. }
  cbn [classList nodes set_nodes with_classList]. rewrite insert_app_at_S.
  eapply run_bind.
  { cbn [forEach]. eapply run_bind; [|reflexivity].
    apply addEventListener_eq. apply lookup_app_at_S. }
  cbn [nodes set_nodes]. rewrite insert_app_at_S.
  eapply run_bind.
  { cbn [forEach]. eapply run_bind; [|reflexivity].
    unfold addAttribute. apply setAttribute_eq; [apply lookup_app_at_S | done..]. }
  cbn [nodes set_nodes]. rewrite insert_app_at_S.
  eapply run_bind.
  { unfold addChild. eapply run_bind; [reflexivity|].
    cbn [nodes set_nodes]. rewrite <- app_assoc. cbn [app].
    replace (length (nodes st ++ [_; _])) with (S (S (length (nodes st))))
      by (rewrite length_app; simpl; lia).
    apply appendChild_detached_eq;
      [apply lookup_app_at_S | apply lookup_app_at_SS | done | done | lia |].
    cbn [nodes set_nodes].
    eapply (inclusive_ancestor_up _ _ _ _ _ (length (nodes st)));
      [lia | lia | apply lookup_app_at_S | done | apply lookup_app_at | done]. }
  cbn [nodes set_nodes]. rewrite insert_app_at_S, insert_app_at_SS.
  by destruct (mem_string k ["c"%string]).
Qed.

Ltac st_simpl :=
  cbn [activeEffect signals functions nodes heap records trace
       set_activeEffect set_signals set_functions set_nodes set_heap
       set_records set_trace].

Tactic Notation "st_simpl" "in" hyp(H) :=
  cbn [activeEffect signals functions nodes heap records trace
       set_activeEffect set_signals set_functions set_nodes set_heap
       set_records set_trace] in H.

(** ** Class tokens *)

Lemma mem_string_app s l1 l2 :
  mem_string s (l1 ++ l2) = mem_string s l1 || mem_string s l2.
Proof. induction l1; simpl; [done|]. by rewrite IHl1, orb_assoc. Qed.



(** ** The effect of a dynamic class *)

Lemma classEffect_eq run fn e str st st1 new nd ref :
  run str st = Ok (VStr new) st1 ->
  nodes st1 !! e = Some nd -> is_element nd = true ->
  functions st1 !! fn = Some (ClassEffect e str ref) ->
  valid_token new ->
  (truthy ref = true -> valid_token (toString ref)) ->
  classEffect run fn e str st =
  Ok tt (set_functions (<[fn := ClassEffect e str (VStr new)]> (functions st1))
           (set_nodes (<[e := with_classList (class_after new ref (classList nd)) nd]>
                         (nodes st1)) st1)).
Proof.
  intros Hrun Hn He Hf [Hv1 Hv2] Href. unfold classEffect.
  eapply run_bind; [exact Hrun|]. cbn [nullish negb toString].
  eapply run_bind; [by apply classList_contains_eq|].
  assert (Hlen : e < length (nodes st1)) by (by eapply lookup_lt_Some).
  unfold class_after.
  destruct (mem_string new (classList nd)) eqn:Hmem; cbn [negb when].
  - eapply run_bind; [reflexivity|].
    eapply run_bind.
    { unfold get_referenceClass. eapply run_bind; [by apply get_function_eq|]. reflexivity. }
    destruct (truthy ref && negb (strict_eq (VStr new) ref)) eqn:Hc; cbn [when].
    + apply andb_true_iff in Hc as [Ht _]. destruct (Href Ht) as [Hr1 Hr2].
      eapply run_bind; [by apply classList_remove_eq|].
      unfold set_referenceClass.
      eapply run_bind; [by apply get_function_eq|]. reflexivity.
    + eapply run_bind; [reflexivity|].
      unfold set_referenceClass.
      eapply run_bind; [by apply get_function_eq|].
      unfold put_function, modify.
      replace (with_classList (classList nd) nd) with nd by (by destruct nd).
      rewrite (list_insert_id (nodes st1)) by done. by destruct st1.
  - eapply run_bind; [by apply classList_add_eq|]. rewrite Hmem.
    eapply run_bind.
    { unfold get_referenceClass. eapply run_bind; [by apply get_function_eq|]. reflexivity. }
    destruct (truthy ref && negb (strict_eq (VStr new) ref)) eqn:Hc; cbn [when].
    + apply andb_true_iff in Hc as [Ht _]. destruct (Href Ht) as [Hr1 Hr2].
      eapply run_bind.
      { apply classList_remove_eq;
          [st_simpl; by apply list_lookup_insert_eq | done..]. }
      unfold set_referenceClass.
      eapply run_bind; [by apply get_function_eq|].
      unfold put_function, modify. st_simpl. by rewrite list_insert_insert_eq.
    + eapply run_bind; [reflexivity|].
      unfold set_referenceClass.
      eapply run_bind; [by apply get_function_eq|]. reflexivity.
Qed.

(** A producer that returns what the cell [c] holds. *)
Lemma exec_Get_Ret_quiet JS n c st v l :
  signals st !! c = Some (mkSignal v l) -> activeEffect st = None ->
  exec JS (S (S n)) (Get c Ret) st =
  Ok v (set_trace (EvRead c None :: trace st) st).
Proof.
  intros Hs Ha. simpl. unfold get.
  eapply run_bind.
  { eapply run_bind; [reflexivity|]. rewrite Ha.
    eapply run_bind; [reflexivity|].
    eapply run_bind; [reflexivity|].
    eapply run_bind; [by apply get_signal_eq|]. reflexivity. }
  reflexivity.
Qed.

Lemma exec_Get_Ret_first JS n c st v fn :
  signals st !! c = Some (mkSignal v []) -> activeEffect st = Some fn ->
  exec JS (S (S n)) (Get c Ret) st =
  Ok v (set_signals (<[c := mkSignal v [fn]]> (signals st))
          (set_trace (EvRead c (Some fn) :: trace st) st)).
Proof.
  intros Hs Ha. simpl. unfold get.
  assert (Hlen : c < length (signals st)) by (by eapply lookup_lt_Some).
  eapply run_bind.
  { eapply run_bind; [reflexivity|]. rewrite Ha.
    eapply run_bind; [reflexivity|].
    eapply run_bind.
    { unfold subscribers_add. eapply run_bind; [by apply get_signal_eq|]. reflexivity. }
    eapply run_bind.
    { apply get_signal_eq. st_simpl. by apply list_lookup_insert_eq. }
    reflexivity. }
  reflexivity.
Qed.






(** ** Parent chains *)

Lemma inclusive_ancestor_chain fuel ns a n :
  inclusive_ancestor fuel ns a n = mem_nat a (chain fuel ns n).
Proof.
  revert n. induction fuel as [|fuel IH]; intros n; simpl.
  - rewrite (Nat.eqb_sym n a). by destruct (a =? n).
  - rewrite (Nat.eqb_sym n a). destruct (a =? n); [done|]. simpl.
    destruct (ns !! n) as [nd|]; [|done].
    destruct (parentNode nd); [apply IH | done].
Qed.

(** An update off the chain, or one that keeps the parent, keeps the chain. *)
Lemma chain_insert_off fuel ns x nd n :
  x ∉ chain fuel ns n -> chain fuel (<[x := nd]> ns) n = chain fuel ns n.
Proof.
  revert n. induction fuel as [|fuel IH]; intros n Hx; simpl in *; [done|].
  f_equal. apply not_elem_of_cons in Hx as [Hne Hx].
  rewrite list_lookup_insert_ne by done.
  destruct (ns !! n) as [nd'|]; [|done].
  destruct (parentNode nd'); [by apply IH | done].
Qed.

Lemma chain_insert_same_parent fuel ns x nd nd' n :
  ns !! x = Some nd -> parentNode nd' = parentNode nd ->
  chain fuel (<[x := nd']> ns) n = chain fuel ns n.
Proof.
  intros Hx Hp. revert n. induction fuel as [|fuel IH]; intros n; simpl; [done|].
  f_equal. destruct (decide (x = n)) as [->|Hne].
  - rewrite list_lookup_insert_eq by (by eapply lookup_lt_Some).
    rewrite Hx, Hp. destruct (parentNode nd); [apply IH | done].
  - rewrite list_lookup_insert_ne by done.
    destruct (ns !! n) as [nd''|]; [|done].
    destruct (parentNode nd''); [apply IH | done].
Qed.

Lemma chain_app fuel ns new n :
  (forall y, y ∈ chain fuel ns n -> y < length ns) ->
  chain fuel (ns ++ new) n = chain fuel ns n.
Proof.
  revert n. induction fuel as [|fuel IH]; intros n Hb; simpl in *; [done|].
  f_equal. assert (Hn : n < length ns) by (apply Hb; by left).
  rewrite lookup_app_l by done.
  destruct (ns !! n) as [nd|]; [|done].
  destruct (parentNode nd) as [p|]; [|done].
  apply IH. intros y Hy. apply Hb. by right.
Qed.

Lemma chain_more_fuel fuel ns n :
  length (chain fuel ns n) <= fuel -> chain (S fuel) ns n = chain fuel ns n.
Proof.
  revert n. induction fuel as [|fuel IH]; intros n Hl.
  - simpl in Hl. lia.
  - change (chain (S (S fuel)) ns n) with
      (n :: match ns !! n with
            | Some nd => match parentNode nd with
                         | Some p => chain (S fuel) ns p
                         | None => []
                         end
            | None => []
            end).
    change (chain (S fuel) ns n) with
      (n :: match ns !! n with
            | Some nd => match parentNode nd with
                         | Some p => chain fuel ns p
                         | None => []
                         end
            | None => []
            end) in *.
    f_equal. destruct (ns !! n) as [nd|]; [|done].
    destruct (parentNode nd) as [p|]; [|done].
    apply IH. simpl in Hl. lia.
Qed.

Lemma chain_fuel_le fuel fuel' ns n :
  length (chain fuel ns n) <= fuel -> fuel <= fuel' ->
  chain fuel' ns n = chain fuel ns n.
Proof.
  intros Hl Hle. induction Hle as [|m Hle IH]; [done|].
  rewrite chain_more_fuel; [done|]. rewrite IH. lia.
Qed.

Lemma set_nodes_set_nodes a b st : set_nodes a (set_nodes b st) = set_nodes a st.
Proof. reflexivity. Qed.

(** ** Child lists *)

Lemma next_sibling_in_middle m pre post :
  m ∉ pre -> next_sibling_in m (pre ++ m :: post) = head post.
Proof.
  induction pre as [|x pre IH]; intros Hm; simpl.
  - by rewrite Nat.eqb_refl.
  - apply not_elem_of_cons in Hm as [Hne Hm].
    assert ((x =? m) = false) as -> by (apply Nat.eqb_neq; congruence). auto.
Qed.

Lemma remove_nat_not_in m l : m ∉ l -> remove_nat m l = l.
Proof.
  induction l as [|x l IH]; intros Hm; simpl; [done|].
  apply not_elem_of_cons in Hm as [Hne Hm].
  assert ((x =? m) = false) as -> by (apply Nat.eqb_neq; congruence).
  by rewrite IH.
Qed.

Lemma remove_nat_middle m pre post :
  m ∉ pre -> m ∉ post -> remove_nat m (pre ++ m :: post) = pre ++ post.
Proof.
  induction pre as [|x pre IH]; intros Hm Hp; simpl.
  - rewrite Nat.eqb_refl. by apply remove_nat_not_in.
  - apply not_elem_of_cons in Hm as [Hne Hm].
    assert ((x =? m) = false) as -> by (apply Nat.eqb_neq; congruence).
    by rewrite IH.
Qed.

Lemma insert_before_middle x r pre post :
  r ∉ pre -> insert_before x r (pre ++ r :: post) = pre ++ x :: r :: post.
Proof.
  induction pre as [|y pre IH]; intros Hr; simpl.
  - by rewrite Nat.eqb_refl.
  - apply not_elem_of_cons in Hr as [Hne Hr].
    assert ((y =? r) = false) as -> by (apply Nat.eqb_neq; congruence).
    by rewrite IH.
Qed.

(** Linking [x] where [m] stood, after [m] was taken out. *)
Lemma link_position x m pre post :
  NoDup (pre ++ m :: post) ->
  match head post with
  | Some r => insert_before x r (pre ++ post)
  | None => (pre ++ post) ++ [x]
  end = pre ++ x :: post.
Proof.
  intros Hnd. destruct post as [|r post]; simpl.
  - by rewrite app_nil_r.
  - apply insert_before_middle.
    apply NoDup_app in Hnd as (_ & Hd & _). intros Hr. apply (Hd r Hr).
    right. by left.
Qed.

(** [replaceChild] of an attached node by a detached one. *)
Lemma replaceChild_eq p x m st pn xn mn pre post :
  nodes st !! p = Some pn -> is_element pn = true ->
  childNodes pn = pre ++ m :: post -> NoDup (pre ++ m :: post) ->
  nodes st !! m = Some mn -> parentNode mn = Some p ->
  nodes st !! x = Some xn -> parentNode xn = None ->
  x <> p -> x <> m -> m <> p -> x ∉ post ->
  inclusive_ancestor (length (nodes st)) (nodes st) x p = false ->
  replaceChild p x m st =
  Ok tt (set_nodes
           (<[x := with_parent (Some p) xn]>
              (<[p := with_children (pre ++ x :: post) pn]>
                 (<[m := with_parent None mn]> (nodes st)))) st).
Proof.
  intros Hp He Hch Hnd Hm Hmp Hx Hxp Hxne Hxm Hmne Hxpost Hanc.
  assert (Hlp : p < length (nodes st)) by (by eapply lookup_lt_Some).
  assert (Hlm : m < length (nodes st)) by (by eapply lookup_lt_Some).
  assert (Hmpre : (m ∉ pre) /\ (m ∉ post)).
  { apply NoDup_app in Hnd as (_ & Hd & Hpost). split.
    - intros Hin. apply (Hd m Hin). by left.
    - by apply NoDup_cons in Hpost as [? _]. }
  destruct Hmpre as [Hmpre Hmpost].
  unfold replaceChild, ensure_pre_insert.
  eapply run_bind.
  { eapply run_bind; [by apply get_node_eq|].
    eapply run_bind; [by apply get_node_eq|].
    rewrite He. simpl. unfold contains.
    eapply run_bind; [reflexivity|]. by rewrite Hanc. }
  eapply run_bind; [by apply get_node_eq|].
  rewrite Hmp. rewrite bool_decide_eq_true_2 by done. cbn [negb].
  eapply run_bind; [by apply get_node_eq|].
  rewrite Hch. rewrite next_sibling_in_middle by done.
  assert (Hhead : bool_decide (head post = Some x) = false).
  { apply bool_decide_eq_false. intros Hh. apply Hxpost.
    destruct post; [discriminate|]. injection Hh as ->. by left. }
  rewrite Hhead.
  eapply run_bind.
  { unfold detach. eapply run_bind; [by apply get_node_eq|]. rewrite Hmp.
    eapply run_bind; [by apply get_node_eq|].
    eapply run_bind; [reflexivity|]. reflexivity. }
  st_simpl. rewrite Hch, remove_nat_middle by done.
  eapply run_bind.
  { unfold detach. eapply run_bind.
    { apply get_node_eq. st_simpl. rewrite !list_lookup_insert_ne by done. exact Hx. }
    rewrite Hxp. reflexivity. }
  unfold link.
  eapply run_bind.
  { apply get_node_eq. st_simpl. rewrite list_lookup_insert_ne by done.
    by apply list_lookup_insert_eq. }
  eapply run_bind; [reflexivity|].
  eapply run_bind.
  { apply get_node_eq. st_simpl. rewrite !list_lookup_insert_ne by done. exact Hx. }
  unfold put_node, modify. st_simpl. cbn [childNodes with_children].
  rewrite (link_position x m pre post Hnd).
  rewrite !set_nodes_set_nodes. do 2 f_equal.
  change (with_children (pre ++ x :: post) (with_children (pre ++ post) pn))
    with (with_children (pre ++ x :: post) pn).
  rewrite (list_insert_insert_ne _ p m) by done.
  rewrite list_insert_insert_eq.
  rewrite (list_insert_insert_ne _ m p) by done. reflexivity.
Qed.

(** ** Replacing the node in a slot by a new node *)

Lemma slot_replace p m pre post st st4 xn new :
  slot p m pre post st ->
  nodes st4 = nodes st ++ xn :: new -> parentNode xn = None ->
  exists st5,
    replaceChild p (length (nodes st)) m st4 = Ok tt st5 /\
    slot p (length (nodes st)) pre post st5 /\
    nodes st5 !! length (nodes st) = Some (with_parent (Some p) xn) /\
    signals st5 = signals st4 /\ functions st5 = functions st4 /\
    activeEffect st5 = activeEffect st4.
Proof.
  intros (pn & mn & Hp & He & Hch & Hnd & Hb & Hm & Hmp & Hmne & [Hr1 Hr2] & Hoff) Hn4 Hxp.
  set (x := length (nodes st)).
  assert (Hlp : p < x) by (by eapply lookup_lt_Some).
  assert (Hlm : m < x) by (by eapply lookup_lt_Some).
  assert (Hp4 : nodes st4 !! p = Some pn) by (rewrite Hn4; by rewrite lookup_app_l).
  assert (Hm4 : nodes st4 !! m = Some mn) by (rewrite Hn4; by rewrite lookup_app_l).
  assert (Hx4 : nodes st4 !! x = Some xn) by (rewrite Hn4; apply lookup_app_at).
  assert (Hxpre : x ∉ pre ++ post).
  { intros Hin. apply Hb in Hin. unfold x in Hin. lia. }
  assert (Hl4 : x < length (nodes st4)) by (by eapply lookup_lt_Some).
  assert (Hchain4 : chain (length (nodes st4)) (nodes st4) p
                    = chain (length (nodes st)) (nodes st) p).
  { rewrite (chain_fuel_le (length (nodes st)) (length (nodes st4))).
    - rewrite Hn4. by apply chain_app.
    - rewrite Hn4, chain_app by done. done.
    - fold x. lia. }
  assert (Hxoff : x ∉ chain (length (nodes st)) (nodes st) p).
  { intros Hin. apply Hr2 in Hin. unfold x in Hin. lia. }
  eexists. split.
  { eapply (replaceChild_eq p x m st4 pn xn mn pre post); eauto; try lia.
    - intros Hin. apply Hxpre. apply elem_of_app. by right.
    - rewrite inclusive_ancestor_chain, Hchain4. by apply mem_nat_not_In. }
  set (ns5 := <[x := _]> _).
  assert (Hlen5 : length ns5 = length (nodes st4)) by (unfold ns5; by rewrite !length_insert).
  assert (Hchain5 : chain (length ns5) ns5 p = chain (length (nodes st)) (nodes st) p).
  { rewrite Hlen5. unfold ns5.
    rewrite chain_insert_off.
    2:{ rewrite (chain_insert_same_parent _ _ p pn); [| |done].
        - rewrite chain_insert_off; by rewrite Hchain4.
        - by rewrite list_lookup_insert_ne. }
    rewrite (chain_insert_same_parent _ _ p pn); [| |done].
    - rewrite chain_insert_off; by rewrite Hchain4.
    - by rewrite list_lookup_insert_ne. }
  st_simpl. split_and!; try done.
  - exists (with_children (pre ++ x :: post) pn), (with_parent (Some p) xn).
    st_simpl. fold ns5. split_and!.
    + unfold ns5. rewrite list_lookup_insert_ne by lia.
      apply list_lookup_insert_eq. rewrite length_insert. lia.
    + done.
    + done.
    + apply NoDup_app in Hnd as (Hn1 & Hn2 & Hn3).
      apply NoDup_cons in Hn3 as [Hn3 Hn4'].
      apply NoDup_app. split_and!; [done | |].
      * intros y Hy Hy'. apply elem_of_cons in Hy' as [->|Hy'].
        -- apply Hxpre. apply elem_of_app. by left.
        -- apply (Hn2 y Hy). by right.
      * apply NoDup_cons. split; [|done].
        intros Hin. apply Hxpre. apply elem_of_app. by right.
    + intros y Hy. rewrite Hlen5. apply Hb in Hy. unfold x in *. lia.
    + unfold ns5. apply list_lookup_insert_eq. rewrite !length_insert. lia.
    + done.
    + lia.
    + unfold rooted. st_simpl. split.
      * rewrite Hchain5, Hlen5. unfold x in *. lia.
      * intros y. rewrite Hchain5, Hlen5. intros Hy. apply Hr2 in Hy. unfold x in *. lia.
    + by rewrite Hchain5.
  - fold ns5. unfold ns5. apply list_lookup_insert_eq. rewrite !length_insert. lia.
Qed.

Lemma contains_child p m st mn :
  nodes st !! m = Some mn -> parentNode mn = Some p -> contains p m st = Ok true st.
Proof.
  intros Hm Hp. unfold contains, gets. f_equal.
  assert (Hl : m < length (nodes st)) by (by eapply lookup_lt_Some).
  destruct (length (nodes st)) as [|k]; [lia|]. simpl.
  destruct (p =? m); [done|]. rewrite Hm, Hp.
  destruct k; simpl; by rewrite Nat.eqb_refl.
Qed.

(** ** The remove strategy, attached *)

Lemma get_cond_eq self st o cond vars :
  functions st !! self = Some (RemoveEffect o cond vars) ->
  get_cond self st = Ok vars st.
Proof.
  intros H. unfold get_cond. eapply run_bind; [by apply get_function_eq|]. reflexivity.
Qed.

Lemma put_cond_eq self st o cond vars f :
  functions st !! self = Some (RemoveEffect o cond vars) ->
  put_cond self f st =
  Ok tt (set_functions (<[self := RemoveEffect o cond (f vars)]> (functions st)) st).
Proof.
  intros H. unfold put_cond. eapply run_bind; [by apply get_function_eq|]. reflexivity.
Qed.

Lemma node_parent_eq n st nd :
  nodes st !! n = Some nd -> node_parent n st = Ok (parentNode nd) st.
Proof.
  intros H. unfold node_parent. eapply run_bind; [by apply get_node_eq|]. reflexivity.
Qed.

Lemma set_functions_id st : set_functions (functions st) st = st.
Proof. by destruct st. Qed.

(** With its node attached under [p], the effect finds [p]. *)
Lemma cond_resolve_parent_eq self st o cond vars m mn p :
  functions st !! self = Some (RemoveEffect o cond vars) ->
  cond_parent vars = None \/ cond_parent vars = Some p ->
  (elm vars = Some m /\ placeholder vars = None) \/
  (placeholder vars = Some m /\ elm vars = None) ->
  nodes st !! m = Some mn -> parentNode mn = Some p ->
  cond_resolve_parent self st =
  Ok tt (set_functions
           (<[self := RemoveEffect o cond (set_cond_parent (Some p) vars)]> (functions st))
           st).
Proof.
  intros Hf Hcp Hmark Hm Hp. unfold cond_resolve_parent.
  eapply run_bind; [by eapply get_cond_eq|].
  destruct Hcp as [Hcp|Hcp]; rewrite Hcp; cbn [is_Some_bool negb when].
  - destruct Hmark as [[He Hph]|[Hph He]]; rewrite He.
    + eapply run_bind; [by apply node_parent_eq|]. rewrite Hp.
      by eapply put_cond_eq.
    + eapply run_bind; [reflexivity|].
      rewrite Hph. eapply run_bind; [by apply node_parent_eq|]. rewrite Hp.
      by eapply put_cond_eq.
  - replace (set_cond_parent (Some p) vars) with vars
      by (destruct vars; simpl in *; by subst).
    rewrite list_insert_id by done. by rewrite set_functions_id.
Qed.

Lemma NoDup_middle_not_in {A} (m : A) pre post :
  NoDup (pre ++ m :: post) -> (m ∉ pre) /\ (m ∉ post).
Proof.
  intros Hnd. apply NoDup_app in Hnd as (_ & Hd & Hpost). split.
  - intros Hin. apply (Hd m Hin). by left.
  - by apply NoDup_cons in Hpost as [? _].
Qed.

(** One change of the condition of an attached conditional. *)
Lemma cond_toggle JS n self p c o b pre post st :
  builds JS (S (S n)) o ->
  cond_mounted self p c o b pre post st ->
  exists st',
    set (S (S (S n))) (exec JS (S (S (S n)))) (invoke JS (S (S (S n)))) c
      (inl (VBool (negb b))) st = Ok tt st' /\
    cond_mounted self p c o (negb b) pre post st'.
Proof.
  intros Hbuild (vars & m & mn & Hf & Hcp & Hs & Ha & Hslot & Hm & Hk).
  pose proof Hslot as (pn & mn' & Hp & He & Hch & Hnd & Hb & Hm' & Hmp & Hmne & Hroot & Hoff).
  rewrite Hm in Hm'. injection Hm' as <-.
  assert (Hlc : c < length (signals st)) by (by eapply lookup_lt_Some).
  assert (Hlf : self < length (functions st)) by (by eapply lookup_lt_Some).
  set (vars1 := set_cond_parent (Some p) vars).
  (* the state in which the effect body starts, and after it found [p] *)
  set (s1 := set_trace (EvRun c self :: EvWrite c (VBool (negb b)) :: trace st)
               (set_signals (<[c := mkSignal (VBool (negb b)) [self]]> (signals st)) st)).
  set (s2 := set_functions (<[self := RemoveEffect o (Get c Ret) vars1]> (functions s1)) s1).
  set (s3 := set_trace (EvRead c None :: trace s2) s2).
  assert (Hmark : (elm vars = Some m /\ placeholder vars = None) \/
                  (placeholder vars = Some m /\ elm vars = None)).
  { destruct b; [left | right]; tauto. }
  assert (Hres : cond_resolve_parent self s1 = Ok tt s2).
  { by eapply (cond_resolve_parent_eq self s1 o (Get c Ret) vars m mn p). }
  assert (Hf2 : functions s2 !! self = Some (RemoveEffect o (Get c Ret) vars1)).
  { unfold s2. st_simpl. by apply list_lookup_insert_eq. }
  assert (Hrun : exec JS (S (S n)) (Get c Ret) s2 = Ok (VBool (negb b)) s3).
  { eapply exec_Get_Ret_quiet; [|done].
    unfold s2, s1. st_simpl. by apply list_lookup_insert_eq. }
  assert (Hs3 : signals s3 !! c = Some (mkSignal (VBool (negb b)) [self])).
  { unfold s3, s2, s1. st_simpl. by apply list_lookup_insert_eq. }
  (* the new node and the state it is made in *)
  assert (Hnew : exists st4 xn new,
    nodes st4 = nodes st ++ xn :: new /\ parentNode xn = None /\
    functions st4 !! self = Some (RemoveEffect o (Get c Ret) vars1) /\
    signals st4 !! c = Some (mkSignal (VBool (negb b)) [self]) /\
    activeEffect st4 = None /\
    (if negb b then is_element xn = true else kind xn = Comment) /\
    (if negb b
     then createComponent (exec JS (S (S n))) (invoke JS (S (S n))) o s3
     else document_createComment "hidden" s3) = Ok (length (nodes st)) st4).
  { destruct b; cbn [negb].
    - exists (set_nodes (nodes s3 ++ [new_node Comment "hidden"]) s3),
        (new_node Comment "hidden"), [].
      split_and!; done.
    - destruct (Hbuild s3) as (st4 & new & root & Hc & Hn4 & Hre & Hrp & Hfp & Hsp & Ha4);
        [done|].
      exists st4, root, new. split_and!; try done.
      + by apply (prefix_lookup_Some _ _ _ _ Hf2).
      + by apply (prefix_lookup_Some _ _ _ _ Hs3). }
  destruct Hnew as (st4 & xn & new & Hn4 & Hxp & Hf4 & Hs4 & Ha4 & Hkind & Hmake).
  set (x := length (nodes st)) in *.
  set (st5 := set_functions
                (<[self := RemoveEffect o (Get c Ret)
                     (if negb b then set_elm (Some x) vars1
                      else set_placeholder (Some x) vars1)]> (functions st4)) st4).
  destruct (slot_replace p m pre post st st5 xn new Hslot) as
    (st6 & Hrep & Hslot6 & Hx6 & Hs6 & Hf6 & Ha6); [done | done |].
  fold x in Hrep, Hslot6, Hx6.
  assert (Hlf4 : self < length (functions st4)) by (by eapply lookup_lt_Some).
  assert (Hf5 : functions st5 !! self = Some (RemoveEffect o (Get c Ret)
                     (if negb b then set_elm (Some x) vars1
                      else set_placeholder (Some x) vars1))).
  { unfold st5. st_simpl. by apply list_lookup_insert_eq. }
  set (vars7 := if negb b then mkCond (Some x) None (Some p)
                else mkCond None (Some x) (Some p)).
  set (st7 := set_functions (<[self := RemoveEffect o (Get c Ret) vars7]> (functions st6)) st6).
  exists st7. split.
  - unfold set.
    eapply run_bind; [reflexivity|].
    eapply run_bind; [by apply get_signal_eq|].
    eapply run_bind; [reflexivity|].
    eapply run_bind; [reflexivity|].
    cbn [subscribers]. cbn [forEach_subscribers].
    eapply run_bind.
    { apply get_signal_eq. st_simpl. by apply list_lookup_insert_eq. }
    cbn [subscribers lookup list_lookup].
    eapply run_bind; [reflexivity|].
    eapply (run_bind _ _ _ tt st7).
    { cbn [invoke]. unfold dispatch.
      eapply run_bind; [by apply get_function_eq|].
      unfold removeEffect.
      eapply run_bind; [exact Hres|].
      eapply run_bind; [by eapply get_cond_eq|].
      cbn [vars1 set_cond_parent cond_parent is_Some_bool negb].
      eapply run_bind; [exact Hrun|].
      destruct b; cbn [negb truthy] in *.
      + (* true -> false: the placeholder replaces the component *)
        destruct Hk as (Hel & Hph & Hme).
        eapply run_bind; [by eapply get_cond_eq|].
        cbn [vars1 set_cond_parent cond_parent elm]. rewrite Hel.
        eapply run_bind; [by eapply (contains_child p m)|]. cbn [when].
        eapply run_bind; [exact Hmake|].
        eapply run_bind; [by eapply put_cond_eq|].
        eapply run_bind; [eapply get_cond_eq; exact Hf5|].
        cbn [vars1 set_placeholder set_cond_parent cond_parent elm]. rewrite Hel.
        eapply run_bind; [exact Hrep|].
        erewrite put_cond_eq by (rewrite Hf6; exact Hf5).
        unfold st7, vars7. cbn [negb vars1 set_elm set_placeholder set_cond_parent
          elm placeholder cond_parent]. reflexivity.
      + (* false -> true: the component replaces the placeholder *)
        destruct Hk as (Hph & Hel & Hmk).
        eapply run_bind; [by eapply get_cond_eq|].
        cbn [vars1 set_cond_parent cond_parent placeholder]. rewrite Hph.
        eapply run_bind; [by eapply (contains_child p m)|]. cbn [when].
        eapply run_bind; [exact Hmake|].
        eapply run_bind; [by eapply put_cond_eq|].
        eapply run_bind; [eapply get_cond_eq; exact Hf5|].
        cbn [vars1 set_elm set_cond_parent cond_parent placeholder]. rewrite Hph.
        eapply run_bind; [exact Hrep|].
        erewrite put_cond_eq by (rewrite Hf6; exact Hf5).
        unfold st7, vars7. cbn [negb vars1 set_elm set_placeholder set_cond_parent
          elm placeholder cond_parent]. reflexivity. }
    eapply run_bind.
    { apply get_signal_eq. unfold st7. st_simpl. rewrite Hs6. unfold st5. st_simpl.
      exact Hs4. }
    reflexivity.
  - exists vars7, x, (with_parent (Some p) xn).
    assert (Hlf6 : self < length (functions st6)).
    { rewrite Hf6. unfold st5. st_simpl. by rewrite length_insert. }
    split_and!.
    + unfold st7. st_simpl. by apply list_lookup_insert_eq.
    + right. unfold vars7. by destruct (negb b).
    + unfold st7. st_simpl. rewrite Hs6. unfold st5. st_simpl. exact Hs4.
    + unfold st7. st_simpl. rewrite Ha6. unfold st5. st_simpl. exact Ha4.
    + destruct Hslot6 as (pn6 & mn6 & H6).
      exists pn6, mn6. unfold st7. unfold rooted in *. st_simpl. exact H6.
    + unfold st7. st_simpl. exact Hx6.
    + unfold vars7. destruct (negb b); cbn [elm placeholder]; split_and!; done.
Qed.

Lemma cond_mounted_one_marker self p c o b pre post st :
  cond_mounted self p c o b pre post st -> one_marker self p b pre post st.
Proof.
  intros (vars & m & mn & Hf & Hcp & Hs & Ha & Hslot & Hm & Hk).
  destruct Hslot as (pn & mn' & Hp & He & Hch & Hnd & Hb & Hm' & Hmp & _).
  rewrite Hm in Hm'. injection Hm' as <-.
  exists o, (Get c Ret), vars, m, pn, mn. by split_and!.
Qed.

(** Any number of changes of the condition. *)
Lemma cond_toggles JS n self p c o pre post k : forall b st,
  builds JS (S (S n)) o ->
  cond_mounted self p c o b pre post st ->
  exists st',
    write_each JS (S (S (S n))) c (alternating (VBool (negb b)) (VBool b) k) st
      = Ok tt st' /\
    cond_mounted self p c o (if Nat.odd k then negb b else b) pre post st'.
Proof.
  induction k as [|k IH]; intros b st Hbuild Hm.
  - exists st. by split.
  - destruct (cond_toggle JS n self p c o b pre post st Hbuild Hm) as (st1 & Hset & Hm1).
    destruct (IH (negb b) st1 Hbuild Hm1) as (st' & Hw & Hm').
    exists st'. split.
    + cbn [alternating write_each]. eapply run_bind; [exact Hset|].
      rewrite negb_involutive in Hw. exact Hw.
    + rewrite Nat.odd_succ, <- Nat.negb_odd.
      rewrite negb_involutive in Hm'. by destruct (Nat.odd k).
Qed.

(** Creating the conditional with the condition false and attaching the
    node it returns. *)
Lemma cond_mount JS n o c p pn st :
  activeEffect st = None ->
  signals st !! c = Some (mkSignal (VBool false) []) ->
  nodes st !! p = Some pn -> is_element pn = true ->
  NoDup (childNodes pn) ->
  (forall x, x ∈ childNodes pn -> x < length (nodes st)) ->
  rooted st p ->
  exists st0,
    (m ← conditionalComponent (exec JS (S (S (S n)))) (invoke JS (S (S (S n)))) o
           (Get c Ret) Remove;
     appendChild p m) st = Ok tt st0 /\
    cond_mounted (length (functions st)) p c o false (childNodes pn) [] st0.
Proof.
  intros Ha Hs Hp He Hnd Hb [Hr1 Hr2].
  set (self := length (functions st)). set (x := length (nodes st)).
  assert (Hlp : p < x) by (by eapply lookup_lt_Some).
  assert (Hlc : c < length (signals st)) by (by eapply lookup_lt_Some).
  set (vars := mkCond None (Some x) None).
  set (cm := new_node Comment "hidden").
  set (s6 := mkState None (<[c := mkSignal (VBool false) [self]]> (signals st))
               (functions st ++ [RemoveEffect o (Get c Ret) vars])
               (nodes st ++ [cm]) (heap st) (records st)
               (EvRead c (Some self) :: EvEffect self :: trace st)).
  assert (Hx6 : nodes s6 !! x = Some cm) by apply lookup_app_at.
  assert (Hp6 : nodes s6 !! p = Some pn) by (unfold s6; st_simpl; by rewrite lookup_app_l).
  assert (Hcond : conditionalComponent (exec JS (S (S (S n)))) (invoke JS (S (S (S n)))) o
                    (Get c Ret) Remove st = Ok x s6).
  { unfold conditionalComponent.
    eapply run_bind; [reflexivity|]. fold self.
    eapply run_bind.
    { unfold createEffect.
      eapply run_bind; [reflexivity|].
      eapply run_bind; [reflexivity|].
      eapply run_bind.
      { cbn [invoke]. unfold dispatch.
        eapply run_bind; [apply get_function_eq; st_simpl; apply lookup_app_at|].
        unfold removeEffect.
        eapply run_bind.
        { unfold cond_resolve_parent.
          eapply run_bind; [eapply get_cond_eq; st_simpl; apply lookup_app_at|].
          reflexivity. }
        eapply run_bind; [eapply get_cond_eq; st_simpl; apply lookup_app_at|].
        cbn [cond_parent is_Some_bool negb].
        eapply run_bind; [by eapply exec_Get_Ret_first|].
        cbn [truthy].
        eapply run_bind; [reflexivity|].
        eapply put_cond_eq. st_simpl. apply lookup_app_at. }
      reflexivity. }
    eapply run_bind.
    { eapply get_cond_eq. st_simpl. unfold set_functions. st_simpl. cbn.
      apply list_lookup_insert_eq. rewrite length_app. simpl. lia. }
    cbn [elm placeholder set_placeholder]. unfold s6.
    unfold set_functions, set_nodes, set_activeEffect, set_signals, set_trace; cbn.
    rewrite (insert_app_at (functions st)). reflexivity. }
  assert (Hchain6 : chain (length (nodes s6)) (nodes s6) p = chain x (nodes st) p).
  { unfold s6. st_simpl.
    rewrite (chain_fuel_le x).
    - by apply chain_app.
    - rewrite chain_app by done. done.
    - rewrite length_app. simpl. unfold x. lia. }
  assert (Hxoff : x ∉ chain x (nodes st) p).
  { intros Hin. apply Hr2 in Hin. unfold x in Hin. lia. }
  eexists. split.
  { eapply run_bind; [exact Hcond|].
    eapply (appendChild_detached_eq p x s6 pn cm); try done; [lia|].
    rewrite inclusive_ancestor_chain, Hchain6. by apply mem_nat_not_In. }
  set (ns := <[x := _]> _).
  assert (Hlen : length ns = S x).
  { unfold ns, s6. st_simpl. rewrite !length_insert, length_app. simpl. unfold x. lia. }
  assert (Hchain : chain (length ns) ns p = chain x (nodes st) p).
  { replace (length ns) with (length (nodes s6)).
    2:{ unfold ns. by rewrite !length_insert. }
    unfold ns.
    rewrite chain_insert_off.
    2:{ rewrite (chain_insert_same_parent _ _ p pn); [by rewrite Hchain6|done|done]. }
    rewrite (chain_insert_same_parent _ _ p pn); [by rewrite Hchain6|done|done]. }
  assert (Hxpre : x ∉ childNodes pn).
  { intros Hin. apply Hb in Hin. unfold x in Hin. lia. }
  exists vars, x, (with_parent (Some p) cm). st_simpl. fold ns. split_and!.
  - unfold s6. st_simpl. apply lookup_app_at.
  - by left.
  - unfold s6. st_simpl. by apply list_lookup_insert_eq.
  - done.
  - exists (with_children (childNodes pn ++ [x]) pn), (with_parent (Some p) cm).
    st_simpl. fold ns. split_and!.
    + unfold ns. rewrite list_lookup_insert_ne by lia.
      apply list_lookup_insert_eq. by eapply lookup_lt_Some.
    + done.
    + done.
    + apply NoDup_app. split_and!; [done | | apply NoDup_singleton].
      intros y Hy Hy'. apply list_elem_of_singleton in Hy' as ->. done.
    + intros y Hy. rewrite app_nil_r in Hy. apply Hb in Hy. rewrite Hlen. unfold x. lia.
    + unfold ns. apply list_lookup_insert_eq. rewrite length_insert.
      by eapply lookup_lt_Some.
    + done.
    + lia.
    + unfold rooted. st_simpl. fold ns. rewrite Hchain, Hlen. split.
      * unfold x in *. lia.
      * intros y Hy. apply Hr2 in Hy. unfold x in *. lia.
    + by rewrite Hchain.
  - unfold ns. apply list_lookup_insert_eq. rewrite length_insert.
    by eapply lookup_lt_Some.
  - done.
  - done.
  - done.
Qed.

(** The options with the tag path alone build a detached element. *)
Lemma builds_div_span JS n :
  builds JS n div_span.
Proof.
  intros st Ha. eexists _, _, _. split; [apply createComponent_div_span_plain|].
  st_simpl. by split_and!.
Qed.

(** C9.  A remove-strategy conditional created while its condition is false
    and attached under [p] leaves a placeholder comment as the last child of
    [p]; after any number [k] of changes of the condition (true, false, true,
    false, ...) the children of [p] are the ones it had before followed by
    exactly one node of the conditional: the built component when [k] is odd
    (the condition is true), the placeholder comment when [k] is even, the
    variable of the other one being undefined. *)
Theorem conditionalComponent_remove_one_marker JS n o c p pn st :
  builds JS (S (S n)) o ->
  activeEffect st = None ->
  signals st !! c = Some (mkSignal (VBool false) []) ->
  nodes st !! p = Some pn -> is_element pn = true ->
  NoDup (childNodes pn) ->
  (forall x, x ∈ childNodes pn -> x < length (nodes st)) ->
  rooted st p ->
  exists st0,
    (m ← conditionalComponent (exec JS (S (S (S n)))) (invoke JS (S (S (S n)))) o
           (Get c Ret) Remove;
     appendChild p m) st = Ok tt st0 /\
    forall k, exists st',
      write_each JS (S (S (S n))) c (alternating (VBool true) (VBool false) k) st0
        = Ok tt st' /\
      one_marker (length (functions st)) p (Nat.odd k) (childNodes pn) [] st'.
Proof.
  intros Hbuild Ha Hs Hp He Hnd Hb Hr.
  destruct (cond_mount JS n o c p pn st Ha Hs Hp He Hnd Hb Hr) as (st0 & Hmount & Hm).
  exists st0. split; [exact Hmount|]. intros k.
  destruct (cond_toggles JS n _ p c o _ _ k false st0 Hbuild Hm) as (st' & Hw & Hm').
  exists st'. split; [exact Hw|].
  apply cond_mounted_one_marker in Hm'. by destruct (Nat.odd k).
Qed.

Lemma conditionalComponent_remove_one_marker_witness :
  exists st0,
    (m ← conditionalComponent (exec demo_stringify 3) (invoke demo_stringify 3)
           div_span (Get 0 Ret) Remove;
     appendChild 0 m) one_cell_one_div = Ok tt st0 /\
    forall k, exists st',
      write_each demo_stringify 3 0 (alternating (VBool true) (VBool false) k) st0
        = Ok tt st' /\
      one_marker 0 0 (Nat.odd k) [] [] st'.
Proof.
  apply (conditionalComponent_remove_one_marker demo_stringify 0
           div_span 0 0
           (new_node (Element "div") "") one_cell_one_div).
  - apply builds_div_span.
  - reflexivity.
  - reflexivity.
  - reflexivity.
  - reflexivity.
  - apply NoDup_nil_2.
  - intros x Hx. inversion Hx.
  - split; [vm_compute; lia|].
    intros y Hy. vm_compute in Hy. apply list_elem_of_singleton in Hy as ->.
    vm_compute. lia.
Defined.

(** ** The remove strategy, never attached *)

(** With no parent stored and a node without parent, the first block of the
    effect finds nothing. *)
Lemma cond_resolve_parent_none self st o cond vars m mn :
  functions st !! self = Some (RemoveEffect o cond vars) ->
  cond_parent vars = None ->
  (elm vars = Some m /\ placeholder vars = None) \/
  (placeholder vars = Some m /\ elm vars = None) ->
  nodes st !! m = Some mn -> parentNode mn = None ->
  cond_resolve_parent self st = Ok tt st.
Proof.
  intros Hf Hcp Hmark Hm Hp. unfold cond_resolve_parent.
  eapply run_bind; [by eapply get_cond_eq|].
  rewrite Hcp. cbn [is_Some_bool negb when].
  destruct Hmark as [[He Hph]|[Hph He]]; rewrite He, Hph.
  - eapply run_bind; [by apply node_parent_eq|]. rewrite Hp.
    eapply run_bind; reflexivity.
  - eapply run_bind; [reflexivity|].
    eapply run_bind; [by apply node_parent_eq|]. by rewrite Hp.
Qed.

(** C3.  The condition of a remove-strategy conditional that was never
    attached changes, so that a substitution is due (the component is the
    node of the conditional and the condition becomes false, or the
    placeholder is and the condition becomes true): the write returns
    normally.  The effect takes the branch of the first run: it makes a new
    detached node, stores it in the variable of the other kind beside the
    old one, and returns; the old node stays as it was and no error is
    raised. *)
Theorem removeEffect_unresolved_parent_returns JS n self c o b m vars st :
  builds JS (S (S n)) o ->
  cond_detached self c o b m vars st ->
  exists st',
    set (S (S (S n))) (exec JS (S (S (S n)))) (invoke JS (S (S (S n)))) c
      (inl (VBool (negb b))) st = Ok tt st' /\
    functions st' !! self =
      Some (RemoveEffect o (Get c Ret)
              (if b then set_placeholder (Some (length (nodes st))) vars
               else set_elm (Some (length (nodes st))) vars)) /\
    nodes st' !! m = nodes st !! m.
Proof.
  intros Hbuild (mn & Hf & Hcp & Hs & Ha & Hm & Hmp & Hk).
  assert (Hlc : c < length (signals st)) by (by eapply lookup_lt_Some).
  assert (Hlf : self < length (functions st)) by (by eapply lookup_lt_Some).
  assert (Hlm : m < length (nodes st)) by (by eapply lookup_lt_Some).
  set (s1 := set_trace (EvRun c self :: EvWrite c (VBool (negb b)) :: trace st)
               (set_signals (<[c := mkSignal (VBool (negb b)) [self]]> (signals st)) st)).
  set (s3 := set_trace (EvRead c None :: trace s1) s1).
  assert (Hmark : (elm vars = Some m /\ placeholder vars = None) \/
                  (placeholder vars = Some m /\ elm vars = None)).
  { destruct b; [left | right]; tauto. }
  assert (Hres : cond_resolve_parent self s1 = Ok tt s1).
  { by eapply (cond_resolve_parent_none self s1 o (Get c Ret) vars m mn). }
  assert (Hrun : exec JS (S (S n)) (Get c Ret) s1 = Ok (VBool (negb b)) s3).
  { eapply exec_Get_Ret_quiet; [|done].
    unfold s1. st_simpl. by apply list_lookup_insert_eq. }
  assert (Hs3 : signals s3 !! c = Some (mkSignal (VBool (negb b)) [self])).
  { unfold s3, s1. st_simpl. by apply list_lookup_insert_eq. }
  assert (Hnew : exists st4 xn new,
    nodes st4 = nodes st ++ xn :: new /\
    functions st4 !! self = Some (RemoveEffect o (Get c Ret) vars) /\
    signals st4 !! c = Some (mkSignal (VBool (negb b)) [self]) /\
    (if negb b
     then createComponent (exec JS (S (S n))) (invoke JS (S (S n))) o s3
     else document_createComment "hidden" s3) = Ok (length (nodes st)) st4).
  { destruct b; cbn [negb].
    - exists (set_nodes (nodes s3 ++ [new_node Comment "hidden"]) s3),
        (new_node Comment "hidden"), [].
      split_and!; done.
    - destruct (Hbuild s3) as (st4 & new & root & Hc & Hn4 & Hre & Hrp & Hfp & Hsp & Ha4);
        [done|].
      exists st4, root, new. split_and!; try done.
      + by apply (prefix_lookup_Some _ _ _ _ Hf).
      + by apply (prefix_lookup_Some _ _ _ _ Hs3). }
  destruct Hnew as (st4 & xn & new & Hn4 & Hf4 & Hs4 & Hmake).
  set (x := length (nodes st)) in *.
  set (st5 := set_functions
                (<[self := RemoveEffect o (Get c Ret)
                     (if b then set_placeholder (Some x) vars
                      else set_elm (Some x) vars)]> (functions st4)) st4).
  assert (Hlf4 : self < length (functions st4)) by (by eapply lookup_lt_Some).
  exists st5. split_and!.
  - unfold set.
    eapply run_bind; [reflexivity|].
    eapply run_bind; [by apply get_signal_eq|].
    eapply run_bind; [reflexivity|].
    eapply run_bind; [reflexivity|].
    cbn [subscribers]. cbn [forEach_subscribers].
    eapply run_bind.
    { apply get_signal_eq. st_simpl. by apply list_lookup_insert_eq. }
    cbn [subscribers lookup list_lookup].
    eapply run_bind; [reflexivity|].
    eapply (run_bind _ _ _ tt st5).
    { cbn [invoke]. unfold dispatch.
      eapply run_bind; [by apply get_function_eq|].
      unfold removeEffect.
      eapply run_bind; [exact Hres|].
      eapply run_bind; [by eapply get_cond_eq|].
      rewrite Hcp. cbn [is_Some_bool negb].
      eapply run_bind; [exact Hrun|].
      destruct b; cbn [negb truthy] in *.
      + eapply run_bind; [exact Hmake|]. by eapply put_cond_eq.
      + eapply run_bind; [exact Hmake|]. by eapply put_cond_eq. }
    eapply run_bind.
    { apply get_signal_eq. unfold st5. st_simpl. exact Hs4. }
    reflexivity.
  - unfold st5. st_simpl. by apply list_lookup_insert_eq.
  - unfold st5. st_simpl. rewrite Hn4. by rewrite lookup_app_l.
Qed.

Lemma removeEffect_unresolved_parent_returns_witness :
  exists st',
    set 3 (exec demo_stringify 3) (invoke demo_stringify 3) 0 (inl (VBool true))
      detached_world = Ok tt st' /\
    functions st' !! 0 =
      Some (RemoveEffect div_span (Get 0 Ret) (mkCond (Some 2) (Some 1) None)) /\
    nodes st' !! 1 = Some (new_node Comment "hidden").
Proof.
  apply (removeEffect_unresolved_parent_returns demo_stringify 0 0 0 div_span false 1
           (mkCond None (Some 1) None) detached_world).
  - apply builds_div_span.
  - exists (new_node Comment "hidden"). vm_compute. by split_and!.
Defined.

(** ** The log grows *)

#[export] Instance grows_Quiet : Quiet grows.
Proof.
  split.
  - intros st st' Ht _ _. exists []. by rewrite Ht.
  - intros c v st u st' H. apply log_Ok in H as ->. by exists [EvWrite c v].
  - intros c fn st u st' H. apply log_Ok in H as ->. by exists [EvRun c fn].
  - intros fn st u st' H. apply log_Ok in H as ->. by exists [EvPass fn].
Qed.

#[export] Instance grows_Frame : Frame grows.
Proof.
  split; try (intros; by exists []).
  intros a b c [e1 T1] [e2 T2]. exists (e2 ++ e1). by rewrite T2, T1, app_assoc.
Qed.

Lemma grows_get c : preserves grows (get c).
Proof.
  intros st v st' H. eapply (core_get (R := scoped)) in H as (evs & T & _). by exists evs.
Qed.

Lemma grows_createEffect call fn :
  preserves grows (call fn) -> preserves grows (createEffect call fn).
Proof.
  intros Hc st u st' H. unfold createEffect in H.
  apply bind_Ok in H as (u1 & st1 & Hl & H). apply log_Ok in Hl as ->.
  apply bind_Ok in H as (u2 & st2 & Hm & H). apply modify_Ok in Hm as ->.
  apply bind_Ok in H as (u3 & st3 & Hcall & H). apply modify_Ok in H as ->.
  apply Hc in Hcall as (e & T).
  exists (e ++ [EvEffect fn]). st_simpl. st_simpl in T. by rewrite T, <- app_assoc.
Qed.

#[export] Instance grows_CoreFrame : CoreFrame grows.
Proof.
  split.
  - apply quiet_log_pass.
  - apply grows_get.
  - intros fuel run call c nv Hr Hc. apply quiet_set; [apply _ | apply _ | exact Hr | exact Hc].
  - intros. by apply grows_createEffect.
  - intros. apply quiet_alloc_signal. apply _.
Qed.

(** ** Without a pass of a list, its variables stay *)

Section Calm.
Context (self : fn_ref).

Lemma calm_grows st st' : calm self st st' -> grows st st'.
Proof. intros (evs & T & _). by exists evs. Qed.

Lemma calm_step st st' evs :
  trace st' = evs ++ trace st -> length (records st) <= length (records st') ->
  functions st' !! self = functions st !! self -> calm self st st'.
Proof. intros T Hr Hf. exists evs. rewrite Hf. auto. Qed.

Lemma calm_trans a b c : calm self a b -> calm self b c -> calm self a c.
Proof.
  intros (e1 & T1 & K1) (e2 & T2 & K2). exists (e2 ++ e1). split.
  - by rewrite T2, T1, app_assoc.
  - rewrite count_events_app. intros Hc.
    destruct K1 as [R1 F1]; [lia|]. destruct K2 as [R2 F2]; [lia|].
    split; [lia | eauto].
Qed.

Lemma calm_log e : preserves (calm self) (log e).
Proof.
  intros st u st' H. apply log_Ok in H as ->. by apply (calm_step _ _ [e]).
Qed.

#[export] Instance calm_Base : Base (calm self).
Proof.
  split.
  - intros st. by apply (calm_step _ _ []).
  - apply calm_trans.
  - intros st n. by apply (calm_step _ _ []).
  - intros st h. by apply (calm_step _ _ []).
  - intros st cl. exists []. split; [done|]. intros _. split; [done|].
    intros items r vars Hf. st_simpl. rewrite lookup_app_l; [done|].
    by eapply lookup_lt_Some.
  - intros f g st a st' H. unfold put_cond in H.
    apply bind_Ok in H as (cl & s1 & H1 & H2). apply get_function_Ok in H1 as [Hf ->].
    destruct cl; try discriminate. inversion H2; subst; clear H2.
    exists []. split; [done|]. intros _. split; [done|].
    intros items r vs Hfn. st_simpl.
    rewrite list_lookup_insert_ne; [done|]. intros ->. congruence.
  - intros f v st a st' H. unfold set_referenceClass in H.
    apply bind_Ok in H as (cl & s1 & H1 & H2). apply get_function_Ok in H1 as [Hf ->].
    destruct cl; try discriminate. inversion H2; subst; clear H2.
    exists []. split; [done|]. intros _. split; [done|].
    intros items r vs Hfn. st_simpl.
    rewrite list_lookup_insert_ne; [done|]. intros ->. congruence.
  - intros st st' fn cl (evs & T & K) Hlen. exists evs. split; [done|].
    intros Hc. destruct K as [Hr Hf]; [done|]. split; [done|].
    intros items r vs Hg. st_simpl.
    rewrite list_lookup_insert_ne; [by apply Hf|].
    apply lookup_lt_Some in Hg. lia.
Qed.

Lemma calm_get c : preserves (calm self) (get c).
Proof.
  intros st v st'. unfold get. intros H.
  apply bind_Ok in H as (a & st1 & Ha & H). apply gets_Ok in Ha as [-> ->].
  apply bind_Ok in H as (u & st2 & Hl & H). apply log_Ok in Hl as ->.
  apply bind_Ok in H as (u' & st3 & Hadd & H).
  apply bind_Ok in H as (s & st4 & Hs & H). apply get_signal_Ok in Hs as [Hs ->].
  apply mret_Ok in H as [-> ->].
  assert (Hst : trace st3 = EvRead c (activeEffect st) :: trace st /\
                records st3 = records st /\ functions st3 = functions st).
  { destruct (activeEffect st) as [g|].
    - unfold subscribers_add in Hadd.
      apply bind_Ok in Hadd as (s' & s5 & H5 & Hadd). apply get_signal_Ok in H5 as [_ ->].
      destruct (mem_nat g (subscribers s')).
      + by apply mret_Ok in Hadd as [_ ->].
      + by apply modify_Ok in Hadd as ->.
    - by apply mret_Ok in Hadd as [_ ->]. }
  destruct Hst as (T & Hr & Hf).
  apply (calm_step _ _ [EvRead c (activeEffect st)]); [done | by rewrite Hr | by rewrite Hf].
Qed.

Lemma calm_get_signal c : preserves (calm self) (get_signal c).
Proof.
  intros st s st' H. apply get_signal_Ok in H as [_ ->]. by apply (calm_step _ _ []).
Qed.

Lemma calm_put_signal c s : preserves (calm self) (put_signal c s).
Proof.
  intros st u st' H. apply modify_Ok in H as ->. by apply (calm_step _ _ []).
Qed.

Lemma calm_forEach_subscribers call :
  (forall g, preserves (calm self) (call g)) ->
  forall bound d i, preserves (calm self) (forEach_subscribers call bound d i).
Proof.
  intros Hcall. induction bound as [|bound IH]; intros d i; simpl.
  - apply preserves_bind; [apply _ | apply calm_get_signal |].
    intros s. destruct (subscribers s !! i); [apply preserves_out_of_fuel|].
    apply preserves_ret. apply _.
  - apply preserves_bind; [apply _ | apply calm_get_signal |].
    intros s. destruct (subscribers s !! i); [|apply preserves_ret; apply _].
    apply preserves_bind; [apply _ | apply calm_log |]. intros _.
    apply preserves_bind; [apply _ | apply Hcall |]. intros _. apply IH.
Qed.

Lemma calm_set fuel run call d nv :
  (forall p, preserves (calm self) (run p)) ->
  (forall g, preserves (calm self) (call g)) ->
  preserves (calm self) (set fuel run call d nv).
Proof.
  intros Hrun Hcall. unfold set.
  apply preserves_bind; [apply _ | |].
  { destruct nv; [apply preserves_ret; apply _|].
    apply preserves_bind; [apply _ | apply calm_get_signal | auto]. }
  intros v.
  apply preserves_bind; [apply _ | apply calm_get_signal |]. intros s.
  apply preserves_bind; [apply _ | apply calm_put_signal |]. intros _.
  apply preserves_bind; [apply _ | apply calm_log |]. intros _.
  by apply calm_forEach_subscribers.
Qed.

Lemma calm_createEffect call fn :
  preserves (calm self) (call fn) -> preserves (calm self) (createEffect call fn).
Proof.
  intros Hc. unfold createEffect.
  apply preserves_bind; [apply _ | apply calm_log |]. intros _.
  apply preserves_bind; [apply _ | |].
  { intros st u st' H. apply modify_Ok in H as ->. by apply (calm_step _ _ []). }
  intros _.
  apply preserves_bind; [apply _ | done |]. intros _.
  intros st u st' H. apply modify_Ok in H as ->. by apply (calm_step _ _ []).
Qed.

#[export] Instance calm_CoreFrame : CoreFrame (calm self).
Proof.
  split.
  - intros fn. apply calm_log.
  - apply calm_get.
  - intros. by apply calm_set.
  - intros. by apply calm_createEffect.
  - intros v st c st' H. unfold alloc_signal in H. inversion H; subst.
    by apply (calm_step _ _ []).
Qed.

(** *** A pass of another list *)

Section OtherList.
Context (JS : content -> string) (fuel : nat).
Context (run : prog -> M value) (call : fn_ref -> M unit).
Hypothesis Hrun : forall p, preserves (calm self) (run p).
Hypothesis Hcall : forall fn, preserves (calm self) (call fn).
Context (f : fn_ref) (Hne : f <> self).

Let HB : Base (calm self) := calm_Base.

Hint Resolve Hrun Hcall : pres.

Lemma calm_put_record r x : preserves (calm self) (put_record r x).
Proof.
  intros st a st' H. apply modify_Ok in H as ->.
  apply (calm_step _ _ []); [done | | done]. st_simpl. by rewrite length_insert.
Qed.

Lemma calm_alloc_record x : preserves (calm self) (alloc_record x).
Proof.
  intros st a st' H. unfold alloc_record in H. inversion H; subst.
  apply (calm_step _ _ []); [done | | done]. st_simpl. rewrite length_app. lia.
Qed.

Lemma calm_put_list_other g : preserves (calm self) (put_list f g).
Proof.
  intros st a st' H. unfold put_list in H.
  apply bind_Ok in H as (cl & s1 & H1 & H). apply get_function_Ok in H1 as [Hf ->].
  destruct cl; try discriminate. apply modify_Ok in H as ->.
  apply (calm_step _ _ []); [done | done |]. st_simpl.
  by rewrite list_lookup_insert_ne.
Qed.

Hint Resolve calm_put_record calm_alloc_record calm_put_list_other : pres.

Lemma calm_list_resolve_parent_other : preserves (calm self) (list_resolve_parent f).
Proof. unfold list_resolve_parent. pres. Qed.

Lemma calm_list_remove_entry_other l x : preserves (calm self) (list_remove_entry f l x).
Proof. unfold list_remove_entry. pres. Qed.

Lemma calm_list_upsert_other r x i :
  preserves (calm self) (list_upsert JS fuel run call f r x i).
Proof.
  unfold list_upsert. pres.
  - by apply calm_set.
  - apply preserves_createSignal; try apply _. exact Hrun.
Qed.

Hint Resolve calm_list_resolve_parent_other calm_list_remove_entry_other
  calm_list_upsert_other : pres.

Lemma calm_listEffect_other p r :
  preserves (calm self) (listEffect JS fuel run call f p r).
Proof.
  unfold listEffect. pres. unfold as_item_array. pres.
Qed.

End OtherList.

(** A pass of [self] is in the log; a pass of another list leaves [self]
    its variables. *)
#[export] Instance calm_ListPass : ListPass (calm self).
Proof.
  split. intros JS fuel run call f items renderItem Hrun Hcall.
  destruct (decide (f = self)) as [->|Hne].
  - intros st u st' H.
    apply bind_Ok in H as ([] & s1 & Hl & H). apply log_Ok in Hl as ->.
    assert (Hg : preserves grows (listEffect JS fuel run call self items renderItem)).
    { apply preserves_listEffect; try apply _.
      - intros p s a s' Hp. apply calm_grows. by eapply Hrun.
      - intros fn s a s' Hp. apply calm_grows. by eapply Hcall. }
    apply Hg in H as (evs & T). st_simpl in T.
    exists (evs ++ [EvPass self]). split; [by rewrite T, <- app_assoc|].
    rewrite count_events_app. simpl. rewrite Nat.eqb_refl. lia.
  - apply preserves_bind; [apply _ | apply calm_log |]. intros _.
    by apply calm_listEffect_other.
Qed.

(** Every callback and every function object keeps [calm]. *)
Lemma exec_calm JS n :
  (forall p, preserves (calm self) (exec JS n p)) /\
  (forall fn, preserves (calm self) (invoke JS n fn)).
Proof. apply exec_preserves; apply _. Qed.

End Calm.

(** ** Reasoning about a pass without a nested pass of the same list *)

Section Passless.
Context (self : fn_ref).

Lemma passless_ret {A} (P : state -> Prop) (a : A) (Q : A -> state -> Prop) :
  (forall st, P st -> Q a st) -> passless self P (mret a : M A) Q.
Proof.
  intros HQ st a' st' H. apply mret_Ok in H as [-> ->]. exists []. auto.
Qed.

Lemma passless_bind {A B} P (m : M A) Q (f : A -> M B) R :
  passless self P m Q -> (forall a, passless self (Q a) (f a) R) -> passless self P (m ≫= f) R.
Proof.
  intros Hm Hf st b st' H. apply bind_Ok in H as (a & s1 & H1 & H2).
  destruct (Hm _ _ _ H1) as (e1 & T1 & K1).
  destruct (Hf _ _ _ _ H2) as (e2 & T2 & K2).
  exists (e2 ++ e1). split; [by rewrite T2, T1, app_assoc|].
  rewrite count_events_app. intros Hc HP. apply K2; [lia|]. apply K1; [lia | done].
Qed.

Lemma passless_conseq {A} (P P' : state -> Prop) (m : M A) (Q Q' : A -> state -> Prop) :
  passless self P' m Q' -> (forall st, P st -> P' st) -> (forall a st, Q' a st -> Q a st) ->
  passless self P m Q.
Proof.
  intros Hm HP HQ st a st' H. destruct (Hm _ _ _ H) as (evs & T & K).
  exists evs. split; [done|]. auto.
Qed.

Lemma passless_throw {A} P (e : error) Q : passless self P (@throw A e) Q.
Proof. intros st a st' H. discriminate. Qed.

(** A property that holds before holds after, whatever the value. *)
Lemma passless_frame {A} (F P : state -> Prop) (m : M A) Q :
  passless self P m Q -> passless self F m (fun _ => F) ->
  passless self (fun st => F st /\ P st) m (fun a st => F st /\ Q a st).
Proof.
  intros Hm HF st a st' H.
  destruct (Hm _ _ _ H) as (evs & T & K). destruct (HF _ _ _ H) as (evs' & T' & K').
  assert (evs' = evs) as -> by (rewrite T in T'; by apply app_inv_tail in T').
  exists evs. split; [done|]. intros Hc [HF' HP]. auto.
Qed.

(** What the library does between the steps of a pass keeps a stable
    property. *)
Lemma passless_calm {A} P (m : M A) :
  stable self P -> preserves (calm self) m -> passless self P m (fun _ => P).
Proof.
  intros HP Hm st a st' H. destruct (Hm _ _ _ H) as (evs & T & K).
  exists evs. split; [done|]. intros Hc HPst.
  destruct (K Hc) as [Hr Hf]. by apply (HP st st').
Qed.

Lemma passless_reads {A} P (m : M A) :
  reads m -> passless self P m (fun a st => P st /\ m st = Ok a st).
Proof.
  intros Hm st a st' H. pose proof (Hm _ _ _ H) as ->. exists []. auto.
Qed.

Lemma reads_get_list f : reads (get_list f).
Proof.
  intros st a st' H. unfold get_list in H.
  apply bind_Ok in H as (cl & s1 & H1 & H). apply get_function_Ok in H1 as [_ ->].
  destruct cl; try discriminate. by apply mret_Ok in H as [_ ->].
Qed.

Lemma reads_get_record obj : reads (get_record obj).
Proof.
  intros st a st' H. unfold get_record in H.
  destruct (records st !! obj); inversion H; by subst.
Qed.

Lemma reads_stringify_item JS item : reads (stringify_item JS item).
Proof.
  intros st a st' H. unfold stringify_item in H.
  apply bind_Ok in H as (c & s1 & H1 & H). unfold get_object in H1.
  destruct (heap st !! item); inversion H1; subst. by apply mret_Ok in H as [_ ->].
Qed.

Lemma reads_as_item_array v : reads (as_item_array v).
Proof.
  intros st a st' H. unfold as_item_array in H.
  destruct v; try discriminate. destruct (as_items l); try discriminate.
  by apply mret_Ok in H as [_ ->].
Qed.

Lemma reads_node_parent n : reads (node_parent n).
Proof.
  intros st a st' H. unfold node_parent in H.
  apply bind_Ok in H as (nd & s1 & H1 & H). apply get_node_Ok in H1 as [_ ->].
  by apply mret_Ok in H as [_ ->].
Qed.

Lemma reads_child_at p i : reads (child_at p i).
Proof.
  intros st a st' H. unfold child_at in H.
  apply bind_Ok in H as (nd & s1 & H1 & H). apply get_node_Ok in H1 as [_ ->].
  by apply mret_Ok in H as [_ ->].
Qed.

Lemma get_list_Ok f st vars st' :
  get_list f st = Ok vars st' -> list_vars_of f st vars /\ st' = st.
Proof.
  intros H. unfold get_list in H.
  apply bind_Ok in H as (cl & s1 & H1 & H). apply get_function_Ok in H1 as [Hf ->].
  destruct cl; try discriminate. apply mret_Ok in H as [-> ->].
  split; [|done]. by eexists _, _.
Qed.

Lemma get_record_Ok obj st r st' :
  get_record obj st = Ok r st' -> records st !! obj = Some r /\ st' = st.
Proof.
  unfold get_record. destruct (records st !! obj); intros H; inversion H; by subst.
Qed.

Lemma put_list_Ok f g st u st' :
  put_list f g st = Ok u st' ->
  exists items r vars,
    functions st !! f = Some (ListEffect items r vars) /\
    st' = set_functions (<[f := ListEffect items r (g vars)]> (functions st)) st.
Proof.
  intros H. unfold put_list in H.
  apply bind_Ok in H as (cl & s1 & H1 & H). apply get_function_Ok in H1 as [Hf ->].
  destruct cl; try discriminate. apply modify_Ok in H as ->. by eexists _, _, _.
Qed.

(** A step that writes no event. *)
Lemma passless_quiet {A} (P : state -> Prop) (m : M A) (Q : A -> state -> Prop) :
  (forall st a st', m st = Ok a st' -> trace st' = trace st /\ (P st -> Q a st')) ->
  passless self P m Q.
Proof.
  intros Hm st a st' H. destruct (Hm _ _ _ H) as [T K]. exists []. split; [done|]. auto.
Qed.

Lemma passless_pure {A} P (m : M A) : reads m -> passless self P m (fun _ => P).
Proof.
  intros Hm. apply passless_quiet. intros st a st' H.
  pose proof (Hm _ _ _ H) as ->. auto.
Qed.

Lemma passless_get_list P f :
  passless self P (get_list f) (fun vars st => P st /\ list_vars_of f st vars).
Proof.
  apply passless_quiet. intros st a st' H. apply get_list_Ok in H as [Hl ->]. auto.
Qed.

Lemma passless_get_record P obj :
  passless self P (get_record obj) (fun r st => P st /\ records st !! obj = Some r).
Proof.
  apply passless_quiet. intros st a st' H. apply get_record_Ok in H as [Hl ->]. auto.
Qed.

Lemma passless_when P b m :
  passless self P m (fun _ => P) -> passless self P (when b m) (fun _ => P).
Proof. destruct b; simpl; [done|]. intros _. by apply passless_ret. Qed.

Lemma passless_forEach {A} (I : list A -> state -> Prop) (f : A -> M unit) l :
  (forall x rest, passless self (I (x :: rest)) (f x) (fun _ => I rest)) ->
  passless self (I l) (forEach l f) (fun _ => I []).
Proof.
  intros Hf. induction l as [|x l IH]; simpl.
  - by apply passless_ret.
  - eapply passless_bind; [apply Hf|]. intros ?. apply IH.
Qed.

Lemma passless_forEach_indexed {A} (P : state -> Prop) (f : A -> nat -> M unit) l :
  forall i,
  (forall x j, x ∈ l -> passless self P (f x j) (fun _ => P)) ->
  passless self P (forEach_indexed i l f) (fun _ => P).
Proof.
  induction l as [|x l IH]; intros i Hf; simpl.
  - by apply passless_ret.
  - eapply passless_bind; [apply Hf; apply elem_of_cons; by left|]. intros ?. apply IH.
    intros y j Hy. apply Hf. apply elem_of_cons. by right.
Qed.

End Passless.

(** ** Maps in insertion order *)

Lemma map_get_elem {V} k (v : V) m : map_get k m = Some v -> (k, v) ∈ m.
Proof.
  induction m as [|[k' v'] m IH]; simpl; [done|].
  destruct (Nat.eqb_spec k' k) as [->|Hne].
  - intros [= ->]. apply elem_of_cons. by left.
  - intros H. apply elem_of_cons. right. auto.
Qed.

Lemma map_set_elem {V} k (v : V) m k' v' :
  (k', v') ∈ map_set k v m -> (k', v') = (k, v) \/ (k', v') ∈ m.
Proof.
  induction m as [|[k0 v0] m IH]; simpl.
  - intros H. apply list_elem_of_singleton in H. by left.
  - destruct (Nat.eqb_spec k0 k) as [->|Hne]; intros H.
    + apply elem_of_cons in H as [H|H]; [by left|]. right. apply elem_of_cons. by right.
    + apply elem_of_cons in H as [H|H]; [right; rewrite H; apply elem_of_cons; by left|].
      destruct (IH H) as [?|?]; [by left|]. right. apply elem_of_cons. by right.
Qed.

Lemma map_set_keys {V} k (v : V) m k' :
  k' ∈ map fst (map_set k v m) <-> k' = k \/ k' ∈ map fst m.
Proof.
  induction m as [|[k0 v0] m IH]; simpl.
  - rewrite list_elem_of_singleton. split; [by left|]. intros [?|H]; [done|inversion H].
  - destruct (Nat.eqb_spec k0 k) as [->|Hne]; simpl.
    + rewrite !elem_of_cons. tauto.
    + rewrite !elem_of_cons, IH. tauto.
Qed.

Lemma map_set_NoDup {V} k (v : V) m :
  NoDup (map fst m) -> NoDup (map fst (map_set k v m)).
Proof.
  induction m as [|[k0 v0] m IH]; simpl; intros Hnd.
  - apply NoDup_singleton.
  - apply NoDup_cons in Hnd as [Hin Hnd].
    destruct (Nat.eqb_spec k0 k) as [->|Hne]; simpl.
    + by apply NoDup_cons.
    + apply NoDup_cons. split; [|auto].
      rewrite map_set_keys. intros [?|?]; congruence.
Qed.

Lemma map_delete_middle {V} k (v : V) kept rest :
  k ∉ map fst kept -> map_delete k (kept ++ (k, v) :: rest) = kept ++ rest.
Proof.
  induction kept as [|[k0 v0] kept IH]; simpl; intros Hk.
  - by rewrite Nat.eqb_refl.
  - apply not_elem_of_cons in Hk as [Hne Hk].
    destruct (Nat.eqb_spec k0 k) as [->|_]; [done|]. by rewrite IH.
Qed.

(** ** The invariants of a pass *)

Lemma list_vars_of_inj self st v1 v2 :
  list_vars_of self st v1 -> list_vars_of self st v2 -> v1 = v2.
Proof. intros (i1 & r1 & H1) (i2 & r2 & H2). congruence. Qed.

Lemma stable_list_vars_of self vars : stable self (fun st => list_vars_of self st vars).
Proof. intros st st' Hr Hf (items & r & H). exists items, r. auto. Qed.

Lemma stable_tracked self vars : stable self (tracked vars).
Proof.
  intros st st' Hr Hf [Hnd Hin]. split; [done|]. intros item obj Ho.
  apply lookup_lt_is_Some. specialize (Hin _ _ Ho). apply lookup_lt_is_Some in Hin. lia.
Qed.

Lemma stable_list_tracked self : stable self (list_tracked self).
Proof.
  intros st st' Hr Hf (vars & Hv & Ht). exists vars. split.
  - by eapply (stable_list_vars_of self vars).
  - by eapply stable_tracked.
Qed.

Lemma stable_list_within self cur : stable self (list_within self cur).
Proof.
  intros st st' Hr Hf (vars & Hv & Ht & Hk). exists vars. split_and!; [| |done].
  - by eapply (stable_list_vars_of self vars).
  - by eapply stable_tracked.
Qed.

Lemma stable_list_removing self cur rest : stable self (list_removing self cur rest).
Proof.
  intros st st' Hr Hf (vars & kept & Hv & Ht & Hm & Hk).
  exists vars, kept. split_and!; [| |done|done].
  - by eapply (stable_list_vars_of self vars).
  - by eapply stable_tracked.
Qed.

Lemma stable_is_record self obj : stable self (is_record obj).
Proof.
  intros st st' Hr Hf H. unfold is_record in *.
  apply lookup_lt_is_Some. apply lookup_lt_is_Some in H. lia.
Qed.

Lemma stable_and self P Q :
  stable self P -> stable self Q -> stable self (fun st => P st /\ Q st).
Proof. intros HP HQ st st' Hr Hf [H1 H2]. split; [by eapply HP | by eapply HQ]. Qed.

(** The state after [put_list]. *)
Lemma put_list_vars self g st u st' vars :
  put_list self g st = Ok u st' -> list_vars_of self st vars ->
  trace st' = trace st /\ records st' = records st /\ list_vars_of self st' (g vars).
Proof.
  intros H Hv. apply put_list_Ok in H as (items & r & vars' & Hf & ->).
  assert (vars' = vars) as -> by (eapply list_vars_of_inj; [by eexists _, _ | done]).
  split_and!; [done | done |]. exists items, r. st_simpl.
  apply list_lookup_insert_eq. by eapply lookup_lt_Some.
Qed.

Lemma put_record_Ok obj x st u st' :
  put_record obj x st = Ok u st' -> st' = set_records (<[obj := x]> (records st)) st.
Proof. intros H. by apply modify_Ok in H. Qed.

Lemma tracked_put_record vars obj x st :
  tracked vars st -> tracked vars (set_records (<[obj := x]> (records st)) st).
Proof.
  intros [Hnd Hin]. split; [done|]. intros item o Ho. st_simpl.
  apply lookup_lt_is_Some. rewrite length_insert. apply lookup_lt_is_Some. eauto.
Qed.

Lemma list_vars_of_set_records self r st vars :
  list_vars_of self (set_records r st) vars <-> list_vars_of self st vars.
Proof. done. Qed.

Lemma passless_put_record_within self cur obj x :
  passless self (list_within self cur) (put_record obj x) (fun _ => list_within self cur).
Proof.
  apply passless_quiet. intros st a st' H. apply put_record_Ok in H as ->.
  split; [done|]. intros (vars & Hv & Ht & Hk). exists vars.
  split_and!; [done | by apply tracked_put_record | done].
Qed.

Lemma passless_put_record_is_record self obj' obj x :
  passless self (is_record obj') (put_record obj x) (fun _ => is_record obj').
Proof.
  apply passless_quiet. intros st a st' H. apply put_record_Ok in H as ->.
  split; [done|]. unfold is_record. st_simpl. intros Hr.
  apply lookup_lt_is_Some. rewrite length_insert. by apply lookup_lt_is_Some.
Qed.

(** A [put_list] that keeps [itemMap]. *)
Lemma passless_put_list_same self g :
  (forall v, itemMap (g v) = itemMap v) ->
  passless self (list_tracked self) (put_list self g) (fun _ => list_tracked self).
Proof.
  intros Hg. apply passless_quiet. intros st a st' H.
  pose proof H as H'. apply put_list_Ok in H' as (items & r & vars & Hf & _).
  assert (Hv : list_vars_of self st vars) by (by eexists _, _).
  destruct (put_list_vars _ _ _ _ _ _ H Hv) as (T & Hr & Hv').
  split; [done|]. intros (vars0 & Hv0 & [Hnd Hin]).
  assert (vars0 = vars) as -> by (by eapply list_vars_of_inj).
  exists (g vars). split; [done|]. unfold tracked, keys. rewrite Hg, Hr. by split.
Qed.

(** [itemMap.set(item, obj)] on a record. *)
Lemma passless_put_list_set self cur item obj :
  item ∈ cur ->
  passless self (fun st => list_within self cur st /\ is_record obj st)
    (put_list self (fun vars => set_itemMap (map_set item obj (itemMap vars)) vars))
    (fun _ st => list_within self cur st /\ is_record obj st).
Proof.
  intros Hitem. apply passless_quiet. intros st a st' H.
  pose proof H as H'. apply put_list_Ok in H' as (items & r & vars & Hf & _).
  assert (Hv : list_vars_of self st vars) by (by eexists _, _).
  destruct (put_list_vars _ _ _ _ _ _ H Hv) as (T & Hr & Hv').
  split; [done|]. intros [(vars0 & Hv0 & [Hnd Hin] & Hk) Hrec].
  assert (vars0 = vars) as -> by (by eapply list_vars_of_inj).
  split; [|unfold is_record in *; by rewrite Hr].
  eexists. split; [exact Hv'|]. unfold tracked, keys in *. simpl. split_and!.
  - by apply map_set_NoDup.
  - intros k o Ho. rewrite Hr. apply map_set_elem in Ho as [[= -> ->]|Ho]; [done|eauto].
  - intros k Hk'. apply map_set_keys in Hk' as [->|Hk']; auto.
Qed.

(** [itemMap.delete(item)] for the entry that is visited. *)
Lemma passless_put_list_delete self cur item obj rest :
  passless self (list_removing self cur ((item, obj) :: rest))
    (put_list self (fun vars => set_itemMap (map_delete item (itemMap vars)) vars))
    (fun _ => list_removing self cur rest).
Proof.
  apply passless_quiet. intros st a st' H.
  pose proof H as H'. apply put_list_Ok in H' as (items & r & vars & Hf & _).
  assert (Hv : list_vars_of self st vars) by (by eexists _, _).
  destruct (put_list_vars _ _ _ _ _ _ H Hv) as (T & Hr & Hv').
  split; [done|]. intros (vars0 & kept & Hv0 & [Hnd Hin] & Hm & Hk).
  assert (vars0 = vars) as -> by (by eapply list_vars_of_inj).
  unfold keys in Hnd. rewrite Hm in Hnd. rewrite map_app in Hnd. simpl in Hnd.
  pose proof (NoDup_middle_not_in _ _ _ Hnd) as [Hnk Hnr].
  eexists _, kept. split; [exact Hv'|]. simpl. rewrite Hm, map_delete_middle by done.
  split_and!; [|done|done].
  split.
  - unfold keys. simpl. rewrite map_app.
    apply NoDup_app in Hnd as (N1 & N2 & N3). apply NoDup_cons in N3 as [_ N3].
    apply NoDup_app. split_and!; [done | | done].
    intros x Hx Hx'. apply (N2 x Hx). apply elem_of_cons. by right.
  - intros k o Ho. simpl in Ho. rewrite Hr. apply (Hin k o). rewrite Hm.
    apply elem_of_app in Ho as [Ho|Ho]; apply elem_of_app; [by left|].
    right. apply elem_of_cons. by right.
Qed.

(** The entry that is visited stays. *)
Lemma list_removing_keep self cur item obj rest st :
  item ∈ cur -> list_removing self cur ((item, obj) :: rest) st ->
  list_removing self cur rest st.
Proof.
  intros Hitem (vars & kept & Hv & Ht & Hm & Hk).
  exists vars, (kept ++ [(item, obj)]). split_and!; [done | done | |].
  - by rewrite <- app_assoc.
  - intros k. rewrite map_app. simpl. intros Hin.
    apply elem_of_app in Hin as [Hin|Hin]; [auto|].
    apply list_elem_of_singleton in Hin as ->. done.
Qed.

(** ** The steps of a pass *)

Section Pass.
Context (JS : content -> string) (fuel : nat).
Context (run : prog -> M value) (call : fn_ref -> M unit).
Context (self : fn_ref).
Hypothesis Hrun : forall p, preserves (calm self) (run p).
Hypothesis Hcall : forall fn, preserves (calm self) (call fn).

Lemma calm_removeChild p c : preserves (calm self) (removeChild p c).
Proof. apply preserves_removeChild. apply _. Qed.

Lemma calm_insertBefore p c r : preserves (calm self) (insertBefore p c r).
Proof. apply preserves_insertBefore. apply _. Qed.

Lemma calm_appendChild p c : preserves (calm self) (appendChild p c).
Proof. apply preserves_appendChild. apply _. Qed.

Lemma calm_as_node v : preserves (calm self) (as_node v).
Proof. apply preserves_as_node. apply _. Qed.

Lemma calm_createSignal iv : preserves (calm self) (createSignal run iv).
Proof. apply preserves_createSignal; try apply _. exact Hrun. Qed.

Lemma calm_set' c nv : preserves (calm self) (set fuel run call c nv).
Proof. by apply calm_set. Qed.

(** "Determine the parent node if not set" keeps [itemMap]. *)
Lemma passless_list_resolve_parent :
  passless self (list_tracked self) (list_resolve_parent self) (fun _ => list_tracked self).
Proof.
  unfold list_resolve_parent.
  eapply passless_bind; [apply (passless_pure _ _ _ (reads_get_list self))|]. intros vars.
  apply passless_when.
  eapply (passless_bind _ _ _ (fun _ => list_tracked self)).
  { destruct (referenceElm vars); [apply passless_pure, reads_node_parent|].
    by apply passless_ret. }
  intros rp.
  assert (Hrest : passless self (list_tracked self)
            (match itemMap vars with
             | [] => mret tt
             | (_, obj) :: _ =>
                 r ← get_record obj;
                 ep ← node_parent (element r);
                 match ep with
                 | Some p => put_list self (set_list_parent (Some p))
                 | None => mret tt
                 end
             end) (fun _ => list_tracked self)).
  { destruct (itemMap vars) as [|[k obj] m]; [by apply passless_ret|].
    eapply passless_bind; [apply (passless_pure _ _ _ (reads_get_record obj))|]. intros r.
    eapply passless_bind; [apply (passless_pure _ _ _ (reads_node_parent _))|]. intros ep.
    destruct ep; [by apply passless_put_list_same | by apply passless_ret]. }
  destruct (referenceElm vars) as [r|]; [|exact Hrest].
  destruct rp as [p|]; [|exact Hrest].
  eapply passless_bind; [by apply passless_put_list_same|]. intros ?.
  eapply passless_bind.
  { apply passless_calm; [apply stable_list_tracked | apply calm_removeChild]. }
  intros ?. by apply passless_put_list_same.
Qed.

(** "Remove items not in the new list", for one entry. *)
Lemma passless_list_remove_entry cur item obj rest :
  passless self (list_removing self cur ((item, obj) :: rest))
    (list_remove_entry self cur (item, obj))
    (fun _ => list_removing self cur rest).
Proof.
  unfold list_remove_entry.
  eapply passless_bind; [apply (passless_pure _ _ _ (reads_get_record obj))|]. intros r.
  destruct (mem_nat item cur) eqn:Hmem; simpl.
  - apply passless_ret. intros st. apply list_removing_keep.
    by apply mem_nat_In.
  - eapply passless_bind; [apply (passless_pure _ _ _ (reads_get_list self))|]. intros vars.
    eapply passless_bind; [|intros ?; apply passless_put_list_delete].
    destruct (list_parent vars); [|by apply passless_ret].
    apply passless_calm; [apply stable_list_removing | apply calm_removeChild].
Qed.

Lemma passless_when_post P Q b m :
  passless self P m (fun _ => Q) -> (forall st, P st -> Q st) ->
  passless self P (when b m) (fun _ => Q).
Proof. destruct b; simpl; [done|]. intros _ HPQ. by apply passless_ret. Qed.

Lemma passless_put_record_both cur obj' obj x :
  passless self (fun st => list_within self cur st /\ is_record obj' st) (put_record obj x)
    (fun _ st => list_within self cur st /\ is_record obj' st).
Proof.
  apply passless_quiet. intros st a st' H. apply put_record_Ok in H as ->.
  split; [done|]. intros [(vars & Hv & Ht & Hk) Hr]. split.
  - exists vars. split_and!; [done | by apply tracked_put_record | done].
  - unfold is_record in *. st_simpl.
    apply lookup_lt_is_Some. rewrite length_insert. by apply lookup_lt_is_Some.
Qed.

Lemma passless_alloc_record cur x :
  passless self (list_within self cur) (alloc_record x)
    (fun obj st => list_within self cur st /\ is_record obj st).
Proof.
  apply passless_quiet. intros st a st' H. unfold alloc_record in H.
  inversion H; subst; clear H. split; [done|].
  intros (vars & Hv & [Hnd Hin] & Hk). split.
  - exists vars. split_and!; [done | | done]. split; [done|].
    intros k o Ho. st_simpl. apply lookup_lt_is_Some. rewrite length_app.
    specialize (Hin k o Ho). apply lookup_lt_is_Some in Hin. lia.
  - unfold is_record. st_simpl. rewrite lookup_app_at. by eexists.
Qed.

(** "Add or update items", for one item of the new list. *)
Lemma passless_list_upsert cur renderItem item i :
  item ∈ cur ->
  passless self (list_within self cur)
    (list_upsert JS fuel run call self renderItem item i)
    (fun _ => list_within self cur).
Proof.
  intros Hitem. unfold list_upsert.
  set (W := fun obj st => list_within self cur st /\ is_record obj st).
  assert (SW : forall obj, stable self (W obj)).
  { intros obj. apply stable_and; [apply stable_list_within | apply stable_is_record]. }
  eapply passless_bind; [apply passless_get_list|]. intros vars. cbv beta.
  set (P0 := fun st => list_within self cur st /\ list_vars_of self st vars).
  assert (Hfound : forall obj st,
            map_get item (itemMap vars) = Some obj -> P0 st -> W obj st).
  { intros obj st Hg [(vars0 & Hv0 & [Hnd Hin] & Hk) Hv].
    assert (vars0 = vars) as -> by (by eapply list_vars_of_inj).
    split; [by exists vars|]. apply (Hin item obj). by apply map_get_elem. }
  eapply passless_bind; [apply (passless_pure _ P0 _ (reads_stringify_item JS item))|].
  intros id'.
  eapply (passless_bind _ P0 _ (fun _ => P0)).
  { destruct (map_get item (itemMap vars)) as [obj|]; [|by apply passless_ret].
    eapply passless_bind; [apply (passless_pure _ P0 _ (reads_get_record obj))|].
    intros r. by apply passless_ret. }
  intros isPositionChanged.
  eapply (passless_bind _ P0 _ W).
  { destruct (map_get item (itemMap vars)) as [obj|] eqn:Hg.
    - eapply (passless_conseq _ _ (W obj) _ _ (fun o st => W obj st /\ o = obj)).
      2:{ intros st. by apply Hfound. }
      2:{ by intros o st [HW ->]. }
      eapply passless_bind; [apply (passless_pure _ (W obj) _ (reads_get_record obj))|].
      intros r.
      eapply (passless_bind _ _ _ (fun _ => W obj)); [|intros ?; by apply passless_ret].
      apply passless_when.
      eapply passless_bind; [apply (passless_calm _ _ _ (SW obj)), calm_set'|]. intros ?.
      eapply passless_bind; [apply (passless_pure _ (W obj) _ (reads_get_record obj))|].
      intros r1.
      eapply passless_bind; [apply passless_put_record_both|]. intros ?.
      eapply passless_bind; [apply (passless_pure _ (W obj) _ (reads_get_record obj))|].
      intros r2. apply passless_put_record_both.
    - eapply (passless_conseq _ _ (list_within self cur) _ _ W).
      2:{ by intros st [H _]. }
      2:{ done. }
      eapply passless_bind.
      { apply passless_calm; [apply stable_list_within | apply calm_createSignal]. }
      intros c.
      eapply passless_bind.
      { apply passless_calm; [apply stable_list_within | apply Hrun]. }
      intros rendered.
      eapply passless_bind.
      { apply passless_calm; [apply stable_list_within | apply calm_as_node]. }
      intros newElement.
      eapply passless_bind; [apply passless_alloc_record|]. intros obj.
      eapply passless_bind; [by apply passless_put_list_set|]. intros ?.
      by apply passless_ret. }
  intros obj.
  apply passless_when_post; [|by intros st [H _]].
  eapply passless_bind; [apply (passless_pure _ (W obj) _ (reads_get_list self))|].
  intros vars1.
  eapply passless_bind; [apply (passless_pure _ (W obj) _ (reads_get_record obj))|].
  intros r.
  eapply (passless_bind _ _ _ (fun _ => W obj)).
  { destruct (list_parent vars1); [apply passless_pure, reads_child_at|].
    by apply passless_ret. }
  intros targetPosition.
  eapply (passless_bind _ _ _ (fun _ => W obj)).
  { apply passless_when.
    destruct (list_parent vars1) as [p|]; [|by apply passless_ret].
    destruct targetPosition as [t|].
    - apply passless_calm; [apply SW | apply calm_insertBefore].
    - apply passless_calm; [apply SW | apply calm_appendChild]. }
  intros ?.
  eapply passless_bind; [apply (passless_pure _ (W obj) _ (reads_get_record obj))|].
  intros r1.
  eapply passless_bind; [apply passless_put_record_both|]. intros ?.
  eapply passless_conseq; [by apply passless_put_list_set | done | by intros ? st [H _]].
Qed.

(** A pass over the items [cur], after the producer returned them. *)
Lemma passless_reconcile cur renderItem :
  passless self (list_tracked self)
    (list_resolve_parent self;;
     vars ← get_list self;
     forEach (itemMap vars) (list_remove_entry self cur);;
     forEach_indexed 0 cur (list_upsert JS fuel run call self renderItem))
    (fun _ => list_within self cur).
Proof.
  eapply passless_bind; [apply passless_list_resolve_parent|]. intros ?.
  eapply passless_bind; [apply passless_get_list|]. intros vars. cbv beta.
  eapply (passless_bind _ _ _ (fun _ => list_within self cur)).
  - eapply (passless_conseq _ _ (list_removing self cur (itemMap vars)) _ _
              (fun _ => list_removing self cur [])).
    + apply (passless_forEach _ (list_removing self cur)).
      intros [item obj] rest. apply passless_list_remove_entry.
    + intros st [(vars0 & Hv0 & Ht) Hv].
      assert (vars0 = vars) as -> by (by eapply list_vars_of_inj).
      exists vars, []. split_and!; [done | done | done |].
      intros item Hin. by apply elem_of_nil in Hin.
    + intros ? st (vars' & kept & Hv & Ht & Hm & Hk). rewrite app_nil_r in Hm.
      exists vars'. split_and!; [done | done |]. unfold keys. by rewrite Hm.
  - intros ?. apply passless_forEach_indexed. intros x j Hx.
    by apply passless_list_upsert.
Qed.

End Pass.

Lemma new_events_app st st' evs : trace st' = evs ++ trace st -> new_events st st' = evs.
Proof.
  intros T. unfold new_events. rewrite T, length_app.
  replace (length evs + length (trace st) - length (trace st)) with (length evs) by lia.
  by rewrite take_app_length.
Qed.

(** C6, as the code has it.  A reconciliation pass of the list effect
    [self] that returns, and in which no other pass of [self] started
    (passes of other lists may have run): if [itemMap] was a map into the
    records before, it is one afterwards, and each of its keys is one of
    the items the producer returned in this pass. *)
Theorem listEffect_keys_within JS n self items renderItem vars st st' :
  functions st !! self = Some (ListEffect items renderItem vars) ->
  tracked vars st ->
  invoke JS (S n) self st = Ok tt st' ->
  count_events (is_pass_of self) (new_events st st') = 1 ->
  exists v s1 cur vars',
    exec JS n items (set_trace (EvPass self :: trace st) st) = Ok v s1 /\
    as_item_array v s1 = Ok cur s1 /\
    list_vars_of self st' vars' /\
    tracked vars' st' /\
    (forall item, item ∈ keys vars' -> item ∈ cur).
Proof.
  intros Hf Ht H Hc. cbn [invoke] in H. unfold dispatch in H.
  apply bind_Ok in H as (cl & s0 & H0 & H). apply get_function_Ok in H0 as [H0 ->].
  rewrite Hf in H0. injection H0 as <-.
  apply bind_Ok in H as ([] & s0 & Hl & H). apply log_Ok in Hl as ->.
  unfold listEffect in H.
  apply bind_Ok in H as (v & s1 & Hitems & H).
  apply bind_Ok in H as (cur & s1' & Hcur & H).
  pose proof (reads_as_item_array _ _ _ _ Hcur) as ->.
  destruct (exec_calm self JS n) as [He Hi].
  pose proof (passless_calm self (list_tracked self) _ (stable_list_tracked self)
                (He items) _ _ _ Hitems) as (e1 & T1 & K1).
  pose proof (passless_reconcile JS n (exec JS n) (invoke JS n) self He Hi cur renderItem
                _ _ _ H) as (e2 & T2 & K2).
  st_simpl in T1.
  assert (T : trace st' = (e2 ++ e1 ++ [EvPass self]) ++ trace st).
  { rewrite T2, T1. by rewrite <- !app_assoc. }
  rewrite (new_events_app _ _ _ T) in Hc. rewrite !count_events_app in Hc. simpl in Hc.
  rewrite Nat.eqb_refl in Hc.
  destruct K2 as (vars' & Hv' & Ht' & Hk'); [lia | apply K1; [lia|] |].
  { exists vars. split; [by eexists _, _ | done]. }
  by exists v, s1, cur, vars'.
Qed.

(** ** Maps in insertion order, continued *)

Lemma map_set_same {V} k (v : V) m : map_get k m = Some v -> map_set k v m = m.
Proof.
  induction m as [|[k0 v0] m IH]; simpl; [done|].
  destruct (Nat.eqb_spec k0 k) as [->|Hne].
  - by intros [= ->].
  - intros H. by rewrite IH.
Qed.

(** ** Moving and removing a child *)

Lemma with_parent_same p nd : parentNode nd = Some p -> with_parent (Some p) (with_parent None nd) = nd.
Proof. destruct nd; simpl. by intros ->. Qed.

Lemma child_at_eq p i st pn :
  nodes st !! p = Some pn -> child_at p i st = Ok (childNodes pn !! i) st.
Proof.
  intros H. unfold child_at. eapply run_bind; [by apply get_node_eq|]. reflexivity.
Qed.

(** [insertBefore] of a child of [p] before another child of [p]. *)
Lemma insertBefore_move_eq p n t st pn nn tn :
  nodes st !! p = Some pn -> is_element pn = true ->
  nodes st !! n = Some nn -> parentNode nn = Some p ->
  nodes st !! t = Some tn -> parentNode tn = Some p ->
  t <> n -> n <> p ->
  inclusive_ancestor (length (nodes st)) (nodes st) n p = false ->
  insertBefore p n t st =
  Ok tt (set_nodes
           (<[p := with_children (insert_before n t (remove_nat n (childNodes pn))) pn]>
              (nodes st)) st).
Proof.
  intros Hp He Hn Hnp Ht Htp Htn Hnp' Hanc.
  assert (Hlp : p < length (nodes st)) by (by eapply lookup_lt_Some).
  assert (Hln : n < length (nodes st)) by (by eapply lookup_lt_Some).
  unfold insertBefore, ensure_pre_insert.
  eapply run_bind.
  { eapply run_bind; [by apply get_node_eq|].
    eapply run_bind; [by apply get_node_eq|].
    rewrite He. simpl. unfold contains.
    eapply run_bind; [reflexivity|]. by rewrite Hanc. }
  eapply run_bind; [by apply get_node_eq|].
  rewrite Htp. rewrite bool_decide_eq_true_2 by done. cbn [negb].
  eapply run_bind; [by apply get_node_eq|].
  assert ((t =? n) = false) as -> by (by apply Nat.eqb_neq).
  eapply run_bind.
  { unfold detach. eapply run_bind; [by apply get_node_eq|]. rewrite Hnp.
    eapply run_bind; [by apply get_node_eq|].
    eapply run_bind; [reflexivity|]. reflexivity. }
  unfold link.
  eapply run_bind.
  { apply get_node_eq. st_simpl. rewrite list_lookup_insert_ne by done.
    by apply list_lookup_insert_eq. }
  eapply run_bind; [reflexivity|].
  eapply run_bind.
  { apply get_node_eq. st_simpl. rewrite list_lookup_insert_ne by done.
    apply list_lookup_insert_eq. by rewrite length_insert. }
  unfold put_node, modify. st_simpl. cbn [childNodes with_children].
  rewrite !set_nodes_set_nodes. do 2 f_equal.
  rewrite (with_parent_same p nn Hnp).
  change (with_children ?a (with_children ?b pn)) with (with_children a pn).
  rewrite (list_insert_insert_ne _ p n) by done.
  rewrite !list_insert_insert_eq.
  rewrite (list_insert_insert_ne _ n p) by done.
  rewrite (list_insert_id _ n nn) by done. reflexivity.
Qed.

Lemma removeChild_eq p c st pn cn :
  nodes st !! p = Some pn -> nodes st !! c = Some cn -> parentNode cn = Some p ->
  removeChild p c st =
  Ok tt (set_nodes
           (<[c := with_parent None cn]>
              (<[p := with_children (remove_nat c (childNodes pn)) pn]> (nodes st))) st).
Proof.
  intros Hp Hc Hcp. unfold removeChild.
  eapply run_bind; [by apply get_node_eq|].
  eapply run_bind; [by apply get_node_eq|].
  rewrite Hcp. rewrite bool_decide_eq_true_2 by done. cbn [negb].
  unfold detach. eapply run_bind; [by apply get_node_eq|]. rewrite Hcp.
  eapply run_bind; [by apply get_node_eq|].
  eapply run_bind; [reflexivity|]. reflexivity.
Qed.

(** ** The steps of a pass, on an item that [itemMap] has *)

Lemma get_list_eq self st items r vars :
  functions st !! self = Some (ListEffect items r vars) -> get_list self st = Ok vars st.
Proof.
  intros H. unfold get_list. eapply run_bind; [by apply get_function_eq|]. reflexivity.
Qed.

Lemma put_list_eq self st items r vars g :
  functions st !! self = Some (ListEffect items r vars) ->
  put_list self g st =
  Ok tt (set_functions (<[self := ListEffect items r (g vars)]> (functions st)) st).
Proof.
  intros H. unfold put_list. eapply run_bind; [by apply get_function_eq|]. reflexivity.
Qed.

Lemma stringify_item_eq JS item st c :
  heap st !! item = Some c -> stringify_item JS item st = Ok (JS c) st.
Proof.
  intros H. unfold stringify_item. eapply run_bind; [by apply get_object_eq|]. reflexivity.
Qed.

Lemma set_itemMap_same vars : set_itemMap (itemMap vars) vars = vars.
Proof. by destruct vars. Qed.

Lemma set_records_id st : set_records (records st) st = st.
Proof. by destruct st. Qed.

(** [itemMap.set(item, obj)] for the record the item has. *)
Lemma put_list_set_same self st items r vars item obj :
  functions st !! self = Some (ListEffect items r vars) ->
  map_get item (itemMap vars) = Some obj ->
  put_list self (fun vars => set_itemMap (map_set item obj (itemMap vars)) vars) st = Ok tt st.
Proof.
  intros Hf Hg. erewrite put_list_eq by done.
  rewrite map_set_same, set_itemMap_same by done.
  by rewrite list_insert_id, set_functions_id.
Qed.

(** An entry whose item is in the new list stays. *)
Lemma list_remove_entry_keep self cur item obj r st :
  records st !! obj = Some r -> mem_nat item cur = true ->
  list_remove_entry self cur (item, obj) st = Ok tt st.
Proof.
  intros Hr Hm. unfold list_remove_entry.
  eapply run_bind; [by apply get_record_eq|]. by rewrite Hm.
Qed.

(** An entry whose item is not in the new list: its node leaves the
    parent and the entry leaves [itemMap]. *)
Lemma list_remove_entry_drop self cur item obj r st items render vars p pn en :
  records st !! obj = Some r -> mem_nat item cur = false ->
  functions st !! self = Some (ListEffect items render vars) ->
  list_parent vars = Some p ->
  nodes st !! p = Some pn -> nodes st !! element r = Some en -> parentNode en = Some p ->
  list_remove_entry self cur (item, obj) st =
  Ok tt (set_functions
           (<[self := ListEffect items render
                        (set_itemMap (map_delete item (itemMap vars)) vars)]> (functions st))
           (set_nodes
              (<[element r := with_parent None en]>
                 (<[p := with_children (remove_nat (element r) (childNodes pn)) pn]>
                    (nodes st))) st)).
Proof.
  intros Hr Hm Hf Hlp Hp He Hep. unfold list_remove_entry.
  eapply run_bind; [by apply get_record_eq|]. rewrite Hm. cbn [negb when].
  eapply run_bind; [by eapply get_list_eq|]. rewrite Hlp.
  eapply run_bind; [by eapply removeChild_eq|].
  by erewrite put_list_eq by (st_simpl; exact Hf).
Qed.

Section Upsert.
Context (JS : content -> string) (fuel : nat).
Context (run : prog -> M value) (call : fn_ref -> M unit).

(** The item has its fingerprint, and its node is the child at [i]: only
    the position of the record is set. *)
Lemma list_upsert_keep self items render vars item obj e s c pos i p pn st :
  functions st !! self = Some (ListEffect items render vars) ->
  list_parent vars = Some p ->
  map_get item (itemMap vars) = Some obj ->
  records st !! obj = Some (mkRecord e (JS c) s pos) ->
  heap st !! item = Some c ->
  nodes st !! p = Some pn -> childNodes pn !! i = Some e ->
  list_upsert JS fuel run call self render item i st =
  Ok tt (set_records (<[obj := mkRecord e (JS c) s i]> (records st)) st).
Proof.
  intros Hf Hlp Hg Hr Hh Hp Hch.
  assert (Hlo : obj < length (records st)) by (by eapply lookup_lt_Some).
  unfold list_upsert.
  eapply run_bind; [by eapply get_list_eq|]. cbv zeta. rewrite Hg.
  eapply run_bind; [by apply stringify_item_eq|].
  eapply run_bind.
  { eapply run_bind; [by apply get_record_eq|]. reflexivity. }
  eapply run_bind.
  { eapply run_bind; [by apply get_record_eq|].
    cbn [id]. rewrite String.eqb_refl. reflexivity. }
  cbn [position]. destruct (Nat.eqb_spec pos i) as [->|Hne]; cbn [negb when].
  - rewrite list_insert_id by done. by rewrite set_records_id.
  - eapply run_bind; [by eapply get_list_eq|].
    eapply run_bind; [by apply get_record_eq|]. rewrite Hlp.
    eapply run_bind; [by apply child_at_eq|].
    cbn [element]. rewrite Hch, bool_decide_eq_true_2 by done. cbn [negb when].
    eapply run_bind; [reflexivity|].
    eapply run_bind; [by apply get_record_eq|].
    eapply run_bind; [reflexivity|].
    by eapply put_list_set_same.
Qed.

(** The item has its fingerprint, and another child [t] of the parent
    is at [i]: the node of the item is put before [t]. *)
Lemma list_upsert_move self items render vars item obj e s c pos i p pn t en tn st :
  functions st !! self = Some (ListEffect items render vars) ->
  list_parent vars = Some p ->
  map_get item (itemMap vars) = Some obj ->
  records st !! obj = Some (mkRecord e (JS c) s pos) ->
  heap st !! item = Some c ->
  pos <> i ->
  nodes st !! p = Some pn -> is_element pn = true ->
  childNodes pn !! i = Some t -> t <> e ->
  nodes st !! e = Some en -> parentNode en = Some p ->
  nodes st !! t = Some tn -> parentNode tn = Some p ->
  e <> p ->
  inclusive_ancestor (length (nodes st)) (nodes st) e p = false ->
  list_upsert JS fuel run call self render item i st =
  Ok tt (set_records (<[obj := mkRecord e (JS c) s i]> (records st))
           (set_nodes
              (<[p := with_children (insert_before e t (remove_nat e (childNodes pn))) pn]>
                 (nodes st)) st)).
Proof.
  intros Hf Hlp Hg Hr Hh Hpos Hp Hel Hch Hte He Hep Ht Htp Hne Hanc.
  unfold list_upsert.
  eapply run_bind; [by eapply get_list_eq|]. cbv zeta. rewrite Hg.
  eapply run_bind; [by apply stringify_item_eq|].
  eapply run_bind.
  { eapply run_bind; [by apply get_record_eq|]. reflexivity. }
  eapply run_bind.
  { eapply run_bind; [by apply get_record_eq|].
    cbn [id]. rewrite String.eqb_refl. reflexivity. }
  cbn [position]. assert ((pos =? i) = false) as -> by (by apply Nat.eqb_neq).
  cbn [negb when].
  eapply run_bind; [by eapply get_list_eq|].
  eapply run_bind; [by apply get_record_eq|]. rewrite Hlp.
  eapply run_bind; [by apply child_at_eq|].
  cbn [element]. rewrite Hch.
  rewrite bool_decide_eq_false_2 by congruence. cbn [negb when].
  eapply run_bind; [by eapply insertBefore_move_eq|].
  eapply run_bind; [by apply get_record_eq|].
  eapply run_bind; [reflexivity|].
  by eapply put_list_set_same.
Qed.

End Upsert.

(** ** Passes over a mounted list *)

Lemma set_list_parent_same p vars :
  list_parent vars = Some p -> set_list_parent (Some p) vars = vars.
Proof. destruct vars; simpl. by intros ->. Qed.

(** "Determine the parent node if not set", for a list whose first node
    is attached under [p]: the parent is [p]. *)
Lemma list_resolve_parent_eq self st items render vars p k obj0 rest r0 en :
  functions st !! self = Some (ListEffect items render vars) ->
  list_parent vars = None \/ list_parent vars = Some p ->
  referenceElm vars = None ->
  itemMap vars = (k, obj0) :: rest ->
  records st !! obj0 = Some r0 ->
  nodes st !! element r0 = Some en -> parentNode en = Some p ->
  list_resolve_parent self st =
  Ok tt (set_functions
           (<[self := ListEffect items render (set_list_parent (Some p) vars)]>
              (functions st)) st).
Proof.
  intros Hf Hlp Href Him Hr He Hep. unfold list_resolve_parent.
  eapply run_bind; [by eapply get_list_eq|].
  destruct Hlp as [Hlp|Hlp]; rewrite Hlp; cbn [is_Some_bool negb when].
  - rewrite Href. eapply run_bind; [reflexivity|]. rewrite Him.
    eapply run_bind; [by apply get_record_eq|].
    eapply run_bind; [by apply node_parent_eq|]. rewrite Hep.
    by eapply put_list_eq.
  - rewrite set_list_parent_same by done.
    by rewrite list_insert_id, set_functions_id.
Qed.

Lemma NoDup_3 {A} (x y z : A) : NoDup [x; y; z] -> x <> y /\ x <> z /\ y <> z.
Proof.
  intros H. apply NoDup_cons in H as [H1 H]. apply NoDup_cons in H as [H2 _].
  split_and!; intros ->.
  - apply H1. apply elem_of_cons. by left.
  - apply H1. apply elem_of_cons. right. apply elem_of_cons. by left.
  - apply H2. apply elem_of_cons. by left.
Qed.

Lemma NoDup_2 {A} (x y : A) : NoDup [x; y] -> x <> y.
Proof.
  intros H. apply NoDup_cons in H as [H1 _].
  intros ->. apply H1. apply elem_of_cons. by left.
Qed.

(** The position of a node among distinct children. *)
Lemma lookup_NoDup_eq {A} (l : list A) i j x :
  NoDup l -> l !! i = Some x -> l !! j = Some x -> i = j.
Proof. intros Hnd Hi Hj. by eapply NoDup_lookup. Qed.

Lemma item_at_frame JS p item obj e pos st st' :
  heap st' = heap st -> records st' !! obj = records st !! obj ->
  nodes st' !! e = nodes st !! e ->
  item_at JS p item obj e pos st -> item_at JS p item obj e pos st'.
Proof.
  intros Hh Hr Hn (c & s & en & H1 & H2 & H3 & H4).
  exists c, s, en. by rewrite Hh, Hr, Hn.
Qed.

(** The writer of the list's cell, up to the pass of the list effect:
    what is left of the write is the pass from the state [s]. *)
Lemma set_runs_pass JS n cell self v newv st st' :
  signals st !! cell = Some (mkSignal v [self]) ->
  (forall s,
     s = set_trace (EvRun cell self :: EvWrite cell newv :: trace st)
           (set_signals (<[cell := mkSignal newv [self]]> (signals st)) st) ->
     invoke JS (S n) self s = Ok tt st' /\
     signals st' !! cell = Some (mkSignal newv [self])) ->
  set (S n) (exec JS (S n)) (invoke JS (S n)) cell (inl newv) st = Ok tt st'.
Proof.
  intros Hs Hpass.
  assert (Hlc : cell < length (signals st)) by (by eapply lookup_lt_Some).
  destruct (Hpass _ eq_refl) as [Hinv Hs'].
  unfold set.
  eapply run_bind; [reflexivity|].
  eapply run_bind; [by apply get_signal_eq|].
  eapply run_bind; [reflexivity|].
  eapply run_bind; [reflexivity|].
  cbn [subscribers]. cbn [forEach_subscribers].
  eapply run_bind.
  { apply get_signal_eq. st_simpl. by apply list_lookup_insert_eq. }
  cbn [subscribers lookup list_lookup].
  eapply run_bind; [reflexivity|].
  eapply run_bind; [exact Hinv|].
  destruct n; cbn [forEach_subscribers].
  - eapply run_bind; [by apply get_signal_eq|]. reflexivity.
  - eapply run_bind; [by apply get_signal_eq|]. reflexivity.
Qed.

Lemma as_items_objects its : as_items (map VObj its) = Some its.
Proof. induction its as [|x its IH]; simpl; [done|]. by rewrite IH. Qed.

(** The start of a pass over a mounted list with a first entry: the
    producer returns the array of the cell, and the parent is [p]. *)
Lemma pass_start JS n self cell render vars p k obj0 rest r0 en its st st' :
  functions st !! self = Some (ListEffect (Get cell Ret) render vars) ->
  signals st !! cell = Some (mkSignal (VArr (map VObj its)) [self]) ->
  activeEffect st = None ->
  list_parent vars = None \/ list_parent vars = Some p ->
  referenceElm vars = None ->
  itemMap vars = (k, obj0) :: rest ->
  records st !! obj0 = Some r0 ->
  nodes st !! element r0 = Some en -> parentNode en = Some p ->
  (forall s,
     s = set_functions
           (<[self := ListEffect (Get cell Ret) render (set_list_parent (Some p) vars)]>
              (functions st))
           (set_trace (EvRead cell None :: EvPass self :: trace st) st) ->
     (forEach (itemMap vars) (list_remove_entry self its);;
      forEach_indexed 0 its
        (list_upsert JS (S (S n)) (exec JS (S (S n))) (invoke JS (S (S n))) self render))
       s = Ok tt st') ->
  invoke JS (S (S (S n))) self st = Ok tt st'.
Proof.
  intros Hf Hs Ha Hlp Href Him Hr He Hep Hbody.
  assert (Hlf : self < length (functions st)) by (by eapply lookup_lt_Some).
  cbn [invoke]. unfold dispatch.
  eapply run_bind; [by apply get_function_eq|].
  eapply run_bind; [reflexivity|].
  unfold listEffect.
  eapply run_bind; [by eapply exec_Get_Ret_quiet|].
  eapply run_bind.
  { unfold as_item_array.
    by rewrite as_items_objects. }
  eapply run_bind.
  { eapply (list_resolve_parent_eq self _ _ _ vars p); eauto. }
  eapply run_bind.
  { eapply get_list_eq. st_simpl. by apply list_lookup_insert_eq. }
  cbn [itemMap set_list_parent]. by apply Hbody.
Qed.

Lemma rooted_set st st' p :
  nodes st' = nodes st -> rooted st p -> rooted st' p.
Proof. unfold rooted. by intros ->. Qed.

(** A mounted list read entry by entry. *)
Lemma list_mounted_entry JS self cell p render entries order st item obj e i :
  list_mounted JS self cell p render entries order st ->
  (item, obj, e) ∈ entries -> order !! i = Some e ->
  item_at JS p item obj e i st /\ e <> p /\
  (e ∉ chain (length (nodes st)) (nodes st) p).
Proof.
  intros (vars & pn & v & _ & _ & _ & _ & _ & _ & _ & _ & _ & _ & Hent & _ & _ & Hnd & _)
    Hin Hi.
  destruct (Hent _ _ _ Hin) as (pos & Hpos & Hat & Hne & Hoff).
  assert (pos = i) as -> by (by eapply NoDup_lookup). done.
Qed.

(** [A, B, C] reordered to [C, A, B]. *)
Lemma list_reorder JS n self cell p render a b c ra rb rc na nb nc st :
  list_mounted JS self cell p render [(a, ra, na); (b, rb, nb); (c, rc, nc)]
    [na; nb; nc] st ->
  exists st',
    set (S (S (S n))) (exec JS (S (S (S n)))) (invoke JS (S (S (S n)))) cell
      (inl (VArr [VObj c; VObj a; VObj b])) st = Ok tt st' /\
    length (nodes st') = length (nodes st) /\
    list_mounted JS self cell p render [(a, ra, na); (b, rb, nb); (c, rc, nc)]
      [nc; na; nb] st'.
Proof.
  intros Hm.
  assert (Ha := list_mounted_entry _ _ _ _ _ _ _ _ a ra na 0 Hm).
  assert (Hb := list_mounted_entry _ _ _ _ _ _ _ _ b rb nb 1 Hm).
  assert (Hc := list_mounted_entry _ _ _ _ _ _ _ _ c rc nc 2 Hm).
  destruct Ha as ((ca & sa & nan & Hha & Hra & Hna & Hnap) & Hnea & Hoffa);
    [set_solver | done |].
  destruct Hb as ((cb & sb & nbn & Hhb & Hrb & Hnb & Hnbp) & Hneb & Hoffb);
    [set_solver | done |].
  destruct Hc as ((cc & sc & ncn & Hhc & Hrc & Hnc & Hncp) & Hnec & Hoffc);
    [set_solver | done |].
  destruct Hm as (vars & pn & v & Hf & Him & Hlp & Href & Hs & Hact & Hp & Hel & Hch &
                  Hroot & Hent & Hndi & Hndr & Hndo & Hlen).
  simpl in Him, Hndi, Hndr.
  apply NoDup_3 in Hndi as (Hab & Hac & Hbc).
  apply NoDup_3 in Hndr as (Hrab & Hrac & Hrbc).
  pose proof (NoDup_3 _ _ _ Hndo) as (Hnab & Hnac & Hnbc).
  assert (Hlc : cell < length (signals st)) by (by eapply lookup_lt_Some).
  assert (Hlf : self < length (functions st)) by (by eapply lookup_lt_Some).
  assert (Hlp' : p < length (nodes st)) by (by eapply lookup_lt_Some).
  assert (Hlra : ra < length (records st)) by (by eapply lookup_lt_Some).
  assert (Hlrb : rb < length (records st)) by (by eapply lookup_lt_Some).
  assert (Hlrc : rc < length (records st)) by (by eapply lookup_lt_Some).
  set (newv := VArr [VObj c; VObj a; VObj b]).
  set (vars0 := set_list_parent (Some p) vars).
  set (pn' := with_children [nc; na; nb] pn).
  (* the state the pass ends in *)
  set (st' := mkState (activeEffect st) (<[cell := mkSignal newv [self]]> (signals st))
                (<[self := ListEffect (Get cell Ret) render vars0]> (functions st))
                (<[p := pn']> (nodes st)) (heap st)
                (<[rb := mkRecord nb (JS cb) sb 2]>
                   (<[ra := mkRecord na (JS ca) sa 1]>
                      (<[rc := mkRecord nc (JS cc) sc 0]> (records st))))
                (EvRead cell None :: EvPass self :: EvRun cell self ::
                 EvWrite cell newv :: trace st)).
  exists st'. split_and!.
  - eapply set_runs_pass; [exact Hs|]. intros s ->. split; [|by apply list_lookup_insert_eq].
    eapply (pass_start JS n self cell render vars p a ra _ _ nan [c; a; b]);
      try done; st_simpl; try done.
    { by apply list_lookup_insert_eq. }
    intros s ->. rewrite Him.
    assert (Hmem : forall x, x ∈ [c; a; b] -> mem_nat x [c; a; b] = true).
    { intros x Hx. destruct (mem_nat x [c; a; b]) eqn:E; [done|].
      apply mem_nat_not_In in E. done. }
    eapply run_bind.
    { cbn [forEach].
      eapply run_bind; [eapply list_remove_entry_keep; [exact Hra | apply Hmem; set_solver]|].
      eapply run_bind; [eapply list_remove_entry_keep; [exact Hrb | apply Hmem; set_solver]|].
      eapply run_bind; [eapply list_remove_entry_keep; [exact Hrc | apply Hmem; set_solver]|].
      reflexivity. }
    cbn [forEach_indexed].
    assert (Hf0 : forall s0,
      functions s0 = <[self := ListEffect (Get cell Ret) render vars0]> (functions st) ->
      functions s0 !! self = Some (ListEffect (Get cell Ret) render vars0)).
    { intros s0 ->. by apply list_lookup_insert_eq. }
    assert (Hga : map_get a (itemMap vars0) = Some ra).
    { unfold vars0. simpl. rewrite Him. simpl. by rewrite Nat.eqb_refl. }
    assert (Hgb : map_get b (itemMap vars0) = Some rb).
    { unfold vars0. simpl. rewrite Him. simpl.
      assert ((a =? b) = false) as -> by (by apply Nat.eqb_neq).
      by rewrite Nat.eqb_refl. }
    assert (Hgc : map_get c (itemMap vars0) = Some rc).
    { unfold vars0. simpl. rewrite Him. simpl.
      assert ((a =? c) = false) as -> by (by apply Nat.eqb_neq).
      assert ((b =? c) = false) as -> by (by apply Nat.eqb_neq).
      by rewrite Nat.eqb_refl. }
    eapply run_bind.
    { eapply (list_upsert_move JS _ _ _ self _ _ vars0 c rc nc sc cc 2 0 p pn na ncn nan);
        try done; st_simpl; try done.
      - by apply list_lookup_insert_eq.
      - by rewrite Hch.
      - rewrite inclusive_ancestor_chain. by apply mem_nat_not_In. }
    rewrite Hch.
    assert (insert_before nc na (remove_nat nc [na; nb; nc]) = [nc; na; nb]) as ->.
    { simpl.
      assert ((na =? nc) = false) as -> by (by apply Nat.eqb_neq).
      assert ((nb =? nc) = false) as -> by (by apply Nat.eqb_neq).
      rewrite Nat.eqb_refl. simpl. by rewrite Nat.eqb_refl. }
    fold pn'.
    eapply run_bind.
    { eapply (list_upsert_keep JS _ _ _ self _ _ vars0 a ra na sa ca 0 1 p pn');
        try done; st_simpl; try done.
      - by apply list_lookup_insert_eq.
      - by rewrite list_lookup_insert_ne.
      - by apply list_lookup_insert_eq. }
    eapply run_bind.
    { eapply (list_upsert_keep JS _ _ _ self _ _ vars0 b rb nb sb cb 1 2 p pn');
        try done; st_simpl; try done.
      - by apply list_lookup_insert_eq.
      - by rewrite !list_lookup_insert_ne.
      - by apply list_lookup_insert_eq. }
    reflexivity.
  - unfold st'. st_simpl. by rewrite length_insert.
  - assert (Hchain : chain (length (nodes st')) (nodes st') p
                     = chain (length (nodes st)) (nodes st) p).
    { unfold st'. st_simpl. rewrite length_insert.
      by apply (chain_insert_same_parent _ _ p pn). }
    exists vars0, pn', newv. split_and!; try done.
    + unfold st'. st_simpl. by apply list_lookup_insert_eq.
    + by right.
    + unfold st'. st_simpl. by apply list_lookup_insert_eq.
    + unfold st'. st_simpl. by apply list_lookup_insert_eq.
    + unfold rooted in *. rewrite Hchain. unfold st'. st_simpl.
      by rewrite length_insert.
    + intros item obj e Hin. rewrite Hchain.
      assert (Hn : forall x, x <> p -> nodes st' !! x = nodes st !! x).
      { intros x Hx. unfold st'. st_simpl. by rewrite list_lookup_insert_ne. }
      apply elem_of_cons in Hin as [[= -> -> ->]|Hin];
        [|apply elem_of_cons in Hin as [[= -> -> ->]|Hin];
          [|apply list_elem_of_singleton in Hin as [= -> -> ->]]].
      * exists 1. split_and!; try done. exists ca, sa, nan.
        rewrite Hn by done. unfold st'. st_simpl. split_and!; try done.
        rewrite list_lookup_insert_ne by done.
        apply list_lookup_insert_eq. by rewrite length_insert.
      * exists 2. split_and!; try done. exists cb, sb, nbn.
        rewrite Hn by done. unfold st'. st_simpl. split_and!; try done.
        apply list_lookup_insert_eq. by rewrite !length_insert.
      * exists 0. split_and!; try done. exists cc, sc, ncn.
        rewrite Hn by done. unfold st'. st_simpl. split_and!; try done.
        rewrite !list_lookup_insert_ne by done. by apply list_lookup_insert_eq.
    + simpl. repeat (apply NoDup_cons; split; [set_solver|]). apply NoDup_nil_2.
    + simpl. repeat (apply NoDup_cons; split; [set_solver|]). apply NoDup_nil_2.
    + repeat (apply NoDup_cons; split; [set_solver|]). apply NoDup_nil_2.
Qed.

Lemma map_get_set_eq {V} k (v : V) m : map_get k (map_set k v m) = Some v.
Proof.
  induction m as [|[k0 v0] m IH]; simpl.
  - by rewrite Nat.eqb_refl.
  - destruct (Nat.eqb_spec k0 k) as [->|Hne]; simpl.
    + by rewrite Nat.eqb_refl.
    + by apply Nat.eqb_neq in Hne as ->.
Qed.

(** The chain of [p] in a heap that grew at its end. *)
Lemma chain_grown st p more :
  rooted st p ->
  chain (length (nodes st ++ more)) (nodes st ++ more) p
  = chain (length (nodes st)) (nodes st) p.
Proof.
  intros [Hr1 Hr2].
  rewrite (chain_fuel_le (length (nodes st))).
  - by apply chain_app.
  - by rewrite chain_app.
  - rewrite length_app. lia.
Qed.

(** An item that [itemMap] does not have, in a list whose parent has no
    child at [i]: a cell, a rendered node and a record are made for it, and
    the node becomes the last child of the parent. *)
Lemma list_upsert_new JS n fuel call self items render vars item c i p pn st :
  renders JS n render ->
  functions st !! self = Some (ListEffect items render vars) ->
  list_parent vars = Some p ->
  map_get item (itemMap vars) = None ->
  heap st !! item = Some c ->
  activeEffect st = None ->
  nodes st !! p = Some pn -> is_element pn = true ->
  childNodes pn !! i = None ->
  rooted st p ->
  exists st' root new,
    list_upsert JS fuel (exec JS n) call self render item i st = Ok tt st' /\
    parentNode root = None /\
    nodes st' =
      <[length (nodes st) := with_parent (Some p) root]>
        (<[p := with_children (childNodes pn ++ [length (nodes st)]) pn]>
           (nodes st ++ root :: new)) /\
    records st' =
      records st ++ [mkRecord (length (nodes st)) (JS c) (length (signals st)) i] /\
    functions st' !! self =
      Some (ListEffect items render
              (set_itemMap (map_set item (length (records st)) (itemMap vars)) vars)) /\
    signals st `prefix_of` signals st' /\
    heap st' = heap st /\ activeEffect st' = None.
Proof.
  intros Hrend Hf Hlp Hg Hh Ha Hp Hel Hch Hroot.
  assert (Hlf : self < length (functions st)) by (by eapply lookup_lt_Some).
  assert (Hlp' : p < length (nodes st)) by (by eapply lookup_lt_Some).
  set (x := length (nodes st)). set (cell := length (signals st)).
  set (obj := length (records st)).
  set (s1 := set_signals (signals st ++ [mkSignal (VObj item) []]) st).
  destruct (Hrend s1 (signals st) item i Ha eq_refl (ex_intro _ c Hh))
    as (sr & root & new & Hrun & Hnr & Hrp & Hfp & Hsp & Hrr & Hhr & Har).
  change (nodes s1) with (nodes st) in *. change (functions s1) with (functions st) in *.
  change (records s1) with (records st) in *. change (heap s1) with (heap st) in *.
  change (signals s1) with (signals st ++ [mkSignal (VObj item) []]) in *.
  fold x cell in Hrun.
  assert (Hfr : functions sr !! self = Some (ListEffect items render vars))
    by (by apply (prefix_lookup_Some _ _ _ _ Hf)).
  assert (Hlfr : self < length (functions sr)) by (by eapply lookup_lt_Some).
  set (vars' := set_itemMap (map_set item obj (itemMap vars)) vars).
  set (rec := mkRecord x (JS c) cell i).
  set (st' := set_nodes
                (<[x := with_parent (Some p) root]>
                   (<[p := with_children (childNodes pn ++ [x]) pn]> (nodes sr)))
                (set_functions (<[self := ListEffect items render vars']> (functions sr))
                   (set_records (records st ++ [rec]) sr))).
  exists st', root, new. split_and!; try done.
  2:{ unfold st'. st_simpl. by rewrite Hnr. }
  2:{ unfold st'. st_simpl. by apply list_lookup_insert_eq. }
  unfold list_upsert.
  eapply run_bind; [by eapply get_list_eq|]. cbv zeta. rewrite Hg.
  eapply run_bind; [by apply stringify_item_eq|].
  eapply run_bind; [reflexivity|].
  eapply run_bind.
  { eapply run_bind; [reflexivity|].
    eapply run_bind; [exact Hrun|].
    eapply run_bind; [reflexivity|].
    eapply run_bind; [reflexivity|].
    eapply run_bind; [by eapply put_list_eq|]. reflexivity. }
  cbn [when].
  eapply run_bind.
  { eapply get_list_eq. st_simpl. by apply list_lookup_insert_eq. }
  eapply run_bind.
  { apply get_record_eq. st_simpl. apply lookup_app_at. }
  cbn [list_parent set_itemMap]. rewrite Hlp.
  eapply run_bind.
  { eapply child_at_eq. st_simpl. rewrite Hnr. rewrite lookup_app_l by done. exact Hp. }
  rewrite Hch. rewrite bool_decide_eq_false_2 by done. cbn [negb when element].
  rewrite Hrr. fold obj x.
  eapply run_bind.
  { eapply (appendChild_detached_eq p x _ pn root); st_simpl; try done.
    - rewrite Hnr. by rewrite lookup_app_l.
    - rewrite Hnr. apply lookup_app_at.
    - unfold x. lia.
    - rewrite Hnr. rewrite inclusive_ancestor_chain, chain_grown by done.
      apply mem_nat_not_In. intros Hin. apply Hroot in Hin. unfold x in Hin. lia. }
  eapply run_bind.
  { apply get_record_eq. st_simpl. apply lookup_app_at. }
  eapply run_bind; [reflexivity|].
  erewrite put_list_eq by (st_simpl; by apply list_lookup_insert_eq).
  st_simpl. cbn [itemMap set_itemMap element id setter].
  rewrite map_set_same by apply map_get_set_eq.
  rewrite list_insert_insert_eq.
  rewrite (list_insert_id _ obj) by apply lookup_app_at.
  reflexivity.
Qed.

(** [A, B] changed to [A, C]. *)
Lemma list_replace JS n self cell p render a b c ra rb na nb cc st :
  renders JS (S (S n)) render ->
  list_mounted JS self cell p render [(a, ra, na); (b, rb, nb)] [na; nb] st ->
  heap st !! c = Some cc -> c <> a -> c <> b ->
  exists st' x,
    set (S (S (S n))) (exec JS (S (S (S n)))) (invoke JS (S (S (S n)))) cell
      (inl (VArr [VObj a; VObj c])) st = Ok tt st' /\
    length (nodes st) <= x /\
    (exists nbn, nodes st' !! nb = Some nbn /\ parentNode nbn = None) /\
    list_mounted JS self cell p render [(a, ra, na); (c, length (records st), x)]
      [na; x] st'.
Proof.
  intros Hrend Hm Hhc Hca Hcb.
  assert (Ha := list_mounted_entry _ _ _ _ _ _ _ _ a ra na 0 Hm).
  assert (Hb := list_mounted_entry _ _ _ _ _ _ _ _ b rb nb 1 Hm).
  destruct Ha as ((ca & sa & nan & Hha & Hra & Hna & Hnap) & Hnea & Hoffa);
    [set_solver | done |].
  destruct Hb as ((cb & sb & nbn & Hhb & Hrb & Hnb & Hnbp) & Hneb & Hoffb);
    [set_solver | done |].
  destruct Hm as (vars & pn & v & Hf & Him & Hlp & Href & Hs & Hact & Hp & Hel & Hch &
                  Hroot & Hent & Hndi & Hndr & Hndo & Hlen).
  simpl in Him, Hndi, Hndr.
  apply NoDup_2 in Hndi as Hab. apply NoDup_2 in Hndr as Hrab.
  pose proof (NoDup_2 _ _ Hndo) as Hnab.
  assert (Hlc : cell < length (signals st)) by (by eapply lookup_lt_Some).
  assert (Hlf : self < length (functions st)) by (by eapply lookup_lt_Some).
  assert (Hlp' : p < length (nodes st)) by (by eapply lookup_lt_Some).
  assert (Hlna : na < length (nodes st)) by (by eapply lookup_lt_Some).
  assert (Hlnb : nb < length (nodes st)) by (by eapply lookup_lt_Some).
  assert (Hlra : ra < length (records st)) by (by eapply lookup_lt_Some).
  assert (Hac' : (a =? c) = false) by (apply Nat.eqb_neq; congruence).
  set (newv := VArr [VObj a; VObj c]).
  set (vars0 := set_list_parent (Some p) vars).
  set (vars1 := set_itemMap [(a, ra)] vars0).
  set (pn1 := with_children [na] pn).
  (* the state before the step for [C] *)
  set (s2 := mkState (activeEffect st) (<[cell := mkSignal newv [self]]> (signals st))
               (<[self := ListEffect (Get cell Ret) render vars1]> (functions st))
               (<[nb := with_parent None nbn]> (<[p := pn1]> (nodes st))) (heap st)
               (<[ra := mkRecord na (JS ca) sa 0]> (records st))
               (EvRead cell None :: EvPass self :: EvRun cell self ::
                EvWrite cell newv :: trace st)).
  assert (Hchain2 : chain (length (nodes s2)) (nodes s2) p
                    = chain (length (nodes st)) (nodes st) p).
  { unfold s2. st_simpl. rewrite !length_insert.
    rewrite chain_insert_off.
    - by apply (chain_insert_same_parent _ _ p pn).
    - by rewrite (chain_insert_same_parent _ _ p pn). }
  assert (Hroot2 : rooted s2 p).
  { unfold rooted in *. rewrite Hchain2. unfold s2. st_simpl. by rewrite !length_insert. }
  assert (Hp2 : nodes s2 !! p = Some pn1).
  { unfold s2. st_simpl. rewrite list_lookup_insert_ne by done.
    by apply list_lookup_insert_eq. }
  destruct (list_upsert_new JS (S (S n)) (S (S n)) (invoke JS (S (S n))) self
              (Get cell Ret) render vars1 c cc 1 p pn1 s2)
    as (st' & root & new & Hup & Hrp & Hn' & Hr' & Hf' & Hs' & Hh' & Ha'); try done.
  { unfold s2. st_simpl. by apply list_lookup_insert_eq. }
  { simpl. by rewrite Hac'. }
  set (x := length (nodes st)) in *.
  assert (Hl2 : length (nodes s2) = x) by (unfold s2; st_simpl; by rewrite !length_insert).
  assert (Hlr2 : length (records s2) = length (records st))
    by (unfold s2; st_simpl; by rewrite !length_insert).
  assert (Hna2 : nodes s2 !! na = Some nan).
  { unfold s2. st_simpl. by rewrite !list_lookup_insert_ne. }
  assert (Hnb2 : nodes s2 !! nb = Some (with_parent None nbn)).
  { unfold s2. st_simpl. apply list_lookup_insert_eq. by rewrite length_insert. }
  assert (Hra2 : records s2 !! ra = Some (mkRecord na (JS ca) sa 0)).
  { unfold s2. st_simpl. by apply list_lookup_insert_eq. }
  assert (Hs2 : signals s2 !! cell = Some (mkSignal newv [self])).
  { unfold s2. st_simpl. by apply list_lookup_insert_eq. }
  rewrite Hl2 in Hn', Hr'. rewrite Hlr2 in Hf'.
  exists st', x. split_and!; [|done| |].
  - eapply set_runs_pass; [exact Hs|]. intros s ->. split.
    2:{ eapply prefix_lookup_Some; [exact Hs2|exact Hs']. }
    eapply (pass_start JS n self cell render vars p a ra _ _ nan [a; c]);
      try done; st_simpl; try done.
    intros s ->. rewrite Him.
    eapply run_bind.
    { cbn [forEach].
      eapply run_bind.
      { eapply list_remove_entry_keep; [exact Hra|]. simpl. by rewrite Nat.eqb_refl. }
      eapply run_bind.
      { eapply (list_remove_entry_drop self _ b rb _ _ _ _ vars0 p pn nbn);
          st_simpl; try done.
        - simpl. apply Nat.eqb_neq in Hab as ->. by apply Nat.eqb_neq in Hcb as ->.
        - by apply list_lookup_insert_eq. }
      reflexivity. }
    cbn [forEach_indexed element]. st_simpl.
    rewrite list_insert_insert_eq.
    assert (map_delete b (itemMap vars0) = [(a, ra)]) as ->.
    { unfold vars0. simpl. rewrite Him. simpl.
      apply Nat.eqb_neq in Hab as ->. by rewrite Nat.eqb_refl. }
    rewrite Hch.
    assert (remove_nat nb [na; nb] = [na]) as ->.
    { simpl. apply Nat.eqb_neq in Hnab as ->. by rewrite Nat.eqb_refl. }
    fold vars1 pn1.
    eapply run_bind.
    { eapply (list_upsert_keep JS _ _ _ self _ _ vars1 a ra na sa ca 0 0 p pn1);
        st_simpl; try done.
      - by apply list_lookup_insert_eq.
      - simpl. by rewrite Nat.eqb_refl. }
    eapply run_bind; [exact Hup|]. reflexivity.
  - exists (with_parent None nbn). split; [|done]. rewrite Hn'.
    rewrite list_lookup_insert_ne by (unfold x; lia).
    rewrite list_lookup_insert_ne by done.
    rewrite lookup_app_l by (rewrite Hl2; unfold x; lia). exact Hnb2.
  - assert (Hchain : chain (length (nodes st')) (nodes st') p
                     = chain (length (nodes st)) (nodes st) p).
    { rewrite Hn'. rewrite !length_insert.
      assert (Hg := chain_grown s2 p (root :: new) Hroot2).
      rewrite Hchain2 in Hg.
      assert (Hp2' : (nodes s2 ++ root :: new) !! p = Some pn1).
      { rewrite lookup_app_l; [exact Hp2|]. by eapply lookup_lt_Some. }
      rewrite chain_insert_off.
      - by rewrite (chain_insert_same_parent _ _ p pn1).
      - rewrite (chain_insert_same_parent _ _ p pn1); [| done | done].
        rewrite Hg. intros Hin. apply Hroot in Hin. unfold x in Hin. lia. }
    assert (Hlen' : length (nodes st') = S x + length new).
    { rewrite Hn', !length_insert, length_app, Hl2. simpl. lia. }
    eexists _, (with_children [na; x] pn1), newv. split_and!.
    + exact Hf'.
    + simpl. by rewrite Hac'.
    + by right.
    + done.
    + eapply prefix_lookup_Some; [exact Hs2|exact Hs'].
    + done.
    + rewrite Hn'. rewrite list_lookup_insert_ne by (unfold x; lia).
      apply list_lookup_insert_eq. rewrite length_app, Hl2. unfold x. lia.
    + done.
    + done.
    + unfold rooted in *. rewrite Hchain, Hlen'. destruct Hroot as [H1 H2]. split.
      * unfold x. lia.
      * intros y Hy. apply H2 in Hy. unfold x. lia.
    + intros item obj e Hin. rewrite Hchain.
      apply elem_of_cons in Hin as [[= -> -> ->]|Hin];
        [|apply list_elem_of_singleton in Hin as [= -> -> ->]].
      * exists 0. split_and!; try done. exists ca, sa, nan. split_and!; try done.
        -- by rewrite Hh'.
        -- rewrite Hr'. rewrite lookup_app_l by (by eapply lookup_lt_Some). exact Hra2.
        -- rewrite Hn'. rewrite list_lookup_insert_ne by (unfold x; lia).
           rewrite list_lookup_insert_ne by done.
           rewrite lookup_app_l by (by eapply lookup_lt_Some). exact Hna2.
      * exists 1. split_and!; try done.
        -- exists cc, (length (signals s2)), (with_parent (Some p) root).
           split_and!; try done.
           ++ by rewrite Hh'.
           ++ rewrite Hr'. rewrite <- Hlr2. apply lookup_app_at.
           ++ rewrite Hn'. apply list_lookup_insert_eq.
              rewrite length_insert, length_app, Hl2. simpl. lia.
        -- unfold x. lia.
        -- intros Hin. apply Hroot in Hin. unfold x in Hin. lia.
    + simpl. repeat (apply NoDup_cons; split; [set_solver|]). apply NoDup_nil_2.
    + simpl. apply NoDup_cons. split; [|apply NoDup_singleton].
      intros Hin. apply list_elem_of_singleton in Hin. lia.
    + apply NoDup_cons. split; [|apply NoDup_singleton].
      intros Hin. apply list_elem_of_singleton in Hin. unfold x in Hin. lia.
    + done.
Qed.

(** ** The page with a list *)

Lemma renders_list_render JS n : renders JS (S (S n)) list_render.
Proof.
  intros st cells item i Ha Hs _. unfold list_render. cbn [exec]. unfold step.
  eexists _, _, _. split.
  { eapply run_bind; [apply createComponent_div_span_plain|]. reflexivity. }
  st_simpl. split_and!; try done. rewrite Hs. by apply prefix_app_r.
Qed.

(** The renderer that reads the cell of the item in a text effect. *)
Lemma renders_text_render JS n : renders JS (S (S (S (S (S n))))) text_render.
Proof.
  intros st cells item i Ha Hs [c Hh].
  assert (Hg : signals st !! length cells = Some (mkSignal (VObj item) []))
    by (rewrite Hs; apply lookup_app_at).
  eexists _, _, _. split.
  { unfold text_render. cbn [exec]. unfold step.
    eapply run_bind.
    { unfold textComponent.
      eapply run_bind; [reflexivity|].
      eapply run_bind; [reflexivity|].
      eapply run_bind; [|reflexivity].
      unfold createEffect.
      eapply run_bind; [reflexivity|].
      eapply run_bind; [reflexivity|].
      eapply run_bind.
      { cbn [invoke]. unfold dispatch.
        eapply run_bind; [apply get_function_eq; st_simpl; apply lookup_app_at|].
        unfold textEffect.
        eapply run_bind.
        { unfold label_of. cbn [exec]. unfold step.
          eapply run_bind.
          { unfold get. eapply run_bind; [reflexivity|]. st_simpl.
            eapply run_bind; [reflexivity|].
            eapply run_bind.
            { unfold subscribers_add.
              eapply run_bind; [by apply get_signal_eq|]. reflexivity. }
            eapply run_bind.
            { apply get_signal_eq. st_simpl. apply list_lookup_insert_eq.
              by eapply lookup_lt_Some. }
            reflexivity. }
          cbn [sig_value].
          eapply run_bind; [by apply get_object_eq|]. reflexivity. }
        unfold set_textContent.
        eapply run_bind; [apply get_node_eq; st_simpl; apply lookup_app_at|].
        reflexivity. }
      reflexivity. }
    reflexivity. }
  st_simpl. rewrite insert_app_at. split_and!; try done.
  - by apply prefix_app_r.
  - rewrite Hs, insert_app_at. by apply prefix_app_r.
Qed.

Lemma rooted_root st p pn :
  nodes st !! p = Some pn -> parentNode pn = None -> rooted st p.
Proof.
  intros Hp Hr. assert (Hl : p < length (nodes st)) by (by eapply lookup_lt_Some).
  unfold rooted. destruct (length (nodes st)) as [|k] eqn:E; [lia|].
  simpl. rewrite Hp, Hr. simpl. split; [lia|].
  intros y Hy. apply list_elem_of_singleton in Hy as ->. lia.
Qed.

Lemma chain_root st p pn :
  nodes st !! p = Some pn -> parentNode pn = None ->
  chain (length (nodes st)) (nodes st) p = [p].
Proof.
  intros Hp Hr. assert (Hl : p < length (nodes st)) by (by eapply lookup_lt_Some).
  destruct (length (nodes st)) as [|k] eqn:E; [lia|]. simpl. by rewrite Hp, Hr.
Qed.

(** An entry of a list whose parent is a root. *)
Lemma entry_under_root JS st p pn item obj e pos c s en :
  nodes st !! p = Some pn -> parentNode pn = None ->
  heap st !! item = Some c -> records st !! obj = Some (mkRecord e (JS c) s pos) ->
  nodes st !! e = Some en -> parentNode en = Some p -> e <> p ->
  item_at JS p item obj e pos st /\ e <> p /\
  (e ∉ chain (length (nodes st)) (nodes st) p).
Proof.
  intros Hp Hr Hh Hrec He Hep Hne. split_and!; [by exists c, s, en | done |].
  rewrite (chain_root st p pn) by done. by intros ->%list_elem_of_singleton.
Qed.

(** What a closed term of the model evaluates to, as an equation. *)
Tactic Notation "evaluate" constr(t) "as" ident(H) :=
  let v := eval vm_compute in t in
  assert (H : t = v) by (vm_compute; reflexivity).

(** A list of distinct numbers has no duplicate. *)
Ltac distinct :=
  repeat (apply NoDup_cons; split; [rewrite ?elem_of_cons, ?elem_of_nil; lia|]);
  apply NoDup_nil_2.

Lemma mounted_abc_is_mounted :
  list_mounted demo_stringify 0 0 6 list_render
    [(0, 0, 0); (1, 1, 2); (2, 2, 4)] [0; 2; 4] mounted_abc.
Proof.
  exists (mkList [(0, 0); (1, 1); (2, 2)] None None),
    (mkNode (Element "ul") None [0; 2; 4] "" [] [] [] "" ""),
    (VArr [VObj 0; VObj 1; VObj 2]).
  assert (Hp : nodes mounted_abc !! 6 =
               Some (mkNode (Element "ul") None [0; 2; 4] "" [] [] [] "" ""))
    by (vm_compute; reflexivity).
  split_and!; try (vm_compute; reflexivity).
  - by left.
  - by eapply rooted_root.
  - intros item obj e Hin.
    repeat (apply elem_of_cons in Hin as [Hin|Hin]; [injection Hin as -> -> ->|]);
      [exists 0 | exists 1 | exists 2 | exfalso; by eapply elem_of_nil];
      (split; [reflexivity|]).
    + evaluate (heap mounted_abc !! 0) as Hh. evaluate (records mounted_abc !! 0) as Hr.
      evaluate (nodes mounted_abc !! 0) as Hn.
      eapply entry_under_root;
        [exact Hp | reflexivity | exact Hh | exact Hr | exact Hn | reflexivity | lia].
    + evaluate (heap mounted_abc !! 1) as Hh. evaluate (records mounted_abc !! 1) as Hr.
      evaluate (nodes mounted_abc !! 2) as Hn.
      eapply entry_under_root;
        [exact Hp | reflexivity | exact Hh | exact Hr | exact Hn | reflexivity | lia].
    + evaluate (heap mounted_abc !! 2) as Hh. evaluate (records mounted_abc !! 2) as Hr.
      evaluate (nodes mounted_abc !! 4) as Hn.
      eapply entry_under_root;
        [exact Hp | reflexivity | exact Hh | exact Hr | exact Hn | reflexivity | lia].
  - simpl. clear. distinct.
  - simpl. clear. distinct.
  - clear. distinct.
Qed.

Lemma mounted_ab_is_mounted :
  list_mounted demo_stringify 0 0 4 list_render [(0, 0, 0); (1, 1, 2)] [0; 2] mounted_ab.
Proof.
  exists (mkList [(0, 0); (1, 1)] None None),
    (mkNode (Element "ul") None [0; 2] "" [] [] [] "" ""),
    (VArr [VObj 0; VObj 1]).
  assert (Hp : nodes mounted_ab !! 4 =
               Some (mkNode (Element "ul") None [0; 2] "" [] [] [] "" ""))
    by (vm_compute; reflexivity).
  split_and!; try (vm_compute; reflexivity).
  - by left.
  - by eapply rooted_root.
  - intros item obj e Hin.
    repeat (apply elem_of_cons in Hin as [Hin|Hin]; [injection Hin as -> -> ->|]);
      [exists 0 | exists 1 | exfalso; by eapply elem_of_nil];
      (split; [reflexivity|]).
    + evaluate (heap mounted_ab !! 0) as Hh. evaluate (records mounted_ab !! 0) as Hr.
      evaluate (nodes mounted_ab !! 0) as Hn.
      eapply entry_under_root;
        [exact Hp | reflexivity | exact Hh | exact Hr | exact Hn | reflexivity | lia].
    + evaluate (heap mounted_ab !! 1) as Hh. evaluate (records mounted_ab !! 1) as Hr.
      evaluate (nodes mounted_ab !! 2) as Hn.
      eapply entry_under_root;
        [exact Hp | reflexivity | exact Hh | exact Hr | exact Hn | reflexivity | lia].
  - simpl. clear. distinct.
  - simpl. clear. distinct.
  - clear. distinct.
Qed.

Lemma labelled_ab_is_mounted :
  list_mounted demo_stringify 0 0 2 text_render [(0, 0, 0); (1, 1, 1)] [0; 1] labelled_ab.
Proof.
  exists (mkList [(0, 0); (1, 1)] None None),
    (mkNode (Element "ul") None [0; 1] "" [] [] [] "" ""),
    (VArr [VObj 0; VObj 1]).
  assert (Hp : nodes labelled_ab !! 2 =
               Some (mkNode (Element "ul") None [0; 1] "" [] [] [] "" ""))
    by (vm_compute; reflexivity).
  split_and!; try (vm_compute; reflexivity).
  - by left.
  - by eapply rooted_root.
  - intros item obj e Hin.
    repeat (apply elem_of_cons in Hin as [Hin|Hin]; [injection Hin as -> -> ->|]);
      [exists 0 | exists 1 | exfalso; by eapply elem_of_nil];
      (split; [reflexivity|]).
    + evaluate (heap labelled_ab !! 0) as Hh. evaluate (records labelled_ab !! 0) as Hr.
      evaluate (nodes labelled_ab !! 0) as Hn.
      eapply entry_under_root;
        [exact Hp | reflexivity | exact Hh | exact Hr | exact Hn | reflexivity | lia].
    + evaluate (heap labelled_ab !! 1) as Hh. evaluate (records labelled_ab !! 1) as Hr.
      evaluate (nodes labelled_ab !! 1) as Hn.
      eapply entry_under_root;
        [exact Hp | reflexivity | exact Hh | exact Hr | exact Hn | reflexivity | lia].
  - simpl. clear. distinct.
  - simpl. clear. distinct.
  - clear. distinct.
Qed.

(** C4.  A mounted list of the items A, B, C, in this order, whose cell
    gets the array [C, A, B]: the write returns; no node is made; the
    records hold the nodes they held; and the children of the parent are
    the nodes of C, A, B, in this order.  A mounted list of A and B whose
    cell gets the array [A, C], with a renderer that builds a detached
    node from the cell of the item, which it may read and subscribe
    effects to: the write returns; the node of B has no parent any more;
    and the children of the parent are the node of A and a new node [x],
    the one of the record made for C, at index 1. *)
Theorem listComponent_reorder_and_replace JS n self cell p render :
  (forall a b c ra rb rc na nb nc st,
     list_mounted JS self cell p render [(a, ra, na); (b, rb, nb); (c, rc, nc)]
       [na; nb; nc] st ->
     exists st',
       set (S (S (S n))) (exec JS (S (S (S n)))) (invoke JS (S (S (S n)))) cell
         (inl (VArr [VObj c; VObj a; VObj b])) st = Ok tt st' /\
       length (nodes st') = length (nodes st) /\
       list_mounted JS self cell p render [(a, ra, na); (b, rb, nb); (c, rc, nc)]
         [nc; na; nb] st') /\
  (forall a b c ra rb na nb cc st,
     renders JS (S (S n)) render ->
     list_mounted JS self cell p render [(a, ra, na); (b, rb, nb)] [na; nb] st ->
     heap st !! c = Some cc -> c <> a -> c <> b ->
     exists st' x,
       set (S (S (S n))) (exec JS (S (S (S n)))) (invoke JS (S (S (S n)))) cell
         (inl (VArr [VObj a; VObj c])) st = Ok tt st' /\
       length (nodes st) <= x /\
       (exists nbn, nodes st' !! nb = Some nbn /\ parentNode nbn = None) /\
       list_mounted JS self cell p render [(a, ra, na); (c, length (records st), x)]
         [na; x] st').
Proof.
  split.
  - intros. by apply list_reorder.
  - intros. by eapply list_replace.
Qed.

Lemma listComponent_reorder_and_replace_witness :
  (exists st',
     set 3 (exec demo_stringify 3) (invoke demo_stringify 3) 0
       (inl (VArr [VObj 2; VObj 0; VObj 1])) mounted_abc = Ok tt st' /\
     length (nodes st') = length (nodes mounted_abc) /\
     list_mounted demo_stringify 0 0 6 list_render [(0, 0, 0); (1, 1, 2); (2, 2, 4)]
       [4; 0; 2] st') /\
  (exists st' x,
     set 6 (exec demo_stringify 6) (invoke demo_stringify 6) 0
       (inl (VArr [VObj 0; VObj 2])) labelled_ab = Ok tt st' /\
     length (nodes labelled_ab) <= x /\
     (exists nbn, nodes st' !! 1 = Some nbn /\ parentNode nbn = None) /\
     list_mounted demo_stringify 0 0 2 text_render
       [(0, 0, 0); (2, length (records labelled_ab), x)] [0; x] st').
Proof.
  split.
  - apply (proj1 (listComponent_reorder_and_replace demo_stringify 0 0 0 6 list_render)).
    apply mounted_abc_is_mounted.
  - apply (proj2 (listComponent_reorder_and_replace demo_stringify 3 0 0 2 text_render)
             0 1 2 0 1 0 1 [("label"%string, VStr "C")]).
    + apply renders_text_render.
    + apply labelled_ab_is_mounted.
    + reflexivity.
    + lia.
    + lia.
Defined.

(** C7.  From the tag path ["div#root.a.b>span.c"] alone the builder makes
    a [div] with id [root] and the classes [a] and [b], whose only child is
    a [span] with the class [c] and no child, and returns the [div]; a
    class token, a listener, an attribute whose name is a name written in
    ASCII other than [id] and [class], and a text child given besides all
    land on the [span], and the [div] is returned and is the same. *)
Theorem createComponent_div_span run call st k ev h a v t :
  is_empty k = false -> existsb_string is_space k = false ->
  is_ascii_name a = true ->
  String.eqb (to_lower a) "id" = false -> String.eqb (to_lower a) "class" = false ->
  is_empty t = false ->
  let r := length (nodes st) in
  createComponent run call div_span st =
  Ok r
    (set_nodes
       (nodes st ++
        [mkNode (Element "div") None [S r] "root" ["a"; "b"]%string [] [] "" "";
         mkNode (Element "span") (Some r) [] "" ["c"]%string [] [] "" ""])
       st) /\
  createComponent run call
    (mkOptions "div#root.a.b>span.c" (Some (ChildrenOne (ChildStr t)))
       (Some (ClassesOne (ClassStr k))) (Some [(ev, h)]) (Some [(a, AttrStr v)])) st =
  Ok r
    (set_nodes
       (nodes st ++
        [mkNode (Element "div") None [S r] "root" ["a"; "b"]%string [] [] "" "";
         mkNode (Element "span") (Some r) [S (S r)] ""
           (if mem_string k ["c"%string] then ["c"%string] else ["c"%string; k])
           [(to_lower a, v)] [(ev, h)] "" "";
         mkNode Text (Some (S r)) [] "" [] [] [] t ""])
       st).
Proof.
  intros Hk1 Hk2 Hna Ha1 Ha2 Ht r. split.
  - apply createComponent_div_span_plain.
  - apply createComponent_div_span_full; try done. by apply is_ascii_name_name.
Qed.

Lemma createComponent_div_span_witness :
  createComponent (exec demo_stringify 0) (invoke demo_stringify 0) div_span empty_state =
  Ok 0
    (set_nodes
       [mkNode (Element "div") None [1] "root" ["a"; "b"]%string [] [] "" "";
        mkNode (Element "span") (Some 0) [] "" ["c"]%string [] [] "" ""]
       empty_state) /\
  createComponent (exec demo_stringify 0) (invoke demo_stringify 0)
    (mkOptions "div#root.a.b>span.c" (Some (ChildrenOne (ChildStr "hello")))
       (Some (ClassesOne (ClassStr "k"))) (Some [("click"%string, fun _ => Ret VUndefined)])
       (Some [("title"%string, AttrStr "t")])) empty_state =
  Ok 0
    (set_nodes
       [mkNode (Element "div") None [1] "root" ["a"; "b"]%string [] [] "" "";
        mkNode (Element "span") (Some 0) [2] "" ["c"; "k"]%string
          [("title"%string, "t"%string)] [("click"%string, fun _ => Ret VUndefined)] "" "";
        mkNode Text (Some 1) [] "" [] [] [] "hello" ""]
       empty_state).
Proof.
  apply (createComponent_div_span (exec demo_stringify 0) (invoke demo_stringify 0)
           empty_state "k" "click" (fun _ => Ret VUndefined) "title" "t" "hello");
    reflexivity.
Defined.




Lemma listEffect_keys_within_witness :
  let st' := final_state (invoke demo_stringify 8 0 pending_ca) in
  exists v s1 cur vars',
    exec demo_stringify 7 (Get 0 Ret) (set_trace (EvPass 0 :: trace pending_ca) pending_ca)
      = Ok v s1 /\
    as_item_array v s1 = Ok cur s1 /\
    list_vars_of 0 st' vars' /\
    tracked vars' st' /\
    (forall item, item ∈ keys vars' -> item ∈ cur).
Proof.
  intros st'.
  apply (listEffect_keys_within demo_stringify 7 0 (Get 0 Ret) list_render
           (mkList [(0, 0); (1, 1); (2, 2)] None None) pending_ca st').
  - vm_compute. reflexivity.
  - split.
    + unfold keys. simpl. clear. distinct.
    + intros item obj Hin. simpl in Hin.
      repeat (apply elem_of_cons in Hin as [Hin|Hin]; [injection Hin as -> ->|]);
        [vm_compute; eauto.. | exfalso; by eapply elem_of_nil].
  - vm_compute. reflexivity.
  - vm_compute. reflexivity.
Defined.

(** ** Subscriptions *)

(** X1.  No call of the library takes a function out of a subscriber set:
    whatever a program does, every cell has afterwards the subscribers it
    had, in the order it had them, before the ones it gained. *)
Theorem exec_never_unsubscribes JS n p st v st' :
  exec JS n p st = Ok v st' ->
  forall c, subscribers_of c st `prefix_of` subscribers_of c st'.
Proof.
  intros H.
  destruct (exec_preserves (tracks 0 0) JS n) as [He _].
  destruct (He p st v st' H) as (evs & _ & Hp & _). exact Hp.
Qed.

Lemma exec_never_unsubscribes_witness :
  let st' := final_state (exec demo_stringify 6 (SetV 0 (VNum 1) (Ret VUndefined)) late_reader) in
  exec demo_stringify 6 (SetV 0 (VNum 1) (Ret VUndefined)) late_reader = Ok VUndefined st' /\
  forall c, subscribers_of c late_reader `prefix_of` subscribers_of c st'.
Proof.
  intros st'.
  assert (H : exec demo_stringify 6 (SetV 0 (VNum 1) (Ret VUndefined)) late_reader
              = Ok VUndefined st') by (vm_compute; reflexivity).
  split; [exact H|].
  exact (exec_never_unsubscribes demo_stringify 6 _ late_reader VUndefined st' H).
Defined.

(** ** Effects that follow one cell *)

Lemma last_default_cons {A} (x d : A) l :
  default d (last (x :: l)) = default x (last l).
Proof. rewrite last_cons. by destruct (last l). Qed.

Lemma last_fmap {A B} (f : A -> B) l : last (map f l) = f <$> last l.
Proof.
  induction l as [|x l IH]; [done|]. cbn [map]. rewrite !last_cons, IH.
  by destruct (last l).
Qed.

Lemma with_data_data nd : with_data (data nd) nd = nd.
Proof. by destruct nd. Qed.

Lemma with_display_display nd : with_display (style_display nd) nd = nd.
Proof. by destruct nd. Qed.

(** A write to a cell whose only subscriber reads the cell and then does
    [act] with what it read. *)
Lemma follows_rerun JS n c fn cl v w st st' :
  follows c fn cl v st ->
  (forall s,
     s = set_trace (EvRun c fn :: EvWrite c w :: trace st)
           (set_signals (<[c := mkSignal w [fn]]> (signals st)) st) ->
     invoke JS (S n) fn s = Ok tt st' /\
     functions st' = functions st /\ signals st' = signals s /\
     activeEffect st' = None) ->
  set (S n) (exec JS (S n)) (invoke JS (S n)) c (inl w) st = Ok tt st' /\
  follows c fn cl w st'.
Proof.
  intros (Hf & Hs & Ha) H.
  assert (Hlc : c < length (signals st)) by (by eapply lookup_lt_Some).
  destruct (H _ eq_refl) as (Hi & Hf' & Hs' & Ha').
  split.
  - eapply set_runs_pass; [exact Hs|]. intros s ->. split; [exact Hi|].
    rewrite Hs'. st_simpl. by apply list_lookup_insert_eq.
  - split_and!; [by rewrite Hf' | | done].
    rewrite Hs'. st_simpl. by apply list_lookup_insert_eq.
Qed.

(** *** [textComponent] *)

Lemma text_rerun JS n t c fn v w nd st :
  follows c fn (TextEffect t (Get c Ret)) v st ->
  nodes st !! t = Some nd ->
  exists st',
    set (S (S (S n))) (exec JS (S (S (S n)))) (invoke JS (S (S (S n)))) c (inl w) st
      = Ok tt st' /\
    follows c fn (TextEffect t (Get c Ret)) w st' /\
    nodes st' = <[t := with_data (dom_string w) nd]> (nodes st).
Proof.
  intros Hfo Hn. pose proof Hfo as (Hf & Hs & Ha).
  assert (Hlc : c < length (signals st)) by (by eapply lookup_lt_Some).
  cut (exists st',
         (set (S (S (S n))) (exec JS (S (S (S n)))) (invoke JS (S (S (S n)))) c (inl w) st
            = Ok tt st' /\
          follows c fn (TextEffect t (Get c Ret)) w st') /\
         nodes st' = <[t := with_data (dom_string w) nd]> (nodes st)).
  { intros (st' & [H1 H2] & H3). by exists st'. }
  eexists. split.
  - eapply follows_rerun; [exact Hfo|]. intros s ->. split.
    + cbn [invoke]. unfold dispatch.
      eapply run_bind; [by apply get_function_eq|].
      unfold textEffect.
      eapply run_bind.
      { eapply exec_Get_Ret_quiet; [st_simpl; by apply list_lookup_insert_eq | done]. }
      unfold set_textContent.
      eapply run_bind; [by apply get_node_eq|]. reflexivity.
    + by st_simpl.
  - by st_simpl.
Qed.

Lemma text_follows JS n t c fn : forall ws v nd st,
  follows c fn (TextEffect t (Get c Ret)) v st ->
  nodes st !! t = Some nd -> data nd = dom_string v ->
  exists st',
    write_each JS (S (S (S n))) c ws st = Ok tt st' /\
    nodes st' = <[t := with_data (dom_string (default v (last ws))) nd]> (nodes st).
Proof.
  induction ws as [|w ws IH]; intros v nd st Hfo Hn Hd.
  - exists st. split; [done|]. simpl. by rewrite <- Hd, with_data_data, list_insert_id.
  - destruct (text_rerun JS n t c fn v w nd st Hfo Hn) as (st1 & H1 & Hfo1 & Hn1).
    assert (Hlt : t < length (nodes st)) by (by eapply lookup_lt_Some).
    destruct (IH w (with_data (dom_string w) nd) st1 Hfo1) as (st' & H' & Hn').
    { rewrite Hn1. by apply list_lookup_insert_eq. }
    { done. }
    exists st'. split.
    + cbn [write_each]. eapply run_bind; [exact H1|]. exact H'.
    + rewrite Hn', Hn1, list_insert_insert_eq, last_default_cons. by destruct nd.
Qed.

(** X2.  [textComponent(() => c())] on a cell that holds a string: it
    returns a new text node with this string, and changes no other node;
    after any writes of strings to the cell, each from outside any effect,
    the text node holds the string written last, and every other node is
    as it was. *)
Theorem textComponent_follows_cell JS n c s0 st :
  signals st !! c = Some (mkSignal (VStr s0) []) -> activeEffect st = None ->
  exists st1,
    textComponent (invoke JS (S (S (S n)))) (Get c Ret) st = Ok (length (nodes st)) st1 /\
    nodes st1 = nodes st ++ [new_node Text s0] /\
    forall ss, exists st',
      write_each JS (S (S (S n))) c (map VStr ss) st1 = Ok tt st' /\
      nodes st' = nodes st ++ [new_node Text (default s0 (last ss))].
Proof.
  intros Hs Ha.
  assert (Hlc : c < length (signals st)) by (by eapply lookup_lt_Some).
  eexists. split; [|split].
  - unfold textComponent.
    eapply run_bind; [reflexivity|].
    eapply run_bind; [reflexivity|].
    eapply run_bind; [|reflexivity].
    unfold createEffect.
    eapply run_bind; [reflexivity|].
    eapply run_bind; [reflexivity|].
    eapply run_bind.
    { cbn [invoke]. unfold dispatch.
      eapply run_bind.
      { apply get_function_eq. st_simpl. apply lookup_app_at. }
      unfold textEffect.
      eapply run_bind; [by apply exec_Get_Ret_first|].
      unfold set_textContent.
      eapply run_bind.
      { apply get_node_eq. st_simpl. apply lookup_app_at. }
      reflexivity. }
    reflexivity.
  - st_simpl. by rewrite insert_app_at.
  - intros ss.
    lazymatch goal with
    | |- context [write_each _ _ _ _ ?s] =>
        destruct (text_follows JS n (length (nodes st)) c (length (functions st))
                    (map VStr ss) (VStr s0) (new_node Text s0) s) as (st' & H' & Hn')
    end.
    + split_and!; st_simpl.
      * apply lookup_app_at.
      * by apply list_lookup_insert_eq.
      * done.
    + st_simpl. rewrite insert_app_at. apply lookup_app_at.
    + done.
    + exists st'. split; [exact H'|]. rewrite Hn'. st_simpl.
      rewrite list_insert_insert_eq, !insert_app_at.
      do 2 f_equal. rewrite last_fmap. by destruct (last ss).
Qed.

Lemma textComponent_follows_cell_witness :
  exists st1,
    textComponent (invoke demo_stringify 3) (Get 0 Ret) one_cell_x = Ok 0 st1 /\
    nodes st1 = [new_node Text "x"] /\
    forall ss, exists st',
      write_each demo_stringify 3 0 (map VStr ss) st1 = Ok tt st' /\
      nodes st' = [new_node Text (default "x"%string (last ss))].
Proof.
  apply (textComponent_follows_cell demo_stringify 0 0 "x" one_cell_x); reflexivity.
Defined.

(** *** The display strategy of [conditionalComponent] *)

Lemma set_style_display_eq e s st nd :
  nodes st !! e = Some nd -> is_element nd = true ->
  set_style_display e s st =
  Ok tt (set_nodes (<[e := with_display s nd]> (nodes st)) st).
Proof.
  intros Hn He. unfold set_style_display.
  eapply run_bind; [by apply get_element_eq|]. reflexivity.
Qed.

Lemma display_rerun JS n e c fn v w nd st :
  follows c fn (DisplayEffect e (Get c Ret)) v st ->
  nodes st !! e = Some nd -> is_element nd = true ->
  exists st',
    set (S (S (S n))) (exec JS (S (S (S n)))) (invoke JS (S (S (S n)))) c (inl w) st
      = Ok tt st' /\
    follows c fn (DisplayEffect e (Get c Ret)) w st' /\
    nodes st' = <[e := with_display (display_of w) nd]> (nodes st).
Proof.
  intros Hfo Hn He. pose proof Hfo as (Hf & Hs & Ha).
  assert (Hlc : c < length (signals st)) by (by eapply lookup_lt_Some).
  cut (exists st',
         (set (S (S (S n))) (exec JS (S (S (S n)))) (invoke JS (S (S (S n)))) c (inl w) st
            = Ok tt st' /\
          follows c fn (DisplayEffect e (Get c Ret)) w st') /\
         nodes st' = <[e := with_display (display_of w) nd]> (nodes st)).
  { intros (st' & [H1 H2] & H3). by exists st'. }
  eexists. split.
  - eapply follows_rerun; [exact Hfo|]. intros s ->. split.
    + cbn [invoke]. unfold dispatch.
      eapply run_bind; [by apply get_function_eq|].
      unfold displayEffect.
      eapply run_bind.
      { eapply exec_Get_Ret_quiet; [st_simpl; by apply list_lookup_insert_eq | done]. }
      by apply set_style_display_eq.
    + by st_simpl.
  - by st_simpl.
Qed.

Lemma display_follows JS n e c fn : forall ws v nd st,
  follows c fn (DisplayEffect e (Get c Ret)) v st ->
  nodes st !! e = Some nd -> is_element nd = true ->
  style_display nd = display_of v ->
  exists st',
    write_each JS (S (S (S n))) c ws st = Ok tt st' /\
    nodes st' = <[e := with_display (display_of (default v (last ws))) nd]> (nodes st).
Proof.
  induction ws as [|w ws IH]; intros v nd st Hfo Hn He Hd.
  - exists st. split; [done|]. simpl.
    by rewrite <- Hd, with_display_display, list_insert_id.
  - destruct (display_rerun JS n e c fn v w nd st Hfo Hn He) as (st1 & H1 & Hfo1 & Hn1).
    assert (Hlt : e < length (nodes st)) by (by eapply lookup_lt_Some).
    destruct (IH w (with_display (display_of w) nd) st1 Hfo1) as (st' & H' & Hn').
    { rewrite Hn1. by apply list_lookup_insert_eq. }
    { done. }
    { done. }
    exists st'. split.
    + cbn [write_each]. eapply run_bind; [exact H1|]. exact H'.
    + rewrite Hn', Hn1, list_insert_insert_eq, last_default_cons. by destruct nd.
Qed.

(** X3.  The display strategy: [conditionalComponent(o, () => c(),
    "display")] returns the node that [createComponent(o)] builds; after
    any writes to the cell, each from outside any effect, the nodes are the
    ones [createComponent(o)] built, but for [style.display] of the
    returned node, which is empty when the value written last (the initial
    value, when nothing was written) is truthy, and ["none"] when it is
    falsy.  The node is never replaced or detached. *)
Theorem conditionalComponent_display_follows JS n o c v0 st :
  builds JS (S (S (S n))) o ->
  signals st !! c = Some (mkSignal v0 []) -> activeEffect st = None ->
  exists st0 root st1,
    createComponent (exec JS (S (S (S n)))) (invoke JS (S (S (S n)))) o st
      = Ok (length (nodes st)) st0 /\
    nodes st0 !! length (nodes st) = Some root /\
    conditionalComponent (exec JS (S (S (S n)))) (invoke JS (S (S (S n)))) o
      (Get c Ret) Display st = Ok (length (nodes st)) st1 /\
    forall vs, exists st',
      write_each JS (S (S (S n))) c vs st1 = Ok tt st' /\
      nodes st' =
        <[length (nodes st) := with_display (display_of (default v0 (last vs))) root]>
          (nodes st0).
Proof.
  intros Hb Hs Ha.
  destruct (Hb st Ha) as (st0 & new & root & Hc & Hn0 & He & Hp & Hfp & Hsp & Ha0).
  assert (Hs0 : signals st0 !! c = Some (mkSignal v0 [])).
  { eapply prefix_lookup_Some; [exact Hs | exact Hsp]. }
  assert (Hr : nodes st0 !! length (nodes st) = Some root).
  { rewrite Hn0. apply lookup_app_at. }
  assert (Hlc : c < length (signals st0)) by (by eapply lookup_lt_Some).
  assert (Hlr : length (nodes st) < length (nodes st0)) by (by eapply lookup_lt_Some).
  exists st0, root. eexists. split; [exact Hc|]. split; [exact Hr|]. split.
  - unfold conditionalComponent.
    eapply run_bind; [exact Hc|].
    eapply run_bind; [reflexivity|].
    eapply run_bind; [|reflexivity].
    unfold createEffect.
    eapply run_bind; [reflexivity|].
    eapply run_bind; [reflexivity|].
    eapply run_bind.
    { cbn [invoke]. unfold dispatch.
      eapply run_bind.
      { apply get_function_eq. st_simpl. apply lookup_app_at. }
      unfold displayEffect.
      eapply run_bind; [by apply exec_Get_Ret_first|].
      by apply set_style_display_eq. }
    reflexivity.
  - intros vs.
    lazymatch goal with
    | |- context [write_each _ _ _ _ ?s] =>
        destruct (display_follows JS n (length (nodes st)) c (length (functions st0))
                    vs v0 (with_display (display_of v0) root) s) as (st' & H' & Hn')
    end.
    + split_and!; st_simpl.
      * apply lookup_app_at.
      * by apply list_lookup_insert_eq.
      * done.
    + st_simpl. by apply list_lookup_insert_eq.
    + done.
    + done.
    + exists st'. split; [exact H'|]. rewrite Hn'. st_simpl.
      rewrite list_insert_insert_eq. by destruct root.
Qed.

Lemma conditionalComponent_display_follows_witness :
  exists st0 root st1,
    createComponent (exec demo_stringify 3) (invoke demo_stringify 3) div_span one_cell_x
      = Ok 0 st0 /\
    nodes st0 !! 0 = Some root /\
    conditionalComponent (exec demo_stringify 3) (invoke demo_stringify 3) div_span
      (Get 0 Ret) Display one_cell_x = Ok 0 st1 /\
    forall vs, exists st',
      write_each demo_stringify 3 0 vs st1 = Ok tt st' /\
      nodes st' =
        <[0 := with_display (display_of (default (VStr "x") (last vs))) root]> (nodes st0).
Proof.
  apply (conditionalComponent_display_follows demo_stringify 0 div_span 0 (VStr "x")
           one_cell_x).
  - apply builds_div_span.
  - reflexivity.
  - reflexivity.
Defined.

(** *** A dynamic attribute *)

Lemma assoc_get_set {V} k (v : V) l : assoc_get k (assoc_set k v l) = Some v.
Proof.
  induction l as [|[k' v'] l IH]; simpl.
  - by rewrite String.eqb_refl.
  - destruct (String.eqb k' k) eqn:E; simpl; [by rewrite String.eqb_refl|].
    by rewrite E.
Qed.

Lemma assoc_get_None {V} k (l : list (string * V)) : k ∉ l.*1 -> assoc_get k l = None.
Proof.
  induction l as [|[k' v'] l IH]; simpl; [done|]. intros Hn.
  apply not_elem_of_cons in Hn as [Hne Hn].
  assert (String.eqb k' k = false) as -> by (apply String.eqb_neq; congruence).
  by apply IH.
Qed.

Lemma assoc_set_keys {V} k (v : V) l x :
  x ∈ (assoc_set k v l).*1 -> x = k \/ x ∈ l.*1.
Proof.
  induction l as [|[k' v'] l IH]; simpl.
  - intros H%list_elem_of_singleton. by left.
  - destruct (String.eqb k' k) eqn:E; simpl.
    + intros [->|H]%elem_of_cons; [by left|]. right. apply elem_of_cons. by right.
    + intros [->|H]%elem_of_cons.
      * right. apply elem_of_cons. by left.
      * destruct (IH H) as [->|H']; [by left|]. right. apply elem_of_cons. by right.
Qed.

Lemma assoc_set_NoDup {V} k (v : V) l : NoDup l.*1 -> NoDup (assoc_set k v l).*1.
Proof.
  induction l as [|[k' v'] l IH]; simpl.
  - intros _. apply NoDup_singleton.
  - intros [Hn Hd]%NoDup_cons. destruct (String.eqb k' k) eqn:E; simpl.
    + apply String.eqb_eq in E as ->. by apply NoDup_cons.
    + apply NoDup_cons. split; [|by apply IH].
      intros [->|H]%assoc_set_keys; [|done].
      by rewrite String.eqb_refl in E.
Qed.

Lemma assoc_remove_keys {V} k (l : list (string * V)) x :
  x ∈ (assoc_remove k l).*1 -> x ∈ l.*1.
Proof.
  induction l as [|[k' v'] l IH]; simpl; [done|].
  destruct (String.eqb k' k); simpl.
  - intros H. apply elem_of_cons. by right.
  - intros [->|H]%elem_of_cons; apply elem_of_cons; [by left|]. right. by apply IH.
Qed.

Lemma assoc_remove_NoDup {V} k (l : list (string * V)) :
  NoDup l.*1 -> NoDup (assoc_remove k l).*1.
Proof.
  induction l as [|[k' v'] l IH]; simpl; [done|].
  intros [Hn Hd]%NoDup_cons. destruct (String.eqb k' k); simpl; [done|].
  apply NoDup_cons. split; [|by apply IH]. intros H%assoc_remove_keys. done.
Qed.

Lemma assoc_get_remove {V} k (l : list (string * V)) :
  NoDup l.*1 -> assoc_get k (assoc_remove k l) = None.
Proof.
  induction l as [|[k' v'] l IH]; simpl; [done|].
  intros [Hn Hd]%NoDup_cons. destruct (String.eqb k' k) eqn:E; simpl.
  - apply String.eqb_eq in E as ->. by apply assoc_get_None.
  - rewrite E. by apply IH.
Qed.

Lemma removeAttribute_eq e name st nd :
  nodes st !! e = Some nd -> is_element nd = true ->
  String.eqb (to_lower name) "id" = false ->
  String.eqb (to_lower name) "class" = false ->
  removeAttribute e name st =
  Ok tt (set_nodes (<[e := with_attrs (assoc_remove (to_lower name) (attrs nd)) nd]>
                      (nodes st)) st).
Proof.
  intros Hn He Hi Hc. unfold removeAttribute.
  eapply run_bind; [by apply get_element_eq|]. cbv zeta. by rewrite Hi, Hc.
Qed.

(** What the attribute effect leaves of the attributes of the element. *)
Lemma attrEffect_eq run e a str st st1 v nd :
  run str st = Ok v st1 ->
  nodes st1 !! e = Some nd -> is_element nd = true ->
  is_name a = true ->
  String.eqb (to_lower a) "id" = false ->
  String.eqb (to_lower a) "class" = false ->
  attrEffect run e a str st =
  Ok tt (set_nodes
           (<[e := with_attrs
                     (if nullish v then assoc_remove (to_lower a) (attrs nd)
                      else assoc_set (to_lower a) (toString v) (attrs nd)) nd]>
              (nodes st1)) st1).
Proof.
  intros Hrun Hn He Hna Hi Hc. unfold attrEffect.
  eapply run_bind; [exact Hrun|].
  destruct (nullish v); cbn [negb].
  - by apply removeAttribute_eq.
  - by apply setAttribute_eq.
Qed.

Lemma attr_shows_after e a v nd ns :
  e < length ns -> is_element nd = true -> NoDup (attrs nd).*1 ->
  attr_shows e (to_lower a) v
    (set_nodes
       (<[e := with_attrs
                 (if nullish v then assoc_remove (to_lower a) (attrs nd)
                  else assoc_set (to_lower a) (toString v) (attrs nd)) nd]> ns)
       empty_state).
Proof.
  intros Hl He Hd. eexists. split; [st_simpl; by apply list_lookup_insert_eq|].
  split; [by destruct nd|]. cbn [attrs with_attrs].
  destruct (nullish v).
  - split; [by apply assoc_remove_NoDup | by apply assoc_get_remove].
  - split; [by apply assoc_set_NoDup | by apply assoc_get_set].
Qed.

Lemma attr_rerun JS n e a c fn v w st :
  is_name a = true ->
  String.eqb (to_lower a) "id" = false ->
  String.eqb (to_lower a) "class" = false ->
  follows c fn (AttrEffect e a (Get c Ret)) v st ->
  attr_shows e (to_lower a) v st ->
  exists st',
    set (S (S (S n))) (exec JS (S (S (S n)))) (invoke JS (S (S (S n)))) c (inl w) st
      = Ok tt st' /\
    follows c fn (AttrEffect e a (Get c Ret)) w st' /\
    attr_shows e (to_lower a) w st'.
Proof.
  intros Hna Hi Hc Hfo (nd & Hn & He & Hd & Hg). pose proof Hfo as (Hf & Hs & Ha).
  assert (Hlc : c < length (signals st)) by (by eapply lookup_lt_Some).
  assert (Hle : e < length (nodes st)) by (by eapply lookup_lt_Some).
  cut (exists st',
         (set (S (S (S n))) (exec JS (S (S (S n)))) (invoke JS (S (S (S n)))) c (inl w) st
            = Ok tt st' /\
          follows c fn (AttrEffect e a (Get c Ret)) w st') /\
         attr_shows e (to_lower a) w st').
  { intros (st' & [H1 H2] & H3). by exists st'. }
  eexists. split.
  - eapply follows_rerun; [exact Hfo|]. intros s ->. split.
    + cbn [invoke]. unfold dispatch.
      eapply run_bind; [by apply get_function_eq|].
      eapply attrEffect_eq;
        [eapply exec_Get_Ret_quiet; [st_simpl; by apply list_lookup_insert_eq | done]
        |exact Hn|exact He|exact Hna|exact Hi|exact Hc].
    + by st_simpl.
  - by apply (attr_shows_after e a w nd (nodes st)).
Qed.

Lemma attr_follows JS n e a c fn :
  is_name a = true ->
  String.eqb (to_lower a) "id" = false ->
  String.eqb (to_lower a) "class" = false ->
  forall ws v st,
  follows c fn (AttrEffect e a (Get c Ret)) v st ->
  attr_shows e (to_lower a) v st ->
  exists st',
    write_each JS (S (S (S n))) c ws st = Ok tt st' /\
    attr_shows e (to_lower a) (default v (last ws)) st'.
Proof.
  intros Hna Hi Hc. induction ws as [|w ws IH]; intros v st Hfo Hsh.
  - exists st. by split.
  - destruct (attr_rerun JS n e a c fn v w st Hna Hi Hc Hfo Hsh) as (st1 & H1 & Hfo1 & Hsh1).
    destruct (IH w st1 Hfo1 Hsh1) as (st' & H' & Hsh').
    exists st'. split.
    + cbn [write_each]. eapply run_bind; [exact H1|]. exact H'.
    + by rewrite last_default_cons.
Qed.

(** X4.  An attribute given as a function, [{[a]: () => c()}], on an
    element with distinct attribute names, [a] being a name written in
    ASCII that is neither [id] nor [class], and the cell holding
    primitive values: after [createComponent] applied it, and after any
    writes of primitive values to the cell, each from outside any effect,
    the element has the attribute [a] (lower-cased) with the string of the
    value written last (the initial value, when nothing was written), and
    has no such attribute when that value is [null] or [undefined]. *)
Theorem addAttribute_follows_cell JS n e a c v0 nd st :
  nodes st !! e = Some nd -> is_element nd = true -> NoDup (attrs nd).*1 ->
  is_ascii_name a = true ->
  String.eqb (to_lower a) "id" = false ->
  String.eqb (to_lower a) "class" = false ->
  signals st !! c = Some (mkSignal v0 []) -> activeEffect st = None ->
  primitive v0 ->
  exists st1,
    addAttribute (invoke JS (S (S (S n)))) e (a, AttrFn (Get c Ret)) st = Ok tt st1 /\
    forall vs, Forall primitive vs -> exists st',
      write_each JS (S (S (S n))) c vs st1 = Ok tt st' /\
      attr_shows e (to_lower a) (default v0 (last vs)) st'.
Proof.
  intros Hn He Hd Hna Hi Hc Hs Ha _.
  apply is_ascii_name_name in Hna.
  assert (Hlc : c < length (signals st)) by (by eapply lookup_lt_Some).
  assert (Hle : e < length (nodes st)) by (by eapply lookup_lt_Some).
  eexists. split.
  - unfold addAttribute.
    eapply run_bind; [reflexivity|].
    unfold createEffect.
    eapply run_bind; [reflexivity|].
    eapply run_bind; [reflexivity|].
    eapply run_bind.
    { cbn [invoke]. unfold dispatch.
      eapply run_bind.
      { apply get_function_eq. st_simpl. apply lookup_app_at. }
      eapply attrEffect_eq;
        [by apply exec_Get_Ret_first|exact Hn|exact He|exact Hna|exact Hi|exact Hc]. }
    reflexivity.
  - intros vs _.
    lazymatch goal with
    | |- context [write_each _ _ _ _ ?s] =>
        destruct (attr_follows JS n e a c (length (functions st)) Hna Hi Hc vs v0 s)
          as (st' & H' & Hsh')
    end.
    + split_and!; st_simpl.
      * apply lookup_app_at.
      * by apply list_lookup_insert_eq.
      * done.
    + by apply (attr_shows_after e a v0 nd (nodes st)).
    + by exists st'.
Qed.

Lemma addAttribute_follows_cell_witness :
  exists st1,
    addAttribute (invoke demo_stringify 3) 0 ("disabled"%string, AttrFn (Get 0 Ret))
      one_cell_one_div = Ok tt st1 /\
    forall vs, Forall primitive vs -> exists st',
      write_each demo_stringify 3 0 vs st1 = Ok tt st' /\
      attr_shows 0 (to_lower "disabled") (default (VBool false) (last vs)) st'.
Proof.
  apply (addAttribute_follows_cell demo_stringify 0 0 "disabled" 0 (VBool false)
           (new_node (Element "div") "") one_cell_one_div);
    try reflexivity; try exact I.
  apply NoDup_nil_2.
Defined.

(** *** A dynamic class that may be absent *)

Lemma remove_string_not_in s l : mem_string s l = false -> remove_string s l = l.
Proof.
  induction l as [|x l IH]; simpl; [done|].
  destruct (String.eqb x s); simpl; [done|]. intros H. by rewrite IH.
Qed.

Lemma remove_string_app s l1 l2 :
  remove_string s (l1 ++ l2) = remove_string s l1 ++ remove_string s l2.
Proof.
  induction l1 as [|x l1 IH]; simpl; [done|].
  destruct (String.eqb x s); simpl; by rewrite IH.
Qed.

Lemma with_classList_twice a b nd :
  with_classList a (with_classList b nd) = with_classList a nd.
Proof. by destruct nd. Qed.

Lemma valid_token_truthy t : valid_token t -> truthy (VStr t) = true.
Proof. intros [H _]. simpl. by rewrite H. Qed.

(** The class list after the effect produced the string [t]. *)
Lemma class_after_for base v ref t :
  class_value base v -> reference_for base v ref ->
  valid_token t -> mem_string t base = false ->
  class_after t ref (classes_for base v) = base ++ [t].
Proof.
  intros Hv Hr Ht Hb. unfold class_after.
  destruct Hv as [Hnull | (t' & -> & Ht' & Hb')].
  - assert (classes_for base v = base) as -> by (by destruct v).
    rewrite Hb.
    assert (Hr' : ref = VUndefined \/
                  exists r, ref = VStr r /\ valid_token r /\ mem_string r base = false)
      by (by destruct v).
    destruct Hr' as [-> | (r & -> & Hvr & Hbr)]; [done|].
    rewrite (valid_token_truthy r Hvr). cbn [strict_eq andb toString].
    destruct (String.eqb t r) eqn:E; cbn [negb]; [done|].
    rewrite remove_string_app, (remove_string_not_in r base Hbr). simpl.
    by rewrite E.
  - simpl in Hr. subst ref. cbn [classes_for].
    rewrite (valid_token_truthy t' Ht'). cbn [strict_eq andb toString].
    rewrite mem_string_app, Hb. simpl. rewrite orb_false_r.
    destruct (String.eqb t' t) eqn:E.
    + apply String.eqb_eq in E as ->. rewrite String.eqb_refl. by cbn [negb].
    + rewrite String.eqb_sym, E. cbn [negb].
      rewrite !remove_string_app, (remove_string_not_in t' base Hb'). simpl.
      rewrite String.eqb_refl, String.eqb_sym, E. by rewrite app_nil_r.
Qed.

(** The class list after the effect produced [null] or [undefined]. *)
Lemma class_removed_for base v ref :
  class_value base v -> reference_for base v ref ->
  (if truthy ref then remove_string (toString ref) (classes_for base v)
   else classes_for base v) = base.
Proof.
  intros Hv Hr.
  destruct Hv as [Hnull | (t' & -> & Ht' & Hb')].
  - assert (classes_for base v = base) as -> by (by destruct v).
    assert (Hr' : ref = VUndefined \/
                  exists r, ref = VStr r /\ valid_token r /\ mem_string r base = false)
      by (by destruct v).
    destruct Hr' as [-> | (r & -> & Hvr & Hbr)]; [done|].
    rewrite (valid_token_truthy r Hvr). by apply remove_string_not_in.
  - simpl in Hr. subst ref. rewrite (valid_token_truthy t' Ht'). cbn [classes_for toString].
    rewrite remove_string_app, (remove_string_not_in t' base Hb'). simpl.
    by rewrite String.eqb_refl, app_nil_r.
Qed.

Lemma reference_valid base v ref :
  class_value base v -> reference_for base v ref ->
  truthy ref = true -> valid_token (toString ref).
Proof.
  intros Hv Hr Ht.
  destruct Hv as [Hnull | (t' & -> & Ht' & Hb')].
  - assert (Hr' : ref = VUndefined \/
                  exists r, ref = VStr r /\ valid_token r /\ mem_string r base = false)
      by (by destruct v).
    destruct Hr' as [-> | (r & -> & Hvr & Hbr)]; [done | done].
  - simpl in Hr. by subst ref.
Qed.

Lemma get_referenceClass_eq fn st e str ref :
  functions st !! fn = Some (ClassEffect e str ref) ->
  get_referenceClass fn st = Ok ref st.
Proof.
  intros Hf. unfold get_referenceClass.
  eapply run_bind; [by apply get_function_eq|]. reflexivity.
Qed.

(** The class effect when the producer returns [null] or [undefined]. *)
Lemma classEffect_null_eq run fn e str st st1 v nd ref :
  run str st = Ok v st1 -> nullish v = true ->
  nodes st1 !! e = Some nd -> is_element nd = true ->
  functions st1 !! fn = Some (ClassEffect e str ref) ->
  (truthy ref = true -> valid_token (toString ref)) ->
  classEffect run fn e str st =
  Ok tt (set_nodes
           (<[e := with_classList
                     (if truthy ref then remove_string (toString ref) (classList nd)
                      else classList nd) nd]> (nodes st1)) st1).
Proof.
  intros Hrun Hnull Hn He Hf Href. unfold classEffect.
  eapply run_bind; [exact Hrun|]. rewrite Hnull. cbn [negb].
  eapply run_bind; [by eapply get_referenceClass_eq|].
  destruct (truthy ref) eqn:Ht; cbn [when].
  - destruct (Href eq_refl) as [H1 H2]. by apply classList_remove_eq.
  - assert (with_classList (classList nd) nd = nd) as -> by (by destruct nd).
    by rewrite list_insert_id, set_nodes_id.
Qed.

Lemma class_follows_rerun JS n e c fn nd0 v w st :
  class_follows e c fn nd0 v st -> class_value (classList nd0) w ->
  exists st',
    set (S (S (S n))) (exec JS (S (S (S n)))) (invoke JS (S (S (S n)))) c (inl w) st
      = Ok tt st' /\
    class_follows e c fn nd0 w st' /\
    nodes st' = <[e := with_classList (classes_for (classList nd0) w) nd0]> (nodes st).
Proof.
  intros (ref & Hn & He & Hv & Hr & Hf & Hs & Ha) Hw.
  assert (Hlc : c < length (signals st)) by (by eapply lookup_lt_Some).
  assert (Hle : e < length (nodes st)) by (by eapply lookup_lt_Some).
  assert (Hlf : fn < length (functions st)) by (by eapply lookup_lt_Some).
  assert (He' : is_element (with_classList (classes_for (classList nd0) v) nd0) = true)
    by (by destruct nd0).
  pose proof (reference_valid _ _ _ Hv Hr) as Hrv.
  destruct Hw as [Hnull | (t & -> & Ht & Hb)].
  - eexists. split; [|split].
    + eapply set_runs_pass; [exact Hs|]. intros s ->. split.
      * cbn [invoke]. unfold dispatch.
        eapply run_bind; [by apply get_function_eq|].
        eapply (classEffect_null_eq _ fn e (Get c Ret) _ _ w _ ref);
          [eapply exec_Get_Ret_quiet; [st_simpl; by apply list_lookup_insert_eq | done]
          |exact Hnull|exact Hn|exact He'|exact Hf|exact Hrv].
      * st_simpl. by apply list_lookup_insert_eq.
    + exists ref. st_simpl. cbn [classList with_classList].
      rewrite (class_removed_for _ _ _ Hv Hr), with_classList_twice.
      assert (classes_for (classList nd0) w = classList nd0) as Hcw by (by destruct w).
      split_and!.
      * rewrite Hcw. by apply list_lookup_insert_eq.
      * done.
      * by left.
      * destruct Hv as [Hvn | (t' & -> & Ht' & Hb')].
        -- assert (Hr' : ref = VUndefined \/
                   exists r, ref = VStr r /\ valid_token r /\
                             mem_string r (classList nd0) = false) by (by destruct v).
           by destruct w.
        -- simpl in Hr. subst ref.
           assert (Hr' : VStr t' = VUndefined \/
                   exists r, VStr t' = VStr r /\ valid_token r /\
                             mem_string r (classList nd0) = false)
             by (right; by exists t').
           by destruct w.
      * done.
      * by apply list_lookup_insert_eq.
      * done.
    + st_simpl. cbn [classList with_classList].
      rewrite (class_removed_for _ _ _ Hv Hr), with_classList_twice.
      by assert (classes_for (classList nd0) w = classList nd0) as -> by (by destruct w).
  - eexists. split; [|split].
    + eapply set_runs_pass; [exact Hs|]. intros s ->. split.
      * cbn [invoke]. unfold dispatch.
        eapply run_bind; [by apply get_function_eq|].
        eapply (classEffect_eq _ fn e (Get c Ret) _ _ t _ ref);
          [eapply exec_Get_Ret_quiet; [st_simpl; by apply list_lookup_insert_eq | done]
          |exact Hn|exact He'|exact Hf|exact Ht|exact Hrv].
      * st_simpl. by apply list_lookup_insert_eq.
    + exists (VStr t). st_simpl. cbn [classList with_classList].
      rewrite (class_after_for _ _ _ _ Hv Hr Ht Hb), with_classList_twice.
      split_and!.
      * by apply list_lookup_insert_eq.
      * done.
      * right. by exists t.
      * done.
      * by apply list_lookup_insert_eq.
      * by apply list_lookup_insert_eq.
      * done.
    + st_simpl. cbn [classList with_classList].
      by rewrite (class_after_for _ _ _ _ Hv Hr Ht Hb), with_classList_twice.
Qed.

Lemma class_follows_writes JS n e c fn nd0 : forall ws v st,
  class_follows e c fn nd0 v st -> Forall (class_value (classList nd0)) ws ->
  exists st',
    write_each JS (S (S (S n))) c ws st = Ok tt st' /\
    nodes st' =
      <[e := with_classList (classes_for (classList nd0) (default v (last ws))) nd0]>
        (nodes st).
Proof.
  induction ws as [|w ws IH]; intros v st Hfo Hws.
  - exists st. split; [done|]. simpl.
    destruct Hfo as (ref & Hn & _). by rewrite list_insert_id.
  - apply Forall_cons in Hws as [Hw Hws].
    destruct (class_follows_rerun JS n e c fn nd0 v w st Hfo Hw) as (st1 & H1 & Hfo1 & Hn1).
    destruct (IH w st1 Hfo1 Hws) as (st' & H' & Hn').
    exists st'. split.
    + cbn [write_each]. eapply run_bind; [exact H1|]. exact H'.
    + by rewrite Hn', Hn1, list_insert_insert_eq, last_default_cons.
Qed.

(** X5.  A class given as a function, [classes: () => c()], whose values
    are [null], [undefined] or class tokens that the element does not have
    already: after [createComponent] applied it, and after any writes of
    such values to the cell, each from outside any effect, the element has
    the classes it had before, followed by the class written last (the
    initial value, when nothing was written) if that is a string, and
    nothing more if it is [null] or [undefined]; every other node is as it
    was. *)
Theorem addClass_follows_cell JS n e c v0 nd st :
  nodes st !! e = Some nd -> is_element nd = true ->
  signals st !! c = Some (mkSignal v0 []) -> activeEffect st = None ->
  class_value (classList nd) v0 ->
  exists st1,
    addClass (invoke JS (S (S (S n)))) e (ClassFn (Get c Ret)) st = Ok tt st1 /\
    forall vs, Forall (class_value (classList nd)) vs ->
      exists st',
        write_each JS (S (S (S n))) c vs st1 = Ok tt st' /\
        nodes st' =
          <[e := with_classList (classes_for (classList nd) (default v0 (last vs))) nd]>
            (nodes st).
Proof.
  intros Hn He Hs Ha Hv.
  assert (Hlc : c < length (signals st)) by (by eapply lookup_lt_Some).
  assert (Hle : e < length (nodes st)) by (by eapply lookup_lt_Some).
  assert (Hnd : with_classList (classList nd) nd = nd) by (by destruct nd).
  assert (Hr0 : reference_for (classList nd) VUndefined VUndefined) by (by left).
  assert (Hv0 : class_value (classList nd) VUndefined) by (by left).
  destruct Hv as [Hnull | (t & -> & Ht & Hb)].
  - eexists. split.
    + unfold addClass.
      eapply run_bind; [reflexivity|].
      unfold createEffect.
      eapply run_bind; [reflexivity|].
      eapply run_bind; [reflexivity|].
      eapply run_bind.
      { cbn [invoke]. unfold dispatch.
        eapply run_bind.
        { apply get_function_eq. st_simpl. apply lookup_app_at. }
        eapply (classEffect_null_eq _ _ e (Get c Ret) _ _ v0 nd VUndefined);
          [by apply exec_Get_Ret_first|exact Hnull|exact Hn|exact He
          |st_simpl; apply lookup_app_at|done]. }
      reflexivity.
    + intros vs Hvs.
      lazymatch goal with
      | |- context [write_each _ _ _ _ ?s] =>
          destruct (class_follows_writes JS n e c (length (functions st)) nd vs v0 s)
            as (st' & H' & Hn')
      end.
      * exists VUndefined. st_simpl. cbn [truthy].
        assert (classes_for (classList nd) v0 = classList nd) as -> by (by destruct v0).
        rewrite Hnd. split_and!.
        -- by apply list_lookup_insert_eq.
        -- done.
        -- by left.
        -- by destruct v0.
        -- apply lookup_app_at.
        -- by apply list_lookup_insert_eq.
        -- done.
      * done.
      * exists st'. split; [exact H'|]. rewrite Hn'. st_simpl. cbn [truthy].
        by rewrite Hnd, list_insert_insert_eq.
  - eexists. split.
    + unfold addClass.
      eapply run_bind; [reflexivity|].
      unfold createEffect.
      eapply run_bind; [reflexivity|].
      eapply run_bind; [reflexivity|].
      eapply run_bind.
      { cbn [invoke]. unfold dispatch.
        eapply run_bind.
        { apply get_function_eq. st_simpl. apply lookup_app_at. }
        eapply (classEffect_eq _ _ e (Get c Ret) _ _ t nd VUndefined);
          [by apply exec_Get_Ret_first|exact Hn|exact He
          |st_simpl; apply lookup_app_at|exact Ht|done]. }
      reflexivity.
    + intros vs Hvs.
      pose proof (class_after_for (classList nd) VUndefined VUndefined t Hv0 Hr0 Ht Hb)
        as Hafter. cbn [classes_for] in Hafter.
      lazymatch goal with
      | |- context [write_each _ _ _ _ ?s] =>
          destruct (class_follows_writes JS n e c (length (functions st)) nd vs (VStr t) s)
            as (st' & H' & Hn')
      end.
      * exists (VStr t). st_simpl. rewrite Hafter. split_and!.
        -- by apply list_lookup_insert_eq.
        -- done.
        -- right. by exists t.
        -- done.
        -- rewrite insert_app_at. apply lookup_app_at.
        -- by apply list_lookup_insert_eq.
        -- done.
      * done.
      * exists st'. split; [exact H'|]. rewrite Hn'. st_simpl.
        by rewrite list_insert_insert_eq.
Qed.

Lemma addClass_follows_cell_witness :
  exists st1,
    addClass (invoke demo_stringify 3) 0 (ClassFn (Get 0 Ret)) null_cell_one_div = Ok tt st1 /\
    forall vs, Forall (class_value []) vs ->
      exists st',
        write_each demo_stringify 3 0 vs st1 = Ok tt st' /\
        nodes st' =
          <[0 := with_classList (classes_for [] (default VNull (last vs)))
                   (new_node (Element "div") "")]> (nodes null_cell_one_div).
Proof.
  apply (addClass_follows_cell demo_stringify 0 0 0 VNull
           (new_node (Element "div") "") null_cell_one_div); try reflexivity.
  by left.
Defined.

(** *** A producer that returns the empty string *)

Lemma run_bind_err {A B} (m : M A) (f : A -> M B) st e st1 :
  m st = Err e st1 -> (m ≫= f) st = Err e st1.
Proof. intros H. unfold mbind, M_bind. by rewrite H. Qed.

Lemma subscribers_add_new c fn st s :
  signals st !! c = Some s -> mem_nat fn (subscribers s) = false ->
  subscribers_add c fn st =
  Ok tt (set_signals (<[c := mkSignal (sig_value s) (subscribers s ++ [fn])]> (signals st)) st).
Proof.
  intros Hs Hm. unfold subscribers_add.
  eapply run_bind; [by apply get_signal_eq|]. by rewrite Hm.
Qed.

Lemma subscribers_add_old c fn st s :
  signals st !! c = Some s -> mem_nat fn (subscribers s) = true ->
  subscribers_add c fn st = Ok tt st.
Proof.
  intros Hs Hm. unfold subscribers_add.
  eapply run_bind; [by apply get_signal_eq|]. by rewrite Hm.
Qed.

(** X6.  A class producer that returns the empty string: [classList.add]
    refuses it, so [createEffect], and with it [createComponent], ends with
    the exception [SyntaxError]; the DOM is as it was, and the active
    effect is still the class effect, since [createEffect] did not get to
    clear it.  So the next read of any cell from outside an effect returns
    the value of the cell and registers the class effect with it. *)
Theorem addClass_empty_string_throws JS n e c nd st :
  nodes st !! e = Some nd -> is_element nd = true ->
  mem_string "" (classList nd) = false ->
  signals st !! c = Some (mkSignal (VStr "") []) -> activeEffect st = None ->
  exists st',
    addClass (invoke JS (S (S (S n)))) e (ClassFn (Get c Ret)) st
      = Err (DOMException "SyntaxError") st' /\
    nodes st' = nodes st /\
    activeEffect st' = Some (length (functions st)) /\
    forall d s, signals st' !! d = Some s ->
      exists st'', get d st' = Ok (sig_value s) st'' /\
        length (functions st) ∈ subscribers_of d st''.
Proof.
  intros Hn He Hm Hs Ha.
  assert (Hlc : c < length (signals st)) by (by eapply lookup_lt_Some).
  eexists. split; [|split; [|split]].
  - unfold addClass.
    eapply run_bind; [reflexivity|].
    unfold createEffect.
    eapply run_bind; [reflexivity|].
    eapply run_bind; [reflexivity|].
    apply run_bind_err.
    cbn [invoke]. unfold dispatch.
    eapply run_bind.
    { apply get_function_eq. st_simpl. apply lookup_app_at. }
    unfold classEffect.
    eapply run_bind; [by apply exec_Get_Ret_first|].
    cbn [nullish negb toString].
    eapply run_bind; [by apply classList_contains_eq|].
    rewrite Hm. cbn [negb when].
    apply run_bind_err.
    unfold classList_add.
    eapply run_bind; [by apply get_element_eq|].
    reflexivity.
  - reflexivity.
  - reflexivity.
  - intros d s Hd. unfold get.
    destruct (mem_nat (length (functions st)) (subscribers s)) eqn:Hmem.
    + eexists. split.
      * eapply run_bind; [reflexivity|].
        eapply run_bind; [reflexivity|].
        eapply run_bind; [by eapply subscribers_add_old|].
        eapply run_bind; [by apply get_signal_eq|]. reflexivity.
      * unfold subscribers_of. st_simpl. st_simpl in Hd. rewrite Hd.
        by apply mem_nat_In.
    + assert (Hld : d < length (<[c := mkSignal (VStr "") [length (functions st)]]> (signals st)))
        by (by eapply lookup_lt_Some).
      eexists. split.
      * eapply run_bind; [reflexivity|].
        eapply run_bind; [reflexivity|].
        eapply run_bind; [by eapply subscribers_add_new|].
        eapply run_bind.
        { apply get_signal_eq. st_simpl. by apply list_lookup_insert_eq. }
        reflexivity.
      * unfold subscribers_of. st_simpl.
        rewrite list_lookup_insert_eq by done. cbn [subscribers].
        apply elem_of_app. right. by apply list_elem_of_singleton.
Qed.

Lemma addClass_empty_string_throws_witness :
  exists st',
    addClass (invoke demo_stringify 3) 0 (ClassFn (Get 0 Ret)) empty_string_cell
      = Err (DOMException "SyntaxError") st' /\
    nodes st' = nodes empty_string_cell /\
    activeEffect st' = Some (length (functions empty_string_cell)) /\
    forall d s, signals st' !! d = Some s ->
      exists st'', get d st' = Ok (sig_value s) st'' /\
        length (functions empty_string_cell) ∈ subscribers_of d st''.
Proof.
  apply (addClass_empty_string_throws demo_stringify 0 0 0
           (new_node (Element "div") "") empty_string_cell); reflexivity.
Defined.

(** ** An effect that writes the cell it reads *)

Lemma run_bind_out_of_fuel {A B} (m : M A) (f : A -> M B) st :
  m st = OutOfFuel -> (m ≫= f) st = OutOfFuel.
Proof. intros H. unfold mbind, M_bind. by rewrite H. Qed.

(** The reader, called by a function that is registered already. *)
Lemma get_registered c fn v l st :
  signals st !! c = Some (mkSignal v l) -> activeEffect st = Some fn ->
  mem_nat fn l = true ->
  get c st = Ok v (set_trace (EvRead c (Some fn) :: trace st) st).
Proof.
  intros Hs Ha Hm. unfold get.
  eapply run_bind; [reflexivity|]. rewrite Ha.
  eapply run_bind; [reflexivity|].
  eapply run_bind; [by eapply subscribers_add_old|].
  eapply run_bind; [by apply get_signal_eq|]. reflexivity.
Qed.

(** A write to a cell whose subscriber writes it again never returns. *)
Lemma set_writes_back_loops JS c f fn : forall n w v st,
  functions st !! fn = Some (UserFn (writes_back c f)) ->
  signals st !! c = Some (mkSignal v [fn]) ->
  activeEffect st = Some fn ->
  set n (exec JS n) (invoke JS n) c (inl w) st = OutOfFuel.
Proof.
  induction n as [n IH] using lt_wf_ind. intros w v st Hf Hs Ha.
  assert (Hlc : c < length (signals st)) by (by eapply lookup_lt_Some).
  unfold set.
  eapply run_bind; [reflexivity|].
  eapply run_bind; [by apply get_signal_eq|].
  eapply run_bind; [reflexivity|].
  eapply run_bind; [reflexivity|].
  cbn [subscribers].
  destruct n as [|b]; cbn [forEach_subscribers].
  { eapply run_bind.
    { apply get_signal_eq. st_simpl. by apply list_lookup_insert_eq. }
    reflexivity. }
  eapply run_bind.
  { apply get_signal_eq. st_simpl. by apply list_lookup_insert_eq. }
  cbn [subscribers lookup list_lookup].
  eapply run_bind; [reflexivity|].
  apply run_bind_out_of_fuel.
  cbn [invoke]. unfold dispatch.
  eapply run_bind; [by apply get_function_eq|].
  apply run_bind_out_of_fuel.
  destruct b as [|b']; [reflexivity|].
  cbn [exec]. unfold writes_back. cbn [step].
  eapply run_bind.
  { eapply (get_registered c fn w [fn]); st_simpl.
    - by apply list_lookup_insert_eq.
    - done.
    - simpl. by rewrite Nat.eqb_refl. }
  destruct b' as [|b'']; [reflexivity|].
  cbn [exec step].
  apply run_bind_out_of_fuel.
  eapply (IH b''); [lia | done | st_simpl; by apply list_lookup_insert_eq | done].
Qed.

(** X7.  [createEffect(() => set(f(get())))] on a cell without
    subscribers never returns: the first run registers the effect with the
    cell, its write re-runs it, the re-run writes again, and so on; however
    deep calls may nest, the run does not end normally or with an
    exception, but exhausts the depth. *)
Theorem effect_writes_back_never_returns JS c f v st :
  signals st !! c = Some (mkSignal v []) ->
  forall n, exec JS n (effect_writes_back c f) st = OutOfFuel.
Proof.
  intros Hs n.
  assert (Hlc : c < length (signals st)) by (by eapply lookup_lt_Some).
  destruct n as [|n1]; [reflexivity|].
  cbn [exec]. unfold effect_writes_back. cbn [step].
  eapply run_bind; [reflexivity|].
  destruct n1 as [|n2]; [reflexivity|].
  cbn [exec step].
  apply run_bind_out_of_fuel.
  unfold createEffect.
  eapply run_bind; [reflexivity|].
  eapply run_bind; [reflexivity|].
  apply run_bind_out_of_fuel.
  destruct n2 as [|n3]; [reflexivity|].
  cbn [invoke]. unfold dispatch.
  eapply run_bind.
  { apply get_function_eq. st_simpl. apply lookup_app_at. }
  apply run_bind_out_of_fuel.
  destruct n3 as [|n4]; [reflexivity|].
  cbn [exec]. unfold writes_back. cbn [step].
  eapply run_bind.
  { unfold get.
    eapply run_bind; [reflexivity|]. st_simpl.
    eapply run_bind; [reflexivity|].
    eapply run_bind; [by eapply subscribers_add_new|].
    eapply run_bind.
    { apply get_signal_eq. st_simpl. by apply list_lookup_insert_eq. }
    reflexivity. }
  destruct n4 as [|n5]; [reflexivity|].
  cbn [exec step].
  apply run_bind_out_of_fuel.
  eapply (set_writes_back_loops JS c f (length (functions st)) n5 _ v); st_simpl.
  - apply lookup_app_at.
  - by apply list_lookup_insert_eq.
  - done.
Qed.

Lemma effect_writes_back_never_returns_witness :
  exec demo_stringify 40 (effect_writes_back 0 (fun _ => VStr "y")) one_cell_x = OutOfFuel.
Proof.
  exact (effect_writes_back_never_returns demo_stringify 0 (fun _ => VStr "y") (VStr "x")
           one_cell_x eq_refl 40).
Defined.

(** ** The remove strategy, once mounted *)

Lemma mounted_cond_is_mounted : cond_mounted 0 0 0 div_span false [] [] mounted_cond.
Proof.
  destruct (cond_mount demo_stringify 0 div_span 0 0 (new_node (Element "div") "")
              one_cell_one_div) as (st0 & H0 & Hm); try reflexivity.
  - apply NoDup_nil_2.
  - intros x Hx. by apply elem_of_nil in Hx.
  - by eapply rooted_root.
  - unfold mounted_cond. rewrite H0. exact Hm.
Qed.

(** X8.  A mounted remove-strategy conditional whose condition is written
    with the value it has: the write returns, no node is made and the DOM
    is as it was; the conditional is mounted as before. *)
Theorem conditionalComponent_same_condition_keeps JS n self p c o b pre post st :
  cond_mounted self p c o b pre post st ->
  exists st',
    set (S (S (S n))) (exec JS (S (S (S n)))) (invoke JS (S (S (S n)))) c
      (inl (VBool b)) st = Ok tt st' /\
    nodes st' = nodes st /\
    cond_mounted self p c o b pre post st'.
Proof.
  intros (vars & m & mn & Hf & Hcp & Hs & Ha & Hslot & Hm & Hk).
  pose proof Hslot as (pn & mn' & Hp & He & Hch & Hnd & Hb & Hm' & Hmp & Hmne & Hroot & Hoff).
  rewrite Hm in Hm'. injection Hm' as <-.
  assert (Hlc : c < length (signals st)) by (by eapply lookup_lt_Some).
  assert (Hlf : self < length (functions st)) by (by eapply lookup_lt_Some).
  set (vars1 := set_cond_parent (Some p) vars).
  set (s1 := set_trace (EvRun c self :: EvWrite c (VBool b) :: trace st)
               (set_signals (<[c := mkSignal (VBool b) [self]]> (signals st)) st)).
  set (s2 := set_functions (<[self := RemoveEffect o (Get c Ret) vars1]> (functions s1)) s1).
  set (s3 := set_trace (EvRead c None :: trace s2) s2).
  assert (Hmark : (elm vars = Some m /\ placeholder vars = None) \/
                  (placeholder vars = Some m /\ elm vars = None)).
  { destruct b; [left | right]; tauto. }
  assert (Hres : cond_resolve_parent self s1 = Ok tt s2).
  { by eapply (cond_resolve_parent_eq self s1 o (Get c Ret) vars m mn p). }
  assert (Hf2 : functions s2 !! self = Some (RemoveEffect o (Get c Ret) vars1)).
  { unfold s2. st_simpl. by apply list_lookup_insert_eq. }
  assert (Hrun : exec JS (S (S n)) (Get c Ret) s2 = Ok (VBool b) s3).
  { eapply exec_Get_Ret_quiet; [|done].
    unfold s2, s1. st_simpl. by apply list_lookup_insert_eq. }
  assert (Hf3 : functions s3 !! self = Some (RemoveEffect o (Get c Ret) vars1)) by exact Hf2.
  exists s3. split; [|split].
  - eapply set_runs_pass; [exact Hs|]. intros s ->. fold s1. split.
    + cbn [invoke]. unfold dispatch.
      eapply run_bind; [by apply get_function_eq|].
      unfold removeEffect.
      eapply run_bind; [exact Hres|].
      eapply run_bind; [by eapply get_cond_eq|].
      cbn [vars1 set_cond_parent cond_parent is_Some_bool negb].
      eapply run_bind; [exact Hrun|].
      destruct b; cbn [truthy].
      * destruct Hk as (Hel & Hph & Hme).
        eapply run_bind; [by eapply get_cond_eq|].
        cbn [vars1 set_cond_parent cond_parent placeholder]. by rewrite Hph.
      * destruct Hk as (Hph & Hel & Hmk).
        eapply run_bind; [by eapply get_cond_eq|].
        cbn [vars1 set_cond_parent cond_parent elm]. by rewrite Hel.
    + unfold s3, s2, s1. st_simpl. by apply list_lookup_insert_eq.
  - reflexivity.
  - exists vars1, m, mn. split_and!.
    + exact Hf3.
    + by right.
    + unfold s3, s2, s1. st_simpl. by apply list_lookup_insert_eq.
    + done.
    + exact Hslot.
    + exact Hm.
    + exact Hk.
Qed.

Lemma conditionalComponent_same_condition_keeps_witness :
  exists st',
    set 3 (exec demo_stringify 3) (invoke demo_stringify 3) 0 (inl (VBool false))
      mounted_cond = Ok tt st' /\
    nodes st' = nodes mounted_cond /\
    cond_mounted 0 0 0 div_span false [] [] st'.
Proof.
  apply (conditionalComponent_same_condition_keeps demo_stringify 0 0 0 0 div_span false
           [] [] mounted_cond).
  apply mounted_cond_is_mounted.
Defined.

(** X9.  A mounted remove-strategy conditional, whatever its condition is
    and whatever children its parent has before and after it: after any
    number [k] of changes of the condition, the children of the parent are
    the ones before it, one node of the conditional, and the ones after it;
    the node is the component when the condition is true and the
    placeholder comment when it is false. *)
Theorem conditionalComponent_toggles_in_place JS n self p c o b pre post st k :
  builds JS (S (S n)) o ->
  cond_mounted self p c o b pre post st ->
  exists st',
    write_each JS (S (S (S n))) c (alternating (VBool (negb b)) (VBool b) k) st
      = Ok tt st' /\
    one_marker self p (if Nat.odd k then negb b else b) pre post st'.
Proof.
  intros Hb Hm.
  destruct (cond_toggles JS n self p c o pre post k b st Hb Hm) as (st' & H & Hm').
  exists st'. split; [exact H|]. by eapply cond_mounted_one_marker.
Qed.

Lemma conditionalComponent_toggles_in_place_witness :
  exists st',
    write_each demo_stringify 3 0 (alternating (VBool (negb false)) (VBool false) 3)
      mounted_cond = Ok tt st' /\
    one_marker 0 0 (if Nat.odd 3 then negb false else false) [] [] st'.
Proof.
  apply (conditionalComponent_toggles_in_place demo_stringify 0 0 0 0 div_span false
           [] [] mounted_cond 3).
  - apply builds_div_span.
  - apply mounted_cond_is_mounted.
Defined.

(** ** Tag paths *)

Lemma split_one_part s : one_part s = true -> split ">" s = [s].
Proof.
  unfold one_part. induction s as [|a r IH]; simpl; [done|].
  intros [Ha Hr]%andb_true_iff. apply negb_true_iff in Ha. rewrite Ha.
  by rewrite (IH Hr).
Qed.

Lemma span_stop p s a r :
  forallb_string p s = true -> p a = false ->
  span p (String.append s (String a r)) = (s, String a r).
Proof.
  intros Hs Ha. induction s as [|b s IH]; simpl.
  - by rewrite Ha.
  - simpl in Hs. apply andb_true_iff in Hs as [Hb Hs]. by rewrite Hb, (IH Hs).
Qed.

Lemma span_all p s : forallb_string p s = true -> span p s = (s, EmptyString).
Proof.
  induction s as [|b s IH]; simpl; [done|].
  intros [Hb Hs]%andb_true_iff. by rewrite Hb, (IH Hs).
Qed.

Lemma forallb_string_app p s t :
  forallb_string p (String.append s t) = forallb_string p s && forallb_string p t.
Proof. induction s as [|b s IH]; simpl; [done|]. by rewrite IH, andb_assoc. Qed.

Lemma forallb_string_impl (p q : ascii -> bool) s :
  (forall a, p a = true -> q a = true) ->
  forallb_string p s = true -> forallb_string q s = true.
Proof.
  intros Hpq. induction s as [|b s IH]; simpl; [done|].
  intros [Hb Hs]%andb_true_iff. by rewrite (Hpq b Hb), (IH Hs).
Qed.

Lemma class_char_not_gt a : is_class_char a = true -> negb (Ascii.eqb a ">") = true.
Proof.
  intros H. apply negb_true_iff. destruct (Ascii.eqb_spec a ">") as [->|]; [|done].
  vm_compute in H. discriminate.
Qed.

Lemma word_class_char a : is_word a = true -> is_class_char a = true.
Proof. intros H. unfold is_class_char, is_id_char. by rewrite H. Qed.

Lemma append_empty s : String.append s EmptyString = s.
Proof. induction s; simpl; congruence. Qed.

(** What the expression captures in a part with a class list: the tag is
    the word before the dot, there is no id, and the classes end where the
    class characters end. *)
Lemma regex_match_classes t cs rest :
  forallb_string is_word t = true ->
  is_empty cs = false -> forallb_string is_class_char cs = true ->
  match rest with
  | EmptyString => True
  | String a _ => is_class_char a = false
  end ->
  regex_match (String.append t (String "." (String.append cs rest))) =
  (if is_empty t then None else Some t, None, Some cs).
Proof.
  intros Ht Hc Hcs Hrest. unfold regex_match.
  rewrite (span_stop is_word t "." _ Ht) by done.
  cbn.
  assert (span is_class_char (String.append cs rest) = (cs, rest)) as ->.
  { destruct rest as [|a r].
    - rewrite append_empty. by apply span_all.
    - by apply span_stop. }
  by rewrite Hc.
Qed.

(** X10.  In a part of a tag path, once the class list has begun,
    everything from the first character that is no class character on is
    ignored: [parseEmmet] builds for ["tag.classes" ++ rest] what it builds
    for ["tag.classes"]; so an id written after the classes, as in
    ["div.a#root"], is dropped without an error. *)
Theorem parseEmmet_ignores_rest t cs a rest st :
  forallb_string is_word t = true ->
  is_empty cs = false -> forallb_string is_class_char cs = true ->
  is_class_char a = false ->
  one_part (String a rest) = true ->
  parseEmmet (String.append t (String "." (String.append cs (String a rest)))) st =
  parseEmmet (String.append t (String "." cs)) st.
Proof.
  intros Ht Hc Hcs Ha Hone.
  assert (Hcs1 : one_part cs = true).
  { eapply forallb_string_impl; [|exact Hcs]. apply class_char_not_gt. }
  assert (Ht1 : one_part t = true).
  { eapply forallb_string_impl; [|exact Ht].
    intros x Hx. by apply class_char_not_gt, word_class_char. }
  unfold parseEmmet.
  rewrite !split_one_part.
  2:{ unfold one_part in *. rewrite forallb_string_app, Ht1. simpl. exact Hcs1. }
  2:{ unfold one_part in *. rewrite forallb_string_app, Ht1. simpl.
      by rewrite forallb_string_app, Hcs1. }
  cbn [parseEmmet_loop].
  rewrite (regex_match_classes t cs (String a rest)) by done.
  replace (String "." cs) with (String "." (String.append cs EmptyString))
    by (by rewrite append_empty).
  by rewrite (regex_match_classes t cs EmptyString).
Qed.

Lemma parseEmmet_ignores_rest_witness :
  parseEmmet "div.a#root" empty_state = parseEmmet "div.a" empty_state.
Proof.
  exact (parseEmmet_ignores_rest "div" "a" "#" "root" empty_state
           eq_refl eq_refl eq_refl eq_refl eq_refl).
Defined.

(** *** A tag that is no element name *)

Lemma regex_match_tag a h :
  is_word a = true ->
  exists x i c, regex_match (String a h) = (Some (String a x), i, c).
Proof.
  intros Hw. unfold regex_match. cbn [span]. rewrite Hw.
  destruct (span is_word h) as [x y]. cbn [is_empty].
  lazymatch goal with
  | |- context [let '(id, r2) := ?e in _] => destruct e as [id r2]
  end.
  by eexists _, _, _.
Qed.

(** X11.  A tag path that starts with a digit: the expression takes the
    digits as the tag, [document.createElement] refuses the name, and
    [createComponent] ends with the exception [InvalidCharacterError]
    before it has built or changed anything. *)
Theorem createComponent_digit_tag_throws run call o a rest st :
  tagName o = String a rest -> is_digit a = true ->
  createComponent run call o st = Err (DOMException "InvalidCharacterError") st.
Proof.
  intros Htag Hd.
  assert (Hw : is_word a = true) by (unfold is_word; by rewrite Hd).
  assert (Hgt : Ascii.eqb a ">" = false).
  { destruct (Ascii.eqb_spec a ">") as [->|]; [|done]. vm_compute in Hd. discriminate. }
  unfold createComponent. apply run_bind_err.
  unfold parseEmmet. apply run_bind_err. rewrite Htag.
  cbn [split]. rewrite Hgt.
  assert (exists h tl, match split ">" rest with
                       | h :: t => String a h :: t
                       | [] => [String a EmptyString]
                       end = String a h :: tl) as (h & tl & ->).
  { destruct (split ">" rest) as [|h tl]; by eexists _, _. }
  cbn [parseEmmet_loop].
  destruct (regex_match_tag a h Hw) as (x & i & c & ->).
  apply run_bind_err. unfold document_createElement, default, Datatypes.id.
  by rewrite Hd.
Qed.

Lemma createComponent_digit_tag_throws_witness :
  createComponent (exec demo_stringify 3) (invoke demo_stringify 3)
    (mkOptions "3d>span" None None None None) one_cell_x
  = Err (DOMException "InvalidCharacterError") one_cell_x.
Proof.
  exact (createComponent_digit_tag_throws (exec demo_stringify 3) (invoke demo_stringify 3)
           (mkOptions "3d>span" None None None None) "3" "d>span" one_cell_x
           eq_refl eq_refl).
Defined.

(** ** A list that starts empty *)

(** [insertBefore] of a detached node before a child of [p]. *)
Lemma insertBefore_detached_eq p n t st pn nn tn :
  nodes st !! p = Some pn -> is_element pn = true ->
  nodes st !! n = Some nn -> parentNode nn = None ->
  nodes st !! t = Some tn -> parentNode tn = Some p ->
  t <> n -> n <> p ->
  inclusive_ancestor (length (nodes st)) (nodes st) n p = false ->
  insertBefore p n t st =
  Ok tt (set_nodes
           (<[n := with_parent (Some p) nn]>
              (<[p := with_children (insert_before n t (childNodes pn)) pn]> (nodes st)))
           st).
Proof.
  intros Hp He Hn Hnp Ht Htp Htn Hnp' Hanc.
  unfold insertBefore, ensure_pre_insert.
  eapply run_bind.
  { eapply run_bind; [by apply get_node_eq|].
    eapply run_bind; [by apply get_node_eq|].
    rewrite He. simpl. unfold contains.
    eapply run_bind; [reflexivity|]. by rewrite Hanc. }
  eapply run_bind; [by apply get_node_eq|].
  rewrite Htp. rewrite bool_decide_eq_true_2 by done. cbn [negb].
  eapply run_bind; [by apply get_node_eq|].
  assert ((t =? n) = false) as -> by (by apply Nat.eqb_neq).
  eapply run_bind.
  { unfold detach. eapply run_bind; [by apply get_node_eq|]. by rewrite Hnp. }
  unfold link.
  eapply run_bind; [by apply get_node_eq|].
  eapply run_bind; [reflexivity|].
  eapply run_bind.
  { apply get_node_eq. st_simpl. rewrite list_lookup_insert_ne by done. exact Hn. }
  reflexivity.
Qed.

(** The children of [p] with the node [x] put at index [i], as a pass puts
    it: before the child at [i], or last when there is none. *)
Lemma list_upsert_new_at JS n fuel call self items render vars item c i p pn st :
  renders JS n render ->
  functions st !! self = Some (ListEffect items render vars) ->
  list_parent vars = Some p ->
  map_get item (itemMap vars) = None ->
  heap st !! item = Some c ->
  activeEffect st = None ->
  nodes st !! p = Some pn -> is_element pn = true ->
  (forall t, childNodes pn !! i = Some t ->
     exists tn, nodes st !! t = Some tn /\ parentNode tn = Some p) ->
  rooted st p ->
  exists st' root new,
    list_upsert JS fuel (exec JS n) call self render item i st = Ok tt st' /\
    parentNode root = None /\
    nodes st' =
      <[length (nodes st) := with_parent (Some p) root]>
        (<[p := with_children
                  (match childNodes pn !! i with
                   | Some t => insert_before (length (nodes st)) t (childNodes pn)
                   | None => childNodes pn ++ [length (nodes st)]
                   end) pn]>
           (nodes st ++ root :: new)) /\
    records st' =
      records st ++ [mkRecord (length (nodes st)) (JS c) (length (signals st)) i] /\
    functions st' !! self =
      Some (ListEffect items render
              (set_itemMap (map_set item (length (records st)) (itemMap vars)) vars)) /\
    signals st `prefix_of` signals st' /\
    heap st' = heap st /\ activeEffect st' = None.
Proof.
  intros Hrend Hf Hlp Hg Hh Ha Hp Hel Hsib Hroot.
  assert (Hlf : self < length (functions st)) by (by eapply lookup_lt_Some).
  assert (Hlp' : p < length (nodes st)) by (by eapply lookup_lt_Some).
  set (x := length (nodes st)). set (cell := length (signals st)).
  set (obj := length (records st)).
  set (s1 := set_signals (signals st ++ [mkSignal (VObj item) []]) st).
  destruct (Hrend s1 (signals st) item i Ha eq_refl (ex_intro _ c Hh))
    as (sr & root & new & Hrun & Hnr & Hrp & Hfp & Hsp & Hrr & Hhr & Har).
  change (nodes s1) with (nodes st) in *. change (functions s1) with (functions st) in *.
  change (records s1) with (records st) in *. change (heap s1) with (heap st) in *.
  change (signals s1) with (signals st ++ [mkSignal (VObj item) []]) in *.
  fold x cell in Hrun.
  assert (Hfr : functions sr !! self = Some (ListEffect items render vars))
    by (by apply (prefix_lookup_Some _ _ _ _ Hf)).
  assert (Hlfr : self < length (functions sr)) by (by eapply lookup_lt_Some).
  set (vars' := set_itemMap (map_set item obj (itemMap vars)) vars).
  set (rec := mkRecord x (JS c) cell i).
  set (ch' := match childNodes pn !! i with
              | Some t => insert_before x t (childNodes pn)
              | None => childNodes pn ++ [x]
              end).
  set (st' := set_nodes
                (<[x := with_parent (Some p) root]>
                   (<[p := with_children ch' pn]> (nodes sr)))
                (set_functions (<[self := ListEffect items render vars']> (functions sr))
                   (set_records (records st ++ [rec]) sr))).
  assert (Hanc : inclusive_ancestor (length (nodes st ++ root :: new))
                   (nodes st ++ root :: new) x p = false).
  { rewrite inclusive_ancestor_chain, chain_grown by done.
    apply mem_nat_not_In. intros Hin. apply Hroot in Hin. unfold x in Hin. lia. }
  exists st', root, new. split_and!; try done.
  2:{ unfold st'. st_simpl. by rewrite Hnr. }
  2:{ unfold st'. st_simpl. by apply list_lookup_insert_eq. }
  unfold list_upsert.
  eapply run_bind; [by eapply get_list_eq|]. cbv zeta. rewrite Hg.
  eapply run_bind; [by apply stringify_item_eq|].
  eapply run_bind; [reflexivity|].
  eapply run_bind.
  { eapply run_bind; [reflexivity|].
    eapply run_bind; [exact Hrun|].
    eapply run_bind; [reflexivity|].
    eapply run_bind; [reflexivity|].
    eapply run_bind; [by eapply put_list_eq|]. reflexivity. }
  cbn [when].
  eapply run_bind.
  { eapply get_list_eq. st_simpl. by apply list_lookup_insert_eq. }
  eapply run_bind.
  { apply get_record_eq. st_simpl. apply lookup_app_at. }
  cbn [list_parent set_itemMap]. rewrite Hlp.
  eapply run_bind.
  { eapply child_at_eq. st_simpl. rewrite Hnr. rewrite lookup_app_l by done. exact Hp. }
  cbn [element]. unfold st', ch'.
  destruct (childNodes pn !! i) as [t|] eqn:Hch.
  - destruct (Hsib t eq_refl) as (tn & Ht & Htp).
    assert (Hlt : t < length (nodes st)) by (by eapply lookup_lt_Some).
    rewrite bool_decide_eq_false_2 by (intros [= ->]; unfold x in Hlt; lia).
    cbn [negb when]. rewrite Hrr. fold obj x.
    eapply run_bind.
    { eapply (insertBefore_detached_eq p x t _ pn root tn); st_simpl; try done.
      - rewrite Hnr. by rewrite lookup_app_l.
      - rewrite Hnr. apply lookup_app_at.
      - rewrite Hnr. by rewrite lookup_app_l.
      - unfold x. lia.
      - unfold x. lia.
      - by rewrite Hnr. }
    eapply run_bind.
    { apply get_record_eq. st_simpl. apply lookup_app_at. }
    eapply run_bind; [reflexivity|].
    erewrite put_list_eq by (st_simpl; by apply list_lookup_insert_eq).
    st_simpl. cbn [itemMap set_itemMap element id setter].
    rewrite map_set_same by apply map_get_set_eq.
    rewrite list_insert_insert_eq.
    rewrite (list_insert_id _ obj) by apply lookup_app_at.
    reflexivity.
  - rewrite bool_decide_eq_false_2 by done. cbn [negb when].
    rewrite Hrr. fold obj x.
    eapply run_bind.
    { eapply (appendChild_detached_eq p x _ pn root); st_simpl; try done.
      - rewrite Hnr. by rewrite lookup_app_l.
      - rewrite Hnr. apply lookup_app_at.
      - unfold x. lia.
      - by rewrite Hnr. }
    eapply run_bind.
    { apply get_record_eq. st_simpl. apply lookup_app_at. }
    eapply run_bind; [reflexivity|].
    erewrite put_list_eq by (st_simpl; by apply list_lookup_insert_eq).
    st_simpl. cbn [itemMap set_itemMap element id setter].
    rewrite map_set_same by apply map_get_set_eq.
    rewrite list_insert_insert_eq.
    rewrite (list_insert_id _ obj) by apply lookup_app_at.
    reflexivity.
Qed.

(** A node that is its own parent has no rooted chain. *)
Lemma chain_own_parent fuel ns p pn :
  ns !! p = Some pn -> parentNode pn = Some p -> length (chain fuel ns p) = S fuel.
Proof.
  intros Hp Hpp. induction fuel as [|fuel IH]; simpl; [done|].
  rewrite Hp, Hpp. simpl. by rewrite IH.
Qed.

Lemma rooted_not_own_parent st p pn :
  rooted st p -> nodes st !! p = Some pn -> parentNode pn <> Some p.
Proof.
  intros [Hr _] Hp Hpp.
  rewrite (chain_own_parent _ _ p pn Hp Hpp) in Hr. lia.
Qed.

(** The first run of a list on the empty array, and the reference comment
    appended to [p]. *)
Lemma list_wait_mount JS n render cell p pn st :
  activeEffect st = None ->
  signals st !! cell = Some (mkSignal (VArr []) []) ->
  nodes st !! p = Some pn -> is_element pn = true ->
  NoDup (childNodes pn) ->
  (forall x, x ∈ childNodes pn ->
     exists xn, nodes st !! x = Some xn /\ parentNode xn = Some p) ->
  rooted st p ->
  exists st0,
    (l ← listComponent (invoke JS (S (S (S n)))) (Get cell Ret) render;
     forEach l (appendChild p)) st = Ok tt st0 /\
    list_waiting (length (functions st)) cell p (length (nodes st)) render
      (childNodes pn) [] st0 /\
    heap st0 = heap st /\ length (nodes st0) = S (length (nodes st)) /\
    nodes st0 !! length (nodes st) =
      Some (with_parent (Some p) (new_node Comment "render list items")).
Proof.
  intros Ha Hs Hp He Hnd Hsib [Hr1 Hr2].
  set (self := length (functions st)). set (x := length (nodes st)).
  assert (Hlp : p < x) by (by eapply lookup_lt_Some).
  assert (Hlc : cell < length (signals st)) by (by eapply lookup_lt_Some).
  assert (Hb : forall y, y ∈ childNodes pn -> y < x).
  { intros y Hy. destruct (Hsib y Hy) as (yn & Hyn & _). by eapply lookup_lt_Some. }
  set (vars := mkList [] None (Some x)).
  set (cm := new_node Comment "render list items").
  set (s6 := mkState None (<[cell := mkSignal (VArr []) [self]]> (signals st))
               (functions st ++ [ListEffect (Get cell Ret) render vars])
               (nodes st ++ [cm]) (heap st) (records st)
               (EvRead cell (Some self) :: EvPass self :: EvEffect self :: trace st)).
  assert (Hx6 : nodes s6 !! x = Some cm) by apply lookup_app_at.
  assert (Hp6 : nodes s6 !! p = Some pn) by (unfold s6; st_simpl; by rewrite lookup_app_l).
  assert (Hlist : listComponent (invoke JS (S (S (S n)))) (Get cell Ret) render st
                  = Ok [x] s6).
  { unfold listComponent.
    eapply run_bind; [reflexivity|]. fold self.
    eapply run_bind.
    { unfold createEffect.
      eapply run_bind; [reflexivity|].
      eapply run_bind; [reflexivity|].
      eapply run_bind.
      { cbn [invoke]. unfold dispatch.
        eapply run_bind; [apply get_function_eq; st_simpl; apply lookup_app_at|].
        eapply run_bind; [reflexivity|].
        unfold listEffect.
        eapply run_bind; [by eapply exec_Get_Ret_first|].
        eapply run_bind; [reflexivity|].
        eapply run_bind.
        { unfold list_resolve_parent.
          eapply run_bind; [eapply get_list_eq; st_simpl; apply lookup_app_at|].
          reflexivity. }
        eapply run_bind; [eapply get_list_eq; st_simpl; apply lookup_app_at|].
        reflexivity. }
      reflexivity. }
    st_simpl.
    eapply run_bind; [eapply get_list_eq; st_simpl; apply lookup_app_at|].
    cbn [itemMap].
    eapply run_bind; [reflexivity|].
    eapply run_bind; [reflexivity|].
    eapply run_bind; [eapply put_list_eq; st_simpl; apply lookup_app_at|].
    unfold s6, mret, M_ret, set_functions, set_nodes. st_simpl.
    rewrite (insert_app_at (functions st)). reflexivity. }
  assert (Hchain6 : chain (length (nodes s6)) (nodes s6) p = chain x (nodes st) p).
  { unfold s6. st_simpl.
    rewrite (chain_fuel_le x).
    - by apply chain_app.
    - rewrite chain_app by done. done.
    - rewrite length_app. simpl. unfold x. lia. }
  assert (Hxoff : x ∉ chain x (nodes st) p).
  { intros Hin. apply Hr2 in Hin. unfold x in Hin. lia. }
  eexists. split.
  { eapply run_bind; [exact Hlist|]. cbn [forEach].
    eapply run_bind; [|reflexivity].
    eapply (appendChild_detached_eq p x s6 pn cm); try done; [lia|].
    rewrite inclusive_ancestor_chain, Hchain6. by apply mem_nat_not_In. }
  set (ns := <[x := _]> _).
  assert (Hlen : length ns = S x).
  { unfold ns, s6. st_simpl. rewrite !length_insert, length_app. simpl. unfold x. lia. }
  assert (Hchain : chain (length ns) ns p = chain x (nodes st) p).
  { replace (length ns) with (length (nodes s6)).
    2:{ unfold ns. by rewrite !length_insert. }
    unfold ns.
    rewrite chain_insert_off.
    2:{ rewrite (chain_insert_same_parent _ _ p pn); [by rewrite Hchain6|done|done]. }
    rewrite (chain_insert_same_parent _ _ p pn); [by rewrite Hchain6|done|done]. }
  assert (Hxpre : x ∉ childNodes pn).
  { intros Hin. apply Hb in Hin. unfold x in Hin. lia. }
  split; [|split; [reflexivity | split; [exact Hlen|]]].
  2:{ st_simpl. fold ns. unfold ns. apply list_lookup_insert_eq. rewrite length_insert.
      by eapply lookup_lt_Some. }
  split_and!; st_simpl; fold ns.
  - unfold s6. st_simpl. apply lookup_app_at.
  - unfold s6. st_simpl. by apply list_lookup_insert_eq.
  - done.
  - exists (with_children (childNodes pn ++ [x]) pn), (with_parent (Some p) cm).
    st_simpl. fold ns. split_and!.
    + unfold ns. rewrite list_lookup_insert_ne by lia.
      apply list_lookup_insert_eq. by eapply lookup_lt_Some.
    + done.
    + done.
    + apply NoDup_app. split_and!; [done | | apply NoDup_singleton].
      intros y Hy Hy'. apply list_elem_of_singleton in Hy' as ->. done.
    + intros y Hy. rewrite app_nil_r in Hy. apply Hb in Hy. rewrite Hlen. unfold x. lia.
    + unfold ns. apply list_lookup_insert_eq. rewrite length_insert.
      by eapply lookup_lt_Some.
    + done.
    + lia.
    + unfold rooted. st_simpl. fold ns. rewrite Hchain, Hlen. split.
      * unfold x in *. lia.
      * intros y Hy. apply Hr2 in Hy. unfold x in *. lia.
    + by rewrite Hchain.
  - intros y Hy. rewrite app_nil_r in Hy.
    destruct (Hsib y Hy) as (yn & Hyn & Hyp).
    assert (Hyx : y <> x) by (apply Hb in Hy; lia).
    assert (Hyp' : y <> p).
    { intros ->. rewrite Hp in Hyn. injection Hyn as <-.
      by eapply (rooted_not_own_parent st p pn). }
    exists yn. split; [|done]. unfold ns.
    rewrite !list_lookup_insert_ne by done.
    unfold s6. st_simpl. by rewrite lookup_app_l by (by eapply lookup_lt_Some).
Qed.

(** The first pass of a waiting list over one item. *)
Lemma list_first_item JS n self cell p ref render pre post a ca st :
  renders JS (S (S n)) render ->
  list_waiting self cell p ref render pre post st ->
  heap st !! a = Some ca ->
  exists st' pn',
    set (S (S (S n))) (exec JS (S (S (S n)))) (invoke JS (S (S (S n)))) cell
      (inl (VArr [VObj a])) st = Ok tt st' /\
    nodes st' !! p = Some pn' /\
    childNodes pn' = length (nodes st) :: pre ++ post /\
    (exists rn, nodes st' !! ref = Some rn /\ parentNode rn = None) /\
    (exists xn, nodes st' !! length (nodes st) = Some xn /\ parentNode xn = Some p) /\
    list_vars_of self st' (mkList [(a, length (records st))] (Some p) None).
Proof.
  intros Hrend (Hf & Hs & Ha & Hslot & Hsib) Hh.
  destruct Hslot as (pn & rn & Hp & He & Hch & Hnd & Hb & Hr & Hrp & Hrne & Hroot & Hoff).
  destruct (NoDup_middle_not_in ref pre post Hnd) as [Hrpre Hrpost].
  assert (Hlc : cell < length (signals st)) by (by eapply lookup_lt_Some).
  assert (Hlf : self < length (functions st)) by (by eapply lookup_lt_Some).
  assert (Hlp : p < length (nodes st)) by (by eapply lookup_lt_Some).
  assert (Hlr : ref < length (nodes st)) by (by eapply lookup_lt_Some).
  set (newv := VArr [VObj a]).
  set (vars2 := mkList [] (Some p) None).
  set (pn2 := with_children (pre ++ post) pn).
  (* the state after the parent was found and the reference comment removed *)
  set (s2 := mkState (activeEffect st) (<[cell := mkSignal newv [self]]> (signals st))
               (<[self := ListEffect (Get cell Ret) render vars2]> (functions st))
               (<[ref := with_parent None rn]> (<[p := pn2]> (nodes st))) (heap st)
               (records st)
               (EvRead cell None :: EvPass self :: EvRun cell self ::
                EvWrite cell newv :: trace st)).
  assert (Hchain2 : chain (length (nodes s2)) (nodes s2) p
                    = chain (length (nodes st)) (nodes st) p).
  { unfold s2. st_simpl. rewrite !length_insert.
    rewrite chain_insert_off.
    - by apply (chain_insert_same_parent _ _ p pn).
    - by rewrite (chain_insert_same_parent _ _ p pn). }
  assert (Hroot2 : rooted s2 p).
  { unfold rooted in *. rewrite Hchain2. unfold s2. st_simpl. by rewrite !length_insert. }
  assert (Hp2 : nodes s2 !! p = Some pn2).
  { unfold s2. st_simpl. rewrite list_lookup_insert_ne by done.
    by apply list_lookup_insert_eq. }
  assert (Hl2 : length (nodes s2) = length (nodes st))
    by (unfold s2; st_simpl; by rewrite !length_insert).
  assert (Hsib2 : forall t, childNodes pn2 !! 0 = Some t ->
            exists tn, nodes s2 !! t = Some tn /\ parentNode tn = Some p).
  { intros t Ht. cbn [pn2 childNodes with_children] in Ht.
    apply list_elem_of_lookup_2 in Ht.
    destruct (Hsib t Ht) as (tn & Htn & Htp).
    assert (t <> ref).
    { intros ->. apply elem_of_app in Ht as [Ht|Ht]; done. }
    assert (t <> p).
    { intros ->. rewrite Hp in Htn. injection Htn as <-.
      by eapply (rooted_not_own_parent st p pn). }
    exists tn. split; [|done]. unfold s2. st_simpl.
    by rewrite !list_lookup_insert_ne. }
  destruct (list_upsert_new_at JS (S (S n)) (S (S n)) (invoke JS (S (S n))) self
              (Get cell Ret) render vars2 a ca 0 p pn2 s2)
    as (st' & root & new & Hup & Hrp' & Hn' & Hr' & Hf' & Hs' & Hh' & Ha'); try done.
  { unfold s2. st_simpl. by apply list_lookup_insert_eq. }
  rewrite Hl2 in Hn'.
  set (x := length (nodes st)) in *.
  assert (Hch' : match childNodes pn2 !! 0 with
                 | Some t => insert_before x t (childNodes pn2)
                 | None => childNodes pn2 ++ [x]
                 end = x :: pre ++ post).
  { cbn [pn2 childNodes with_children].
    destruct (pre ++ post) as [|t r]; simpl; [done|]. by rewrite Nat.eqb_refl. }
  rewrite Hch' in Hn'.
  assert (Hs2 : signals s2 !! cell = Some (mkSignal newv [self])).
  { unfold s2. st_simpl. by apply list_lookup_insert_eq. }
  exists st', (with_children (x :: pre ++ post) pn2). split_and!.
  - eapply set_runs_pass; [exact Hs|]. intros s ->. split.
    2:{ eapply prefix_lookup_Some; [exact Hs2|exact Hs']. }
    cbn [invoke]. unfold dispatch.
    eapply run_bind; [by apply get_function_eq|].
    eapply run_bind; [reflexivity|].
    unfold listEffect.
    eapply run_bind.
    { eapply exec_Get_Ret_quiet; [st_simpl; by apply list_lookup_insert_eq | done]. }
    eapply run_bind; [reflexivity|].
    eapply run_bind.
    { unfold list_resolve_parent.
      eapply run_bind; [by eapply get_list_eq|].
      cbn [list_parent is_Some_bool negb when referenceElm].
      eapply run_bind; [by eapply node_parent_eq|].
      rewrite Hrp.
      eapply run_bind; [by eapply put_list_eq|].
      eapply run_bind.
      { eapply (removeChild_eq p ref _ pn rn); st_simpl; done. }
      eapply put_list_eq. st_simpl. by apply list_lookup_insert_eq. }
    st_simpl. rewrite list_insert_insert_eq.
    cbn [set_list_parent set_referenceElm itemMap list_parent referenceElm].
    rewrite Hch, (remove_nat_middle ref pre post Hrpre Hrpost).
    eapply run_bind.
    { eapply get_list_eq. st_simpl. by apply list_lookup_insert_eq. }
    cbn [itemMap forEach].
    eapply run_bind; [reflexivity|].
    cbn [forEach_indexed].
    eapply run_bind; [exact Hup|]. reflexivity.
  - rewrite Hn'. rewrite list_lookup_insert_ne by (unfold x; lia).
    apply list_lookup_insert_eq. rewrite length_app, Hl2. lia.
  - done.
  - exists (with_parent None rn). split; [|done]. rewrite Hn'.
    rewrite list_lookup_insert_ne by (unfold x; lia).
    rewrite list_lookup_insert_ne by done.
    rewrite lookup_app_l by (rewrite Hl2; lia).
    unfold s2. st_simpl. apply list_lookup_insert_eq. by rewrite length_insert.
  - exists (with_parent (Some p) root). split; [|done]. rewrite Hn'.
    apply list_lookup_insert_eq. rewrite length_insert, length_app, Hl2. simpl. unfold x. lia.
  - eexists _, _. exact Hf'.
Qed.

(** X12.  A list whose array is empty at first: [listComponent] returns
    one node, a reference comment, which is appended after the children the
    parent has.  On the first write of an array with one item, with a
    renderer that builds a detached node from the cell of the item, which
    it may read and subscribe effects to, the comment is taken out of the
    parent, and the node rendered for the item is put at index 0 of the
    parent, counted over all children of the parent: it comes first, before
    the children that stood before the comment. *)
Theorem listComponent_first_item_goes_first JS n render cell p pn a ca st :
  renders JS (S (S n)) render ->
  activeEffect st = None ->
  signals st !! cell = Some (mkSignal (VArr []) []) ->
  nodes st !! p = Some pn -> is_element pn = true ->
  NoDup (childNodes pn) ->
  (forall x, x ∈ childNodes pn ->
     exists xn, nodes st !! x = Some xn /\ parentNode xn = Some p) ->
  rooted st p ->
  heap st !! a = Some ca ->
  exists st0 pn0,
    (l ← listComponent (invoke JS (S (S (S n)))) (Get cell Ret) render;
     forEach l (appendChild p)) st = Ok tt st0 /\
    nodes st0 !! p = Some pn0 /\
    childNodes pn0 = childNodes pn ++ [length (nodes st)] /\
    nodes st0 !! length (nodes st) =
      Some (with_parent (Some p) (new_node Comment "render list items")) /\
    exists st' pn',
      set (S (S (S n))) (exec JS (S (S (S n)))) (invoke JS (S (S (S n)))) cell
        (inl (VArr [VObj a])) st0 = Ok tt st' /\
      nodes st' !! p = Some pn' /\
      childNodes pn' = S (length (nodes st)) :: childNodes pn /\
      (exists rn, nodes st' !! length (nodes st) = Some rn /\ parentNode rn = None) /\
      (exists xn, nodes st' !! S (length (nodes st)) = Some xn /\
                  parentNode xn = Some p).
Proof.
  intros Hrend Ha Hs Hp He Hnd Hsib Hroot Hh.
  destruct (list_wait_mount JS n render cell p pn st Ha Hs Hp He Hnd Hsib Hroot)
    as (st0 & H0 & Hw & Hh0 & Hl0 & Hc0).
  pose proof Hw as (_ & _ & _ & (pn0 & rn0 & Hp0 & _ & Hch0 & _) & _).
  rewrite <- Hh0 in Hh.
  destruct (list_first_item JS n _ cell p _ render _ [] a ca st0 Hrend Hw Hh)
    as (st' & pn' & H' & Hp' & Hch' & Href & Hx & _).
  rewrite app_nil_r in Hch'. rewrite Hl0 in Hch', Hx.
  exists st0, pn0. split_and!; [exact H0 | exact Hp0 | exact Hch0 | exact Hc0 |].
  by exists st', pn'.
Qed.

Lemma listComponent_first_item_goes_first_witness :
  exists st0 pn0,
    (l ← listComponent (invoke demo_stringify 6) (Get 0 Ret) text_render;
     forEach l (appendChild 0)) empty_list_page = Ok tt st0 /\
    nodes st0 !! 0 = Some pn0 /\
    childNodes pn0 = [1; 2] /\
    nodes st0 !! 2 = Some (with_parent (Some 0) (new_node Comment "render list items")) /\
    exists st' pn',
      set 6 (exec demo_stringify 6) (invoke demo_stringify 6) 0
        (inl (VArr [VObj 0])) st0 = Ok tt st' /\
      nodes st' !! 0 = Some pn' /\
      childNodes pn' = [3; 1] /\
      (exists rn, nodes st' !! 2 = Some rn /\ parentNode rn = None) /\
      (exists xn, nodes st' !! 3 = Some xn /\ parentNode xn = Some 0).
Proof.
  apply (listComponent_first_item_goes_first demo_stringify 3 text_render 0 0
           (mkNode (Element "div") None [1] "" [] [] [] "" "") 0
           [("label"%string, VStr "A")] empty_list_page).
  - apply renders_text_render.
  - reflexivity.
  - reflexivity.
  - reflexivity.
  - reflexivity.
  - apply NoDup_singleton.
  - intros x Hx. apply list_elem_of_singleton in Hx as ->.
    eexists. split; reflexivity.
  - by eapply rooted_root.
  - reflexivity.
Defined.

(** ** A list that becomes empty *)

(** The chain of [n] is the same in two heaps that give the nodes on it
    the same parents. *)
Lemma chain_ext fuel ns ns' : forall n,
  (forall y, y ∈ chain fuel ns n -> parentNode <$> ns' !! y = parentNode <$> ns !! y) ->
  chain fuel ns' n = chain fuel ns n.
Proof.
  induction fuel as [|fuel IH]; intros n H; simpl; [done|].
  assert (Hn : parentNode <$> ns' !! n = parentNode <$> ns !! n).
  { apply H. simpl. apply elem_of_cons. by left. }
  destruct (ns !! n) as [nd|] eqn:E; destruct (ns' !! n) as [nd'|] eqn:E';
    simpl in Hn; try done.
  injection Hn as Hn. rewrite Hn.
  destruct (parentNode nd) as [q|] eqn:Eq; [|done].
  f_equal. apply IH. intros y Hy. apply H. simpl. rewrite E, Eq.
  apply elem_of_cons. by right.
Qed.

Lemma with_children_nil pn : childNodes pn = [] -> with_children [] pn = pn.
Proof. destruct pn; simpl. by intros ->. Qed.

(** "Remove items not in the new list", when the new list is empty: every
    entry goes, and its node is taken out of the parent. *)
Lemma remove_all_entries self items render p :
  forall (rest : list (obj_ref * rec_ref * node_id)) st pn,
  functions st !! self =
    Some (ListEffect items render
            (mkList (map (fun x => (x.1.1, x.1.2)) rest) (Some p) None)) ->
  nodes st !! p = Some pn -> childNodes pn = map (fun x => x.2) rest ->
  NoDup (map (fun x => x.2) rest) -> (p ∉ map (fun x => x.2) rest) ->
  (forall item obj e, (item, obj, e) ∈ rest ->
     exists r en, records st !! obj = Some r /\ element r = e /\
       nodes st !! e = Some en /\ parentNode en = Some p) ->
  exists st',
    forEach (map (fun x => (x.1.1, x.1.2)) rest) (list_remove_entry self []) st
      = Ok tt st' /\
    functions st' =
      <[self := ListEffect items render (mkList [] (Some p) None)]> (functions st) /\
    nodes st' !! p = Some (with_children [] pn) /\
    (forall item obj e, (item, obj, e) ∈ rest ->
       exists en, nodes st' !! e = Some en /\ parentNode en = None) /\
    (forall y, y <> p -> (y ∉ map (fun x => x.2) rest) -> nodes st' !! y = nodes st !! y) /\
    length (nodes st') = length (nodes st) /\
    signals st' = signals st /\ records st' = records st /\ heap st' = heap st /\
    activeEffect st' = activeEffect st /\ trace st' = trace st.
Proof.
  induction rest as [|[[item obj] e] rest IH]; intros st pn Hf Hp Hch Hnd Hpn Hent.
  - exists st. simpl in *. split_and!; try done.
    + by rewrite list_insert_id.
    + by rewrite with_children_nil.
    + intros ? ? ? Hin. by apply elem_of_nil in Hin.
  - cbn [map fst snd] in *.
    apply NoDup_cons in Hnd as [Hne Hnd].
    apply not_elem_of_cons in Hpn as [Hpe Hpn].
    destruct (Hent item obj e) as (r & en & Hr & <- & Hen & Hep);
      [apply elem_of_cons; by left|].
    assert (Hlf : self < length (functions st)) by (by eapply lookup_lt_Some).
    assert (Hlp : p < length (nodes st)) by (by eapply lookup_lt_Some).
    assert (Hle : element r < length (nodes st)) by (by eapply lookup_lt_Some).
    set (pn1 := with_children (map (fun x => x.2) rest) pn).
    set (s1 := set_functions
                 (<[self := ListEffect items render
                              (mkList (map (fun x => (x.1.1, x.1.2)) rest) (Some p) None)]>
                    (functions st))
                 (set_nodes (<[element r := with_parent None en]> (<[p := pn1]> (nodes st)))
                    st)).
    assert (Hstep : list_remove_entry self [] (item, obj) st = Ok tt s1).
    { erewrite (list_remove_entry_drop self [] item obj r st items render _ p pn en);
        try done.
      unfold s1, pn1. cbn [set_itemMap itemMap list_parent referenceElm map_delete].
      rewrite Nat.eqb_refl, Hch. cbn [remove_nat]. rewrite Nat.eqb_refl.
      by rewrite remove_nat_not_in. }
    destruct (IH s1 pn1) as (st' & Hloop & Hf' & Hp' & Hdet & Hframe & Hlen & Hsig & Hrec &
                             Hheap & Hact & Htr).
    + unfold s1. st_simpl. by apply list_lookup_insert_eq.
    + unfold s1. st_simpl. rewrite list_lookup_insert_ne by done.
      by apply list_lookup_insert_eq.
    + done.
    + done.
    + done.
    + intros item' obj' e' Hin.
      destruct (Hent item' obj' e') as (r' & en' & Hr' & He' & Hen' & Hep');
        [apply elem_of_cons; by right|].
      exists r', en'. split_and!; try done.
      unfold s1. st_simpl.
      assert (e' ∈ map (fun x => x.2) rest).
      { apply list_elem_of_fmap. by exists (item', obj', e'). }
      rewrite !list_lookup_insert_ne; [done | by intros -> | by intros <-].
    + exists st'. split_and!.
      * cbn [forEach]. eapply run_bind; [exact Hstep|]. exact Hloop.
      * rewrite Hf'. unfold s1. st_simpl. by rewrite list_insert_insert_eq.
      * rewrite Hp'. by destruct pn.
      * intros item' obj' e' [[= -> -> ->]|Hin]%elem_of_cons.
        -- exists (with_parent None en). split; [|done].
           rewrite Hframe by done. unfold s1. st_simpl.
           apply list_lookup_insert_eq. by rewrite length_insert.
        -- by eapply Hdet.
      * intros y Hyp Hy. apply not_elem_of_cons in Hy as [Hye Hy].
        rewrite Hframe by done. unfold s1. st_simpl.
        by rewrite !list_lookup_insert_ne.
      * rewrite Hlen. unfold s1. st_simpl. by rewrite !length_insert.
      * by rewrite Hsig.
      * by rewrite Hrec.
      * by rewrite Hheap.
      * by rewrite Hact.
      * by rewrite Htr.
Qed.

(** X13.  A mounted list, with the nodes of its items as the children of
    the parent in the order of [itemMap], whose cell gets the empty array:
    the write returns; no node is made; the node of every item is taken out
    of the parent, which has no child left; [itemMap] is empty, and the
    list remembers the parent. *)
Theorem listComponent_empty_array_removes_all JS n self cell p render entries st :
  entries <> [] ->
  list_mounted JS self cell p render entries (map (fun x => x.2) entries) st ->
  exists st',
    set (S (S (S n))) (exec JS (S (S (S n)))) (invoke JS (S (S (S n)))) cell
      (inl (VArr [])) st = Ok tt st' /\
    length (nodes st') = length (nodes st) /\
    (forall item obj e, (item, obj, e) ∈ entries ->
       exists en, nodes st' !! e = Some en /\ parentNode en = None) /\
    list_mounted JS self cell p render [] [] st' /\
    list_vars_of self st' (mkList [] (Some p) None).
Proof.
  intros Hne (vars & pn & v & Hf & Him & Hlp & Href & Hs & Hact & Hp & Hel & Hch & Hroot &
              Hent & Hndi & Hndr & Hndo & Hlen).
  destruct entries as [|[[a ra] na] rest]; [done|]. clear Hne.
  set (entries := (a, ra, na) :: rest) in *.
  destruct (Hent a ra na) as (pos & Hpos & (ca & sa & nan & Hha & Hra & Hna & Hnap) & Hnea & Hoffa).
  { apply elem_of_cons. by left. }
  assert (Hlc : cell < length (signals st)) by (by eapply lookup_lt_Some).
  assert (Hlf : self < length (functions st)) by (by eapply lookup_lt_Some).
  assert (Hv0 : set_list_parent (Some p) vars
                = mkList (map (fun x => (x.1.1, x.1.2)) entries) (Some p) None).
  { destruct vars. simpl in *. by subst. }
  set (newv := VArr []).
  set (sw := set_trace (EvRun cell self :: EvWrite cell newv :: trace st)
               (set_signals (<[cell := mkSignal newv [self]]> (signals st)) st)).
  set (s0 := set_functions
               (<[self := ListEffect (Get cell Ret) render (set_list_parent (Some p) vars)]>
                  (functions sw))
               (set_trace (EvRead cell None :: EvPass self :: trace sw) sw)).
  assert (Hpn : p ∉ map (fun x => x.2) entries).
  { intros Hin. apply list_elem_of_fmap in Hin as ([[i o] e] & He & Hin). simpl in He. subst e.
    destruct (Hent _ _ _ Hin) as (? & _ & _ & Hpp & _). done. }
  assert (Hf0 : functions s0 !! self =
                Some (ListEffect (Get cell Ret) render
                        (mkList (map (fun x => (x.1.1, x.1.2)) entries) (Some p) None))).
  { unfold s0, sw. st_simpl. rewrite Hv0. by apply list_lookup_insert_eq. }
  assert (Hent0 : forall item obj e, (item, obj, e) ∈ entries ->
            exists r en, records s0 !! obj = Some r /\ element r = e /\
              nodes s0 !! e = Some en /\ parentNode en = Some p).
  { intros item obj e Hin.
    destruct (Hent _ _ _ Hin) as (pos' & _ & (c' & s' & en' & _ & Hr' & Hn' & Hnp') & _).
    by exists (mkRecord e (JS c') s' pos'), en'. }
  destruct (remove_all_entries self (Get cell Ret) render p entries s0 pn
              Hf0 Hp Hch Hndo Hpn Hent0)
    as (st' & Hloop & Hf' & Hp' & Hdet & Hframe & Hlen' & Hsig & Hrec & Hheap & Hact' & Htr).
  assert (Hs' : signals st' !! cell = Some (mkSignal newv [self])).
  { rewrite Hsig. unfold s0, sw. st_simpl. by apply list_lookup_insert_eq. }
  assert (Hchain : chain (length (nodes st')) (nodes st') p
                   = chain (length (nodes st)) (nodes st) p).
  { rewrite Hlen'. change (nodes s0) with (nodes st). apply chain_ext.
    intros y Hy. destruct (decide (y = p)) as [->|Hyp].
    - rewrite Hp', Hp. by destruct pn.
    - rewrite Hframe; [done | done |].
      intros Hin. apply list_elem_of_fmap in Hin as ([[i o] e] & He & Hin). simpl in He.
      subst e. destruct (Hent _ _ _ Hin) as (? & _ & _ & _ & Hoff). done. }
  exists st'. split_and!.
  - eapply set_runs_pass; [exact Hs|]. intros s ->. split; [|exact Hs'].
    eapply (pass_start JS n self cell render vars p a ra
              (map (fun x => (x.1.1, x.1.2)) rest) (mkRecord na (JS ca) sa pos) nan []).
    + exact Hf.
    + st_simpl. by apply list_lookup_insert_eq.
    + exact Hact.
    + exact Hlp.
    + exact Href.
    + by rewrite Him.
    + exact Hra.
    + exact Hna.
    + exact Hnap.
    + intros s ->. rewrite Him.
      eapply run_bind; [exact Hloop|]. reflexivity.
  - exact Hlen'.
  - exact Hdet.
  - exists (mkList [] (Some p) None), (with_children [] pn), newv. split_and!; try done.
    + rewrite Hf'. apply list_lookup_insert_eq. unfold s0, sw. st_simpl.
      by rewrite length_insert.
    + by right.
    + by rewrite Hact'.
    + unfold rooted in *. rewrite Hchain, Hlen'. exact Hroot.
    + intros ? ? ? Hin. by apply elem_of_nil in Hin.
    + apply NoDup_nil_2.
    + apply NoDup_nil_2.
    + apply NoDup_nil_2.
  - eexists _, _. rewrite Hf'. apply list_lookup_insert_eq. unfold s0, sw. st_simpl.
    by rewrite length_insert.
Qed.

Lemma listComponent_empty_array_removes_all_witness :
  exists st',
    set 3 (exec demo_stringify 3) (invoke demo_stringify 3) 0 (inl (VArr [])) mounted_ab
      = Ok tt st' /\
    length (nodes st') = length (nodes mounted_ab) /\
    (forall item obj e, (item, obj, e) ∈ [(0, 0, 0); (1, 1, 2)] ->
       exists en, nodes st' !! e = Some en /\ parentNode en = None) /\
    list_mounted demo_stringify 0 0 4 list_render [] [] st' /\
    list_vars_of 0 st' (mkList [] (Some 4) None).
Proof.
  apply (listComponent_empty_array_removes_all demo_stringify 0 0 0 4 list_render
           [(0, 0, 0); (1, 1, 2)] mounted_ab).
  - discriminate.
  - apply mounted_ab_is_mounted.
Defined.

(** ** A list effect that is subscribed to the cell of an item *)

(** The reader returns the value of the cell; it changes the subscribers
    of this cell at most, and the log. *)
Lemma get_returns c v l st :
  signals st !! c = Some (mkSignal v l) ->
  exists st' l',
    get c st = Ok v st' /\
    signals st' !! c = Some (mkSignal v l') /\
    (forall d, d <> c -> signals st' !! d = signals st !! d) /\
    functions st' = functions st /\ nodes st' = nodes st /\
    heap st' = heap st /\ records st' = records st.
Proof.
  intros Hs. assert (Hlc : c < length (signals st)) by (by eapply lookup_lt_Some).
  unfold get. destruct (activeEffect st) as [fn|] eqn:Ha.
  - destruct (mem_nat fn l) eqn:Hm.
    + eexists _, l. split.
      { eapply run_bind; [reflexivity|]. rewrite Ha.
        eapply run_bind; [reflexivity|].
        eapply run_bind; [by eapply subscribers_add_old|].
        eapply run_bind; [by apply get_signal_eq|]. reflexivity. }
      by st_simpl.
    + eexists _, (l ++ [fn]). split.
      { eapply run_bind; [reflexivity|]. rewrite Ha.
        eapply run_bind; [reflexivity|].
        eapply run_bind; [by eapply subscribers_add_new|].
        eapply run_bind.
        { apply get_signal_eq. st_simpl. by apply list_lookup_insert_eq. }
        reflexivity. }
      st_simpl. split_and!; try done.
      * by apply list_lookup_insert_eq.
      * intros d Hd. by rewrite list_lookup_insert_ne.
  - eexists _, l. split.
    { eapply run_bind; [reflexivity|]. rewrite Ha.
      eapply run_bind; [reflexivity|].
      eapply run_bind; [reflexivity|].
      eapply run_bind; [by apply get_signal_eq|]. reflexivity. }
    by st_simpl.
Qed.

(** "Determine the parent node if not set", for a list with a first
    entry and no reference comment: at most the parent is set. *)
Lemma list_resolve_parent_returns self st items render vars item obj more r :
  functions st !! self = Some (ListEffect items render vars) ->
  itemMap vars = (item, obj) :: more -> referenceElm vars = None ->
  records st !! obj = Some r -> is_Some (nodes st !! element r) ->
  exists vars',
    list_resolve_parent self st =
      Ok tt (set_functions (<[self := ListEffect items render vars']> (functions st)) st) /\
    itemMap vars' = itemMap vars /\ referenceElm vars' = None.
Proof.
  intros Hf Him Href Hr [en Hen]. unfold list_resolve_parent.
  destruct (list_parent vars) as [p|] eqn:Hlp.
  - exists vars. split; [|done].
    eapply run_bind; [by eapply get_list_eq|]. rewrite Hlp. cbn [is_Some_bool negb when].
    by rewrite list_insert_id, set_functions_id.
  - destruct (parentNode en) as [p|] eqn:Hp.
    + exists (set_list_parent (Some p) vars). split; [|by destruct vars].
      eapply run_bind; [by eapply get_list_eq|]. rewrite Hlp. cbn [is_Some_bool negb when].
      rewrite Href. eapply run_bind; [reflexivity|]. rewrite Him.
      eapply run_bind; [by apply get_record_eq|].
      eapply run_bind; [by eapply node_parent_eq|]. rewrite Hp.
      by eapply put_list_eq.
    + exists vars. split; [|done].
      eapply run_bind; [by eapply get_list_eq|]. rewrite Hlp. cbn [is_Some_bool negb when].
      rewrite Href. eapply run_bind; [reflexivity|]. rewrite Him.
      eapply run_bind; [by apply get_record_eq|].
      eapply run_bind; [by eapply node_parent_eq|]. rewrite Hp.
      by rewrite list_insert_id, set_functions_id.
Qed.

(** The step of a pass for the item, up to the call of its writer. *)
Lemma list_upsert_stale_set JS n self items render vars item obj r c i st :
  functions st !! self = Some (ListEffect items render vars) ->
  itemMap vars = [(item, obj)] ->
  records st !! obj = Some r -> heap st !! item = Some c -> JS c <> id r ->
  set n (exec JS n) (invoke JS n) (setter r) (inr (fun _ => Ret (VObj item))) st = OutOfFuel ->
  list_upsert JS n (exec JS n) (invoke JS n) self render item i st = OutOfFuel.
Proof.
  intros Hf Him Hr Hh Hne Hset. unfold list_upsert.
  eapply run_bind; [by eapply get_list_eq|]. cbv zeta. rewrite Him.
  cbn [map_get]. rewrite Nat.eqb_refl.
  eapply run_bind; [by apply stringify_item_eq|].
  eapply run_bind.
  { eapply run_bind; [by apply get_record_eq|]. reflexivity. }
  apply run_bind_out_of_fuel.
  eapply run_bind; [by apply get_record_eq|].
  assert (String.eqb (JS c) (id r) = false) as -> by (by apply String.eqb_neq).
  cbn [negb when].
  apply run_bind_out_of_fuel. by apply run_bind_out_of_fuel.
Qed.

(** C5.  An item that [itemMap] has, with a fingerprint that is not the
    stored one, in a list whose effect is itself the first subscriber of
    the cell of the item (as it is after the renderer read this cell where
    it was called, in the first pass of the list): the step of the pass for
    this item calls the writer of the cell before it stores the new
    fingerprint; the writer runs the list effect, whose pass comes to the
    same item with the same stale fingerprint and calls the writer again.
    However deep calls may nest, neither the step nor a pass returns: the
    depth is exhausted, and the record never gets the new fingerprint. *)
Theorem list_upsert_changed_fingerprint_reenters JS self cell render item obj r st :
  stale_subscribed JS self cell render item obj r st ->
  forall n,
    (forall i,
       list_upsert JS n (exec JS n) (invoke JS n) self render item i st = OutOfFuel) /\
    invoke JS n self st = OutOfFuel.
Proof.
  intros Hst n. revert st Hst.
  induction n as [|n IH]; intros st Hst.
  - split; [|reflexivity]. intros i.
    destruct Hst as (vars & c & v & subs & rest & cs & Hf & Him & Href & Hr & Hel & Hh &
                     Hne & Hcell & Hsig & Hcs).
    eapply list_upsert_stale_set; try done.
    unfold set. apply run_bind_out_of_fuel.
    eapply run_bind; [by apply get_signal_eq|]. reflexivity.
  - assert (Hinv : forall s, stale_subscribed JS self cell render item obj r s ->
                     invoke JS (S n) self s = OutOfFuel).
    { clear st Hst. intros st Hst.
      destruct Hst as (vars & c & v & subs & rest & cs & Hf & Him & Href & Hr & Hel & Hh &
                       Hne & Hcell & Hsig & Hcs).
      cbn [invoke]. unfold dispatch.
      eapply run_bind; [by apply get_function_eq|].
      eapply run_bind; [reflexivity|].
      unfold listEffect.
      destruct n as [|n1]; [reflexivity|].
      destruct (get_returns cell _ cs (set_trace (EvPass self :: trace st) st) Hcell)
        as (s1 & cs1 & Hget & Hc1 & Ho1 & Hf1 & Hn1 & Hh1 & Hr1).
      destruct n1 as [|n2].
      { apply run_bind_out_of_fuel. cbn [exec]. unfold step.
        eapply run_bind; [exact Hget|]. reflexivity. }
      eapply run_bind.
      { cbn [exec]. unfold step. eapply run_bind; [exact Hget|]. reflexivity. }
      eapply run_bind.
      { unfold as_item_array. by rewrite as_items_objects. }
      st_simpl in Hf1. st_simpl in Hn1. st_simpl in Hh1. st_simpl in Hr1.
      destruct (list_resolve_parent_returns self s1 (Get cell Ret) render vars item obj [] r)
        as (vars' & Hres & Him' & Href'); try done.
      { by rewrite Hf1. }
      { by rewrite Hr1. }
      { by rewrite Hn1. }
      eapply run_bind; [exact Hres|].
      assert (Hlf : self < length (functions s1))
        by (rewrite Hf1; by eapply lookup_lt_Some).
      eapply run_bind.
      { eapply get_list_eq. st_simpl. by apply list_lookup_insert_eq. }
      rewrite Him', Him. cbn [forEach].
      eapply run_bind.
      { eapply run_bind; [|reflexivity].
        eapply list_remove_entry_keep; [st_simpl; by rewrite Hr1|].
        simpl. by rewrite Nat.eqb_refl. }
      cbn [forEach_indexed]. apply run_bind_out_of_fuel.
      apply IH.
      exists vars', c, v, subs, rest, cs1. st_simpl.
      split_and!; try done.
      - by apply list_lookup_insert_eq.
      - by rewrite Him', Him.
      - by rewrite Hr1.
      - by rewrite Hn1.
      - by rewrite Hh1.
      - rewrite Ho1 by done. done. }
    split; [|by apply Hinv].
    intros i.
    destruct Hst as (vars & c & v & subs & rest & cs & Hf & Him & Href & Hr & Hel & Hh &
                     Hne & Hcell & Hsig & Hcs).
    assert (Hls : setter r < length (signals st)) by (by eapply lookup_lt_Some).
    eapply list_upsert_stale_set; try done.
    unfold set.
    eapply run_bind.
    { eapply run_bind; [by apply get_signal_eq|]. reflexivity. }
    eapply run_bind; [by apply get_signal_eq|].
    eapply run_bind; [reflexivity|].
    eapply run_bind; [reflexivity|].
    cbn [subscribers forEach_subscribers].
    eapply run_bind.
    { apply get_signal_eq. st_simpl. by apply list_lookup_insert_eq. }
    cbn [subscribers lookup list_lookup].
    eapply run_bind; [reflexivity|].
    apply run_bind_out_of_fuel. apply Hinv.
    exists vars, c, (VObj item), subs, rest, cs. st_simpl.
    split_and!; try done.
    + by rewrite list_lookup_insert_ne.
    + by apply list_lookup_insert_eq.
Qed.

Lemma list_upsert_changed_fingerprint_reenters_witness :
  stale_subscribed demo_stringify 0 0 direct_render 0 0 (mkRecord 0 "A" 1 0)
    relabelled_direct /\
  list_upsert demo_stringify 40 (exec demo_stringify 40) (invoke demo_stringify 40) 0
    direct_render 0 0 relabelled_direct = OutOfFuel /\
  invoke demo_stringify 40 0 relabelled_direct = OutOfFuel /\
  set 40 (exec demo_stringify 40) (invoke demo_stringify 40) 0 (inl (VArr [VObj 0]))
    relabelled_direct = OutOfFuel.
Proof.
  assert (H : stale_subscribed demo_stringify 0 0 direct_render 0 0 (mkRecord 0 "A" 1 0)
                relabelled_direct).
  { exists (mkList [(0, 0)] None None), [("label"%string, VStr "A2")], (VObj 0), [], [], [0].
    split_and!; try (vm_compute; reflexivity).
    - vm_compute. eauto.
    - vm_compute. discriminate.
    - cbn [setter]. lia. }
  split; [exact H|].
  destruct (list_upsert_changed_fingerprint_reenters demo_stringify 0 0 direct_render 0 0
              (mkRecord 0 "A" 1 0) relabelled_direct H 40) as [H1 H2].
  split_and!; [apply H1 | exact H2 | vm_compute; reflexivity].
Defined.

(** ** A pass that is entered again *)

(** The counterexample to C6 as the spec states it.  On the page
    [first_pass_page] the pass of the list returns; the renderer, called
    for A, wrote [B, A] to the cell of the list, so a second pass ran
    inside the first one and recorded B and A; the producer had returned
    [A] alone in the first pass, and at its end B is a key of [itemMap]. *)
Lemma listEffect_nested_pass_counterexample :
  let st' := final_state (invoke demo_stringify 12 0 first_pass_page) in
  invoke demo_stringify 12 0 first_pass_page = Ok tt st' /\
  tracked (mkList [] None None) first_pass_page /\
  list_vars_of 0 st' (mkList [(1, 0); (0, 2)] None None) /\
  count_events (is_pass_of 0) (new_events first_pass_page st') = 2 /\
  ~ keys_within_after_pass demo_stringify 11 0 first_pass_page st'.
Proof.
  intros st'.
  assert (Hrun : invoke demo_stringify 12 0 first_pass_page = Ok tt st')
    by (vm_compute; reflexivity).
  assert (Ht : tracked (mkList [] None None) first_pass_page).
  { split; [apply NoDup_nil_2|]. intros item obj Hin. exfalso. by eapply elem_of_nil. }
  assert (Hv : list_vars_of 0 st' (mkList [(1, 0); (0, 2)] None None)).
  { eexists _, _. vm_compute. reflexivity. }
  split_and!; [done | done | done | vm_compute; reflexivity |].
  intros H.
  destruct (H (Get 0 Ret) growing_render (mkList [] None None))
    as (v & s1 & cur & vars' & Hex & Hcur & Hv' & _ & Hk); [vm_compute; reflexivity | done | done |].
  assert (vars' = mkList [(1, 0); (0, 2)] None None) as ->
    by (by eapply list_vars_of_inj).
  assert (Hex' : exec demo_stringify 11 (Get 0 Ret)
                   (set_trace (EvPass 0 :: trace first_pass_page) first_pass_page)
                 = Ok (VArr [VObj 0])
                     (final_state
                        (exec demo_stringify 11 (Get 0 Ret)
                           (set_trace (EvPass 0 :: trace first_pass_page) first_pass_page))))
    by (vm_compute; reflexivity).
  rewrite Hex' in Hex. injection Hex as <- <-.
  vm_compute in Hcur. injection Hcur as <-.
  specialize (Hk 1). clear -Hk.
  assert (Hin : 1 ∈ [0]) by (apply Hk; unfold keys; simpl; apply elem_of_cons; by left).
  apply list_elem_of_singleton in Hin. discriminate.
Qed.

(** ** An item that is changed in place, in a list whose nodes follow
       their cells *)

(** The re-run of a text effect that shows the label of the item. *)
Lemma label_rerun JS n g fn t item c l nd st :
  functions st !! fn = Some (TextEffect t (label_of g)) ->
  nodes st !! t = Some nd ->
  signals st !! g = Some (mkSignal (VObj item) l) ->
  heap st !! item = Some c -> activeEffect st = None ->
  invoke JS (S (S (S (S n)))) fn st =
  Ok tt (set_nodes (<[t := with_data (demo_stringify c) nd]> (nodes st))
           (set_trace (EvRead g None :: trace st) st)).
Proof.
  intros Hf Hn Hs Hh Ha. cbn [invoke]. unfold dispatch.
  eapply run_bind; [by apply get_function_eq|].
  unfold textEffect.
  eapply run_bind.
  { unfold label_of. cbn [exec]. unfold step.
    eapply run_bind.
    { unfold get. eapply run_bind; [reflexivity|]. rewrite Ha.
      eapply run_bind; [reflexivity|].
      eapply run_bind; [reflexivity|].
      eapply run_bind; [by apply get_signal_eq|]. reflexivity. }
    cbn [sig_value].
    eapply run_bind; [by apply get_object_eq|]. reflexivity. }
  unfold set_textContent.
  eapply run_bind; [by apply get_node_eq|]. reflexivity.
Qed.

(** The fan-out of the cell of an item over text effects that show its
    label: each of their nodes gets the label, and nothing else changes but
    the log. *)
Lemma label_fanout JS n g item c : forall rest done bound st,
  signals st !! g = Some (mkSignal (VObj item) (done ++ rest)) ->
  heap st !! item = Some c -> activeEffect st = None ->
  Forall (fun fn => shows_label g fn st) rest ->
  length rest <= bound ->
  exists st',
    forEach_subscribers (invoke JS (S (S (S (S n))))) bound g (length done) st = Ok tt st' /\
    functions st' = functions st /\ signals st' = signals st /\
    heap st' = heap st /\ records st' = records st /\ activeEffect st' = None /\
    length (nodes st') = length (nodes st) /\
    (forall t nd, nodes st !! t = Some nd -> data nd = demo_stringify c ->
       exists nd', nodes st' !! t = Some nd' /\ data nd' = demo_stringify c) /\
    (forall fn t, fn ∈ rest -> functions st !! fn = Some (TextEffect t (label_of g)) ->
       exists nd', nodes st' !! t = Some nd' /\ data nd' = demo_stringify c).
Proof.
  induction rest as [|fn rest IH]; intros done bound st Hs Hh Ha Hall Hb.
  - exists st. split.
    { destruct bound; cbn [forEach_subscribers].
      - eapply run_bind; [by apply get_signal_eq|]. cbn [subscribers].
        rewrite app_nil_r. by rewrite lookup_ge_None_2.
      - eapply run_bind; [by apply get_signal_eq|]. cbn [subscribers].
        rewrite app_nil_r. by rewrite lookup_ge_None_2. }
    split_and!; try done.
    + intros t nd Ht Hd. by exists nd.
    + intros fn t Hin. exfalso. by eapply elem_of_nil.
  - destruct bound as [|bound]; [simpl in Hb; lia|].
    apply Forall_cons in Hall as [(t & Hf & [nd Hn]) Hall].
    assert (Hlt : t < length (nodes st)) by (by eapply lookup_lt_Some).
    set (s1 := set_nodes (<[t := with_data (demo_stringify c) nd]> (nodes st))
                 (set_trace (EvRead g None :: EvRun g fn :: trace st) st)).
    destruct (IH (done ++ [fn]) bound s1) as
      (st' & Hrun & Hf' & Hs' & Hh' & Hr' & Ha' & Hl' & Hkeep & Hrest).
    { unfold s1. st_simpl. by rewrite <- app_assoc. }
    { done. }
    { done. }
    { eapply Forall_impl; [exact Hall|]. intros fn' (t' & Hf'' & [nd' Hn']).
      exists t'. split; [done|]. unfold s1. st_simpl.
      apply lookup_lt_is_Some. rewrite length_insert. by eapply lookup_lt_Some. }
    { simpl in Hb. lia. }
    exists st'. split.
    { cbn [forEach_subscribers].
      eapply run_bind; [by apply get_signal_eq|]. cbn [subscribers].
      rewrite list_lookup_middle by done.
      eapply run_bind; [reflexivity|].
      eapply run_bind.
      { eapply (label_rerun JS n g fn t item c); st_simpl; done. }
      replace (S (length done)) with (length (done ++ [fn]))
        by (rewrite length_app; simpl; lia).
      exact Hrun. }
    assert (Ht1 : nodes s1 !! t = Some (with_data (demo_stringify c) nd)).
    { unfold s1. st_simpl. by apply list_lookup_insert_eq. }
    split_and!; try done.
    + rewrite Hl'. unfold s1. st_simpl. by rewrite length_insert.
    + intros t' nd' Ht' Hd'. destruct (decide (t' = t)) as [->|Hne].
      * by apply (Hkeep t _ Ht1).
      * apply (Hkeep t' nd'); [|done]. unfold s1. st_simpl.
        by rewrite list_lookup_insert_ne.
    + intros fn' t' Hin Hfn'. apply elem_of_cons in Hin as [->|Hin].
      * rewrite Hf in Hfn'. injection Hfn' as <-. by apply (Hkeep t _ Ht1).
      * by apply (Hrest fn' t').
Qed.

(** X14.  An item that [itemMap] has, at the position it had, with a
    fingerprint that is not the stored one, in a list whose renderer read
    the cell of the item in effects of text nodes only: the subscribers of
    the cell are effects of [textComponent(() => item().label)].  The step
    of the pass for this item returns; the cell holds the item and has the
    subscribers it had; every such text node shows the new label; the
    record has the node and the cell it had, the new fingerprint and the
    position; no node, record or function object is made, and [itemMap] is
    as it was. *)
Theorem list_upsert_changed_fingerprint_updates JS n self items render vars item obj r c v
    subs st :
  functions st !! self = Some (ListEffect items render vars) ->
  map_get item (itemMap vars) = Some obj ->
  records st !! obj = Some r ->
  heap st !! item = Some c -> JS c <> id r ->
  activeEffect st = None ->
  signals st !! setter r = Some (mkSignal v subs) ->
  Forall (fun fn => shows_label (setter r) fn st) subs ->
  length subs <= n ->
  exists st',
    list_upsert JS (S (S (S (S n)))) (exec JS (S (S (S (S n)))))
      (invoke JS (S (S (S (S n))))) self render item (position r) st = Ok tt st' /\
    signals st' = <[setter r := mkSignal (VObj item) subs]> (signals st) /\
    (forall fn t, fn ∈ subs ->
       functions st !! fn = Some (TextEffect t (label_of (setter r))) ->
       exists nd, nodes st' !! t = Some nd /\ data nd = demo_stringify c) /\
    records st' =
      <[obj := mkRecord (element r) (JS c) (setter r) (position r)]> (records st) /\
    length (nodes st') = length (nodes st) /\
    functions st' = functions st.
Proof.
  intros Hf Hg Hr Hh Hne Ha Hs Hall Hn.
  assert (Hlo : obj < length (records st)) by (by eapply lookup_lt_Some).
  assert (Hls : setter r < length (signals st)) by (by eapply lookup_lt_Some).
  set (s1 := set_trace (EvWrite (setter r) (VObj item) :: trace st)
               (set_signals (<[setter r := mkSignal (VObj item) subs]> (signals st)) st)).
  destruct (label_fanout JS n (setter r) item c subs [] (S (S (S (S n)))) s1)
    as (s2 & Hrun & Hf2 & Hs2 & Hh2 & Hr2 & Ha2 & Hl2 & _ & Hshow).
  { unfold s1. st_simpl. by apply list_lookup_insert_eq. }
  { done. }
  { done. }
  { eapply Forall_impl; [exact Hall|]. intros fn (t & Hft & Hnt). by exists t. }
  { lia. }
  exists (set_records (<[obj := mkRecord (element r) (JS c) (setter r) (position r)]>
                         (records st)) s2).
  split_and!; try done.
  unfold list_upsert.
  eapply run_bind; [by eapply get_list_eq|]. cbv zeta. rewrite Hg.
  eapply run_bind; [by apply stringify_item_eq|].
  eapply run_bind.
  { eapply run_bind; [by apply get_record_eq|]. reflexivity. }
  rewrite Nat.eqb_refl. cbn [negb].
  eapply run_bind.
  { eapply run_bind; [by apply get_record_eq|].
    assert (String.eqb (JS c) (id r) = false) as -> by (by apply String.eqb_neq).
    cbn [negb when].
    eapply run_bind; [|reflexivity].
    eapply run_bind.
    { unfold set.
      eapply run_bind.
      { eapply run_bind; [by apply get_signal_eq|]. reflexivity. }
      eapply run_bind; [by apply get_signal_eq|].
      eapply run_bind; [reflexivity|].
      eapply run_bind; [reflexivity|].
      cbn [subscribers]. exact Hrun. }
    eapply run_bind; [apply get_record_eq; by rewrite Hr2|].
    eapply run_bind; [reflexivity|].
    eapply run_bind.
    { apply get_record_eq. st_simpl. rewrite Hr2. by apply list_lookup_insert_eq. }
    reflexivity. }
  cbn [when element id setter position]. unfold mret, M_ret, put_record, modify.
  st_simpl. rewrite Hr2. unfold s1. st_simpl. by rewrite list_insert_insert_eq.
Qed.

Lemma list_upsert_changed_fingerprint_updates_witness :
  exists st',
    list_upsert demo_stringify 5 (exec demo_stringify 5) (invoke demo_stringify 5) 0
      text_render 1 1 relabelled_ab = Ok tt st' /\
    signals st' = <[2 := mkSignal (VObj 1) [2]]> (signals relabelled_ab) /\
    (forall fn t, fn ∈ [2] ->
       functions relabelled_ab !! fn = Some (TextEffect t (label_of 2)) ->
       exists nd, nodes st' !! t = Some nd /\ data nd = "B2"%string) /\
    records st' = <[1 := mkRecord 1 "B2" 2 1]> (records relabelled_ab) /\
    length (nodes st') = length (nodes relabelled_ab) /\
    functions st' = functions relabelled_ab.
Proof.
  apply (list_upsert_changed_fingerprint_updates demo_stringify 1 0 (Get 0 Ret) text_render
           (mkList [(0, 0); (1, 1)] None None) 1 1 (mkRecord 1 "B" 2 1)
           [("label"%string, VStr "B2")] (VObj 1) [2] relabelled_ab).
  - vm_compute. reflexivity.
  - reflexivity.
  - vm_compute. reflexivity.
  - vm_compute. reflexivity.
  - vm_compute. discriminate.
  - vm_compute. reflexivity.
  - vm_compute. reflexivity.
  - apply Forall_cons. split; [|apply Forall_nil_2].
    exists 1. split; [vm_compute; reflexivity|]. vm_compute. eauto.
  - simpl. lia.
Defined.
